(** * Containers: HAMT, red-black tree and interval tree

    A shallow embedding of the TypeScript containers of this repository:

    - [HAMT]: the persistent hash array mapped trie (hamt.ts).  JavaScript
      objects and arrays live in an explicit store, so that sharing between
      versions of a map is visible.
    - [RB]: the mutable red-black tree (red-black-common.ts, red-black-tree.ts)
      and its interval tree variant (interval-tree.ts).  Nodes live in a heap
      indexed by addresses; the shared sentinel is one of its cells.

    JavaScript numbers that hold integers are modelled by [Z]; the 32-bit
    operators wrap explicitly. *)

From Stdlib Require Import ZArith Lia String Ascii.
From stdpp Require Import base tactics option list gmap sorting.

Open Scope Z_scope.

(** ** Results of running JavaScript code *)

(** A computation returns a value ([Ok]), throws ([Throw]) or, for the loops
    and recursions that are bounded by fuel in this model, runs out of fuel
    ([OutOfFuel]). *)
Inductive result (A : Type) : Type :=
| Ok (a : A)
| Throw
| OutOfFuel.
Arguments Ok {A} a.
Arguments Throw {A}.
Arguments OutOfFuel {A}.

Definition result_bind {A B} (r : result A) (k : A → result B) : result B :=
  match r with
  | Ok a => k a
  | Throw => Throw
  | OutOfFuel => OutOfFuel
  end.

(** ** 32-bit integer operators of JavaScript *)
Module JS.

(** [ToInt32] and [ToUint32] on integral numbers. *)
Definition to_int32 (z : Z) : Z := (z + 2 ^ 31) mod 2 ^ 32 - 2 ^ 31.
Definition to_uint32 (z : Z) : Z := z mod 2 ^ 32.

(** A shift count or bit index is a number or [undefined] ([None]);
    [undefined + 1] is [NaN], which is [None] as well.  [ToUint32] sends both
    to [0], and a shift uses the low five bits of its count. *)
Definition shift_count (k : option Z) : Z :=
  match k with
  | Some k => k mod 32
  | None => 0
  end.

Definition add1 (k : option Z) : option Z := (λ k, k + 1) <$> k.

(** [n >> k], [n >>> k], [n << k], [a & b], [a | b]. *)
Definition shr (n : Z) (k : option Z) : Z := Z.shiftr (to_int32 n) (shift_count k).
Definition ushr (n : Z) (k : option Z) : Z := Z.shiftr (to_uint32 n) (shift_count k).
Definition shl (n : Z) (k : option Z) : Z := to_int32 (Z.shiftl (to_int32 n) (shift_count k)).
Definition and (a b : Z) : Z := Z.land (to_int32 a) (to_int32 b).
Definition or (a b : Z) : Z := Z.lor (to_int32 a) (to_int32 b).

(** [Math.imul(a, b)]. *)
Definition imul (a b : Z) : Z := to_int32 (to_int32 a * to_int32 b).

(** [arr[i]] for a number [i]: [undefined] ([None]) out of range. *)
Definition index {A} (arr : list A) (i : Z) : option A :=
  if decide (0 ≤ i) then arr !! Z.to_nat i else None.

(** [arr[i] = x] on an array whose holes read as [hole]: in range the element
    is replaced, past the end the array is extended. *)
Definition array_set {A} (hole : A) (i : Z) (x : A) (arr : list A) : list A :=
  if decide (0 ≤ i) then
    if decide (Z.to_nat i < length arr)%nat then <[Z.to_nat i := x]> arr
    else arr ++ replicate (Z.to_nat i - length arr) hole ++ [x]
  else arr.

End JS.

(** ** The hash array mapped trie *)
Module HAMT.

(** *** Bit utilities *)

(** [checkBit(n, bit)]: [((n >> bit) & 0b1) === 0b1]. *)
Definition checkBit (n : Z) (bit : option Z) : bool :=
  bool_decide (JS.and (JS.shr n bit) 1 = 1).

(** [setBit(n, bit)]: [n | (0b1 << bit)]. *)
Definition setBit (n : Z) (bit : option Z) : Z :=
  JS.or n (JS.shl 1 bit).

(** [getNthPrefix(n, stage)]: [undefined] past stage 5. *)
Definition getNthPrefix (n : Z) (stage : Z) : option Z :=
  if decide (stage > 5) then None
  else Some (JS.and (JS.shr n (Some (5 * stage))) 31).

(** [hashString(s)]: [h = Math.imul(31, h) + s.charCodeAt(i) | 0]. *)
Fixpoint hashString_loop (h : Z) (s : string) : Z :=
  match s with
  | EmptyString => h
  | String c s => hashString_loop (JS.to_int32 (JS.imul 31 h + Z.of_N (N_of_ascii c))) s
  end.

Definition hashString (s : string) : Z := hashString_loop 0 s.

(** [popCount(n)], the three lines of the source.  The source subtracts,
    adds and multiplies on doubles: for a 32-bit argument, signed or unsigned,
    as the masks are, each of these results is an integer below [2 ^ 53] and
    is exact. *)
Definition popCount (n : Z) : Z :=
  let n := n - JS.and (JS.shr n (Some 1)) 0x55555555 in
  let n := JS.and n 0x33333333 + JS.and (JS.shr n (Some 2)) 0x33333333 in
  JS.shr (JS.and (n + JS.shr n (Some 4)) 0xF0F0F0F * 0x1010101) (Some 24).

(** [bitIndex === 31 ? 0 : popCount(mask >>> (bitIndex + 1))]. *)
Definition childIndex (mask : Z) (bitIndex : option Z) : Z :=
  if decide (bitIndex = Some 31) then 0
  else popCount (JS.ushr mask (JS.add1 bitIndex)).

(** [copyInsert(elem, index, arr)]. *)
Fixpoint copyInsert_loop {T} (elem : T) (index : Z) (i : Z) (arr : list T) : list T :=
  match arr with
  | [] => if decide (index = i) then [elem] else []
  | a :: arr =>
      (if decide (i = index) then [elem] else []) ++ a :: copyInsert_loop elem index (i + 1) arr
  end.

Definition copyInsert {T} (elem : T) (index : Z) (arr : list T) : list T :=
  copyInsert_loop elem index 0 arr.

(** *** The store *)

Abbreviation loc := nat.

(** A reference held in a variable or an array slot. *)
Inductive ref : Type :=
| Ref (l : loc)
| Null
| Undefined.

Declare Scope hamt_scope.
Delimit Scope hamt_scope with hamt.
Open Scope hamt_scope.

Section Model.
Context {V : Type}.

(** The objects of the store: a [Node] with its mask and its three array
    references, and the arrays themselves.  A slot of a [values] array that
    was never written reads as [undefined] ([None]); a slot of a [nexts]
    array holds a node or [null] ([None]). *)
Inductive cell : Type :=
| CNode (mask : Z) (keys values nexts : loc)
| CKeys (a : list string)
| CValues (a : list (option V))
| CNexts (a : list (option loc)).

(** Allocation appends, so a location is an index. *)
Definition store := list cell.

Definition alloc (c : cell) (s : store) : loc * store := (length s, s ++ [c]).

(** A map: its root node and its size. *)
Record hamt : Type := { root : loc; _size : Z }.

Definition M (A : Type) : Type := store → result (A * store).

Definition ret {A} (a : A) : M A := λ s, Ok (a, s).
Definition bind {A B} (m : M A) (k : A → M B) : M B :=
  λ s, match m s with
       | Ok (a, s) => k a s
       | Throw => Throw
       | OutOfFuel => OutOfFuel
       end.
Definition throw {A} : M A := λ _, Throw.

Notation "x ← y ; z" := (bind y (λ x : _, z))
  (at level 20, y at level 100, z at level 200, only parsing) : hamt_scope.
Notation "' x ← y ; z" := (bind y (λ x : _, z))
  (at level 20, x pattern, y at level 100, z at level 200, only parsing) : hamt_scope.

Definition new (c : cell) : M loc := λ s, Ok (alloc c s).

Definition read (l : loc) : M cell :=
  λ s, match s !! l with Some c => Ok (c, s) | None => Throw end.

Definition write (l : loc) (c : cell) : M unit :=
  λ s, Ok (tt, <[l := c]> s).

Definition read_node (l : loc) : M (Z * loc * loc * loc) :=
  c ← read l;
  match c with CNode m k v n => ret (m, k, v, n) | _ => throw end.

Definition read_keys (l : loc) : M (list string) :=
  c ← read l;
  match c with CKeys a => ret a | _ => throw end.

Definition read_values (l : loc) : M (list (option V)) :=
  c ← read l;
  match c with CValues a => ret a | _ => throw end.

Definition read_nexts (l : loc) : M (list (option loc)) :=
  c ← read l;
  match c with CNexts a => ret a | _ => throw end.

(** [nexts[i]]. *)
Definition nexts_index (a : list (option loc)) (i : Z) : ref :=
  match JS.index a i with
  | Some (Some l) => Ref l
  | Some None => Null
  | None => Undefined
  end.

(** The object literal [{ mask: 0, keys: [], values: [], nexts: [] }]. *)
Definition empty_node : M loc :=
  k ← new (CKeys []);
  v ← new (CValues []);
  n ← new (CNexts []);
  new (CNode 0 k v n).

(** [new HAMT()]. *)
Definition HAMT_new : M hamt :=
  r ← empty_node;
  ret {| root := r; _size := 0 |}.

(** [get(key)]: the loop [while(current !== null)], one unit of fuel per
    iteration.  [undefined !== null] holds, and reading [current.mask]
    then throws. *)
Fixpoint get_loop (fuel : nat) (hash : Z) (key : string) (stage : Z) (current : ref)
    : M (option V) :=
  match current with
  | Null => ret None
  | Undefined =>
      match fuel with
      | O => λ _, OutOfFuel
      | S _ => throw
      end
  | Ref current =>
      match fuel with
      | O => λ _, OutOfFuel
      | S fuel =>
          let bitIndex := getNthPrefix hash stage in
          '(mask, keys, values, nexts) ← read_node current;
          if checkBit mask bitIndex then
            let childIndex := childIndex mask bitIndex in
            ks ← read_keys keys;
            let currentKey := JS.index ks childIndex in
            if bool_decide (currentKey = Some key) then
              vs ← read_values values;
              ret (mjoin (JS.index vs childIndex))
            else
              ns ← read_nexts nexts;
              get_loop fuel hash key (stage + 1) (nexts_index ns childIndex)
          else ret None
      end
  end.

Definition get (fuel : nat) (h : hamt) (key : string) : M (option V) :=
  get_loop fuel (hashString key) key 0 (Ref (root h)).

(** [set(key, value)]: the closure [f], one unit of fuel per call.  The flag
    [isNewKey] captured by the closure is returned with the node. *)
Fixpoint f (fuel : nat) (hash : Z) (key : string) (value : V)
    (isNewKey : bool) (stage : Z) (current : loc) : M (loc * bool) :=
  match fuel with
  | O => λ _, OutOfFuel
  | S fuel =>
      (* current = { ...current } *)
      '(mask, keys, values, nexts) ← read_node current;
      current ← new (CNode mask keys values nexts);
      let bitIndex := getNthPrefix hash stage in
      let childIndex := childIndex mask bitIndex in
      if checkBit mask bitIndex then
        ks ← read_keys keys;
        if bool_decide (JS.index ks childIndex = Some key) then
          (* current.values = [...current.values] *)
          vs ← read_values values;
          values ← new (CValues vs);
          _ ← write current (CNode mask keys values nexts);
          (* current.values[childIndex] = value *)
          vs ← read_values values;
          _ ← write values (CValues (JS.array_set None childIndex (Some value) vs));
          ret (current, false)
        else
          ns ← read_nexts nexts;
          match nexts_index ns childIndex with
          | Undefined => throw
          | r =>
              (* current.nexts = [...current.nexts] *)
              nexts ← new (CNexts ns);
              _ ← write current (CNode mask keys values nexts);
              child ←
                match r with
                | Ref l => ret l
                | _ =>
                    e ← empty_node;
                    ns ← read_nexts nexts;
                    _ ← write nexts (CNexts (JS.array_set None childIndex (Some e) ns));
                    ret e
                end;
              '(child, isNewKey) ← f fuel hash key value isNewKey (stage + 1) child;
              ns ← read_nexts nexts;
              _ ← write nexts (CNexts (JS.array_set None childIndex (Some child) ns));
              ret (current, isNewKey)
          end
      else
        ks ← read_keys keys;
        keys ← new (CKeys (copyInsert key childIndex ks));
        _ ← write current (CNode mask keys values nexts);
        vs ← read_values values;
        values ← new (CValues (copyInsert (Some value) childIndex vs));
        _ ← write current (CNode mask keys values nexts);
        ns ← read_nexts nexts;
        nexts ← new (CNexts (copyInsert None childIndex ns));
        _ ← write current (CNode mask keys values nexts);
        _ ← write current (CNode (setBit mask bitIndex) keys values nexts);
        ret (current, isNewKey)
  end.

Definition set (fuel : nat) (h : hamt) (key : string) (value : V) : M hamt :=
  let hash := hashString key in
  (* const res = new HAMT<V>() *)
  _ ← HAMT_new;
  '(r, isNewKey) ← f fuel hash key value true 0 (root h);
  ret {| root := r; _size := if isNewKey then 1 + _size h else _size h |}.

End Model.

Notation "x ← y ; z" := (bind y (λ x : _, z))
  (at level 20, y at level 100, z at level 200, only parsing) : hamt_scope.
Notation "' x ← y ; z" := (bind y (λ x : _, z))
  (at level 20, x pattern, y at level 100, z at level 200, only parsing) : hamt_scope.

Arguments cell : clear implicits.
Arguments store : clear implicits.
Arguments M : clear implicits.

End HAMT.

(** ** The red-black tree and the interval tree *)
Module RB.

Inductive Color : Type := red | black.
Inductive Ordering : Type := LT | GT | EQ.

#[export] Instance Color_eq_dec : EqDecision Color.
Proof. solve_decision. Defined.
#[export] Instance Ordering_eq_dec : EqDecision Ordering.
Proof. solve_decision. Defined.

(** A node is addressed by its location; a reference is a location or [null]. *)
Abbreviation loc := nat.
Definition ref := option loc.

(** The type [Node<K, V>] of red-black-common.ts, with the field [max] of
    [ITreeNode<V>].  The sentinel has [nil = true], no key and no value, and
    [null] children.  Nodes of the plain red-black tree have no [max] field:
    there it is never read or written. *)
Module Node.
Record t {K V : Type} : Type := mk {
  parent : ref;
  left : ref;
  right : ref;
  color : Color;
  value : option V;
  key : option K;
  nil : bool;
  max : Z
}.
Arguments t : clear implicits.
Arguments mk {K V}.
End Node.

(** The module-level [sentinel] lives at location 0. *)
Definition sentinel : ref := Some 0%nat.

(** [max(a, b)] and [max3(a, b, c)]. *)
Definition max (a b : Z) : Z := if decide (a > b) then a else b.
Definition max3 (a b c : Z) : Z := max a (max b c).

Declare Scope rb_scope.
Delimit Scope rb_scope with rb.
Open Scope rb_scope.

Section Model.
Context {K V : Type}.

(** The class that is modelled: [augmented = true] is [IntervalTree], which
    maintains [max]; [augmented = false] is [RBTree].  [compareFn] is the
    comparison in use, [key1] reads [key[1]] of an interval and [truthy] is
    JavaScript's [ToBoolean] on keys. *)
Context (augmented : bool) (compareFn : K → K → Ordering) (key1 : K → Z) (truthy : K → bool).

Abbreviation Node := (Node.t K V).

Definition sentinel_node : Node :=
  Node.mk None None None black None None true 0.

(** The heap of nodes with its allocation counter, and the fields [_root] and
    [_size] of the tree object. *)
Record Tree : Type := mkTree {
  heap : gmap loc Node;
  next : loc;
  _root : ref;
  _size : Z
}.

(** A new tree: only the sentinel is allocated. *)
Definition new_tree : Tree :=
  mkTree {[ 0%nat := sentinel_node ]} 1%nat sentinel 0.

Definition M (A : Type) : Type := Tree → result (A * Tree).

Definition ret {A} (a : A) : M A := λ t, Ok (a, t).
Definition bind {A B} (m : M A) (k : A → M B) : M B :=
  λ t, match m t with
       | Ok (a, t) => k a t
       | Throw => Throw
       | OutOfFuel => OutOfFuel
       end.
Definition throw {A} : M A := λ _, Throw.
Definition out_of_fuel {A} : M A := λ _, OutOfFuel.

Notation "x ← y ; z" := (bind y (λ x : _, z))
  (at level 20, y at level 100, z at level 200, only parsing) : rb_scope.
Notation "' x ← y ; z" := (bind y (λ x : _, z))
  (at level 20, x pattern, y at level 100, z at level 200, only parsing) : rb_scope.

(** Reading a field of [x] throws when [x] is [null]. *)
Definition deref (x : ref) : M Node :=
  λ t, match x with
       | Some l => match heap t !! l with Some n => Ok (n, t) | None => Throw end
       | None => Throw
       end.

Definition update (x : ref) (g : Node → Node) : M unit :=
  λ t, match x with
       | Some l =>
           match heap t !! l with
           | Some n => Ok (tt, mkTree (<[l := g n]> (heap t)) (next t) (_root t) (_size t))
           | None => Throw
           end
       | None => Throw
       end.

Definition alloc (n : Node) : M ref :=
  λ t, Ok (Some (next t), mkTree (<[next t := n]> (heap t)) (S (next t)) (_root t) (_size t)).

Definition get_parent (x : ref) : M ref := n ← deref x; ret (Node.parent n).
Definition get_left (x : ref) : M ref := n ← deref x; ret (Node.left n).
Definition get_right (x : ref) : M ref := n ← deref x; ret (Node.right n).
Definition get_color (x : ref) : M Color := n ← deref x; ret (Node.color n).
Definition get_value (x : ref) : M (option V) := n ← deref x; ret (Node.value n).
Definition get_nil (x : ref) : M bool := n ← deref x; ret (Node.nil n).
Definition get_max (x : ref) : M Z := n ← deref x; ret (Node.max n).
(** [x.key] where a key is needed: comparing with or indexing [null] throws
    in the model. *)
Definition get_key (x : ref) : M K :=
  n ← deref x; match Node.key n with Some k => ret k | None => throw end.

Definition with_parent (p : ref) (n : Node) : Node :=
  Node.mk p (Node.left n) (Node.right n) (Node.color n) (Node.value n) (Node.key n) (Node.nil n) (Node.max n).
Definition with_left (l : ref) (n : Node) : Node :=
  Node.mk (Node.parent n) l (Node.right n) (Node.color n) (Node.value n) (Node.key n) (Node.nil n) (Node.max n).
Definition with_right (r : ref) (n : Node) : Node :=
  Node.mk (Node.parent n) (Node.left n) r (Node.color n) (Node.value n) (Node.key n) (Node.nil n) (Node.max n).
Definition with_color (c : Color) (n : Node) : Node :=
  Node.mk (Node.parent n) (Node.left n) (Node.right n) c (Node.value n) (Node.key n) (Node.nil n) (Node.max n).
Definition with_value (v : option V) (n : Node) : Node :=
  Node.mk (Node.parent n) (Node.left n) (Node.right n) (Node.color n) v (Node.key n) (Node.nil n) (Node.max n).
Definition with_key (k : option K) (n : Node) : Node :=
  Node.mk (Node.parent n) (Node.left n) (Node.right n) (Node.color n) (Node.value n) k (Node.nil n) (Node.max n).
Definition with_max (m : Z) (n : Node) : Node :=
  Node.mk (Node.parent n) (Node.left n) (Node.right n) (Node.color n) (Node.value n) (Node.key n) (Node.nil n) m.

Definition set_parent (x p : ref) : M unit := update x (with_parent p).
Definition set_left (x l : ref) : M unit := update x (with_left l).
Definition set_right (x r : ref) : M unit := update x (with_right r).
Definition set_color (x : ref) (c : Color) : M unit := update x (with_color c).
Definition set_value (x : ref) (v : option V) : M unit := update x (with_value v).
Definition set_key (x : ref) (k : option K) : M unit := update x (with_key k).
Definition set_max (x : ref) (m : Z) : M unit := update x (with_max m).

(** [this.root()], and the assignments to [this._root] and [this._size]. *)
Definition root : M ref := λ t, Ok (_root t, t).
Definition set_root (r : ref) : M unit :=
  λ t, Ok (tt, mkTree (heap t) (next t) r (_size t)).
Definition add_size (d : Z) : M unit :=
  λ t, Ok (tt, mkTree (heap t) (next t) (_root t) (_size t + d)).

Definition when (b : bool) (m : M unit) : M unit := if b then m else ret tt.

(** [updateNodeMax(node)]. *)
Definition updateNodeMax (node : ref) : M unit :=
  l ← get_left node; ln ← get_nil l;
  r ← get_right node; rn ← get_nil r;
  if ln && rn then
    k ← get_key node; set_max node (key1 k)
  else if ln then
    k ← get_key node; r ← get_right node; rm ← get_max r;
    set_max node (max (key1 k) rm)
  else if rn then
    k ← get_key node; l ← get_left node; lm ← get_max l;
    set_max node (max (key1 k) lm)
  else
    k ← get_key node;
    l ← get_left node; lm ← get_max l;
    r ← get_right node; rm ← get_max r;
    set_max node (max3 (key1 k) lm rm).

(** [updateParentsMax(node)]. *)
Fixpoint updateParentsMax (fuel : nat) (node : ref) : M unit :=
  match fuel with
  | O => out_of_fuel
  | S fuel =>
      p ← get_parent node;
      match p with
      | None => ret tt
      | Some _ =>
          pn ← get_nil p;
          if pn then ret tt
          else
            _ ← updateNodeMax p;
            updateParentsMax fuel p
      end
  end.

(** [rotateLeft(x)] and [rotateRight(x)]; the calls of [updateNodeMax] are
    those of [IntervalTree]. *)
Definition rotateLeft (x : ref) : M unit :=
  y ← get_right x;
  yl ← get_left y; _ ← set_right x yl;
  yl ← get_left y; yln ← get_nil yl;
  _ ← when (negb yln) (yl ← get_left y; set_parent yl x);
  yn ← get_nil y;
  _ ← when (negb yn) (xp ← get_parent x; set_parent y xp);
  xp ← get_parent x;
  _ ← match xp with
      | Some _ =>
          xpl ← get_left xp;
          if decide (x = xpl) then set_left xp y else set_right xp y
      | None => set_root y
      end;
  _ ← set_left y x;
  xn ← get_nil x;
  _ ← when (negb xn) (_ ← set_parent x y; when augmented (updateNodeMax x));
  when augmented (yn ← get_nil y; when (negb yn) (updateNodeMax y)).

Definition rotateRight (x : ref) : M unit :=
  y ← get_left x;
  yr ← get_right y; _ ← set_left x yr;
  yr ← get_right y; yrn ← get_nil yr;
  _ ← when (negb yrn) (yr ← get_right y; set_parent yr x);
  yn ← get_nil y;
  _ ← when (negb yn) (xp ← get_parent x; set_parent y xp);
  xp ← get_parent x;
  _ ← match xp with
      | Some _ =>
          xpr ← get_right xp;
          if decide (x = xpr) then set_right xp y else set_left xp y
      | None => set_root y
      end;
  _ ← set_right y x;
  xn ← get_nil x;
  _ ← when (negb xn) (_ ← set_parent x y; when augmented (updateNodeMax x));
  when augmented (yn ← get_nil y; when (negb yn) (updateNodeMax y)).

(** [insertFixup(x)]: one unit of fuel per iteration of the loop. *)
Fixpoint insertFixup_loop (fuel : nat) (x : ref) : M unit :=
  match fuel with
  | O => out_of_fuel
  | S fuel =>
      r ← root;
      continue ← (if decide (x ≠ r)
                  then xp ← get_parent x; c ← get_color xp; ret (bool_decide (c = red))
                  else ret false);
      if continue then
        xp ← get_parent x; xpp ← get_parent xp; xppl ← get_left xpp;
        if decide (xp = xppl) then
          xp ← get_parent x; xpp ← get_parent xp; y ← get_right xpp;
          yc ← get_color y;
          if decide (yc = red) then
            xp ← get_parent x; _ ← set_color xp black;
            _ ← set_color y black;
            xp ← get_parent x; xpp ← get_parent xp; _ ← set_color xpp red;
            xp ← get_parent x; xpp ← get_parent xp;
            insertFixup_loop fuel xpp
          else
            xp ← get_parent x; xpr ← get_right xp;
            x ← (if decide (x = xpr)
                 then xp ← get_parent x; _ ← rotateLeft xp; ret xp
                 else ret x);
            xp ← get_parent x; _ ← set_color xp black;
            xp ← get_parent x; xpp ← get_parent xp; _ ← set_color xpp red;
            xp ← get_parent x; xpp ← get_parent xp; _ ← rotateRight xpp;
            insertFixup_loop fuel x
        else
          xp ← get_parent x; xpp ← get_parent xp; y ← get_left xpp;
          yc ← get_color y;
          if decide (yc = red) then
            xp ← get_parent x; _ ← set_color xp black;
            _ ← set_color y black;
            xp ← get_parent x; xpp ← get_parent xp; _ ← set_color xpp red;
            xp ← get_parent x; xpp ← get_parent xp;
            insertFixup_loop fuel xpp
          else
            xp ← get_parent x; xpl ← get_left xp;
            x ← (if decide (x = xpl)
                 then xp ← get_parent x; _ ← rotateRight xp; ret xp
                 else ret x);
            xp ← get_parent x; _ ← set_color xp black;
            xp ← get_parent x; xpp ← get_parent xp; _ ← set_color xpp red;
            xp ← get_parent x; xpp ← get_parent xp; _ ← rotateLeft xpp;
            insertFixup_loop fuel x
      else ret tt
  end.

Definition insertFixup (fuel : nat) (x : ref) : M unit :=
  _ ← insertFixup_loop fuel x;
  r ← root; set_color r black.

(** [deleteFixup(x)]: the loop returns the final [x]. *)
Fixpoint deleteFixup_loop (fuel : nat) (x : ref) : M ref :=
  match fuel with
  | O => out_of_fuel
  | S fuel =>
      r ← root;
      continue ← (if decide (x ≠ r)
                  then c ← get_color x; ret (bool_decide (c = black))
                  else ret false);
      if continue then
        xp ← get_parent x; xpl ← get_left xp;
        if decide (x = xpl) then
          xp ← get_parent x; w ← get_right xp;
          wc ← get_color w;
          w ← (if decide (wc = red) then
                 _ ← set_color w black;
                 xp ← get_parent x; _ ← set_color xp red;
                 xp ← get_parent x; _ ← rotateLeft xp;
                 xp ← get_parent x; get_right xp
               else ret w);
          wl ← get_left w; wlc ← get_color wl;
          both ← (if decide (wlc = black)
                  then wr ← get_right w; wrc ← get_color wr; ret (bool_decide (wrc = black))
                  else ret false);
          if both then
            _ ← set_color w red;
            xp ← get_parent x;
            deleteFixup_loop fuel xp
          else
            wr ← get_right w; wrc ← get_color wr;
            w ← (if decide (wrc = black) then
                   wl ← get_left w; _ ← set_color wl black;
                   _ ← set_color w red;
                   _ ← rotateRight w;
                   xp ← get_parent x; get_right xp
                 else ret w);
            xp ← get_parent x; xpc ← get_color xp; _ ← set_color w xpc;
            xp ← get_parent x; _ ← set_color xp black;
            wr ← get_right w; _ ← set_color wr black;
            xp ← get_parent x; _ ← rotateLeft xp;
            r ← root;
            deleteFixup_loop fuel r
        else
          xp ← get_parent x; w ← get_left xp;
          wc ← get_color w;
          w ← (if decide (wc = red) then
                 _ ← set_color w black;
                 xp ← get_parent x; _ ← set_color xp red;
                 xp ← get_parent x; _ ← rotateRight xp;
                 xp ← get_parent x; get_left xp
               else ret w);
          wr ← get_right w; wrc ← get_color wr;
          both ← (if decide (wrc = black)
                  then wl ← get_left w; wlc ← get_color wl; ret (bool_decide (wlc = black))
                  else ret false);
          if both then
            _ ← set_color w red;
            xp ← get_parent x;
            deleteFixup_loop fuel xp
          else
            wl ← get_left w; wlc ← get_color wl;
            w ← (if decide (wlc = black) then
                   wr ← get_right w; _ ← set_color wr black;
                   _ ← set_color w red;
                   _ ← rotateLeft w;
                   xp ← get_parent x; get_left xp
                 else ret w);
            xp ← get_parent x; xpc ← get_color xp; _ ← set_color w xpc;
            xp ← get_parent x; _ ← set_color xp black;
            wl ← get_left w; _ ← set_color wl black;
            xp ← get_parent x; _ ← rotateRight xp;
            r ← root;
            deleteFixup_loop fuel r
      else ret x
  end.

Definition deleteFixup (fuel : nat) (x : ref) : M unit :=
  x ← deleteFixup_loop fuel x;
  set_color x black.

(** [insertNode(key, value)].  The descent returns the node whose value was
    overwritten ([inl]) or the parent under which to link ([inr]). *)
Fixpoint insertNode_loop (fuel : nat) (key : K) (value : V) (c parent : ref)
    : M (ref + ref) :=
  match fuel with
  | O => out_of_fuel
  | S fuel =>
      cn ← get_nil c;
      if negb cn then
        let parent := c in
        ck ← get_key c;
        match compareFn key ck with
        | EQ => _ ← set_value c (Some value); ret (inl c)
        | LT => c ← get_left c; insertNode_loop fuel key value c parent
        | GT => c ← get_right c; insertNode_loop fuel key value c parent
        end
      else ret (inr parent)
  end.

Definition insertNode (fuel : nat) (key : K) (value : V) : M ref :=
  c ← root;
  found ← insertNode_loop fuel key value c None;
  match found with
  | inl c => ret c
  | inr parent =>
      _ ← add_size 1;
      node ← alloc (Node.mk parent sentinel sentinel red (Some value) (Some key) false
                      (if augmented then key1 key else 0));
      _ ← match parent with
          | None => set_root node
          | Some _ =>
              pk ← get_key parent;
              if decide (compareFn key pk = LT) then set_left parent node
              else set_right parent node
          end;
      _ ← insertFixup fuel node;
      _ ← when augmented (updateParentsMax fuel node);
      ret node
  end.

(** [deleteNode(z)]. *)
Fixpoint leftmost (fuel : nat) (y : ref) : M ref :=
  match fuel with
  | O => out_of_fuel
  | S fuel =>
      yl ← get_left y; yln ← get_nil yl;
      if negb yln then yl ← get_left y; leftmost fuel yl else ret y
  end.

Definition deleteNode (fuel : nat) (z : ref) : M unit :=
  match z with
  | None => ret tt
  | Some _ =>
      zn ← get_nil z;
      if zn then ret tt
      else
        zl ← get_left z; zln ← get_nil zl;
        one_child ← (if zln then ret true else zr ← get_right z; get_nil zr);
        y ← (if one_child then ret z else zr ← get_right z; leftmost fuel zr);
        yl ← get_left y; yln ← get_nil yl;
        x ← (if negb yln then get_left y else get_right y);
        yp ← get_parent y; _ ← set_parent x yp;
        yp ← get_parent y;
        _ ← match yp with
            | Some _ =>
                ypl ← get_left yp;
                _ ← (if decide (y = ypl) then set_left yp x else set_right yp x);
                when augmented (yp ← get_parent y; updateNodeMax yp)
            | None => set_root x
            end;
        _ ← when augmented (updateParentsMax fuel x);
        _ ← when (bool_decide (y ≠ z))
              (yk ← deref y; _ ← set_key z (Node.key yk);
               yv ← get_value y; _ ← set_value z yv;
               _ ← when augmented (updateNodeMax z);
               when augmented (updateParentsMax fuel z));
        yc ← get_color y;
        when (bool_decide (yc = black)) (deleteFixup fuel x)
  end.

(** [_find(key, root)] and [find(key)]: [None] is [undefined]. *)
Fixpoint _find (fuel : nat) (key : K) (root : ref) : M ref :=
  match fuel with
  | O => out_of_fuel
  | S fuel =>
      match root with
      | None => ret None
      | Some _ =>
          rn ← get_nil root;
          if rn then ret None
          else
            rk ← get_key root;
            match compareFn key rk with
            | LT => l ← get_left root; _find fuel key l
            | GT => r ← get_right root; _find fuel key r
            | EQ => ret root
            end
      end
  end.

Definition find (fuel : nat) (key : K) : M ref :=
  r ← root; _find fuel key r.

(** The public methods [get], [has], [set], [delete] and [size].
    [get(key)] is [this.find(key)?.value]: [None] when no node is found. *)
Definition get (fuel : nat) (key : K) : M (option V) :=
  node ← find fuel key;
  match node with
  | None => ret None
  | Some _ => get_value node
  end.

(** [has(key)] is [this.get(key) !== undefined].  A value can itself be
    [undefined]: [set(k, undefined)] stores it as any other value.  [undef v]
    tells whether the value [v] is [undefined]. *)
Definition has (undef : V → bool) (fuel : nat) (key : K) : M bool :=
  v ← get fuel key;
  ret (match v with Some v => negb (undef v) | None => false end).

Definition set (fuel : nat) (key : K) (value : V) : M unit :=
  _ ← insertNode fuel key value; ret tt.

Definition delete (fuel : nat) (key : K) : M bool :=
  node ← find fuel key;
  match node with
  | Some _ => _ ← deleteNode fuel node; _ ← add_size (-1); ret true
  | None => ret false
  end.

Definition size : M Z := λ t, Ok (_size t, t).

(** [entries()]: the pairs in the order in which the generator yields them.
    [stack.pop()] on the empty stack is [undefined], whose fields cannot be
    read. *)
Fixpoint push_left (fuel : nat) (stack : list ref) (c : ref) : M (list ref * ref) :=
  match fuel with
  | O => out_of_fuel
  | S fuel =>
      cn ← get_nil c;
      if negb cn then l ← get_left c; push_left fuel (c :: stack) l
      else ret (stack, c)
  end.

Fixpoint entries_loop (fuel : nat) (stack : list ref) (c : ref) : M (list (K * option V)) :=
  match fuel with
  | O => out_of_fuel
  | S fuel' =>
      cn ← get_nil c;
      if negb cn || bool_decide (stack ≠ []) then
        '(stack, c) ← push_left fuel stack c;
        match stack with
        | [] => throw
        | c :: stack =>
            k ← get_key c; v ← get_value c;
            c ← get_right c;
            rest ← entries_loop fuel' stack c;
            ret ((k, v) :: rest)
        end
      else ret []
  end.

Definition entries (fuel : nat) : M (list (K * option V)) :=
  r ← root; rn ← get_nil r;
  if rn then ret []
  else c ← root; entries_loop fuel [] c.

(** [checkBalanceInvariant()]. *)
Fixpoint balance_traverse (fuel : nat) (root : ref) : M (Z * Z) :=
  match fuel with
  | O => out_of_fuel
  | S fuel =>
      match root with
      | None => ret (0, 0)
      | Some _ =>
          rn ← get_nil root;
          if rn then ret (0, 0)
          else
            l ← get_left root;
            '(l1, s1) ← balance_traverse fuel l;
            r ← get_right root;
            '(l2, s2) ← balance_traverse fuel r;
            ret (Z.max l1 l2 + 1, Z.min s1 s2 + 1)
      end
  end.

Definition checkBalanceInvariant (fuel : nat) : M bool :=
  r ← root;
  '(longestLength, shortestLength) ← balance_traverse fuel r;
  ret (bool_decide (longestLength ≤ shortestLength * 2)).

(** [checkOrderInvariant()].  [!min] holds for [undefined] and for a key that
    is falsy. *)
Definition not_ (k : option K) : bool :=
  match k with
  | None => true
  | Some k => negb (truthy k)
  end.

Fixpoint order_traverse (fuel : nat) (root : ref) (min max : option K) : M bool :=
  match fuel with
  | O => out_of_fuel
  | S fuel =>
      rn ← get_nil root;
      if rn then ret true
      else
        c1 ← (if not_ min then ret true
              else rk ← get_key root;
                   ret (bool_decide (compareFn rk (default rk min) = GT)));
        if negb c1 then ret false else
        c2 ← (if not_ max then ret true
              else rk ← get_key root;
                   ret (bool_decide (compareFn rk (default rk max) = LT)));
        if negb c2 then ret false else
        l ← get_left root; ln ← get_nil l;
        c3 ← (if ln then ret true
              else l ← get_left root; rk ← get_key root;
                   order_traverse fuel l min (Some rk));
        if negb c3 then ret false else
        r ← get_right root; rn ← get_nil r;
        if rn then ret true
        else r ← get_right root; rk ← get_key root;
             order_traverse fuel r (Some rk) max
  end.

Definition checkOrderInvariant (fuel : nat) : M bool :=
  r ← root; order_traverse fuel r None None.

End Model.

Notation "x ← y ; z" := (bind y (λ x : _, z))
  (at level 20, y at level 100, z at level 200, only parsing) : rb_scope.
Notation "' x ← y ; z" := (bind y (λ x : _, z))
  (at level 20, x pattern, y at level 100, z at level 200, only parsing) : rb_scope.

Arguments Tree : clear implicits.
Arguments M : clear implicits.

(** *** The class [RBTree] *)

(** [defaultCompareFunction] on numbers. *)
Definition defaultCompareFunction (a b : Z) : Ordering :=
  if decide (a = b) then EQ
  else if decide (a < b) then LT
  else GT.

(** *** The class [IntervalTree] *)

(** [Interval = [number, number]]. *)
Abbreviation Interval := (Z * Z)%type.

(** The [compareFn] of interval-tree.ts. *)
Definition interval_compareFn (a b : Interval) : Ordering :=
  if decide (a.1 < b.1)%Z then LT
  else if decide (a.1 = b.1) then
    if decide (a.2 < b.2)%Z then LT
    else if decide (a.2 > b.2)%Z then GT
    else EQ
  else GT.

(** [intervalsIntersect(a, b)]. *)
Definition intervalsIntersect (a b : Interval) : bool :=
  bool_decide (a.1 ≤ b.2)%Z && bool_decide (a.2 >= b.1)%Z.

Section Search.
Context {V : Type}.

(** [search(query)]: the values in the order in which the generator yields
    them, one unit of fuel per iteration of the loop. *)
Fixpoint search_loop (fuel : nat) (query : Interval) (stack : list ref)
    : M Interval V (list (option V)) :=
  match fuel with
  | O => out_of_fuel
  | S fuel =>
      match stack with
      | [] => ret []
      | top :: stack =>
          tl ← get_left top; tln ← get_nil tl;
          go_left ← (if negb tln
                     then tl ← get_left top; m ← get_max tl; ret (bool_decide (m >= query.1)%Z)
                     else ret false);
          let stack := if go_left : bool then tl :: stack else stack in
          tk ← get_key top;
          here ← (if intervalsIntersect tk query
                  then v ← get_value top; ret [v] else ret []);
          tr ← get_right top; trn ← get_nil tr;
          go_right ← (if negb trn
                      then tk ← get_key top; ret (bool_decide (tk.1 ≤ query.2)%Z)
                      else ret false);
          let stack := if go_right : bool then tr :: stack else stack in
          rest ← search_loop fuel query stack;
          ret (here ++ rest)
      end
  end.

Definition search (fuel : nat) (query : Interval) : M Interval V (list (option V)) :=
  r ← root; rn ← get_nil r;
  if rn then ret []
  else r ← root; search_loop fuel query [r].

End Search.

End RB.


(** * Properties of the HAMT *)
Module HAMTFacts.
Import HAMT.
Open Scope string_scope.
Open Scope hamt_scope.

(** A client that starts from [new HAMT()] and sets the given pairs in order,
    as the tests of the repository do. *)
Definition set_all (fuel : nat) (kvs : list (string * Z)) : M Z hamt :=
  foldl (λ m kv, h ← m; set fuel h kv.1 kv.2) HAMT_new kvs.

(** Seven keys with one and the same hash. *)
Definition colliding_keys : list string :=
  ["AaAaAa"; "AaAaBB"; "AaBBAa"; "AaBBBB"; "BBAaAa"; "BBAaBB"; "BBBBAa"].

Lemma colliding_keys_hash :
  hashString <$> colliding_keys = replicate 7 1952508096.
Proof. vm_compute. reflexivity. Qed.

(** C2, at a failing input: [v0] holds six keys whose hashes agree, [k] is a
    seventh one.  [v1 = v0.set(k, 7)] returns, but [v1.get(k)] throws instead
    of returning [7]. *)
Theorem set_get_throws_after_six_collisions :
  ∃ v0 s0 v1 s1,
    set_all 7 (zip (take 6 colliding_keys) [1; 2; 3; 4; 5; 6]) [] = Ok (v0, s0) ∧
    set 7 v0 "BBBBAa" 7 s0 = Ok (v1, s1) ∧
    ∀ fuel, get (8 + fuel) v1 "BBBBAa" s1 = Throw.
Proof.
  eexists _, _, _, _. split; [vm_compute; reflexivity|].
  split; [vm_compute; reflexivity|].
  intros fuel. vm_compute. reflexivity.
Qed.

(** C6, at the same input: six calls of the closure [f] (stages 0 to 5) do not
    finish [set], the seventh call runs at stage 6; the walk of [get] on the
    result runs eight iterations, the last two at stages 6 and 7. *)
Theorem set_descends_to_stage_six :
  ∃ v0 s0 v1 s1,
    set_all 7 (zip (take 6 colliding_keys) [1; 2; 3; 4; 5; 6]) [] = Ok (v0, s0) ∧
    f 6 (hashString "BBBBAa") "BBBBAa" 7 true 0 (root v0) s0 = OutOfFuel ∧
    set 7 v0 "BBBBAa" 7 s0 = Ok (v1, s1) ∧
    get 7 v1 "BBBBAa" s1 = OutOfFuel ∧
    get 8 v1 "BBBBAa" s1 = Throw.
Proof.
  eexists _, _, _, _. split; [vm_compute; reflexivity|].
  split; [vm_compute; reflexivity|].
  split; [vm_compute; reflexivity|].
  split; vm_compute; reflexivity.
Qed.

End HAMTFacts.

(** * The heap of the red-black tree: representation and rotations *)
Module RBFacts.
Import RB.
Open Scope rb_scope.

Ltac split_nodup :=
  repeat match goal with
  | H : NoDup (_ :: _) |- _ => apply NoDup_cons in H as [? ?]
  | H : NoDup (_ ++ _) |- _ => apply NoDup_app in H as (? & ? & ?)
  | H : NoDup [] |- _ => clear H
  end.

Section Abstraction.
Context {K V : Type}.

Abbreviation Node := (Node.t K V).
Abbreviation Tree := (RB.Tree K V).
Abbreviation M := (RB.M K V).

(** ** Trees in the heap *)

(** The shape that a heap holds: every node with its address, colour, key,
    value and [max]. *)
Inductive tree : Type :=
| Leaf
| T (p : loc) (c : Color) (l : tree) (k : K) (v : V) (m : Z) (r : tree).

Definition addr (t : tree) : ref :=
  match t with
  | Leaf => sentinel
  | T p _ _ _ _ _ _ => Some p
  end.

Fixpoint addrs (t : tree) : list loc :=
  match t with
  | Leaf => []
  | T p _ l _ _ _ r => p :: addrs l ++ addrs r
  end.

Definition tcolor (t : tree) : Color :=
  match t with
  | Leaf => black
  | T _ c _ _ _ _ _ => c
  end.

Definition is_leaf (t : tree) : bool :=
  match t with
  | Leaf => true
  | T _ _ _ _ _ _ _ => false
  end.

Definition tmaxf (t : tree) : Z :=
  match t with
  | Leaf => 0
  | T _ _ _ _ _ m _ => m
  end.

(** The record of the root of [t] when its parent is [par]. *)
Definition node_of (par : ref) (p : loc) (c : Color) (l : tree) (k : K) (v : V) (m : Z) (r : tree)
    : Node :=
  Node.mk par (addr l) (addr r) c (Some v) (Some k) false m.

Fixpoint repr (h : gmap loc Node) (par : ref) (t : tree) : Prop :=
  match t with
  | Leaf => True
  | T p c l k v m r =>
      h !! p = Some (node_of par p c l k v m r) ∧ repr h (Some p) l ∧ repr h (Some p) r
  end.

(** The sentinel keeps everything but its parent. *)
Definition sentinel_ok (h : gmap loc Node) : Prop :=
  ∃ par, h !! 0%nat = Some (Node.mk par None None black None None true 0).

(** [rep st t]: the heap of [st] holds exactly the tree [t] under [_root]. *)
Record rep (st : Tree) (t : tree) : Prop := mkRep {
  rep_repr : repr (heap st) None t;
  rep_root : _root st = addr t;
  rep_nodup : NoDup (addrs t);
  rep_nonnil : 0%nat ∉ addrs t;
  rep_sentinel : sentinel_ok (heap st);
  rep_fresh : Forall (λ a, (a < next st)%nat) (0%nat :: addrs t)
}.

(** ** Zippers *)

(** A frame is a node with a hole for its left ([FL]) or right ([FR])
    subtree; a context lists the frames from the hole up to the root. *)
Inductive frame : Type :=
| FL (p : loc) (c : Color) (k : K) (v : V) (m : Z) (r : tree)
| FR (p : loc) (c : Color) (l : tree) (k : K) (v : V) (m : Z).

Definition fill (f : frame) (t : tree) : tree :=
  match f with
  | FL p c k v m r => T p c t k v m r
  | FR p c l k v m => T p c l k v m t
  end.

Fixpoint plug (ctx : list frame) (t : tree) : tree :=
  match ctx with
  | [] => t
  | f :: ctx => plug ctx (fill f t)
  end.

Definition faddr (f : frame) : loc :=
  match f with
  | FL p _ _ _ _ _ => p
  | FR p _ _ _ _ _ => p
  end.

(** The parent of the hole. *)
Definition caddr (ctx : list frame) : ref :=
  match ctx with
  | [] => None
  | f :: _ => Some (faddr f)
  end.

Definition fsib (f : frame) : tree :=
  match f with
  | FL _ _ _ _ _ r => r
  | FR _ _ l _ _ _ => l
  end.

Definition caddrs (ctx : list frame) : list loc :=
  ctx ≫= λ f, faddr f :: addrs (fsib f).

Lemma caddrs_cons f ctx : caddrs (f :: ctx) = faddr f :: addrs (fsib f) ++ caddrs ctx.
Proof. done. Qed.

Lemma plug_app c1 c2 t : plug (c1 ++ c2) t = plug c2 (plug c1 t).
Proof. revert t. induction c1; simpl; auto. Qed.

Lemma addrs_fill f t : addrs (fill f t) ≡ₚ addrs t ++ faddr f :: addrs (fsib f).
Proof.
  destruct f; simpl.
  - by rewrite Permutation_middle.
  - by rewrite (comm (++) (addrs t)).
Qed.

Lemma addrs_plug ctx t : addrs (plug ctx t) ≡ₚ addrs t ++ caddrs ctx.
Proof.
  revert t. induction ctx as [|f ctx IH]; intros t; simpl.
  - by rewrite app_nil_r.
  - rewrite IH, addrs_fill. unfold caddrs. simpl. by rewrite <- app_assoc.
Qed.

Lemma addr_fill f t : addr (fill f t) = Some (faddr f).
Proof. by destruct f. Qed.

Lemma addr_plug ctx t :
  addr (plug ctx t) = from_option (λ f, Some (faddr f)) (addr t) (last ctx).
Proof.
  revert t. induction ctx as [|f ctx IH]; intros t; simpl; [done|].
  rewrite IH, addr_fill. destruct ctx as [|g ctx]; [done|].
  change (last (f :: g :: ctx)) with (last (g :: ctx)).
  destruct (last (g :: ctx)) eqn:E; [done|]. by apply last_None in E.
Qed.

Lemma addr_plug_cons f ctx t t' : addr (plug (f :: ctx) t) = addr (plug (f :: ctx) t').
Proof.
  rewrite !addr_plug. destruct (last (f :: ctx)) eqn:E; [done|]. by apply last_None in E.
Qed.

(** [repr] along a context. *)
Fixpoint repr_ctx (h : gmap loc Node) (child : ref) (ctx : list frame) : Prop :=
  match ctx with
  | [] => True
  | f :: ctx =>
      match f with
      | FL p c k v m r =>
          h !! p = Some (Node.mk (caddr ctx) child (addr r) c (Some v) (Some k) false m)
          ∧ repr h (Some p) r
      | FR p c l k v m =>
          h !! p = Some (Node.mk (caddr ctx) (addr l) child c (Some v) (Some k) false m)
          ∧ repr h (Some p) l
      end ∧ repr_ctx h (Some (faddr f)) ctx
  end.

Lemma repr_plug h ctx t :
  repr h None (plug ctx t) ↔ repr h (caddr ctx) t ∧ repr_ctx h (addr t) ctx.
Proof.
  revert t. induction ctx as [|f ctx IH]; intros t; simpl.
  - tauto.
  - rewrite IH. destruct f; simpl; unfold node_of; tauto.
Qed.

Lemma repr_agree h h' par t :
  (∀ a, a ∈ addrs t → h' !! a = h !! a) → repr h par t → repr h' par t.
Proof.
  revert par. induction t as [|p c l IHl k v m r IHr]; intros par Hag; simpl; [done|].
  intros (Hp & Hl & Hr). split_and!.
  - rewrite Hag; [done|set_solver].
  - apply IHl; [|done]. intros a Ha. apply Hag. set_solver.
  - apply IHr; [|done]. intros a Ha. apply Hag. set_solver.
Qed.

Lemma repr_ctx_agree h h' child ctx :
  (∀ a, a ∈ caddrs ctx → h' !! a = h !! a) → repr_ctx h child ctx → repr_ctx h' child ctx.
Proof.
  revert child. induction ctx as [|f ctx IH]; intros child Hag; simpl; [done|].
  intros (Hf & Hc). split.
  - destruct f; destruct Hf as [Hp Hs]; (split; [rewrite Hag; [done|unfold caddrs; set_solver]|]);
      (eapply repr_agree; [|done]); intros a Ha; apply Hag; unfold caddrs; set_solver.
  - apply IH; [|done]. intros a Ha. apply Hag. unfold caddrs in *. set_solver.
Qed.


(** ** Reading and writing through the abstraction *)

Definition put (x : loc) (n : Node) (st : Tree) : Tree :=
  mkTree (<[x := n]> (heap st)) (next st) (_root st) (_size st).

Lemma deref_Some (st : Tree) x (n : Node) : heap st !! x = Some n → deref (Some x) st = Ok (n, st).
Proof. unfold deref. by intros ->. Qed.

Lemma update_Some (st : Tree) x (n : Node) g :
  heap st !! x = Some n → update (Some x) g st = Ok (tt, put x (g n) st).
Proof. unfold update. by intros ->. Qed.

Lemma rep_view st ctx t :
  rep st (plug ctx t) → repr (heap st) (caddr ctx) t ∧ repr_ctx (heap st) (addr t) ctx.
Proof. intros H. apply repr_plug, H. Qed.

Lemma rep_focus st ctx x c l k v m r :
  rep st (plug ctx (T x c l k v m r)) →
  heap st !! x = Some (node_of (caddr ctx) x c l k v m r).
Proof. intros H. by apply rep_view in H as [[? _] _]. Qed.

Lemma rep_nodup_plug st ctx t :
  rep st (plug ctx t) → NoDup (addrs t ++ caddrs ctx) ∧ 0%nat ∉ addrs t ++ caddrs ctx.
Proof. intros H. rewrite <- addrs_plug. split; apply H. Qed.

Lemma addr_ne x t : x ∉ addrs t → x ≠ 0%nat → Some x ≠ addr t.
Proof. destruct t; simpl; [unfold sentinel; congruence|]. set_solver. Qed.

Lemma deref_sentinel st t :
  rep st t → ∃ par, deref sentinel st = Ok (Node.mk par None None black None None true 0, st).
Proof. intros [_ _ _ _ [par Hs] _]. exists par. by apply deref_Some. Qed.

Lemma get_color_addr st ctx t :
  rep st (plug ctx t) → get_color (addr t) st = Ok (tcolor t, st).
Proof.
  intros H. destruct t; simpl.
  - destruct (deref_sentinel _ _ H) as [par Hd]. unfold get_color, bind. by rewrite Hd.
  - unfold get_color, bind. by rewrite (deref_Some _ _ _ (rep_focus _ _ _ _ _ _ _ _ _ H)).
Qed.

Lemma get_nil_addr st ctx t :
  rep st (plug ctx t) → get_nil (addr t) st = Ok (is_leaf t, st).
Proof.
  intros H. destruct t; simpl.
  - destruct (deref_sentinel _ _ H) as [par Hd]. unfold get_nil, bind. by rewrite Hd.
  - unfold get_nil, bind. by rewrite (deref_Some _ _ _ (rep_focus _ _ _ _ _ _ _ _ _ H)).
Qed.

Lemma deref_focus st ctx x c l k v m r :
  rep st (plug ctx (T x c l k v m r)) →
  deref (Some x) st = Ok (node_of (caddr ctx) x c l k v m r, st).
Proof. intros H. apply deref_Some. by eapply rep_focus. Qed.

(** Replacing the subtree in the hole by one with the same root address. *)
Lemma rep_replace st st' ctx t t' :
  rep st (plug ctx t) →
  addr t' = addr t →
  addrs t' ⊆ addrs t →
  NoDup (addrs t') →
  (∀ a, a ∈ caddrs ctx → heap st' !! a = heap st !! a) →
  repr (heap st') (caddr ctx) t' →
  sentinel_ok (heap st') →
  next st' = next st →
  _root st' = _root st →
  rep st' (plug ctx t').
Proof.
  intros H Haddr Hsub Hnd Hag Hrepr Hs Hnext Hroot.
  destruct (rep_view _ _ _ H) as [_ Hc].
  destruct (rep_nodup_plug _ _ _ H) as [Hnd0 Hnz].
  destruct H as [_ Hr _ _ _ Hf].
  split.
  - apply repr_plug. split; [done|]. rewrite Haddr. by eapply repr_ctx_agree.
  - rewrite Hroot, Hr, !addr_plug, Haddr. done.
  - rewrite addrs_plug. apply NoDup_app in Hnd0 as (_ & Hd & ?).
    apply NoDup_app. split_and!; [done| |done]. intros a Ha. apply Hd. set_solver.
  - rewrite addrs_plug. set_solver.
  - done.
  - rewrite Hnext. rewrite Forall_cons in Hf |- *. destruct Hf as [? Hf]. split; [done|].
    rewrite addrs_plug in Hf |- *. rewrite Forall_app in Hf |- *. destruct Hf. split; [|done].
    rewrite Forall_forall in *. set_solver.
Qed.

(** Replacing the subtree in the hole by a rearrangement of its nodes. *)
Lemma rep_intro st st' ctx t t' :
  rep st (plug ctx t) →
  addrs t' ≡ₚ addrs t →
  repr (heap st') None (plug ctx t') →
  _root st' = addr (plug ctx t') →
  sentinel_ok (heap st') →
  next st' = next st →
  rep st' (plug ctx t').
Proof.
  intros [_ _ Hnd Hnz _ Hf] Hp Hrepr Hroot Hs Hnext.
  rewrite addrs_plug in Hnd, Hnz, Hf.
  split; [done|done| | |done|]; rewrite ?Hnext, addrs_plug, Hp; done.
Qed.

Lemma sentinel_ok_put (st : Tree) x (n : Node) :
  x ≠ 0%nat → sentinel_ok (heap st) → sentinel_ok (heap (put x n st)).
Proof. intros ? [par H]. exists par. simpl. by rewrite lookup_insert_ne. Qed.

(** Changing the colour, key, value or [max] of the node in the hole. *)
Lemma rep_put_data st ctx x c l k v m r c' k' v' m' :
  rep st (plug ctx (T x c l k v m r)) →
  rep (put x (node_of (caddr ctx) x c' l k' v' m' r) st) (plug ctx (T x c' l k' v' m' r)).
Proof.
  intros H.
  destruct (rep_view _ _ _ H) as [(Hx & Hl & Hr) _].
  destruct (rep_nodup_plug _ _ _ H) as [Hnd Hnz]. simpl in Hnd, Hnz.
  split_nodup.
  eapply rep_replace; [exact H|done|done|simpl; apply NoDup_cons; split; [set_solver|by apply NoDup_app]| | | |done|done].
  - intros a Ha. simpl. apply lookup_insert_ne. set_solver.
  - simpl. split_and!.
    + by rewrite lookup_insert_eq.
    + eapply repr_agree; [|done]. intros a Ha. apply lookup_insert_ne. set_solver.
    + eapply repr_agree; [|done]. intros a Ha. apply lookup_insert_ne. set_solver.
  - apply sentinel_ok_put; [set_solver|apply H].
Qed.

(** What the operations on the nodes of the tree leave alone: the sentinel,
    the size and the allocation counter. *)
Definition frame_eq (st st' : Tree) : Prop :=
  heap st' !! 0%nat = heap st !! 0%nat ∧ _size st' = _size st ∧ next st' = next st.

Lemma frame_eq_refl st : frame_eq st st.
Proof. done. Qed.

Lemma frame_eq_trans st1 st2 st3 : frame_eq st1 st2 → frame_eq st2 st3 → frame_eq st1 st3.
Proof. intros (?&?&?) (?&?&?). split_and!; congruence. Qed.

Lemma frame_eq_put st ctx x c l k v m r n :
  rep st (plug ctx (T x c l k v m r)) → frame_eq st (put x n st).
Proof.
  intros H. split; [|done]. simpl. apply lookup_insert_ne.
  destruct (rep_nodup_plug _ _ _ H) as [_ Hnz]. set_solver.
Qed.

Lemma set_color_focus st ctx x c l k v m r c' :
  rep st (plug ctx (T x c l k v m r)) →
  ∃ st', set_color (Some x) c' st = Ok (tt, st') ∧ rep st' (plug ctx (T x c' l k v m r))
         ∧ frame_eq st st'.
Proof.
  intros H. eexists. split; [|split].
  - unfold set_color. apply update_Some. by eapply rep_focus.
  - by eapply rep_put_data.
  - by eapply frame_eq_put.
Qed.


(** *** Reads at a node of the tree *)

Section Reads.
Context (st : Tree) (ctx : list frame) (x : loc) (c : Color) (l : tree) (k : K) (v : V)
  (m : Z) (r : tree).
Context (H : rep st (plug ctx (T x c l k v m r))).

Lemma get_parent_focus : get_parent (Some x) st = Ok (caddr ctx, st).
Proof using H. unfold get_parent, bind. by rewrite (deref_focus _ _ _ _ _ _ _ _ _ H). Qed.
Lemma get_left_focus : get_left (Some x) st = Ok (addr l, st).
Proof using H. unfold get_left, bind. by rewrite (deref_focus _ _ _ _ _ _ _ _ _ H). Qed.
Lemma get_right_focus : get_right (Some x) st = Ok (addr r, st).
Proof using H. unfold get_right, bind. by rewrite (deref_focus _ _ _ _ _ _ _ _ _ H). Qed.
Lemma get_color_focus : get_color (Some x) st = Ok (c, st).
Proof using H. unfold get_color, bind. by rewrite (deref_focus _ _ _ _ _ _ _ _ _ H). Qed.
Lemma get_value_focus : get_value (Some x) st = Ok (Some v, st).
Proof using H. unfold get_value, bind. by rewrite (deref_focus _ _ _ _ _ _ _ _ _ H). Qed.
Lemma get_nil_focus : get_nil (Some x) st = Ok (false, st).
Proof using H. unfold get_nil, bind. by rewrite (deref_focus _ _ _ _ _ _ _ _ _ H). Qed.
Lemma get_max_focus : get_max (Some x) st = Ok (m, st).
Proof using H. unfold get_max, bind. by rewrite (deref_focus _ _ _ _ _ _ _ _ _ H). Qed.
Lemma get_key_focus : get_key (Some x) st = Ok (k, st).
Proof using H. unfold get_key, bind. by rewrite (deref_focus _ _ _ _ _ _ _ _ _ H). Qed.

End Reads.

Lemma root_rep st t : rep st t → root st = Ok (addr t, st).
Proof. intros H. unfold root. by rewrite (rep_root _ _ H). Qed.

Lemma root_ne st f ctx t : rep st (plug (f :: ctx) t) → addr t ≠ addr (plug (f :: ctx) t).
Proof.
  intros H. destruct (rep_nodup_plug _ _ _ H) as [Hnd Hnz].
  rewrite addr_plug. destruct (last (f :: ctx)) as [g|] eqn:E; [|by apply last_None in E].
  simpl. assert (faddr g ∈ caddrs (f :: ctx)) as Hg.
  { apply last_Some_elem_of in E. unfold caddrs. apply list_elem_of_bind. exists g. set_solver. }
  split_nodup. destruct t; simpl; [|set_solver].
  unfold sentinel. intros [= Heq]. apply Hnz. rewrite Heq. set_solver.
Qed.

End Abstraction.

Ltac msimpl :=
  cbn beta iota zeta delta
    [ret when negb andb orb is_leaf addr node_of tcolor fst snd caddr faddr
     Node.parent Node.left Node.right Node.color Node.value Node.key Node.nil Node.max
     with_parent with_left with_right with_color with_value with_key with_max
     heap next _root _size put].

(** ** Symbolic execution *)

(** [view_of x t ctx k]: find the node [x] in the explicit part of [t] and
    call [k] with the context and the subtree of that node. *)
Ltac view_of x t ctx k :=
  lazymatch t with
  | T x _ _ _ _ _ _ => k ctx t
  | T ?p ?c ?l ?kk ?v ?m ?r =>
      first [ view_of x l (FL p c kk v m r :: ctx) k
            | view_of x r (FR p c l kk v m :: ctx) k ]
  end.

(** The same for a subtree that is a variable. *)
Ltac view_sub s t ctx k :=
  lazymatch t with
  | s => k ctx
  | T ?p ?c ?l ?kk ?v ?m ?r =>
      first [ view_sub s l (FL p c kk v m r :: ctx) k
            | view_sub s r (FR p c l kk v m :: ctx) k ]
  end.

Ltac rep_at Hrep x k :=
  lazymatch type of Hrep with
  | rep ?st (plug ?ctx ?t) =>
      view_of x t ctx ltac:(fun ctx' t' =>
        lazymatch t' with
        | T _ ?c ?l ?kk ?v ?m ?r =>
            k (Hrep : rep st (plug ctx' (T x c l kk v m r)))
        end)
  end.

Ltac rep_sub Hrep s k :=
  lazymatch type of Hrep with
  | rep ?st (plug ?ctx ?t) =>
      view_sub s t ctx ltac:(fun ctx' => k (Hrep : rep st (plug ctx' s)))
  end.

Ltac mread :=
  match goal with
  | H : ?g ?r ?st = Ok _ |- context [?g ?r ?st] => rewrite H
  | Hrep : rep ?st _ |- context [root ?st] => rewrite (root_rep _ _ Hrep)
  | Hrep : rep ?st _ |- context [get_parent (Some ?x) ?st] =>
      rep_at Hrep x ltac:(fun H => rewrite (get_parent_focus _ _ _ _ _ _ _ _ _ H))
  | Hrep : rep ?st _ |- context [get_left (Some ?x) ?st] =>
      rep_at Hrep x ltac:(fun H => rewrite (get_left_focus _ _ _ _ _ _ _ _ _ H))
  | Hrep : rep ?st _ |- context [get_right (Some ?x) ?st] =>
      rep_at Hrep x ltac:(fun H => rewrite (get_right_focus _ _ _ _ _ _ _ _ _ H))
  | Hrep : rep ?st _ |- context [get_color (Some ?x) ?st] =>
      rep_at Hrep x ltac:(fun H => rewrite (get_color_focus _ _ _ _ _ _ _ _ _ H))
  | Hrep : rep ?st _ |- context [get_value (Some ?x) ?st] =>
      rep_at Hrep x ltac:(fun H => rewrite (get_value_focus _ _ _ _ _ _ _ _ _ H))
  | Hrep : rep ?st _ |- context [get_nil (Some ?x) ?st] =>
      rep_at Hrep x ltac:(fun H => rewrite (get_nil_focus _ _ _ _ _ _ _ _ _ H))
  | Hrep : rep ?st _ |- context [get_max (Some ?x) ?st] =>
      rep_at Hrep x ltac:(fun H => rewrite (get_max_focus _ _ _ _ _ _ _ _ _ H))
  | Hrep : rep ?st _ |- context [get_key (Some ?x) ?st] =>
      rep_at Hrep x ltac:(fun H => rewrite (get_key_focus _ _ _ _ _ _ _ _ _ H))
  | Hrep : rep ?st _ |- context [get_color (addr ?s) ?st] =>
      rep_sub Hrep s ltac:(fun H => rewrite (get_color_addr _ _ _ H))
  | Hrep : rep ?st _ |- context [get_nil (addr ?s) ?st] =>
      rep_sub Hrep s ltac:(fun H => rewrite (get_nil_addr _ _ _ H))
  | Hrep : rep ?st _ |- context [get_color sentinel ?st] =>
      rewrite (get_color_addr st [] Leaf) by (destruct Hrep; done)
  end.


(** Execution on a heap that is given by its cells. *)
Ltac rrun :=
  repeat (first
    [ progress (unfold get_parent, get_left, get_right, get_color, get_value, get_nil,
                get_max, get_key, set_parent, set_left, set_right, set_color, set_value,
                set_key, set_max, root, set_root, deref, update, bind, sentinel)
    | progress msimpl
    | rewrite lookup_insert_eq
    | rewrite lookup_insert_ne by done
    | match goal with
      | H : heap ?st !! ?x = Some _ |- context [heap ?st !! ?x] => rewrite H
      | |- context [decide (?a = ?a)] => rewrite (decide_True (P := a = a)) by done
      | |- context [decide (Some ?a = addr ?s)] =>
          rewrite (decide_False (P := Some a = addr s)) by (apply addr_ne; done)
      | H : ?a ≠ ?b |- context [decide (?a = ?b)] => rewrite (decide_False (P := a = b)) by done
      end ]).

(** [flatten_list l]: the elements that [l] shows, and the rest of it. *)
Ltac flatten_list l :=
  lazymatch l with
  | ?a ++ ?b =>
      let p := flatten_list a in
      let q := flatten_list b in
      lazymatch p with
      | (?e1, ?r1) => lazymatch q with (?e2, ?r2) => constr:((e1 ++ e2, r1 ++ r2)) end
      end
  | ?x :: ?a =>
      let p := flatten_list a in
      lazymatch p with (?e, ?r) => constr:((x :: e, r)) end
  | [] => constr:((l, l))
  | _ => let ty := type of l in
         lazymatch ty with list ?A => constr:((@nil A, l)) end
  end.

(** From [rep], the addresses in view are pairwise different, different from
    the sentinel and outside the subtrees that are variables. *)
Ltac addr_facts Hrep :=
  let Hnd := fresh "Hnd" in let Hnz := fresh "Hnz" in
  destruct (rep_nodup_plug _ _ _ Hrep) as [Hnd Hnz];
  rewrite ?caddrs_cons in Hnd, Hnz; cbn [addrs faddr fsib] in Hnd, Hnz;
  apply (conj Hnz) in Hnd; apply NoDup_cons in Hnd; clear Hnz;
  lazymatch type of Hnd with
  | NoDup ?l =>
      let p := flatten_list l in
      lazymatch p with
      | (?e, ?r) =>
          let l' := eval cbn [app] in (e ++ r) in
          apply (proj1 (NoDup_Permutation_proper l l' ltac:(solve_Permutation))) in Hnd
      end
  end;
  repeat match goal with
  | Hn : NoDup (_ :: _) |- _ => apply NoDup_cons in Hn as [? Hn]
  | Hn : _ ∉ _ :: _ |- _ => apply not_elem_of_cons in Hn as [? ?]
  | Hn : _ ∉ _ ++ _ |- _ => apply not_elem_of_app in Hn as [? ?]
  | Hn : _ ∉ [] |- _ => clear Hn
  end;
  clear Hnd.

Ltac decompose_nodup :=
  repeat match goal with
  | H : NoDup (_ :: _) |- _ => apply NoDup_cons in H as [? H]
  | H : _ ∉ _ :: _ |- _ => apply not_elem_of_cons in H as [? ?]
  | H : _ ∉ _ ++ _ |- _ => apply not_elem_of_app in H as [? ?]
  | H : _ ∉ [] |- _ => clear H
  end.

Ltac solve_agree :=
  let a := fresh "a" in let Ha := fresh "Ha" in
  intros a Ha; msimpl; rewrite ?lookup_insert_ne; [reflexivity|..];
  (let He := fresh in intros He; subst;
   match goal with Hn : ?z ∉ ?l, Hz : ?z ∈ ?l |- _ => exact (Hn Hz) end).

Ltac solve_lookup :=
  msimpl; repeat (first [rewrite lookup_insert_eq | rewrite lookup_insert_ne by done]);
  first [reflexivity | eassumption].

Ltac solve_repr :=
  repeat match goal with
  | |- _ ∧ _ => split
  | |- True => exact I
  | |- repr _ _ Leaf => exact I
  | |- repr_ctx _ _ [] => exact I
  | |- repr _ _ (T _ _ _ _ _ _ _) => cbn [repr]
  | |- repr_ctx _ _ (_ :: _) => cbn [repr_ctx]
  | |- repr _ _ _ => eapply repr_agree; [|eassumption]; solve_agree
  | |- repr_ctx _ _ _ => eapply repr_ctx_agree; [|eassumption]; solve_agree
  | |- _ !! _ = Some _ => solve_lookup
  end.

Ltac mrun := repeat (first [ progress (unfold bind) | mread | progress msimpl ]).

Ltac solve_frame :=
  repeat (first [ eassumption | apply frame_eq_refl | eapply frame_eq_trans; [eassumption|] ]).

Ltac solve_ne :=
  first [ congruence
        | apply addr_ne; [assumption|congruence]
        | apply not_eq_sym; apply addr_ne; [assumption|congruence]
        | unfold sentinel; congruence ].

(** The node [x] of the goal is below the root of the tree. *)
Ltac solve_root_ne :=
  match goal with
  | Hrep : rep ?st _ |- Some ?x ≠ _ =>
      rep_at Hrep x ltac:(fun H => exact (root_ne _ _ _ _ H))
  end.

Ltac mdecide :=
  match goal with
  | |- context [decide (?a ≠ ?b)] =>
      first [ rewrite (decide_True (P := a ≠ b)) by first [solve_root_ne | solve_ne]
            | rewrite (decide_False (P := a ≠ b)) by (intros ?; done) ]
  | |- context [decide (?a = ?b)] =>
      first [ rewrite (decide_True (P := a = b)) by reflexivity
            | rewrite (decide_False (P := a = b)) by solve_ne ]
  | |- context [bool_decide (?a = ?b)] =>
      first [ rewrite (bool_decide_eq_true_2 (a = b)) by reflexivity
            | rewrite (bool_decide_eq_false_2 (a = b)) by solve_ne ]
  | |- context [bool_decide (?a ≠ ?b)] =>
      first [ rewrite (bool_decide_eq_true_2 (a ≠ b)) by solve_ne
            | rewrite (bool_decide_eq_false_2 (a ≠ b)) by (intros ?; done) ]
  end.

Ltac mcolor :=
  match goal with
  | Hrep : rep ?st _ |- context [set_color (Some ?x) ?c ?st] =>
      rep_at Hrep x ltac:(fun H =>
        let st' := fresh "st" in let Hrun := fresh "Hrun" in
        let Hrep' := fresh "Hrep" in let Hf := fresh "Hf" in
        destruct (set_color_focus _ _ _ _ _ _ _ _ _ c H) as (st' & Hrun & Hrep' & Hf);
        rewrite Hrun; clear Hrun; cbn [plug fill] in Hrep')
  end.

Ltac mhyp :=
  match goal with
  | H : tcolor ?t = _ |- context [tcolor ?t] => rewrite H
  | H : is_leaf ?t = _ |- context [is_leaf ?t] => rewrite H
  end.

Section Operations.
Context {K V : Type}.
Context (augmented : bool) (compareFn : K → K → Ordering) (key1 : K → Z).

Abbreviation Node := (Node.t K V).
Abbreviation Tree := (RB.Tree K V).
Abbreviation M := (RB.M K V).
Abbreviation tree := (@tree K V).
Abbreviation frame := (@frame K V).

(** ** Rotations *)

(** The value that [updateNodeMax] stores. *)
Definition nmax (k : K) (l r : tree) : Z :=
  match l, r with
  | Leaf, Leaf => key1 k
  | Leaf, T _ _ _ _ _ rm _ => max (key1 k) rm
  | T _ _ _ _ _ lm _, Leaf => max (key1 k) lm
  | T _ _ _ _ _ lm _, T _ _ _ _ _ rm _ => max3 (key1 k) lm rm
  end.

Definition amax (k : K) (m : Z) (l r : tree) : Z :=
  if augmented then nmax k l r else m.

Lemma updateNodeMax_focus st ctx x c l k v m r :
  rep st (plug ctx (T x c l k v m r)) →
  ∃ st', updateNodeMax key1 (Some x) st = Ok (tt, st')
         ∧ rep st' (plug ctx (T x c l k v (nmax k l r) r))
         ∧ frame_eq st st'.
Proof.
  intros H.
  eexists. split; [|split; [eapply rep_put_data, H|by eapply frame_eq_put]].
  unfold updateNodeMax. mrun.
  destruct l as [|lp lc ll lk lv lm lr], r as [|rp rc rl rk rv rm rr]; mrun;
    unfold set_max; by rewrite (update_Some _ _ _ _ (rep_focus _ _ _ _ _ _ _ _ _ H)).
Qed.


Lemma sentinel_lookup st t :
  rep st t → ∃ par, heap st !! 0%nat = Some (Node.mk par None None black None None true 0 : Node).
Proof. intros H. apply H. Qed.

Lemma rotateLeft_ptr st ctx x cx a kx vx mx y cy b ky vy my c :
  rep st (plug ctx (T x cx a kx vx mx (T y cy b ky vy my c))) →
  ∃ st1 : Tree,
    rep st1 (plug ctx (T y cy (T x cx a kx vx mx b) ky vy my c))
    ∧ frame_eq st st1
    ∧ ∀ aug : bool,
        rotateLeft aug key1 (Some x) st =
        if aug then
          (_ ← updateNodeMax key1 (Some x);
           yn ← get_nil (Some y);
           when (negb yn) (updateNodeMax key1 (Some y))) st1
        else Ok (tt, st1).
Proof.
  intros H.
  pose proof (rep_focus _ _ _ _ _ _ _ _ _ H) as Hx.
  pose proof (rep_focus st (FR x cx a kx vx mx :: ctx) _ _ _ _ _ _ _ H) as Hy.
  destruct (sentinel_lookup _ _ H) as [npar H0].
  destruct (rep_view _ _ _ H) as [(_ & Ha & _ & Hb & Hc) Hctx].
  assert (sentinel_ok (heap st)) as Hs by apply H.
  pose proof (rep_root _ _ H) as Hroot.
  destruct b as [|bp bc bl bk bv bm br];
    [|pose proof (rep_focus st (FL y cy ky vy my c :: FR x cx a kx vx mx :: ctx) _ _ _ _ _ _ _ H)
        as Hbp;
      destruct Hb as (_ & Hbl & Hbr)];
  (destruct ctx as [|[p pc pk pv pm pr|p pc pl pk pv pm] ctx];
    [|pose proof (rep_focus st ctx _ _ _ _ _ _ _ H) as Hp; destruct Hctx as [[_ Hpr] Hctx]
     |pose proof (rep_focus st ctx _ _ _ _ _ _ _ H) as Hp; destruct Hctx as [[_ Hpl] Hctx]]).
  all: addr_facts H.
  all: eexists; split; [|split]; [| |intros []; unfold rotateLeft; rrun; reflexivity].
  all: try (split_and!; msimpl; rewrite ?lookup_insert_ne by done; reflexivity).
  all: eapply rep_intro; [exact H|simpl; solve_Permutation| | | |done].
  all: try (destruct Hs as [par Hs]; exists par; solve_lookup).
  all: try (msimpl; first [reflexivity | rewrite Hroot; apply addr_plug_cons]).
  all: apply repr_plug; cbn [caddr faddr addr].
  all: solve_repr.
Qed.


(** A node whose [max] has been recomputed by [updateNodeMax], where the
    class maintains it. *)
Definition N (p : loc) (c : Color) (l : tree) (k : K) (v : V) (m : Z) (r : tree) : tree :=
  T p c l k v (amax k m l r) r.

Lemma rotateLeft_focus st ctx x cx a kx vx mx y cy b ky vy my c :
  rep st (plug ctx (T x cx a kx vx mx (T y cy b ky vy my c))) →
  ∃ st',
    rotateLeft augmented key1 (Some x) st = Ok (tt, st')
    ∧ rep st' (plug ctx (N y cy (N x cx a kx vx mx b) ky vy my c))
    ∧ frame_eq st st'.
Proof.
  intros H. destruct (rotateLeft_ptr _ _ _ _ _ _ _ _ _ _ _ _ _ _ _ H) as (st1 & H1 & Hf1 & Hrun).
  rewrite Hrun. unfold N, amax. destruct augmented; [|by eauto].
  destruct (updateNodeMax_focus st1 (FL y cy ky vy my c :: ctx) _ _ _ _ _ _ _ H1)
    as (st2 & Hrun2 & H2 & Hf2).
  cbn [plug fill] in H2.
  destruct (updateNodeMax_focus st2 ctx _ _ _ _ _ _ _ H2) as (st3 & Hrun3 & H3 & Hf3).
  exists st3. split; [|split; [done|by repeat (eapply frame_eq_trans; [eassumption|])]].
  unfold bind at 1. rewrite Hrun2. mrun. done.
Qed.

Lemma rotateRight_ptr st ctx x cx a kx vx mx y cy b ky vy my c :
  rep st (plug ctx (T x cx (T y cy a ky vy my b) kx vx mx c)) →
  ∃ st1 : Tree,
    rep st1 (plug ctx (T y cy a ky vy my (T x cx b kx vx mx c)))
    ∧ frame_eq st st1
    ∧ ∀ aug : bool,
        rotateRight aug key1 (Some x) st =
        if aug then
          (_ ← updateNodeMax key1 (Some x);
           yn ← get_nil (Some y);
           when (negb yn) (updateNodeMax key1 (Some y))) st1
        else Ok (tt, st1).
Proof.
  intros H.
  pose proof (rep_focus _ _ _ _ _ _ _ _ _ H) as Hx.
  pose proof (rep_focus st (FL x cx kx vx mx c :: ctx) _ _ _ _ _ _ _ H) as Hy.
  destruct (sentinel_lookup _ _ H) as [npar H0].
  destruct (rep_view _ _ _ H) as [(_ & (_ & Ha & Hb) & Hc) Hctx].
  assert (sentinel_ok (heap st)) as Hs by apply H.
  pose proof (rep_root _ _ H) as Hroot.
  destruct b as [|bp bc bl bk bv bm br];
    [|pose proof (rep_focus st (FR y cy a ky vy my :: FL x cx kx vx mx c :: ctx) _ _ _ _ _ _ _ H)
        as Hbp;
      destruct Hb as (_ & Hbl & Hbr)];
  (destruct ctx as [|[p pc pk pv pm pr|p pc pl pk pv pm] ctx];
    [|pose proof (rep_focus st ctx _ _ _ _ _ _ _ H) as Hp; destruct Hctx as [[_ Hpr] Hctx]
     |pose proof (rep_focus st ctx _ _ _ _ _ _ _ H) as Hp; destruct Hctx as [[_ Hpl] Hctx]]).
  all: addr_facts H.
  all: eexists; split; [|split]; [| |intros []; unfold rotateRight; rrun; reflexivity].
  all: try (split_and!; msimpl; rewrite ?lookup_insert_ne by done; reflexivity).
  all: eapply rep_intro; [exact H|simpl; solve_Permutation| | | |done].
  all: try (destruct Hs as [par Hs]; exists par; solve_lookup).
  all: try (msimpl; first [reflexivity | rewrite Hroot; apply addr_plug_cons]).
  all: apply repr_plug; cbn [caddr faddr addr].
  all: solve_repr.
Qed.

Lemma rotateRight_focus st ctx x cx a kx vx mx y cy b ky vy my c :
  rep st (plug ctx (T x cx (T y cy a ky vy my b) kx vx mx c)) →
  ∃ st',
    rotateRight augmented key1 (Some x) st = Ok (tt, st')
    ∧ rep st' (plug ctx (N y cy a ky vy my (N x cx b kx vx mx c)))
    ∧ frame_eq st st'.
Proof.
  intros H. destruct (rotateRight_ptr _ _ _ _ _ _ _ _ _ _ _ _ _ _ _ H) as (st1 & H1 & Hf1 & Hrun).
  rewrite Hrun. unfold N, amax. destruct augmented; [|by eauto].
  destruct (updateNodeMax_focus st1 (FR y cy a ky vy my :: ctx) _ _ _ _ _ _ _ H1)
    as (st2 & Hrun2 & H2 & Hf2).
  cbn [plug fill] in H2.
  destruct (updateNodeMax_focus st2 ctx _ _ _ _ _ _ _ H2) as (st3 & Hrun3 & H3 & Hf3).
  exists st3. split; [|split; [done|by repeat (eapply frame_eq_trans; [eassumption|])]].
  unfold bind at 1. rewrite Hrun2. mrun. done.
Qed.


Ltac mrot :=
  match goal with
  | Hrep : rep ?st _ |- context [rotateLeft _ _ (Some ?x) ?st] =>
      rep_at Hrep x ltac:(fun H =>
        let st' := fresh "st" in let Hrun := fresh "Hrun" in
        let Hrep' := fresh "Hrep" in let Hf := fresh "Hf" in
        destruct (rotateLeft_focus _ _ _ _ _ _ _ _ _ _ _ _ _ _ _ H) as (st' & Hrun & Hrep' & Hf);
        rewrite Hrun; clear Hrun; cbn [plug fill] in Hrep'; unfold N in Hrep')
  | Hrep : rep ?st _ |- context [rotateRight _ _ (Some ?x) ?st] =>
      rep_at Hrep x ltac:(fun H =>
        let st' := fresh "st" in let Hrun := fresh "Hrun" in
        let Hrep' := fresh "Hrep" in let Hf := fresh "Hf" in
        destruct (rotateRight_focus _ _ _ _ _ _ _ _ _ _ _ _ _ _ _ H) as (st' & Hrun & Hrep' & Hf);
        rewrite Hrun; clear Hrun; cbn [plug fill] in Hrep'; unfold N in Hrep')
  end.

Ltac mgo :=
  repeat (first [ progress msimpl | progress (unfold bind) | mread | mhyp | mdecide | mcolor
                | mrot ]).

(** ** [insertFixup] *)

Definition fcolor (f : frame) : Color :=
  match f with
  | FL _ c _ _ _ _ => c
  | FR _ c _ _ _ _ => c
  end.

Definition set_fcolor (c : Color) (f : frame) : frame :=
  match f with
  | FL p _ k v m r => FL p c k v m r
  | FR p _ l k v m => FR p c l k v m
  end.

(** The uncle is red and the parent is a left child: recolour and move up. *)
Lemma insertFixup_recolor_l fuel st ctx fp g cg kg vg mg u ul ku vu mu ur x cx xl kx vx mx xr :
  rep st (plug (fp :: FL g cg kg vg mg (T u red ul ku vu mu ur) :: ctx) (T x cx xl kx vx mx xr)) →
  fcolor fp = red →
  ∃ st',
    insertFixup_loop augmented key1 (S fuel) (Some x) st
    = insertFixup_loop augmented key1 fuel (Some g) st'
    ∧ rep st' (plug ctx (T g red (fill (set_fcolor black fp) (T x cx xl kx vx mx xr)) kg vg mg
                           (T u black ul ku vu mu ur)))
    ∧ frame_eq st st'.
Proof.
  intros Hrep Hc.
  destruct fp as [p pc kp vp mp pr|p pc pl kp vp mp]; simpl in Hc; subst pc;
    addr_facts Hrep; cbn [plug fill] in Hrep; cbn [insertFixup_loop]; mgo.
  all: eexists; split; [reflexivity|split; [eassumption|solve_frame]].
Qed.

(** The uncle is black, the parent is a left child and [x] is a left child:
    one rotation at the grandparent. *)
Lemma insertFixup_rotate_ll fuel st ctx p kp vp mp b g cg kg vg mg u x cx xl kx vx mx xr :
  rep st (plug (FL p red kp vp mp b :: FL g cg kg vg mg u :: ctx) (T x cx xl kx vx mx xr)) →
  tcolor u = black →
  ∃ st',
    insertFixup_loop augmented key1 (S (S fuel)) (Some x) st = Ok (tt, st')
    ∧ rep st' (plug ctx (N p black (T x cx xl kx vx mx xr) kp vp mp (N g red b kg vg mg u)))
    ∧ frame_eq st st'.
Proof.
  intros Hrep Hc. addr_facts Hrep.
  cbn [plug fill] in Hrep; cbn [insertFixup_loop]; mgo.
  eexists; split; [reflexivity|split; [eassumption|solve_frame]].
Qed.

(** The same when [x] is a right child: two rotations. *)
Lemma insertFixup_rotate_lr fuel st ctx p kp vp mp a g cg kg vg mg u x cx xl kx vx mx xr :
  rep st (plug (FR p red a kp vp mp :: FL g cg kg vg mg u :: ctx) (T x cx xl kx vx mx xr)) →
  tcolor u = black →
  ∃ st',
    insertFixup_loop augmented key1 (S (S fuel)) (Some x) st = Ok (tt, st')
    ∧ rep st' (plug ctx (N x black (N p red a kp vp mp xl) kx vx
                           (amax kx mx (N p red a kp vp mp xl) xr)
                           (N g red xr kg vg mg u)))
    ∧ frame_eq st st'.
Proof.
  intros Hrep Hc. addr_facts Hrep.
  cbn [plug fill] in Hrep; cbn [insertFixup_loop]; mgo.
  eexists; split; [reflexivity|split; [eassumption|solve_frame]].
Qed.

(** The mirror images: the parent is a right child. *)
Lemma insertFixup_recolor_r fuel st ctx fp g cg kg vg mg u ul ku vu mu ur x cx xl kx vx mx xr :
  rep st (plug (fp :: FR g cg (T u red ul ku vu mu ur) kg vg mg :: ctx) (T x cx xl kx vx mx xr)) →
  fcolor fp = red →
  ∃ st',
    insertFixup_loop augmented key1 (S fuel) (Some x) st
    = insertFixup_loop augmented key1 fuel (Some g) st'
    ∧ rep st' (plug ctx (T g red (T u black ul ku vu mu ur) kg vg mg
                           (fill (set_fcolor black fp) (T x cx xl kx vx mx xr))))
    ∧ frame_eq st st'.
Proof.
  intros Hrep Hc.
  destruct fp as [p pc kp vp mp pr|p pc pl kp vp mp]; simpl in Hc; subst pc;
    addr_facts Hrep; cbn [plug fill] in Hrep; cbn [insertFixup_loop]; mgo.
  all: eexists; split; [reflexivity|split; [eassumption|solve_frame]].
Qed.

Lemma insertFixup_rotate_rr fuel st ctx p kp vp mp a g cg kg vg mg u x cx xl kx vx mx xr :
  rep st (plug (FR p red a kp vp mp :: FR g cg u kg vg mg :: ctx) (T x cx xl kx vx mx xr)) →
  tcolor u = black →
  ∃ st',
    insertFixup_loop augmented key1 (S (S fuel)) (Some x) st = Ok (tt, st')
    ∧ rep st' (plug ctx (N p black (N g red u kg vg mg a) kp vp mp (T x cx xl kx vx mx xr)))
    ∧ frame_eq st st'.
Proof.
  intros Hrep Hc. addr_facts Hrep.
  cbn [plug fill] in Hrep; cbn [insertFixup_loop]; mgo.
  eexists; split; [reflexivity|split; [eassumption|solve_frame]].
Qed.

Lemma insertFixup_rotate_rl fuel st ctx p kp vp mp b g cg kg vg mg u x cx xl kx vx mx xr :
  rep st (plug (FL p red kp vp mp b :: FR g cg u kg vg mg :: ctx) (T x cx xl kx vx mx xr)) →
  tcolor u = black →
  ∃ st',
    insertFixup_loop augmented key1 (S (S fuel)) (Some x) st = Ok (tt, st')
    ∧ rep st' (plug ctx (N x black (N g red u kg vg mg xl) kx vx
                           (amax kx mx xl (N p red xr kp vp mp b))
                           (N p red xr kp vp mp b)))
    ∧ frame_eq st st'.
Proof.
  intros Hrep Hc. addr_facts Hrep.
  cbn [plug fill] in Hrep; cbn [insertFixup_loop]; mgo.
  eexists; split; [reflexivity|split; [eassumption|solve_frame]].
Qed.

(** The loop ends at the root and below a black parent. *)
Lemma insertFixup_stop_root fuel (st : Tree) x cx xl kx vx mx xr :
  rep st (T x cx xl kx vx mx xr) →
  insertFixup_loop augmented key1 (S fuel) (Some x) st = Ok (tt, st).
Proof.
  intros Hrep. change (rep st (plug [] (T x cx xl kx vx mx xr))) in Hrep.
  cbn [insertFixup_loop]; mgo. done.
Qed.

Lemma insertFixup_stop_black fuel (st : Tree) ctx fp x cx xl kx vx mx xr :
  rep st (plug (fp :: ctx) (T x cx xl kx vx mx xr)) →
  fcolor fp = black →
  insertFixup_loop augmented key1 (S fuel) (Some x) st = Ok (tt, st).
Proof.
  intros Hrep Hc.
  destruct fp as [p pc kp vp mp pr|p pc pl kp vp mp]; simpl in Hc; subst pc;
    cbn [plug fill] in Hrep; cbn [insertFixup_loop]; mgo; done.
Qed.
End Operations.
End RBFacts.

(** * Red-black shape and the repair after an insertion *)
Module RBFacts2.
Import RB RBFacts.
Open Scope rb_scope.

Section Shape.
Context {K V : Type}.
Abbreviation tree := (@tree K V).
Abbreviation frame := (@frame K V).

(** ** Red-black shape *)

(** [is_rb t n]: no red node of [t] has a red child, and every path from the
    root of [t] to a leaf has [n] black nodes. *)
Inductive is_rb : tree → nat → Prop :=
| is_rb_leaf : is_rb Leaf 0
| is_rb_red p l k v m r n :
    is_rb l n → is_rb r n → tcolor l = black → tcolor r = black →
    is_rb (T p red l k v m r) n
| is_rb_black p l k v m r n :
    is_rb l n → is_rb r n → is_rb (T p black l k v m r) (S n).

Definition blacken (t : tree) : tree :=
  match t with
  | Leaf => Leaf
  | T p _ l k v m r => T p black l k v m r
  end.

Definition bump (c : Color) (n : nat) : nat :=
  match c with black => S n | red => n end.

(** [ctx_rb hc n ctx]: plugging a tree of black height [n] whose root has
    colour [hc] into [ctx] gives a red-black tree. *)
Fixpoint ctx_rb (hc : Color) (n : nat) (ctx : list frame) : Prop :=
  match ctx with
  | [] => True
  | f :: ctx =>
      is_rb (fsib f) n
      ∧ (@fcolor K V f = red → hc = black ∧ tcolor (fsib f) = black)
      ∧ ctx_rb (fcolor f) (bump (fcolor f) n) ctx
  end.

Definition root_black (ctx : list frame) : Prop :=
  ∀ f : frame, last ctx = Some f → fcolor f = black.

Lemma tcolor_fill (f : frame) (t : tree) : tcolor (fill f t) = fcolor f.
Proof. by destruct f. Qed.

Lemma is_rb_fill (f : frame) (t : tree) n hc :
  is_rb t n → tcolor t = hc → is_rb (fsib f) n →
  (fcolor f = red → hc = black ∧ tcolor (fsib f) = black) →
  is_rb (fill f t) (bump (fcolor f) n).
Proof.
  intros Ht Hc Hs Hf. destruct f as [p [] k v m r|p [] l k v m]; simpl in *;
    try (destruct Hf as [? ?]; [done|]; subst);
    first [by apply is_rb_red | by apply is_rb_black].
Qed.

Lemma plug_rb (ctx : list frame) (t : tree) n :
  is_rb t n → ctx_rb (tcolor t) n ctx → ∃ n', is_rb (plug ctx t) n'.
Proof.
  revert t n. induction ctx as [|f ctx IH]; intros t n Ht Hc; simpl in *; [by eauto|].
  destruct Hc as (Hs & Hf & Hc). eapply IH; [|by rewrite tcolor_fill].
  by eapply is_rb_fill.
Qed.

Lemma unplug_rb (ctx : list frame) (t : tree) n' :
  is_rb (plug ctx t) n' → ∃ n, is_rb t n ∧ ctx_rb (tcolor t) n ctx.
Proof.
  revert t. induction ctx as [|f ctx IH]; intros t H; simpl in *; [by eauto|].
  apply IH in H as (n & Hf & Hc). rewrite tcolor_fill in Hc.
  destruct f as [p c k v m r|p c l k v m]; inversion Hf; subst; simpl in *;
    eexists; (split; [eassumption|]); simpl; split_and!; try done.
Qed.

Lemma ctx_rb_black_top hc hc' n (f : frame) ctx :
  fcolor f = black → ctx_rb hc n (f :: ctx) → ctx_rb hc' n (f :: ctx).
Proof. intros Hf (?&?&?). simpl. rewrite Hf in *. split_and!; [done| |done]. done. Qed.

Lemma ctx_rb_weaken hc n ctx : ctx_rb hc n ctx → ctx_rb black n ctx.
Proof. destruct ctx as [|f ctx]; [done|]. intros (?&?&?). split_and!; naive_solver. Qed.

Lemma is_rb_blacken (t : tree) n : is_rb t n → ∃ n', is_rb (blacken t) n'.
Proof. destruct 1; simpl; eauto using is_rb. Qed.


(** ** The entries in order *)

Fixpoint inorder (t : tree) : list (K * V) :=
  match t with
  | Leaf => []
  | T _ _ l k v _ r => inorder l ++ (k, v) :: inorder r
  end.

Definition before (f : frame) : list (K * V) :=
  match f with
  | FL _ _ _ _ _ _ => []
  | FR _ _ l k v _ => inorder l ++ [(k, v)]
  end.

Definition after (f : frame) : list (K * V) :=
  match f with
  | FL _ _ k v _ r => (k, v) :: inorder r
  | FR _ _ _ _ _ _ => []
  end.

Fixpoint cbefore (ctx : list frame) : list (K * V) :=
  match ctx with
  | [] => []
  | f :: ctx => cbefore ctx ++ before f
  end.

Fixpoint cafter (ctx : list frame) : list (K * V) :=
  match ctx with
  | [] => []
  | f :: ctx => after f ++ cafter ctx
  end.

Lemma inorder_plug (ctx : list frame) (t : tree) : inorder (plug ctx t) = cbefore ctx ++ inorder t ++ cafter ctx.
Proof.
  revert t. induction ctx as [|f ctx IH]; intros t; simpl; [by rewrite app_nil_r|].
  rewrite IH. destruct f; simpl; by rewrite <- ?app_assoc.
Qed.

Lemma inorder_blacken (t : tree) : inorder (blacken t) = inorder t.
Proof. by destruct t. Qed.

Lemma addrs_blacken (t : tree) : addrs (blacken t) = addrs t.
Proof. by destruct t. Qed.

Lemma root_black_plug (ctx : list frame) (t : tree) :
  tcolor (plug ctx t) = black → ctx ≠ [] → root_black ctx.
Proof.
  revert t. induction ctx as [|f ctx IH]; intros t Hc Hne g Hl; [done|].
  destruct ctx as [|f' ctx].
  - simpl in *. rewrite tcolor_fill in Hc. by simplify_eq.
  - eapply (IH (fill f t)); [done..|]. by rewrite last_cons_cons in Hl.
Qed.

Lemma root_black_tail (f g : frame) ctx : root_black (f :: g :: ctx) → root_black (g :: ctx).
Proof. intros H h Hl. apply H. by rewrite last_cons_cons. Qed.

Lemma root_black_tail2 (f g : frame) ctx : root_black (f :: g :: ctx) → root_black ctx.
Proof.
  intros H h Hl. apply H. destruct ctx; [done|]. by rewrite !last_cons_cons.
Qed.

End Shape.

Section Insert.
Context {K V : Type}.
Context (augmented : bool) (key1 : K → Z).
Abbreviation Tree := (RB.Tree K V).
Abbreviation tree := (@tree K V).
Abbreviation frame := (@frame K V).
Abbreviation nmax := (nmax key1).
Abbreviation N := (N augmented key1).

(** ** The [max] fields *)

(** Every node of [t] holds the value that [updateNodeMax] computes. *)
Fixpoint all_ok (t : tree) : Prop :=
  match t with
  | Leaf => True
  | T _ _ l k _ m r => m = nmax k l r ∧ all_ok l ∧ all_ok r
  end.

(** The same for the nodes that are not proper ancestors of [z]. *)
Fixpoint aok (z : loc) (t : tree) : Prop :=
  match t with
  | Leaf => True
  | T _ _ l k _ m r => (m = nmax k l r ∨ z ∈ addrs l ++ addrs r) ∧ aok z l ∧ aok z r
  end.

Lemma all_ok_aok z (t : tree) : all_ok t → aok z t.
Proof. induction t; simpl; naive_solver. Qed.

Lemma aok_all_ok z (t : tree) : z ∉ addrs t → aok z t → all_ok t.
Proof.
  induction t as [|p c l IHl k v m r IHr]; simpl; [done|].
  rewrite not_elem_of_cons, not_elem_of_app. intros (?&?&?) ([?|Hin]&?&?).
  - auto.
  - apply elem_of_app in Hin. tauto.
Qed.

Lemma aok_fill z (f : frame) (t : tree) :
  z ∈ addrs t → aok z (fill f t) ↔ aok z t ∧ aok z (fsib f).
Proof. destruct f; simpl; rewrite elem_of_app; tauto. Qed.

Lemma elem_of_addrs_fill z (f : frame) (t : tree) : z ∈ addrs t → z ∈ addrs (fill f t).
Proof. rewrite addrs_fill. set_solver. Qed.

Lemma aok_plug z (ctx : list frame) (t : tree) :
  z ∈ addrs t → aok z (plug ctx t) ↔ aok z t ∧ Forall (λ f, aok z (fsib f)) ctx.
Proof.
  revert t. induction ctx as [|f ctx IH]; intros t Hz; simpl.
  - rewrite Forall_nil. tauto.
  - rewrite IH by by apply elem_of_addrs_fill. rewrite aok_fill, Forall_cons by done. tauto.
Qed.

Lemma aok_blacken z (t : tree) : aok z (blacken t) ↔ aok z t.
Proof. by destruct t. Qed.

Lemma all_ok_blacken (t : tree) : all_ok (blacken t) ↔ all_ok t.
Proof. by destruct t. Qed.

(** ** [insertFixup] *)

Lemma is_rb_finish_black (ctx : list frame) (t : tree) n :
  is_rb t n → tcolor t = black → ctx_rb black n ctx → ∃ n', is_rb (blacken (plug ctx t)) n'.
Proof.
  intros Ht Hc Hctx. destruct (plug_rb ctx t n) as [n' Hn']; [done|by rewrite Hc|].
  by eapply is_rb_blacken.
Qed.

Ltac solve_inorder :=
  rewrite ?inorder_plug; cbn [inorder fill RBFacts.N cbefore cafter before after];
  by simplify_list_eq.

Ltac solve_in :=
  match goal with
  | Hz : _ ∈ _ |- _ ∈ _ => clear -Hz; simpl in *; set_unfold; tauto
  end.

Ltac solve_addrs :=
  rewrite ?addrs_plug; cbn [addrs fill RBFacts.N]; solve_Permutation.

Lemma insertFixup_loop_spec fuel : ∀ (st : Tree) ctx x xl kx vx mx xr n z,
  rep st (plug ctx (T x red xl kx vx mx xr)) →
  is_rb (T x red xl kx vx mx xr) n → ctx_rb black n ctx → root_black ctx →
  z ∈ addrs (T x red xl kx vx mx xr) →
  (length ctx < fuel)%nat →
  ∃ st' T',
    insertFixup_loop augmented key1 fuel (Some x) st = Ok (tt, st')
    ∧ rep st' T' ∧ frame_eq st st'
    ∧ inorder T' = inorder (plug ctx (T x red xl kx vx mx xr))
    ∧ addrs T' ≡ₚ addrs (plug ctx (T x red xl kx vx mx xr))
    ∧ (∃ n', is_rb (blacken T') n')
    ∧ (augmented = true → aok z (plug ctx (T x red xl kx vx mx xr)) → aok z T').
Proof.
  induction fuel as [|fuel IH]; intros st ctx x xl kx vx mx xr n z Hrep Hrb Hctx Hroot Hz Hfuel;
    [lia|].
  destruct ctx as [|fp ctx].
  { exists st, (T x red xl kx vx mx xr). erewrite insertFixup_stop_root by exact Hrep.
    split_and!; try done.
    inversion Hrb; subst. eexists. simpl. by apply is_rb_black. }
  destruct (fcolor fp) eqn:Hfp; last first.
  { exists st, (plug (fp :: ctx) (T x red xl kx vx mx xr)).
    erewrite insertFixup_stop_black; [|exact Hrep|exact Hfp].
    split_and!; try done.
    destruct (plug_rb (fp :: ctx) (T x red xl kx vx mx xr) n) as [n' Hn']; [done| |].
    - by eapply ctx_rb_black_top.
    - by eapply is_rb_blacken. }
  destruct ctx as [|fg ctx]; [by rewrite (Hroot fp) in Hfp|].
  destruct Hctx as (Hb & Hfpc & Hctx). rewrite Hfp in Hfpc, Hctx.
  destruct Hfpc as [_ Hbc]; [done|]. simpl in Hctx.
  destruct Hctx as (Hu & Hfgc & Hctx).
  destruct (fcolor fg) eqn:Hfg; [by destruct Hfgc|]. clear Hfgc. simpl in Hctx.
  apply root_black_tail2 in Hroot.
  assert (Hcases : ∀ u : tree, tcolor u = black ∨ ∃ a ul ku vu mu ur, u = T a red ul ku vu mu ur).
  { intros [|a [] ul ku vu mu ur]; eauto 10. }
  destruct fg as [g cg kg vg mg u|g cg u kg vg mg]; simpl in Hfg, Hu; subst cg;
    destruct (Hcases u) as [Huc|(a & ul & ku & vu & mu & ur & ->)].
  - (* parent is a left child, uncle black *)
    destruct fuel as [|fuel]; [simpl in Hfuel; lia|].
    destruct fp as [p cp kp vp mp b|p cp a kp vp mp]; simpl in Hfp, Hb, Hbc; subst cp.
    + edestruct (insertFixup_rotate_ll (V:=V) augmented key1 fuel) as (st' & Hrun & Hrep' & Hf);
        [exact Hrep|exact Huc|].
      eexists st', _. split_and!; [done|done|done|solve_inorder|solve_addrs| |].
      * apply (is_rb_finish_black _ _ (S n)); [|done|done].
        unfold RBFacts.N. apply is_rb_black; [done|]. by apply is_rb_red.
      * intros Haug. rewrite !aok_plug; [|solve_in..].
        unfold RBFacts.N, amax. rewrite Haug. simpl. rewrite !Forall_cons. simpl. tauto.
    + edestruct (insertFixup_rotate_lr (V:=V) augmented key1 fuel) as (st' & Hrun & Hrep' & Hf);
        [exact Hrep|exact Huc|].
      inversion Hrb; subst.
      eexists st', _. split_and!; [done|done|done|solve_inorder|solve_addrs| |].
      * apply (is_rb_finish_black _ _ (S n)); [|done|done].
        unfold RBFacts.N. apply is_rb_black; by apply is_rb_red.
      * intros Haug. rewrite !aok_plug; [|solve_in..].
        unfold RBFacts.N, amax. rewrite Haug. simpl. rewrite !Forall_cons. simpl. tauto.
  - (* parent is a left child, uncle red *)
    edestruct (insertFixup_recolor_l (V:=V) augmented key1 fuel) as (st1 & Hrun & Hrep1 & Hf1);
      [exact Hrep|exact Hfp|].
    inversion Hu; subst.
    edestruct (IH st1 ctx g) as (st' & T' & Hrun' & Hrep' & Hf' & Hin & Hadd & Hrb' & Hok);
      [exact Hrep1| |exact Hctx|exact Hroot| |simpl in Hfuel; lia|].
    { apply is_rb_red; [|by apply is_rb_black|by rewrite tcolor_fill; destruct fp|done].
      destruct fp; simpl in *; by apply is_rb_black. }
    { instantiate (1 := z). destruct fp; solve_in. }
    exists st', T'. rewrite Hrun. split_and!; [done|done|by eapply frame_eq_trans| | |done|].
    + rewrite Hin. destruct fp; solve_inorder.
    + rewrite Hadd. destruct fp; solve_addrs.
    + intros Haug Ha. apply Hok; [done|]. revert Ha.
      rewrite !aok_plug; [|destruct fp; solve_in..].
      destruct fp; simpl; rewrite !Forall_cons; simpl; clear -Hz; set_unfold; tauto.
  - (* parent is a right child, uncle black *)
    destruct fuel as [|fuel]; [simpl in Hfuel; lia|].
    destruct fp as [p cp kp vp mp b|p cp a kp vp mp]; simpl in Hfp, Hb, Hbc; subst cp.
    + edestruct (insertFixup_rotate_rl (V:=V) augmented key1 fuel) as (st' & Hrun & Hrep' & Hf);
        [exact Hrep|exact Huc|].
      inversion Hrb; subst.
      eexists st', _. split_and!; [done|done|done|solve_inorder|solve_addrs| |].
      * apply (is_rb_finish_black _ _ (S n)); [|done|done].
        unfold RBFacts.N. apply is_rb_black; by apply is_rb_red.
      * intros Haug. rewrite !aok_plug; [|solve_in..].
        unfold RBFacts.N, amax. rewrite Haug. simpl. rewrite !Forall_cons. simpl. tauto.
    + edestruct (insertFixup_rotate_rr (V:=V) augmented key1 fuel) as (st' & Hrun & Hrep' & Hf);
        [exact Hrep|exact Huc|].
      eexists st', _. split_and!; [done|done|done|solve_inorder|solve_addrs| |].
      * apply (is_rb_finish_black _ _ (S n)); [|done|done].
        unfold RBFacts.N. apply is_rb_black; [|done]. by apply is_rb_red.
      * intros Haug. rewrite !aok_plug; [|solve_in..].
        unfold RBFacts.N, amax. rewrite Haug. simpl. rewrite !Forall_cons. simpl. tauto.
  - (* parent is a right child, uncle red *)
    edestruct (insertFixup_recolor_r (V:=V) augmented key1 fuel) as (st1 & Hrun & Hrep1 & Hf1);
      [exact Hrep|exact Hfp|].
    inversion Hu; subst.
    edestruct (IH st1 ctx g) as (st' & T' & Hrun' & Hrep' & Hf' & Hin & Hadd & Hrb' & Hok);
      [exact Hrep1| |exact Hctx|exact Hroot| |simpl in Hfuel; lia|].
    { apply is_rb_red; [by apply is_rb_black| |done|by rewrite tcolor_fill; destruct fp].
      destruct fp; simpl in *; by apply is_rb_black. }
    { instantiate (1 := z). destruct fp; solve_in. }
    exists st', T'. rewrite Hrun. split_and!; [done|done|by eapply frame_eq_trans| | |done|].
    + rewrite Hin. destruct fp; solve_inorder.
    + rewrite Hadd. destruct fp; solve_addrs.
    + intros Haug Ha. apply Hok; [done|]. revert Ha.
      rewrite !aok_plug; [|destruct fp; solve_in..].
      destruct fp; simpl; rewrite !Forall_cons; simpl; clear -Hz; set_unfold; tauto.
Qed.

End Insert.
End RBFacts2.

(** * Comparison functions, sorted entries and [set] *)
Module RBFacts3.
Import RB RBFacts RBFacts2.
Open Scope rb_scope.

(** ** Comparison functions *)

(** What the trees ask of [compareFn]: a strict total order whose [EQ] is
    equality. *)
Record cmp_laws {K : Type} (compareFn : K → K → Ordering) : Prop := mk_cmp_laws {
  cmp_eq : ∀ a b, compareFn a b = EQ ↔ a = b;
  cmp_gt : ∀ a b, compareFn a b = GT ↔ compareFn b a = LT;
  cmp_trans : ∀ a b c, compareFn a b = LT → compareFn b c = LT → compareFn a c = LT
}.

Lemma default_cmp_laws : cmp_laws defaultCompareFunction.
Proof.
  split; unfold defaultCompareFunction; intros; repeat case_decide; try split; try done; lia.
Qed.

Lemma interval_cmp_laws : cmp_laws interval_compareFn.
Proof.
  split; unfold interval_compareFn.
  - intros [a1 a2] [b1 b2]; simpl. repeat case_decide; split; try done; intros; simplify_eq; try lia.
    f_equal; lia.
  - intros [a1 a2] [b1 b2]; simpl. repeat case_decide; split; try done; intros; simplify_eq; lia.
  - intros [a1 a2] [b1 b2] [c1 c2]; simpl. repeat case_decide; try done; intros; simplify_eq; lia.
Qed.

Section Sorted.
Context {K V : Type} (compareFn : K → K → Ordering).
Context (laws : cmp_laws compareFn).

Definition klt (a b : K * V) : Prop := compareFn a.1 b.1 = LT.

Definition sorted (l : list (K * V)) : Prop := StronglySorted klt l.

(** The association list after [set(key, value)]. *)
Fixpoint ins (key : K) (value : V) (l : list (K * V)) : list (K * V) :=
  match l with
  | [] => [(key, value)]
  | (k, v) :: l' =>
      match compareFn key k with
      | LT => (key, value) :: l
      | EQ => (k, value) :: l'
      | GT => (k, v) :: ins key value l'
      end
  end.

(** The association list after [delete(key)]. *)
Fixpoint del (key : K) (l : list (K * V)) : list (K * V) :=
  match l with
  | [] => []
  | (k, v) :: l' =>
      match compareFn key k with
      | LT => l
      | EQ => l'
      | GT => (k, v) :: del key l'
      end
  end.

(** The value under [key]. *)
Fixpoint find_key (key : K) (l : list (K * V)) : option V :=
  match l with
  | [] => None
  | (k, v) :: l' =>
      match compareFn key k with
      | LT => None
      | EQ => Some v
      | GT => find_key key l'
      end
  end.

Definition below (key : K) (l : list (K * V)) : Prop :=
  Forall (λ kv, compareFn kv.1 key = LT) l.

Definition above (key : K) (l : list (K * V)) : Prop :=
  Forall (λ kv, compareFn key kv.1 = LT) l.

Lemma cmp_refl a : compareFn a a = EQ.
Proof using laws. by apply laws. Qed.

Lemma cmp_lt_gt a b : compareFn a b = LT → compareFn b a = GT.
Proof using laws. intros. by apply laws. Qed.

Lemma ins_gap key value l1 l2 :
  below key l1 → above key l2 → ins key value (l1 ++ l2) = l1 ++ (key, value) :: l2.
Proof using laws.
  intros H1 H2. induction H1 as [|[k v] l1 Hk _ IH]; simpl.
  - destruct H2 as [|[k v] l2 Hk _]; simpl; [done|]. simpl in Hk. by rewrite Hk.
  - simpl in Hk. rewrite (cmp_lt_gt _ _ Hk). by rewrite IH.
Qed.

Lemma ins_found key value v0 l1 l2 :
  below key l1 → ins key value (l1 ++ (key, v0) :: l2) = l1 ++ (key, value) :: l2.
Proof using laws.
  intros H1. induction H1 as [|[k v] l1 Hk _ IH]; simpl.
  - by rewrite cmp_refl.
  - simpl in Hk. rewrite (cmp_lt_gt _ _ Hk). by rewrite IH.
Qed.

Lemma del_gap key l1 l2 :
  below key l1 → above key l2 → del key (l1 ++ l2) = l1 ++ l2.
Proof using laws.
  intros H1 H2. induction H1 as [|[k v] l1 Hk _ IH]; simpl.
  - destruct H2 as [|[k v] l2 Hk _]; simpl; [done|]. simpl in Hk. by rewrite Hk.
  - simpl in Hk. rewrite (cmp_lt_gt _ _ Hk). by rewrite IH.
Qed.

Lemma del_found key v0 l1 l2 :
  below key l1 → del key (l1 ++ (key, v0) :: l2) = l1 ++ l2.
Proof using laws.
  intros H1. induction H1 as [|[k v] l1 Hk _ IH]; simpl.
  - by rewrite cmp_refl.
  - simpl in Hk. rewrite (cmp_lt_gt _ _ Hk). by rewrite IH.
Qed.

Lemma find_key_gap key l1 l2 :
  below key l1 → above key l2 → find_key key (l1 ++ l2) = None.
Proof using laws.
  intros H1 H2. induction H1 as [|[k v] l1 Hk _ IH]; simpl.
  - destruct H2 as [|[k v] l2 Hk _]; simpl; [done|]. simpl in Hk. by rewrite Hk.
  - simpl in Hk. rewrite (cmp_lt_gt _ _ Hk). by rewrite IH.
Qed.

Lemma find_key_found key v0 l1 l2 :
  below key l1 → find_key key (l1 ++ (key, v0) :: l2) = Some v0.
Proof using laws.
  intros H1. induction H1 as [|[k v] l1 Hk _ IH]; simpl.
  - by rewrite cmp_refl.
  - simpl in Hk. rewrite (cmp_lt_gt _ _ Hk). by rewrite IH.
Qed.

Lemma sorted_app l1 l2 :
  sorted (l1 ++ l2) ↔ (∀ a b, a ∈ l1 → b ∈ l2 → klt a b) ∧ sorted l1 ∧ sorted l2.
Proof. apply StronglySorted_app. Qed.

Lemma sorted_cons a l : sorted (a :: l) ↔ Forall (klt a) l ∧ sorted l.
Proof. apply StronglySorted_cons. Qed.

Lemma sorted_insert_gap key value l1 l2 :
  sorted (l1 ++ l2) → below key l1 → above key l2 → sorted (l1 ++ (key, value) :: l2).
Proof.
  rewrite !sorted_app, sorted_cons. unfold below, above. rewrite !Forall_forall.
  intros (H12 & H1 & H2) Hb Ha. split_and!; [|done|done|done].
  intros a b Ha1 Hb2. apply elem_of_cons in Hb2 as [->|Hb2]; [by apply Hb|by apply H12].
Qed.

Lemma sorted_replace key v0 value l1 l2 :
  sorted (l1 ++ (key, v0) :: l2) → sorted (l1 ++ (key, value) :: l2).
Proof.
  rewrite !sorted_app, !sorted_cons. intros (H12 & H1 & H2 & H3). split_and!; [|done..].
  intros a b Ha Hb. apply elem_of_cons in Hb as [->|Hb].
  - apply (H12 a (key, v0)); [done|left].
  - apply H12; [done|by right].
Qed.

Lemma sorted_remove a l1 l2 : sorted (l1 ++ a :: l2) → sorted (l1 ++ l2).
Proof.
  rewrite !sorted_app, !sorted_cons. intros (H12 & H1 & H2 & H3). split_and!; [|done..].
  intros x y Hx Hy. apply H12; [done|by right].
Qed.

Lemma below_trans key k l : below k l → compareFn k key = LT → below key l.
Proof using laws.
  unfold below. intros H Hk. eapply Forall_impl; [exact H|]. simpl. intros kv ?.
  eapply (cmp_trans _ laws); eassumption.
Qed.

Lemma above_trans key k l : above k l → compareFn key k = LT → above key l.
Proof using laws.
  unfold above. intros H Hk. eapply Forall_impl; [exact H|]. simpl. intros kv ?.
  eapply (cmp_trans _ laws); eassumption.
Qed.

(** The keys of a sorted list around one of its entries. *)
Lemma sorted_split l1 k v l2 :
  sorted (l1 ++ (k, v) :: l2) → below k l1 ∧ above k l2.
Proof.
  rewrite sorted_app, sorted_cons. intros (H12 & _ & H2 & _). split.
  - apply Forall_forall. intros a Ha. apply (H12 a (k, v)); [done|left].
  - done.
Qed.

End Sorted.

Section Similar.
Context {K V : Type} (augmented : bool) (key1 : K → Z).
Abbreviation tree := (@tree K V).
Abbreviation frame := (@frame K V).

(** What a node reads of a child when it computes its [max]. *)
Definition msig (t : tree) : option Z :=
  match t with
  | Leaf => None
  | T _ _ _ _ _ m _ => Some m
  end.

Lemma nmax_msig k (l l' r r' : tree) :
  msig l = msig l' → msig r = msig r' → nmax key1 k l r = nmax key1 k l' r'.
Proof. destruct l, l', r, r'; simpl; congruence. Qed.

Lemma all_ok_plug (ctx : list frame) (t : tree) :
  all_ok key1 (plug ctx t) → all_ok key1 t ∧ Forall (λ f, all_ok key1 (fsib f)) ctx.
Proof.
  revert t. induction ctx as [|f ctx IH]; intros t H; simpl in *; [by rewrite Forall_nil|].
  apply IH in H as [Hf Hc]. rewrite Forall_cons. destruct f; simpl in *; tauto.
Qed.

Lemma all_ok_replace (ctx : list frame) (t t' : tree) :
  msig t = msig t' → all_ok key1 t' → all_ok key1 (plug ctx t) → all_ok key1 (plug ctx t').
Proof.
  revert t t'. induction ctx as [|f ctx IH]; intros t t' Hm Ht' H; simpl in *; [done|].
  eapply IH; [| |exact H]; [by destruct f|].
  apply all_ok_plug in H as [H _].
  destruct f; simpl in *; destruct H as (Hm' & ? & ?); (split_and!; [|done..]);
    rewrite Hm'; by apply nmax_msig.
Qed.

(** Trees with the same colours and entries in the same places. *)
Definition rb_similar (t t' : tree) : Prop :=
  tcolor t = tcolor t' ∧ (∀ n, is_rb t n → is_rb t' n).

Lemma rb_similar_fill (f : frame) (t t' : tree) :
  rb_similar t t' → rb_similar (fill f t) (fill f t').
Proof.
  intros [Hc Hrb]. split; [by destruct f|].
  intros n H. destruct f; simpl in *; inversion H; subst;
    first [apply is_rb_red | apply is_rb_black]; auto; congruence.
Qed.

Lemma rb_similar_plug (ctx : list frame) (t t' : tree) :
  rb_similar t t' → rb_similar (plug ctx t) (plug ctx t').
Proof.
  revert t t'. induction ctx as [|f ctx IH]; intros t t' H; simpl; [done|].
  by apply IH, rb_similar_fill.
Qed.

Lemma rb_similar_data p c (l : tree) k v m r k' v' m' :
  rb_similar (T p c l k v m r) (T p c l k' v' m' r).
Proof.
  split; [done|]. intros n H. inversion H; subst;
    first [by apply is_rb_red | by apply is_rb_black].
Qed.

(** ** [updateParentsMax] *)

Definition fix_frame (f : frame) (t : tree) : frame :=
  match f with
  | FL p c k v _ r => FL p c k v (nmax key1 k t r) r
  | FR p c l k v _ => FR p c l k v (nmax key1 k l t)
  end.

Fixpoint fix_ctx (ctx : list frame) (t : tree) : list frame :=
  match ctx with
  | [] => []
  | f :: ctx => fix_frame f t :: fix_ctx ctx (fill (fix_frame f t) t)
  end.

Lemma rb_similar_fix_frame (f : frame) (t : tree) :
  rb_similar (fill f t) (fill (fix_frame f t) t).
Proof. destruct f; apply rb_similar_data. Qed.

Lemma rb_similar_trans (t1 t2 t3 : tree) :
  rb_similar t1 t2 → rb_similar t2 t3 → rb_similar t1 t3.
Proof. intros [? ?] [? ?]. split; [congruence|auto]. Qed.

Lemma rb_similar_fix_ctx (ctx : list frame) (t : tree) :
  rb_similar (plug ctx t) (plug (fix_ctx ctx t) t).
Proof.
  revert t. induction ctx as [|f ctx IH]; intros t; simpl; [done|].
  eapply rb_similar_trans; [|apply IH]. apply rb_similar_plug, rb_similar_fix_frame.
Qed.

Lemma inorder_fix_ctx (ctx : list frame) (t : tree) :
  inorder (plug (fix_ctx ctx t) t) = inorder (plug ctx t).
Proof.
  revert t. induction ctx as [|f ctx IH]; intros t; simpl; [done|].
  rewrite IH, !inorder_plug. by destruct f.
Qed.

Lemma all_ok_fix_ctx (ctx : list frame) (t : tree) :
  all_ok key1 t → Forall (λ f, all_ok key1 (fsib f)) ctx → all_ok key1 (plug (fix_ctx ctx t) t).
Proof.
  revert t. induction ctx as [|f ctx IH]; intros t Ht Hc; simpl; [done|].
  apply Forall_cons in Hc as [Hf Hc]. apply IH; [|done]. by destruct f.
Qed.

Lemma length_fix_ctx (ctx : list frame) (t : tree) : length (fix_ctx ctx t) = length ctx.
Proof. revert t. induction ctx; intros; simpl; auto. Qed.

(** [updateNodeMax] writes the record of its node only. *)
Lemma updateNodeMax_keeps (st : RB.Tree K V) ctx x c l k v m r :
  rep st (plug ctx (T x c l k v m r)) →
  ∃ st', updateNodeMax key1 (Some x) st = Ok (tt, st')
         ∧ rep st' (plug ctx (T x c l k v (nmax key1 k l r) r))
         ∧ frame_eq st st'
         ∧ ∀ y, y ≠ x → heap st' !! y = heap st !! y.
Proof.
  intros H.
  eexists. split; [|split; [eapply rep_put_data, H|split; [by eapply frame_eq_put|]]].
  - unfold updateNodeMax. mrun.
    destruct l as [|lp lc ll lk lv lm lr], r as [|rp rc rl rk rv rm rr]; mrun;
      unfold set_max; by rewrite (update_Some _ _ _ _ (rep_focus _ _ _ _ _ _ _ _ _ H)).
  - intros y Hy. simpl. by apply lookup_insert_ne.
Qed.

Lemma updateParentsMax_spec fuel : ∀ (st : RB.Tree K V) ctx t,
  rep st (plug ctx t) →
  get_parent (addr t) st = Ok (caddr ctx, st) →
  (length ctx < fuel)%nat →
  ∃ st', updateParentsMax key1 fuel (addr t) st = Ok (tt, st')
    ∧ rep st' (plug (fix_ctx ctx t) t) ∧ frame_eq st st'
    ∧ ∀ y, y ∉ faddr <$> ctx → heap st' !! y = heap st !! y.
Proof.
  induction fuel as [|fuel IH]; intros st ctx t Hrep Hpar Hfuel; [lia|].
  cbn [updateParentsMax]. unfold bind at 1. rewrite Hpar.
  destruct ctx as [|f ctx]; [by exists st|].
  assert (∃ p c l k v m r, fill f t = T p c l k v m r ∧ faddr f = p) as
    (p & c & l & k & v & m & r & Hfill & Hp) by (destruct f; simpl; eauto 10).
  simpl in Hrep. rewrite Hfill in Hrep. msimpl. rewrite Hp.
  unfold bind at 1. rewrite (get_nil_focus _ _ _ _ _ _ _ _ _ Hrep). msimpl.
  destruct (updateNodeMax_keeps _ _ _ _ _ _ _ _ _ Hrep) as (st1 & Hrun & Hrep1 & Hf1 & Hk1).
  unfold bind. rewrite Hrun.
  assert (T p c l k v (nmax key1 k l r) r = fill (fix_frame f t) t) as Heq
    by (destruct f; simpl in *; by simplify_eq).
  rewrite Heq in Hrep1.
  destruct (IH st1 ctx (fill (fix_frame f t) t)) as (st' & Hrun' & Hrep' & Hf' & Hk');
    [done| |simpl in Hfuel; lia|].
  { rewrite <- Heq. simpl. by rewrite <- Heq in Hrep1; rewrite (get_parent_focus _ _ _ _ _ _ _ _ _ Hrep1). }
  exists st'. rewrite <- Heq in Hrun' at 1. simpl in Hrun'. split_and!; [done|done| |].
  - by eapply frame_eq_trans.
  - intros y Hy. rewrite fmap_cons, not_elem_of_cons in Hy. destruct Hy as [Hy1 Hy2].
    rewrite Hk' by done. apply Hk1. congruence.
Qed.

End Similar.

Section Insert.
Context {K V : Type}.
Context (augmented : bool) (compareFn : K → K → Ordering) (key1 : K → Z).
Context (laws : cmp_laws compareFn).
Abbreviation Tree := (RB.Tree K V).
Abbreviation Node := (Node.t K V).
Abbreviation tree := (@tree K V).
Abbreviation frame := (@frame K V).
Abbreviation sorted := (@sorted K V compareFn).
Abbreviation below := (@below K V compareFn).
Abbreviation above := (@above K V compareFn).

(** [key] lies between the entries to the left and to the right of the hole. *)
Definition gap (key : K) (ctx : list frame) : Prop :=
  below key (cbefore ctx) ∧ above key (cafter ctx).

Lemma length_ctx_le (ctx : list frame) (t : tree) :
  (length ctx + length (inorder t) ≤ length (inorder (plug ctx t)))%nat.
Proof.
  revert t. induction ctx as [|f ctx IH]; intros t; simpl; [lia|].
  specialize (IH (fill f t)). destruct f; simpl in *; rewrite length_app in IH; simpl in IH; lia.
Qed.

(** The descent of [insertNode]. *)
Lemma insertNode_loop_spec key value fuel : ∀ (st : Tree) ctx t,
  rep st (plug ctx t) → sorted (inorder (plug ctx t)) → gap key ctx →
  (length (inorder t) < fuel)%nat →
  ∃ res (st' : Tree) ctx',
    insertNode_loop compareFn fuel key value (addr t) (caddr ctx) st = Ok (res, st')
    ∧ gap key ctx'
    ∧ ((∃ x c l v m r,
          res = inl (Some x)
          ∧ plug ctx t = plug ctx' (T x c l key v m r)
          ∧ rep st' (plug ctx' (T x c l key value m r)) ∧ frame_eq st st')
       ∨ (res = inr (caddr ctx') ∧ st' = st ∧ plug ctx t = plug ctx' Leaf)).
Proof.
  induction fuel as [|fuel IH]; intros st ctx t Hrep Hs Hgap Hfuel; [lia|].
  cbn [insertNode_loop]. unfold bind at 1. rewrite (get_nil_addr _ _ _ Hrep).
  destruct t as [|x c l k v m r]; simpl.
  { exists (inr (caddr ctx)), st, ctx. split_and!; [done..|]. by right. }
  unfold bind at 1. rewrite (get_key_focus _ _ _ _ _ _ _ _ _ Hrep).
  pose proof Hs as Hs'. rewrite inorder_plug in Hs'. simpl in Hs'.
  apply sorted_app in Hs' as (_ & _ & Hs'). rewrite <- app_assoc in Hs'. simpl in Hs'.
  apply sorted_split in Hs' as [Hbl Har]. apply Forall_app in Har as [Har _].
  destruct Hgap as [Hgb Hga].
  destruct (compareFn key k) eqn:Hcmp.
  - (* LT *)
    unfold bind at 1. rewrite (get_left_focus _ _ _ _ _ _ _ _ _ Hrep).
    apply (IH st (FL x c k v m r :: ctx) l);
      [done|done| |simpl in Hfuel; rewrite length_app in Hfuel; simpl in Hfuel; lia].
    split; simpl; [by rewrite app_nil_r|]. unfold above. rewrite Forall_cons, Forall_app.
    split_and!; [done| |done].
    eapply above_trans; [done|exact Har|done].
  - (* GT *)
    unfold bind at 1. rewrite (get_right_focus _ _ _ _ _ _ _ _ _ Hrep).
    apply (IH st (FR x c l k v m :: ctx) r);
      [done|done| |simpl in Hfuel; rewrite length_app in Hfuel; simpl in Hfuel; lia].
    apply (cmp_gt _ laws) in Hcmp.
    split; simpl; [|done]. unfold below. rewrite !Forall_app, Forall_singleton.
    split_and!; [done| |done].
    eapply below_trans; [done|exact Hbl|done].
  - (* EQ *)
    apply (cmp_eq _ laws) in Hcmp. subst k.
    eexists (inl (Some x)), _, ctx. split_and!; [|done|].
    + unfold bind, set_value.
      by rewrite (update_Some _ _ _ _ (rep_focus _ _ _ _ _ _ _ _ _ Hrep)).
    + left. exists x, c, l, v, m, r. split_and!; [done|done| |by eapply frame_eq_put].
      eapply rep_put_data, Hrep.
Qed.

(** Replacing the subtree in the hole by one that may hold new nodes. *)
Lemma rep_grow (st st' : Tree) ctx (t t' : tree) :
  rep st (plug ctx t) →
  addr t' = addr t →
  NoDup (addrs t') →
  (∀ a, a ∈ addrs t' → (a ∉ caddrs ctx) ∧ a ≠ 0%nat ∧ (a < next st')%nat) →
  (next st ≤ next st')%nat →
  (∀ a, a ∈ caddrs ctx → heap st' !! a = heap st !! a) →
  repr (heap st') (caddr ctx) t' →
  sentinel_ok (heap st') →
  _root st' = _root st →
  rep st' (plug ctx t').
Proof.
  intros H Haddr Hnd Hnew Hnext Hag Hrepr Hs Hroot.
  destruct (rep_view _ _ _ H) as [_ Hc].
  destruct (rep_nodup_plug _ _ _ H) as [Hnd0 Hnz].
  destruct H as [_ Hr _ _ _ Hf].
  split.
  - apply repr_plug. split; [done|]. rewrite Haddr. by eapply repr_ctx_agree.
  - rewrite Hroot, Hr, !addr_plug, Haddr. done.
  - rewrite addrs_plug. apply NoDup_app in Hnd0 as (_ & _ & ?).
    apply NoDup_app. split_and!; [done| |done]. intros a Ha. by apply Hnew.
  - rewrite addrs_plug. rewrite not_elem_of_app in Hnz |- *. split; [|tauto].
    intros H0. by apply Hnew in H0 as (_ & ? & _).
  - done.
  - rewrite Forall_cons in Hf |- *. destruct Hf as [? Hf]. split; [lia|].
    rewrite addrs_plug in Hf |- *. rewrite Forall_app in Hf |- *. destruct Hf as [_ Hf].
    split.
    + apply Forall_forall. intros a Ha. by apply Hnew.
    + eapply Forall_impl; [exact Hf|]. simpl. intros; lia.
Qed.

(** Linking the new node below the parent that the descent found. *)
Lemma link_spec key value m0 (st : Tree) ctx :
  rep st (plug ctx Leaf) → gap key ctx →
  ∃ st' : Tree,
    (match caddr ctx with
     | None => set_root (Some (next st))
     | Some _ =>
         pk ← get_key (caddr ctx);
         (if decide (compareFn key pk = LT) then set_left (caddr ctx) (Some (next st))
          else set_right (caddr ctx) (Some (next st)))
     end)
      (mkTree (<[next st := Node.mk (caddr ctx) sentinel sentinel red (Some value) (Some key)
                              false m0]> (heap st))
         (S (next st)) (_root st) (_size st + 1))
    = Ok (tt, st')
    ∧ rep st' (plug ctx (T (next st) red Leaf key value m0 Leaf))
    ∧ _size st' = _size st + 1.
Proof.
  intros Hrep [Hgb Hga].
  assert (0 < next st)%nat as Hpos.
  { destruct Hrep as [_ _ _ _ _ Hf]. by apply Forall_cons in Hf as [? _]. }
  destruct ctx as [|f ctx].
  - simpl. eexists. split; [reflexivity|]. split; [|done].
    destruct Hrep as [_ _ _ _ [par Hs] _].
    split; simpl.
    + split; [|done]. by rewrite lookup_insert_eq.
    + done.
    + apply NoDup_singleton.
    + set_unfold. lia.
    + exists par. rewrite lookup_insert_ne by lia. done.
    + repeat constructor; lia.
  - assert (Hfresh : ∀ a, a ∈ faddr f :: addrs (fsib f) ++ caddrs ctx → (a < next st)%nat).
    { destruct Hrep as [_ _ _ _ _ Hf]. apply Forall_cons in Hf as [_ Hf].
      rewrite addrs_plug, caddrs_cons in Hf. by apply Forall_forall. }
    destruct (rep_nodup_plug _ _ _ Hrep) as [Hnd Hnz].
    rewrite caddrs_cons in Hnd, Hnz. simpl in Hnd, Hnz.
    apply NoDup_cons in Hnd as [Hpn Hnd]. apply NoDup_app in Hnd as (Hsnd & Hsc & Hcnd).
    apply not_elem_of_app in Hpn as [Hps Hpc].
    apply not_elem_of_cons in Hnz as [Hzp Hnz]. apply not_elem_of_app in Hnz as [Hzs Hzc].
    pose proof (sentinel_lookup _ _ Hrep) as [par Hsen].
    assert (Hz : ∀ a, a ∈ faddr f :: addrs (fsib f) ++ caddrs ctx → next st ≠ a).
    { intros a Ha. apply Hfresh in Ha. lia. }
    destruct f as [p c k v m r|p c l k v m]; simpl in Hrep, Hfresh, Hz, Hps, Hpc, Hzp, Hzs, Hsnd, Hsc.
    + pose proof (rep_focus _ _ _ _ _ _ _ _ _ Hrep) as Hp.
      assert (next st ≠ p) as Hne by (apply Hz; left).
      assert (p < next st)%nat as Hplt by (apply Hfresh; left).
      simpl in Hga. apply Forall_cons in Hga as [Hk _]. simpl in Hk.
      cbn [caddr faddr]. rrun. rewrite decide_True by done. rrun.
      eexists. split; [reflexivity|]. split; [|done].
      destruct (rep_view _ _ _ Hrep) as [(_ & _ & Hr) _].
      eapply (rep_grow st _ ctx (T p c Leaf k v m r)
                (T p c (T (next st) red Leaf key value m0 Leaf) k v m r));
        [done|done| | |simpl; lia| | | |done].
      * simpl. apply NoDup_cons. split; [|apply NoDup_cons; split; [|done]].
        -- rewrite not_elem_of_cons. split; [done|done].
        -- intros Hin. apply (Hz (next st)); [|done]. set_solver.
      * simpl. intros a Ha.
        apply elem_of_cons in Ha as [->|Ha]; [split_and!; [done|done|lia]|].
        apply elem_of_cons in Ha as [->|Ha].
        { split_and!; [|lia|lia]. intros Hin. apply (Hz (next st)); [|done]. set_solver. }
        split_and!; [by apply Hsc|by intros ->|]. assert (a < next st)%nat; [|lia].
        apply Hfresh. set_solver.
      * intros a Ha. simpl. rewrite !lookup_insert_ne; [done| |].
        -- apply Hz. set_solver.
        -- by intros ->.
      * simpl. split_and!; try done; try (by rewrite lookup_insert_eq);
          try (by rewrite lookup_insert_ne, lookup_insert_eq by done).
        eapply repr_agree; [|exact Hr]. intros a Ha. rewrite !lookup_insert_ne; [done| |].
        -- apply Hz. set_solver.
        -- by intros ->.
      * exists par. simpl. rewrite !lookup_insert_ne; [done|lia|done].
    + pose proof (rep_focus _ _ _ _ _ _ _ _ _ Hrep) as Hp.
      assert (next st ≠ p) as Hne by (apply Hz; left).
      assert (p < next st)%nat as Hplt by (apply Hfresh; left).
      simpl in Hgb. unfold RBFacts3.below in Hgb.
      rewrite !Forall_app, Forall_singleton in Hgb. destruct Hgb as (_ & _ & Hk). simpl in Hk.
      cbn [caddr faddr]. rrun. rewrite decide_False by (apply (cmp_lt_gt _ laws) in Hk; congruence).
      rrun.
      eexists. split; [reflexivity|]. split; [|done].
      destruct (rep_view _ _ _ Hrep) as [(_ & Hl & _) _].
      eapply (rep_grow st _ ctx (T p c l k v m Leaf)
                (T p c l k v m (T (next st) red Leaf key value m0 Leaf)));
        [done|done| | |simpl; lia| | | |done].
      * simpl. apply NoDup_cons. split; [|apply NoDup_app; split_and!; [done| |apply NoDup_singleton]].
        -- rewrite not_elem_of_app, list_elem_of_singleton. split; [set_solver|done].
        -- intros a Ha Hin. apply list_elem_of_singleton in Hin as ->.
           apply (Hz (next st)); [|done]. set_solver.
      * simpl. intros a Ha.
        apply elem_of_cons in Ha as [->|Ha]; [split_and!; [done|done|lia]|].
        apply elem_of_app in Ha as [Ha|Ha].
        { split_and!; [apply Hsc; set_solver|by intros ->|]. assert (a < next st)%nat; [|lia].
          apply Hfresh. set_solver. }
        apply list_elem_of_singleton in Ha as ->.
        split_and!; [|lia|lia]. intros Hin. apply (Hz (next st)); [|done]. set_solver.
      * intros a Ha. simpl. rewrite !lookup_insert_ne; [done| |].
        -- apply Hz. set_solver.
        -- by intros ->.
      * simpl. split_and!; try done; try (by rewrite lookup_insert_eq);
          try (by rewrite lookup_insert_ne, lookup_insert_eq by done).
        eapply repr_agree; [|exact Hl]. intros a Ha. rewrite !lookup_insert_ne; [done| |].
        -- apply Hz. set_solver.
        -- intros ->. set_solver.
      * exists par. simpl. rewrite !lookup_insert_ne; [done|lia|done].
Qed.

(** The node at an address of the tree, and the context around it. *)
Lemma find_addr z (t : tree) :
  z ∈ addrs t → ∃ ctx c l k v m r, t = plug ctx (T z c l k v m r).
Proof.
  induction t as [|p c l IHl k v m r IHr]; simpl; [by intros ?%elem_of_nil|].
  rewrite elem_of_cons, elem_of_app. intros [->|[Hz|Hz]].
  - by exists [], c, l, k, v, m, r.
  - destruct (IHl Hz) as (ctx & c' & l' & k' & v' & m' & r' & ->).
    exists (ctx ++ [FL p c k v m r]), c', l', k', v', m', r'. by rewrite plug_app.
  - destruct (IHr Hz) as (ctx & c' & l' & k' & v' & m' & r' & ->).
    exists (ctx ++ [FR p c l k v m]), c', l', k', v', m', r'. by rewrite plug_app.
Qed.


(** [insertFixup(x)] from a red node [x] whose subtree is well formed. *)
Lemma insertFixup_spec fuel (st : Tree) ctx x xl kx vx mx xr n z :
  rep st (plug ctx (T x red xl kx vx mx xr)) →
  is_rb (T x red xl kx vx mx xr) n → ctx_rb black n ctx → root_black ctx →
  z ∈ addrs (T x red xl kx vx mx xr) →
  (length ctx < fuel)%nat →
  ∃ (st' : Tree) T',
    insertFixup augmented key1 fuel (Some x) st = Ok (tt, st')
    ∧ rep st' T' ∧ frame_eq st st'
    ∧ inorder T' = inorder (plug ctx (T x red xl kx vx mx xr))
    ∧ z ∈ addrs T'
    ∧ (∃ n', is_rb T' n') ∧ tcolor T' = black
    ∧ (augmented = true → aok key1 z (plug ctx (T x red xl kx vx mx xr)) → aok key1 z T').
Proof.
  intros Hrep Hrb Hctx Hroot Hz Hfuel.
  destruct (insertFixup_loop_spec augmented key1 fuel st ctx x xl kx vx mx xr n z)
    as (st1 & T1 & Hrun & Hrep1 & Hf1 & Hin & Hadd & [n' Hrb'] & Hok); [done..|].
  assert (z ∈ addrs T1) as Hz1.
  { rewrite Hadd, addrs_plug. apply elem_of_app. by left. }
  destruct T1 as [|p c l k v m r]; [by apply elem_of_nil in Hz1|].
  unfold insertFixup, bind. rewrite Hrun. rewrite (root_rep _ _ Hrep1). msimpl.
  destruct (set_color_focus st1 [] p c l k v m r black Hrep1) as (st' & Hrun' & Hrep' & Hf').
  rewrite Hrun'. exists st', (T p black l k v m r).
  split_and!; [done|done|by eapply frame_eq_trans|done|done|by exists n'|done|done].
Qed.

(** ** The invariant of the trees *)

Definition wf (t : tree) : Prop :=
  (∃ n, is_rb t n) ∧ tcolor t = black ∧ (augmented = true → all_ok key1 t).

(** [Inv st l]: the state holds a red-black tree whose entries are, in
    order, those of the sorted list [l], and [_size] is their number. *)
Definition Inv (st : Tree) (l : list (K * V)) : Prop :=
  ∃ t, rep st t ∧ inorder t = l ∧ wf t ∧ sorted l ∧ _size st = Z.of_nat (length l).

Lemma set_spec key value fuel (st : Tree) l :
  Inv st l → (length l + 2 ≤ fuel)%nat →
  ∃ st', set augmented compareFn key1 fuel key value st = Ok (tt, st')
         ∧ Inv st' (ins compareFn key value l).
Proof.
  intros (t & Hrep & <- & (Hrb & Hblack & Hok) & Hs & Hsize) Hfuel.
  unfold set, insertNode. unfold bind at 1 2. rewrite (root_rep _ _ Hrep).
  destruct (insertNode_loop_spec key value fuel st [] t)
    as (res & st1 & ctx' & Hrun & Hgap & Hcase); [done|done|split; by apply Forall_nil|lia|].
  simpl in Hrun. unfold bind at 1. rewrite Hrun.
  destruct Hcase as [(x & c & l' & v & m & r & -> & Hplug & Hrep1 & Hf1)|(-> & -> & Hplug)].
  - (* the key is in the tree *)
    simpl in Hplug. subst t. msimpl. exists st1. split; [done|].
    exists (plug ctx' (T x c l' key value m r)).
    pose proof Hs as Hs'. rewrite inorder_plug in Hs'. simpl in Hs'.
    rewrite <- app_assoc in Hs'. simpl in Hs'. rewrite app_assoc in Hs'.
    assert (Hbelow : below key (cbefore ctx' ++ inorder l')).
    { by apply sorted_split in Hs' as [? _]. }
    assert (Hins : ins compareFn key value (inorder (plug ctx' (T x c l' key v m r)))
                   = inorder (plug ctx' (T x c l' key value m r))).
    { rewrite !inorder_plug. simpl. rewrite <- !app_assoc. simpl. rewrite !app_assoc.
      by apply ins_found. }
    rewrite Hins. split_and!; [done|done| | |].
    + pose proof (rb_similar_plug ctx' _ _ (rb_similar_data x c l' key v m r key value m))
        as [Hc Hsim].
      destruct Hrb as [n Hrb]. split_and!; [by exists n; apply Hsim|congruence|].
      intros Haug. specialize (Hok Haug).
      eapply all_ok_replace; [| |exact Hok]; [done|].
      by apply all_ok_plug in Hok as [Hok _].
    + rewrite <- Hins. rewrite inorder_plug. simpl. rewrite <- !app_assoc. simpl.
      rewrite !app_assoc. rewrite ins_found by done. by eapply sorted_replace.
    + destruct Hf1 as (_ & -> & _). rewrite Hsize, !inorder_plug.
      by repeat first [rewrite length_app | progress simpl].
  - (* the key is new *)
    simpl in Hplug. subst t.
    destruct (link_spec key value (if augmented then key1 key else 0) st ctx' Hrep Hgap)
      as (st2 & Hlink & Hrep2 & Hsz2).
    unfold bind at 1. unfold add_size at 1. unfold bind at 1. unfold alloc at 1. msimpl.
    unfold bind at 1. rewrite Hlink.
    set (z := next st) in *.
    assert (Hlen : (length ctx' ≤ length (inorder (plug ctx' Leaf)))%nat).
    { pose proof (length_ctx_le ctx' Leaf). simpl in *. lia. }
    destruct (insertFixup_spec fuel st2 ctx' z Leaf key value
                (if augmented then key1 key else 0) Leaf 0%nat z)
      as (st3 & T3 & Hrun3 & Hrep3 & Hf3 & Hin3 & Hz3 & Hrb3 & Hblack3 & Hok3).
    { done. }
    { apply is_rb_red; by constructor. }
    { destruct Hrb as [n Hrb]. apply unplug_rb in Hrb as (n0 & Hl & Hc).
      by inversion Hl; subst. }
    { destruct ctx' as [|f ctx']; [by intros ? ?|]. by eapply root_black_plug. }
    { simpl. left. }
    { lia. }
    unfold bind at 1. rewrite Hrun3.
    assert (Hins : ins compareFn key value (inorder (plug ctx' Leaf)) = inorder T3).
    { rewrite Hin3, !inorder_plug. simpl. destruct Hgap. by apply ins_gap. }
    assert (Hsorted : sorted (inorder T3)).
    { rewrite Hin3, inorder_plug. simpl. rewrite inorder_plug in Hs. simpl in Hs.
      destruct Hgap. by apply sorted_insert_gap. }
    assert (Hsize3 : _size st3 = Z.of_nat (length (inorder T3))).
    { destruct Hf3 as (_ & -> & _). rewrite Hsz2, Hsize, Hin3, !inorder_plug. simpl.
      rewrite !length_app. simpl. lia. }
    rewrite Hins.
    destruct augmented eqn:Haug; msimpl.
    + destruct (find_addr z T3 Hz3) as (ctx3 & c3 & l3 & k3 & v3 & m3 & r3 & ->).
      destruct (updateParentsMax_spec key1 fuel st3 ctx3 (T z c3 l3 k3 v3 m3 r3))
        as (st4 & Hrun4 & Hrep4 & Hf4 & _).
      { done. }
      { simpl. by rewrite (get_parent_focus _ _ _ _ _ _ _ _ _ Hrep3). }
      { pose proof (length_ctx_le ctx3 (T z c3 l3 k3 v3 m3 r3)) as Hle.
        rewrite Hin3, !inorder_plug in Hle. simpl in Hle. rewrite !length_app in Hle.
        simpl in Hle. rewrite inorder_plug in Hlen. simpl in Hlen. rewrite !length_app in *.
        rewrite inorder_plug in Hfuel. simpl in Hfuel. rewrite length_app in Hfuel. lia. }
      simpl in Hrun4. unfold bind. rewrite Hrun4. exists st4. split; [done|].
      exists (plug (fix_ctx key1 ctx3 (T z c3 l3 k3 v3 m3 r3)) (T z c3 l3 k3 v3 m3 r3)).
      rewrite inorder_fix_ctx.
      split_and!; [done|done| |done|by destruct Hf4 as (_ & -> & _)].
      pose proof (rb_similar_fix_ctx key1 ctx3 (T z c3 l3 k3 v3 m3 r3)) as [Hc Hsim].
      destruct Hrb3 as [n3 Hrb3].
      split_and!; [by exists n3; apply Hsim|congruence|]. intros _.
      assert (Haok : aok key1 z (plug ctx3 (T z c3 l3 k3 v3 m3 r3))).
      { apply Hok3; [done|]. apply aok_plug; [simpl; left|].
        split; [simpl; split_and!; [by left|done|done]|].
        specialize (Hok eq_refl). apply all_ok_plug in Hok as [_ Hok].
        eapply Forall_impl; [exact Hok|]. intros f. apply all_ok_aok. }
      apply aok_plug in Haok as [Ht Hc3]; [|simpl; left].
      destruct (rep_nodup_plug _ _ _ Hrep3) as [Hnd _]. simpl in Hnd.
      apply NoDup_cons in Hnd as [Hzn _].
      rewrite !not_elem_of_app in Hzn. destruct Hzn as ((Hzl & Hzr) & Hzc).
      apply all_ok_fix_ctx.
      * simpl in Ht. destruct Ht as ([?|Hzin] & ? & ?).
        -- split_and!; [done|by eapply aok_all_ok..].
        -- apply elem_of_app in Hzin. tauto.
      * apply Forall_forall. intros f Hf. rewrite Forall_forall in Hc3.
        eapply aok_all_ok; [|by apply Hc3]. intros Hzf. apply Hzc.
        unfold caddrs. apply list_elem_of_bind. exists f. split; [|done]. by right.
    + exists st3. split; [done|]. exists T3. split_and!; [done|done| |done|done].
      split_and!; [done|done|]. intros ?; congruence.
Qed.

End Insert.
End RBFacts3.

(** * The steps of the repair after a deletion *)
Module RBFacts4.
Import RB RBFacts RBFacts2 RBFacts3.
Open Scope rb_scope.

(** ** [deleteFixup]: the steps on the heap *)

(** The parent of the node in the hole, which may be the sentinel. *)
Lemma get_parent_addr {K V} (st0 st : RB.Tree K V) ctx t :
  rep st (plug ctx t) → frame_eq st0 st →
  get_parent (addr t) st0 = Ok (caddr ctx, st0) →
  get_parent (addr t) st = Ok (caddr ctx, st).
Proof.
  intros Hrep (Hs & _ & _) Hpar. destruct t as [|x c l k v m r].
  - simpl in *. unfold get_parent, bind, deref, sentinel, ret in *. rewrite Hs.
    destruct (heap st0 !! 0%nat) as [n|]; [|done]. congruence.
  - simpl. by rewrite (get_parent_focus _ _ _ _ _ _ _ _ _ Hrep).
Qed.

Ltac mpar :=
  match goal with
  | Hpar : get_parent (addr ?t) ?st0 = Ok (_, ?st0), Hrep : rep ?st _
    |- context [get_parent (addr ?t) ?st] =>
      rep_sub Hrep t ltac:(fun H =>
        rewrite (get_parent_addr st0 st _ t H ltac:(solve_frame) Hpar))
  end.

Ltac mrot2 :=
  match goal with
  | Hrep : rep ?st _ |- context [rotateLeft ?aug ?k1 (Some ?x) ?st] =>
      rep_at Hrep x ltac:(fun H =>
        let st' := fresh "st" in let Hrun := fresh "Hrun" in
        let Hrep' := fresh "Hrep" in let Hf := fresh "Hf" in
        destruct (rotateLeft_focus aug k1 _ _ _ _ _ _ _ _ _ _ _ _ _ _ _ H)
          as (st' & Hrun & Hrep' & Hf);
        rewrite Hrun; clear Hrun; cbn [plug fill] in Hrep'; unfold RBFacts.N in Hrep')
  | Hrep : rep ?st _ |- context [rotateRight ?aug ?k1 (Some ?x) ?st] =>
      rep_at Hrep x ltac:(fun H =>
        let st' := fresh "st" in let Hrun := fresh "Hrun" in
        let Hrep' := fresh "Hrep" in let Hf := fresh "Hf" in
        destruct (rotateRight_focus aug k1 _ _ _ _ _ _ _ _ _ _ _ _ _ _ _ H)
          as (st' & Hrun & Hrep' & Hf);
        rewrite Hrun; clear Hrun; cbn [plug fill] in Hrep'; unfold RBFacts.N in Hrep')
  end.

Ltac mgo2 :=
  repeat (first [ progress msimpl | progress (unfold bind) | mread | mpar | mhyp | mdecide
                | mcolor | mrot2 ]).

Section DeleteFixup.
Context {K V : Type}.
Context (augmented : bool) (key1 : K → Z).
Abbreviation Tree := (RB.Tree K V).
Abbreviation tree := (@tree K V).
Abbreviation frame := (@frame K V).
Abbreviation N := (N augmented key1).

(** The sibling is black with black children: recolour and move up. *)
Lemma deleteFixup_recolor_l fuel (st : Tree) ctx (t : tree) p cp kp vp mp w wl kw vw mw wr :
  rep st (plug (FL p cp kp vp mp (T w black wl kw vw mw wr) :: ctx) t) →
  get_parent (addr t) st = Ok (Some p, st) →
  tcolor t = black → tcolor wl = black → tcolor wr = black →
  ∃ st' : Tree,
    deleteFixup_loop augmented key1 (S fuel) (addr t) st
    = deleteFixup_loop augmented key1 fuel (Some p) st'
    ∧ rep st' (plug ctx (T p cp t kp vp mp (T w red wl kw vw mw wr)))
    ∧ frame_eq st st'.
Proof.
  intros Hrep Hpar Ht Hwl Hwr. addr_facts Hrep.
  pose proof (root_ne _ _ _ _ Hrep) as Hroot.
  cbn [plug fill] in Hrep, Hroot. cbn [deleteFixup_loop].
  unfold bind at 1. rewrite (root_rep _ _ Hrep). msimpl.
  rewrite decide_True by done.
  mgo2.
  eexists; split; [reflexivity|split; [eassumption|solve_frame]].
Qed.

(** The sibling is black and its far child is red: one rotation ends the
    loop. *)
Lemma deleteFixup_rotate_l fuel (st : Tree) ctx (t : tree) p cp kp vp mp w wl kw vw mw
    r rl kr vr mr rr :
  rep st (plug (FL p cp kp vp mp (T w black wl kw vw mw (T r red rl kr vr mr rr)) :: ctx) t) →
  get_parent (addr t) st = Ok (Some p, st) →
  tcolor t = black →
  ∃ st' : Tree,
    deleteFixup_loop augmented key1 (S (S fuel)) (addr t) st
    = Ok (addr (plug ctx (N w cp (N p black t kp vp mp wl) kw vw mw (T r black rl kr vr mr rr))),
          st')
    ∧ rep st' (plug ctx (N w cp (N p black t kp vp mp wl) kw vw mw (T r black rl kr vr mr rr)))
    ∧ frame_eq st st'.
Proof.
  intros Hrep Hpar Ht. addr_facts Hrep.
  pose proof (root_ne _ _ _ _ Hrep) as Hroot.
  cbn [plug fill] in Hrep, Hroot. cbn [deleteFixup_loop].
  unfold bind at 1. rewrite (root_rep _ _ Hrep). msimpl.
  rewrite decide_True by done.
  destruct (tcolor wl) eqn:Hwl; mgo2.
  all: eexists; split; [reflexivity|split; [eassumption|solve_frame]].
Qed.

(** The sibling is black, its near child red and its far child black: two
    rotations end the loop. *)
Lemma deleteFixup_double_l fuel (st : Tree) ctx (t : tree) p cp kp vp mp w kw vw mw wr
    a al ka va ma ar :
  rep st (plug (FL p cp kp vp mp (T w black (T a red al ka va ma ar) kw vw mw wr) :: ctx) t) →
  get_parent (addr t) st = Ok (Some p, st) →
  tcolor t = black → tcolor wr = black →
  ∃ st' : Tree,
    deleteFixup_loop augmented key1 (S (S fuel)) (addr t) st
    = Ok (addr (plug ctx (N a cp (N p black t kp vp mp al) ka va
                            (amax augmented key1 ka ma al (N w red ar kw vw mw wr))
                            (T w black ar kw vw (amax augmented key1 kw mw ar wr) wr))),
          st')
    ∧ rep st' (plug ctx (N a cp (N p black t kp vp mp al) ka va
                            (amax augmented key1 ka ma al (N w red ar kw vw mw wr))
                            (T w black ar kw vw (amax augmented key1 kw mw ar wr) wr)))
    ∧ frame_eq st st'.
Proof.
  intros Hrep Hpar Ht Hwr. addr_facts Hrep.
  pose proof (root_ne _ _ _ _ Hrep) as Hroot.
  cbn [plug fill] in Hrep, Hroot. cbn [deleteFixup_loop].
  unfold bind at 1. rewrite (root_rep _ _ Hrep). msimpl.
  rewrite decide_True by done.
  mgo2.
  all: eexists; split; [reflexivity|split; [eassumption|solve_frame]].
Qed.

(** The sibling is red: after a rotation the loop is at the same node with
    a black sibling. *)
Lemma deleteFixup_red_l fuel (st : Tree) ctx (t : tree) p cp kp vp mp w wl kw vw mw wr :
  rep st (plug (FL p cp kp vp mp (T w red wl kw vw mw wr) :: ctx) t) →
  get_parent (addr t) st = Ok (Some p, st) →
  tcolor t = black → tcolor wl = black →
  ∃ st' : Tree,
    deleteFixup_loop augmented key1 (S fuel) (addr t) st
    = deleteFixup_loop augmented key1 (S fuel) (addr t) st'
    ∧ rep st' (plug ctx (N w black (N p red t kp vp mp wl) kw vw mw wr))
    ∧ frame_eq st st'.
Proof.
  intros Hrep Hpar Ht Hwl. addr_facts Hrep.
  pose proof (root_ne _ _ _ _ Hrep) as Hroot.
  cbn [plug fill] in Hrep, Hroot.
  destruct (set_color_focus st (FR p cp t kp vp mp :: ctx) w red wl kw vw mw wr black Hrep)
    as (st1 & Hrun1 & Hrep1 & Hf1).
  cbn [plug fill] in Hrep1.
  destruct (set_color_focus st1 ctx p cp t kp vp mp _ red Hrep1) as (st2 & Hrun2 & Hrep2 & Hf2).
  destruct (rotateLeft_focus augmented key1 st2 ctx p red t kp vp mp w black wl kw vw mw wr Hrep2)
    as (st3 & Hrun3 & Hrep3 & Hf3).
  exists st3. split; [|split; [done|solve_frame]].
  unfold RBFacts.N in Hrep3.
  cbn [deleteFixup_loop].
  pose proof (root_ne st3 (FL p red kp vp (amax augmented key1 kp mp t wl) wl)
               (FL w black kw vw (amax augmented key1 kw mw
                    (T p red t kp vp (amax augmented key1 kp mp t wl) wl) wr) wr :: ctx) t Hrep3)
    as Hroot3.
  cbn [plug fill] in Hroot3.
  mgo2.
  reflexivity.
Qed.

(** The mirror images: the node is a right child. *)
Lemma deleteFixup_recolor_r fuel (st : Tree) ctx (t : tree) p cp kp vp mp w wl kw vw mw wr :
  rep st (plug (FR p cp (T w black wl kw vw mw wr) kp vp mp :: ctx) t) →
  get_parent (addr t) st = Ok (Some p, st) →
  tcolor t = black → tcolor wl = black → tcolor wr = black →
  ∃ st' : Tree,
    deleteFixup_loop augmented key1 (S fuel) (addr t) st
    = deleteFixup_loop augmented key1 fuel (Some p) st'
    ∧ rep st' (plug ctx (T p cp (T w red wl kw vw mw wr) kp vp mp t))
    ∧ frame_eq st st'.
Proof.
  intros Hrep Hpar Ht Hwl Hwr. addr_facts Hrep.
  pose proof (root_ne _ _ _ _ Hrep) as Hroot.
  cbn [plug fill] in Hrep, Hroot. cbn [deleteFixup_loop].
  unfold bind at 1. rewrite (root_rep _ _ Hrep). msimpl.
  rewrite decide_True by done.
  mgo2.
  eexists; split; [reflexivity|split; [eassumption|solve_frame]].
Qed.

Lemma deleteFixup_rotate_r fuel (st : Tree) ctx (t : tree) p cp kp vp mp w wr kw vw mw
    r rl kr vr mr rr :
  rep st (plug (FR p cp (T w black (T r red rl kr vr mr rr) kw vw mw wr) kp vp mp :: ctx) t) →
  get_parent (addr t) st = Ok (Some p, st) →
  tcolor t = black →
  ∃ st' : Tree,
    deleteFixup_loop augmented key1 (S (S fuel)) (addr t) st
    = Ok (addr (plug ctx (N w cp (T r black rl kr vr mr rr) kw vw mw (N p black wr kp vp mp t))),
          st')
    ∧ rep st' (plug ctx (N w cp (T r black rl kr vr mr rr) kw vw mw (N p black wr kp vp mp t)))
    ∧ frame_eq st st'.
Proof.
  intros Hrep Hpar Ht. addr_facts Hrep.
  pose proof (root_ne _ _ _ _ Hrep) as Hroot.
  cbn [plug fill] in Hrep, Hroot. cbn [deleteFixup_loop].
  unfold bind at 1. rewrite (root_rep _ _ Hrep). msimpl.
  rewrite decide_True by done.
  destruct (tcolor wr) eqn:Hwr; mgo2.
  all: eexists; split; [reflexivity|split; [eassumption|solve_frame]].
Qed.

Lemma deleteFixup_double_r fuel (st : Tree) ctx (t : tree) p cp kp vp mp w wl kw vw mw
    a al ka va ma ar :
  rep st (plug (FR p cp (T w black wl kw vw mw (T a red al ka va ma ar)) kp vp mp :: ctx) t) →
  get_parent (addr t) st = Ok (Some p, st) →
  tcolor t = black → tcolor wl = black →
  ∃ st' : Tree,
    deleteFixup_loop augmented key1 (S (S fuel)) (addr t) st
    = Ok (addr (plug ctx (N a cp (T w black wl kw vw (amax augmented key1 kw mw wl al) al) ka va
                            (amax augmented key1 ka ma (N w red wl kw vw mw al) ar)
                            (N p black ar kp vp mp t))),
          st')
    ∧ rep st' (plug ctx (N a cp (T w black wl kw vw (amax augmented key1 kw mw wl al) al) ka va
                            (amax augmented key1 ka ma (N w red wl kw vw mw al) ar)
                            (N p black ar kp vp mp t)))
    ∧ frame_eq st st'.
Proof.
  intros Hrep Hpar Ht Hwl. addr_facts Hrep.
  pose proof (root_ne _ _ _ _ Hrep) as Hroot.
  cbn [plug fill] in Hrep, Hroot. cbn [deleteFixup_loop].
  unfold bind at 1. rewrite (root_rep _ _ Hrep). msimpl.
  rewrite decide_True by done.
  mgo2.
  all: eexists; split; [reflexivity|split; [eassumption|solve_frame]].
Qed.

Lemma deleteFixup_red_r fuel (st : Tree) ctx (t : tree) p cp kp vp mp w wl kw vw mw
    b bl kb vb mb br :
  rep st (plug (FR p cp (T w red wl kw vw mw (T b black bl kb vb mb br)) kp vp mp :: ctx) t) →
  get_parent (addr t) st = Ok (Some p, st) →
  tcolor t = black →
  ∃ st' : Tree,
    deleteFixup_loop augmented key1 (S fuel) (addr t) st
    = deleteFixup_loop augmented key1 (S fuel) (addr t) st'
    ∧ rep st' (plug ctx (N w black wl kw vw mw (N p red (T b black bl kb vb mb br) kp vp mp t)))
    ∧ frame_eq st st'.
Proof.
  intros Hrep Hpar Ht. addr_facts Hrep.
  pose proof (root_ne _ _ _ _ Hrep) as Hroot.
  cbn [plug fill] in Hrep, Hroot.
  destruct (set_color_focus st (FL p cp kp vp mp t :: ctx) w red wl kw vw mw _ black Hrep)
    as (st1 & Hrun1 & Hrep1 & Hf1).
  cbn [plug fill] in Hrep1.
  destruct (set_color_focus st1 ctx p cp _ kp vp mp t red Hrep1) as (st2 & Hrun2 & Hrep2 & Hf2).
  destruct (rotateRight_focus augmented key1 st2 ctx p red wl kp vp mp w black _ kw vw mw t Hrep2)
    as (st3 & Hrun3 & Hrep3 & Hf3).
  exists st3. split; [|split; [done|solve_frame]].
  unfold RBFacts.N in Hrep3.
  cbn [deleteFixup_loop].
  pose proof (root_ne st3 (FR p red _ kp vp _) (FR w black wl kw vw _ :: ctx) t Hrep3)
    as Hroot3.
  cbn [plug fill] in Hroot3.
  mgo2.
  reflexivity.
Qed.

End DeleteFixup.
End RBFacts4.

(** * The repair after a deletion *)
Module RBFacts5.
Import RB RBFacts RBFacts2 RBFacts3 RBFacts4.
Open Scope rb_scope.

Lemma max_Zmax a b : max a b = Z.max a b.
Proof. unfold max. case_decide; lia. Qed.

Lemma max3_Zmax a b c : max3 a b c = Z.max a (Z.max b c).
Proof. unfold max3. by rewrite !max_Zmax. Qed.

Ltac solve_inorder :=
  rewrite ?inorder_plug; cbn [inorder fill RBFacts.N cbefore cafter before after];
  by simplify_list_eq.

Section DeleteFixup.
Context {K V : Type}.
Context (augmented : bool) (key1 : K → Z).
Abbreviation Tree := (RB.Tree K V).
Abbreviation tree := (@tree K V).
Abbreviation frame := (@frame K V).
Abbreviation N := (N augmented key1).
Abbreviation all_ok := (all_ok key1).

(** ** [deleteFixup]: the invariant *)

(** The node in the hole is black with black height [n], or it is red and
    painting it black gives black height [S n]. *)
Definition DI (t : tree) (n : nat) : Prop :=
  (tcolor t = black ∧ is_rb t n) ∨ (tcolor t = red ∧ is_rb (blacken t) (S n)).

(** [s'] can take the place of [s] below a parent that expects black height
    [bump (tcolor s) n']. *)
Definition fixed (s s' : tree) (n' : nat) : Prop :=
  inorder s' = inorder s
  ∧ tcolor s' = tcolor s
  ∧ is_rb s' (bump (tcolor s) n')
  ∧ (augmented = true → all_ok s → all_ok s' ∧ msig s' = msig s).

Lemma tcolor_plug_root (ctx : list frame) (t : tree) :
  root_black ctx → (ctx = [] → tcolor t = black) → tcolor (plug ctx t) = black.
Proof.
  revert t. induction ctx as [|f ctx IH]; intros t Hr Hc; simpl; [by apply Hc|].
  apply IH.
  - destruct ctx as [|g ctx]; [by intros ? ?|]. by eapply root_black_tail.
  - intros ->. rewrite tcolor_fill. by apply Hr.
Qed.

Lemma tcolor_blacken (t : tree) : tcolor (blacken t) = black.
Proof. by destruct t. Qed.

Lemma msig_blacken (t : tree) : msig (blacken t) = msig t.
Proof. by destruct t. Qed.

Lemma all_ok_blacken_plug (ctx : list frame) (t : tree) :
  all_ok (plug ctx t) → all_ok (plug ctx (blacken t)).
Proof.
  intros H. eapply all_ok_replace; [|apply all_ok_blacken|exact H].
  - by rewrite msig_blacken.
  - by apply all_ok_plug in H as [? _].
Qed.

(** The loop ends at the root and at a red node. *)
Lemma deleteFixup_loop_stop fuel (st : Tree) ctx (t : tree) :
  rep st (plug ctx t) → ctx = [] ∨ tcolor t = red →
  deleteFixup_loop augmented key1 (S fuel) (addr t) st = Ok (addr t, st).
Proof.
  intros Hrep Hstop. cbn [deleteFixup_loop]. unfold bind at 1. rewrite (root_rep _ _ Hrep).
  destruct ctx as [|f ctx].
  - simpl. rewrite decide_False by (intros ?; done). done.
  - destruct Hstop as [?|Hc]; [done|].
    rewrite decide_True by exact (root_ne _ _ _ _ Hrep).
    unfold bind. rewrite (get_color_addr _ _ _ Hrep), Hc. done.
Qed.

(** [x.color = "black"] at the end of [deleteFixup]. *)
Lemma set_color_addr_black (st : Tree) ctx (t : tree) :
  rep st (plug ctx t) →
  ∃ st' : Tree, set_color (addr t) black st = Ok (tt, st')
    ∧ rep st' (plug ctx (blacken t)) ∧ frame_eq st st'.
Proof.
  intros Hrep. destruct t as [|x c l k v m r]; simpl.
  - pose proof (sentinel_lookup _ _ Hrep) as [par Hs].
    unfold set_color, update, sentinel. rewrite Hs. eexists. split; [reflexivity|].
    destruct (rep_nodup_plug _ _ _ Hrep) as [_ Hnz].
    destruct Hrep as [Hr Hroot Hnd Hn0 _ Hf].
    split; [split; simpl; try done|].
    + eapply repr_agree; [|exact Hr]. intros a Ha. apply lookup_insert_ne. by intros <-.
    + exists par. by rewrite lookup_insert_eq.
    + split_and!; simpl; [|done|done]. by rewrite lookup_insert_eq.
  - exact (set_color_focus _ _ _ _ _ _ _ _ _ black Hrep).
Qed.

Ltac solve_msig :=
  unfold nmax in *; subst; simpl; f_equal;
  repeat match goal with
  | |- context [match ?t with Leaf => _ | T _ _ _ _ _ _ _ => _ end] => is_var t; destruct t
  end;
  rewrite ?max3_Zmax, ?max_Zmax; lia.

Ltac solve_fixed :=
  split_and!;
  [ solve_inorder
  | done
  | cbn [tcolor]; match goal with |- is_rb _ (bump ?c _) => destruct c end; simpl;
    repeat match goal with
    | H : is_rb (T _ _ _ _ _ _ _) _ |- _ => inversion H; subst; clear H
    end;
    unfold RBFacts.N;
    repeat first [ assumption | apply is_rb_red | apply is_rb_black | reflexivity ]
  | let Haug := fresh "Haug" in let Hok := fresh "Hok" in
    intros Haug Hok; unfold RBFacts.N, amax; rewrite Haug; simpl in Hok |- *;
    destruct_and!; split_and!; try done; solve_msig ].

(** One iteration of the loop when the sibling is black: the loop moves up
    or ends. *)
Lemma black_sibling_l fuel (st : Tree) ctx (t : tree) p cp kp vp mp w wl kw vw mw wr n :
  rep st (plug (FL p cp kp vp mp (T w black wl kw vw mw wr) :: ctx) t) →
  get_parent (addr t) st = Ok (Some p, st) →
  tcolor t = black → is_rb t n → is_rb wl n → is_rb wr n →
  (∃ st' : Tree,
      deleteFixup_loop augmented key1 (S (S fuel)) (addr t) st
      = deleteFixup_loop augmented key1 (S fuel) (Some p) st'
      ∧ rep st' (plug ctx (T p cp t kp vp mp (T w red wl kw vw mw wr)))
      ∧ frame_eq st st' ∧ tcolor wl = black ∧ tcolor wr = black)
  ∨ (∃ (st' : Tree) s',
      deleteFixup_loop augmented key1 (S (S fuel)) (addr t) st = Ok (addr (plug ctx s'), st')
      ∧ rep st' (plug ctx s') ∧ frame_eq st st'
      ∧ fixed (T p cp t kp vp mp (T w black wl kw vw mw wr)) s' (S n)).
Proof.
  intros Hrep Hpar Ht Hrt Hrl Hrr.
  assert (Hcases : ∀ u : tree, tcolor u = black ∨ ∃ a ul ku vu mu ur, u = T a red ul ku vu mu ur).
  { intros [|a [] ul ku vu mu ur]; eauto 10. }
  destruct (Hcases wr) as [Hwr|(r & rl & kr & vr & mr & rr & ->)].
  - destruct (Hcases wl) as [Hwl|(a & al & ka & va & ma & ar & ->)].
    + left.
      destruct (deleteFixup_recolor_l augmented key1 (S fuel) st ctx t p cp kp vp mp w wl kw vw mw wr)
        as (st' & Hrun & Hrep' & Hf); [done..|].
      exists st'. by split_and!.
    + right.
      destruct (deleteFixup_double_l augmented key1 fuel st ctx t p cp kp vp mp w kw vw mw wr
                  a al ka va ma ar) as (st' & Hrun & Hrep' & Hf); [done..|].
      eexists st', _. split_and!; [exact Hrun|exact Hrep'|done|].
      solve_fixed.
  - right.
    destruct (deleteFixup_rotate_l augmented key1 fuel st ctx t p cp kp vp mp w wl kw vw mw
                r rl kr vr mr rr) as (st' & Hrun & Hrep' & Hf); [done..|].
    eexists st', _. split_and!; [exact Hrun|exact Hrep'|done|].
    solve_fixed.
Qed.

Lemma black_sibling_r fuel (st : Tree) ctx (t : tree) p cp kp vp mp w wl kw vw mw wr n :
  rep st (plug (FR p cp (T w black wl kw vw mw wr) kp vp mp :: ctx) t) →
  get_parent (addr t) st = Ok (Some p, st) →
  tcolor t = black → is_rb t n → is_rb wl n → is_rb wr n →
  (∃ st' : Tree,
      deleteFixup_loop augmented key1 (S (S fuel)) (addr t) st
      = deleteFixup_loop augmented key1 (S fuel) (Some p) st'
      ∧ rep st' (plug ctx (T p cp (T w red wl kw vw mw wr) kp vp mp t))
      ∧ frame_eq st st' ∧ tcolor wl = black ∧ tcolor wr = black)
  ∨ (∃ (st' : Tree) s',
      deleteFixup_loop augmented key1 (S (S fuel)) (addr t) st = Ok (addr (plug ctx s'), st')
      ∧ rep st' (plug ctx s') ∧ frame_eq st st'
      ∧ fixed (T p cp (T w black wl kw vw mw wr) kp vp mp t) s' (S n)).
Proof.
  intros Hrep Hpar Ht Hrt Hrl Hrr.
  assert (Hcases : ∀ u : tree, tcolor u = black ∨ ∃ a ul ku vu mu ur, u = T a red ul ku vu mu ur).
  { intros [|a [] ul ku vu mu ur]; eauto 10. }
  destruct (Hcases wl) as [Hwl|(r & rl & kr & vr & mr & rr & ->)].
  - destruct (Hcases wr) as [Hwr|(a & al & ka & va & ma & ar & ->)].
    + left.
      destruct (deleteFixup_recolor_r augmented key1 (S fuel) st ctx t p cp kp vp mp w wl kw vw mw wr)
        as (st' & Hrun & Hrep' & Hf); [done..|].
      exists st'. by split_and!.
    + right.
      destruct (deleteFixup_double_r augmented key1 fuel st ctx t p cp kp vp mp w wl kw vw mw
                  a al ka va ma ar) as (st' & Hrun & Hrep' & Hf); [done..|].
      eexists st', _. split_and!; [exact Hrun|exact Hrep'|done|].
      solve_fixed.
  - right.
    destruct (deleteFixup_rotate_r augmented key1 fuel st ctx t p cp kp vp mp w wr kw vw mw
                r rl kr vr mr rr) as (st' & Hrun & Hrep' & Hf); [done..|].
    eexists st', _. split_and!; [exact Hrun|exact Hrep'|done|].
    solve_fixed.
Qed.

(** Finishing with a subtree that fills the place of the old one. *)
Lemma fixed_finish (ctx : list frame) (s s' : tree) n :
  fixed s s' n → ctx_rb (tcolor s) (bump (tcolor s) n) ctx →
  (augmented = true → all_ok (plug ctx s)) →
  inorder (plug ctx s') = inorder (plug ctx s)
  ∧ (∃ n', is_rb (plug [] (blacken (plug ctx s'))) n')
  ∧ (augmented = true → all_ok (plug ctx s')).
Proof.
  intros (Hin & Hc & Hrb & Hok) Hctx Hall. split_and!.
  - by rewrite !inorder_plug, Hin.
  - simpl. destruct (plug_rb ctx s' _ Hrb) as [n' Hn']; [by rewrite Hc|].
    by eapply is_rb_blacken.
  - intros Haug. specialize (Hall Haug). pose proof Hall as Hs.
    apply all_ok_plug in Hs as [Hs _]. destruct (Hok Haug Hs) as [Hs' Hm].
    by eapply all_ok_replace.
Qed.

Lemma root_black_cons_inv (f : frame) ctx : root_black (f :: ctx) → root_black ctx.
Proof. destruct ctx as [|g ctx]; [by intros ? ? ?|]. apply root_black_tail. Qed.

Lemma root_black_head (f g : frame) ctx :
  root_black (f :: ctx) → fcolor g = black → root_black (g :: ctx).
Proof.
  intros H Hg. destruct ctx as [|h ctx].
  - intros ? [= <-]. done.
  - intros k Hk. apply H. by rewrite last_cons_cons in *.
Qed.

Ltac solve_ok :=
  let Hok := fresh "Hok" in
  intros Hok; unfold RBFacts.N, amax;
  match goal with Haug : augmented = true |- _ => rewrite ?Haug end;
  simpl in Hok |- *; destruct_and!; split_and!; try done; solve_msig.

Lemma deleteFixup_loop_spec fuel : ∀ (st : Tree) ctx (t : tree) n,
  rep st (plug ctx t) →
  get_parent (addr t) st = Ok (caddr ctx, st) →
  DI t n → ctx_rb black (S n) ctx → root_black ctx →
  (augmented = true → all_ok (plug ctx t)) →
  (length ctx + 2 ≤ fuel)%nat →
  ∃ (st' : Tree) ctx' t',
    deleteFixup_loop augmented key1 fuel (addr t) st = Ok (addr t', st')
    ∧ rep st' (plug ctx' t') ∧ frame_eq st st'
    ∧ inorder (plug ctx' t') = inorder (plug ctx t)
    ∧ (∃ n', is_rb (plug ctx' (blacken t')) n')
    ∧ tcolor (plug ctx' (blacken t')) = black
    ∧ (augmented = true → all_ok (plug ctx' t')).
Proof.
  induction fuel as [|fuel IH]; intros st ctx t n Hrep Hpar HDI Hctx Hroot Hall Hfuel; [lia|].
  destruct HDI as [[Hc Hrb]|[Hc Hrb]]; last first.
  { exists st, ctx, t. rewrite (deleteFixup_loop_stop fuel st ctx t Hrep) by by right.
    split_and!; try done.
    - apply (plug_rb ctx _ (S n) Hrb). by rewrite tcolor_blacken.
    - apply tcolor_plug_root; [done|]. intros _. apply tcolor_blacken. }
  destruct ctx as [|f ctx].
  { exists st, [], t. rewrite (deleteFixup_loop_stop fuel st [] t Hrep) by by left.
    split_and!; try done.
    - simpl. by eapply is_rb_blacken.
    - simpl. apply tcolor_blacken. }
  destruct Hctx as (Hsib & Hfc & Hctx).
  destruct fuel as [|fuel]; [simpl in Hfuel; lia|].
  pose proof (root_black_cons_inv _ _ Hroot) as Hroot'.
  destruct f as [p cp kp vp mp sib|p cp sib kp vp mp]; simpl in Hsib, Hfc, Hctx, Hpar.
  - (* the node is a left child *)
    inversion Hsib as [|w wl kw vw mw wr n0 Hwl Hwr Hcl Hcr|w wl kw vw mw wr n0 Hwl Hwr]; subst.
    + (* red sibling *)
      assert (cp = black) as -> by (destruct cp; [by destruct Hfc|done]).
      simpl in Hctx.
      destruct (deleteFixup_red_l augmented key1 (S fuel) st ctx t p black kp vp mp w wl kw vw mw wr)
        as (st1 & Hrun1 & Hrep1 & Hf1); [done..|].
      rewrite Hrun1. unfold RBFacts.N in Hrep1.
      set (mp1 := amax augmented key1 kp mp t wl) in *.
      set (mw1 := amax augmented key1 kw mw (T p red t kp vp mp1 wl) wr) in *.
      change (rep st1 (plug (FL p red kp vp mp1 wl :: FL w black kw vw mw1 wr :: ctx) t)) in Hrep1.
      assert (Hpar1 : get_parent (addr t) st1 = Ok (Some p, st1)).
      { exact (get_parent_addr st st1 _ t Hrep1 Hf1 Hpar). }
      inversion Hwl as [|? ? ? ? ? ? ? ? ? ? ?|b bl kb vb mb br n0 Hbl Hbr]; subst; [done|].
      assert (Hall1 : augmented = true →
                all_ok (plug (FL w black kw vw mw1 wr :: ctx)
                          (T p red t kp vp mp1 (T b black bl kb vb mb br)))).
      { intros Haug. specialize (Hall Haug). simpl in Hall |- *. pose proof Hall as Hs.
        apply all_ok_plug in Hs as [Hs _].
        assert (all_ok (T w black (T p red t kp vp mp1 (T b black bl kb vb mb br)) kw vw mw1 wr)
                ∧ msig (T w black (T p red t kp vp mp1 (T b black bl kb vb mb br)) kw vw mw1 wr)
                  = msig (T p black t kp vp mp (T w red (T b black bl kb vb mb br) kw vw mw wr)))
          as [Hs' Hm].
        { revert Hs. subst mp1 mw1. solve_ok. }
        by eapply all_ok_replace; [symmetry| |exact Hall]. }
      destruct (black_sibling_l fuel st1 (FL w black kw vw mw1 wr :: ctx) t p red kp vp mp1
                  b bl kb vb mb br n Hrep1 Hpar1 Hc Hrb Hbl Hbr)
        as [(st2 & Hrun2 & Hrep2 & Hf2 & Hblc & Hbrc)|(st2 & s' & Hrun2 & Hrep2 & Hf2 & Hfix)].
      * rewrite Hrun2.
        pose proof (deleteFixup_loop_stop fuel st2 (FL w black kw vw mw1 wr :: ctx) _ Hrep2
                      (or_intror eq_refl)) as Hstop.
        cbn [addr] in Hstop. rewrite Hstop.
        exists st2, (FL w black kw vw mw1 wr :: ctx),
          (T p red t kp vp mp1 (T b red bl kb vb mb br)). split_and!; [reflexivity|exact Hrep2|solve_frame| | | |].
        -- solve_inorder.
        -- apply (plug_rb _ _ (S n)).
           ++ simpl. apply is_rb_black; [done|]. by apply is_rb_red.
           ++ simpl. split_and!; [done|done|done].
        -- apply tcolor_plug_root; [|done]. by eapply root_black_head.
        -- intros Haug. specialize (Hall1 Haug). simpl in Hall1 |- *.
           eapply all_ok_replace; [| |exact Hall1]; [done|].
           apply all_ok_plug in Hall1 as [Hs _]. simpl in Hs |- *. tauto.
      * rewrite Hrun2.
        destruct (fixed_finish (FL w black kw vw mw1 wr :: ctx) _ s' (S n) Hfix)
          as (Hin & Hrb' & Hok'); [simpl; split_and!; done|done|].
        exists st2, [], (plug (FL w black kw vw mw1 wr :: ctx) s').
        split_and!; [done|done|solve_frame| |done|apply tcolor_blacken|done].
        simpl in Hin |- *. rewrite Hin. solve_inorder.
    + (* black sibling *)
      destruct (black_sibling_l fuel st ctx t p cp kp vp mp w wl kw vw mw wr n Hrep Hpar Hc Hrb
                  Hwl Hwr)
        as [(st2 & Hrun2 & Hrep2 & Hf2 & Hblc & Hbrc)|(st2 & s' & Hrun2 & Hrep2 & Hf2 & Hfix)].
      * rewrite Hrun2.
        assert (Hall2 : augmented = true →
                  all_ok (plug ctx (T p cp t kp vp mp (T w red wl kw vw mw wr)))).
        { intros Haug. specialize (Hall Haug). simpl in Hall.
          eapply all_ok_replace; [| |exact Hall]; [done|].
          apply all_ok_plug in Hall as [Hs _]. simpl in Hs |- *. tauto. }
        destruct (IH st2 ctx (T p cp t kp vp mp (T w red wl kw vw mw wr))
                    (match cp with black => S n | red => n end))
          as (st3 & ctx3 & t3 & Hrun3 & Hrep3 & Hf3 & Hin3 & Hrb3 & Hc3 & Hok3).
        { done. }
        { simpl. by rewrite (get_parent_focus _ _ _ _ _ _ _ _ _ Hrep2). }
        { destruct cp; [right|left]; (split; [done|]); simpl;
            (apply is_rb_black; [done|by apply is_rb_red]). }
        { destruct cp; simpl in Hctx; [by eapply ctx_rb_weaken|done]. }
        { done. }
        { done. }
        { simpl in Hfuel. lia. }
        exists st3, ctx3, t3. split_and!; [done|done|solve_frame| |done|done|done].
        rewrite Hin3. solve_inorder.
      * rewrite Hrun2.
        destruct (fixed_finish ctx _ s' (S n) Hfix) as (Hin & Hrb' & Hok'); [done|done|].
        exists st2, [], (plug ctx s').
        split_and!; [done|done|done|done|done|apply tcolor_blacken|done].
  - (* the node is a right child *)
    inversion Hsib as [|w wl kw vw mw wr n0 Hwl Hwr Hcl Hcr|w wl kw vw mw wr n0 Hwl Hwr]; subst.
    + (* red sibling *)
      assert (cp = black) as -> by (destruct cp; [by destruct Hfc|done]).
      simpl in Hctx.
      inversion Hwr as [|? ? ? ? ? ? ? ? ? ? ?|b bl kb vb mb br n0 Hbl Hbr]; subst; [done|].
      destruct (deleteFixup_red_r augmented key1 (S fuel) st ctx t p black kp vp mp w wl kw vw mw
                  b bl kb vb mb br)
        as (st1 & Hrun1 & Hrep1 & Hf1); [done..|].
      rewrite Hrun1. unfold RBFacts.N in Hrep1.
      set (mp1 := amax augmented key1 kp mp (T b black bl kb vb mb br) t) in *.
      set (mw1 := amax augmented key1 kw mw wl (T p red (T b black bl kb vb mb br) kp vp mp1 t))
        in *.
      change (rep st1 (plug (FR p red (T b black bl kb vb mb br) kp vp mp1
                               :: FR w black wl kw vw mw1 :: ctx) t)) in Hrep1.
      assert (Hpar1 : get_parent (addr t) st1 = Ok (Some p, st1)).
      { exact (get_parent_addr st st1 _ t Hrep1 Hf1 Hpar). }
      assert (Hall1 : augmented = true →
                all_ok (plug (FR w black wl kw vw mw1 :: ctx)
                          (T p red (T b black bl kb vb mb br) kp vp mp1 t))).
      { intros Haug. specialize (Hall Haug). simpl in Hall |- *. pose proof Hall as Hs.
        apply all_ok_plug in Hs as [Hs _].
        assert (all_ok (T w black wl kw vw mw1 (T p red (T b black bl kb vb mb br) kp vp mp1 t))
                ∧ msig (T w black wl kw vw mw1 (T p red (T b black bl kb vb mb br) kp vp mp1 t))
                  = msig (T p black (T w red wl kw vw mw (T b black bl kb vb mb br)) kp vp mp t))
          as [Hs' Hm].
        { revert Hs. subst mp1 mw1. solve_ok. }
        by eapply all_ok_replace; [symmetry| |exact Hall]. }
      destruct (black_sibling_r fuel st1 (FR w black wl kw vw mw1 :: ctx) t p red kp vp mp1
                  b bl kb vb mb br n Hrep1 Hpar1 Hc Hrb Hbl Hbr)
        as [(st2 & Hrun2 & Hrep2 & Hf2 & Hblc & Hbrc)|(st2 & s' & Hrun2 & Hrep2 & Hf2 & Hfix)].
      * rewrite Hrun2.
        pose proof (deleteFixup_loop_stop fuel st2 (FR w black wl kw vw mw1 :: ctx) _ Hrep2
                      (or_intror eq_refl)) as Hstop.
        cbn [addr] in Hstop. rewrite Hstop.
        exists st2, (FR w black wl kw vw mw1 :: ctx),
          (T p red (T b red bl kb vb mb br) kp vp mp1 t).
        split_and!; [reflexivity|exact Hrep2|solve_frame| | | |].
        -- solve_inorder.
        -- apply (plug_rb _ _ (S n)).
           ++ simpl. apply is_rb_black; [|done]. by apply is_rb_red.
           ++ simpl. split_and!; [done|done|done].
        -- apply tcolor_plug_root; [|done]. by eapply root_black_head.
        -- intros Haug. specialize (Hall1 Haug). simpl in Hall1 |- *.
           eapply all_ok_replace; [| |exact Hall1]; [done|].
           apply all_ok_plug in Hall1 as [Hs _]. simpl in Hs |- *. tauto.
      * rewrite Hrun2.
        destruct (fixed_finish (FR w black wl kw vw mw1 :: ctx) _ s' (S n) Hfix)
          as (Hin & Hrb' & Hok'); [simpl; split_and!; done|done|].
        exists st2, [], (plug (FR w black wl kw vw mw1 :: ctx) s').
        split_and!; [done|done|solve_frame| |done|apply tcolor_blacken|done].
        simpl in Hin |- *. rewrite Hin. solve_inorder.
    + (* black sibling *)
      destruct (black_sibling_r fuel st ctx t p cp kp vp mp w wl kw vw mw wr n Hrep Hpar Hc Hrb
                  Hwl Hwr)
        as [(st2 & Hrun2 & Hrep2 & Hf2 & Hblc & Hbrc)|(st2 & s' & Hrun2 & Hrep2 & Hf2 & Hfix)].
      * rewrite Hrun2.
        assert (Hall2 : augmented = true →
                  all_ok (plug ctx (T p cp (T w red wl kw vw mw wr) kp vp mp t))).
        { intros Haug. specialize (Hall Haug). simpl in Hall.
          eapply all_ok_replace; [| |exact Hall]; [done|].
          apply all_ok_plug in Hall as [Hs _]. simpl in Hs |- *. tauto. }
        destruct (IH st2 ctx (T p cp (T w red wl kw vw mw wr) kp vp mp t)
                    (match cp with black => S n | red => n end))
          as (st3 & ctx3 & t3 & Hrun3 & Hrep3 & Hf3 & Hin3 & Hrb3 & Hc3 & Hok3).
        { done. }
        { simpl. by rewrite (get_parent_focus _ _ _ _ _ _ _ _ _ Hrep2). }
        { destruct cp; [right|left]; (split; [done|]); simpl;
            (apply is_rb_black; [by apply is_rb_red|done]). }
        { destruct cp; simpl in Hctx; [by eapply ctx_rb_weaken|done]. }
        { done. }
        { done. }
        { simpl in Hfuel. lia. }
        exists st3, ctx3, t3. split_and!; [done|done|solve_frame| |done|done|done].
        rewrite Hin3. solve_inorder.
      * rewrite Hrun2.
        destruct (fixed_finish ctx _ s' (S n) Hfix) as (Hin & Hrb' & Hok'); [done|done|].
        exists st2, [], (plug ctx s').
        split_and!; [done|done|done|done|done|apply tcolor_blacken|done].
Qed.

(** [deleteFixup(x)] where the subtree of [x] is one black node short. *)
Lemma deleteFixup_spec fuel (st : Tree) ctx (t : tree) n :
  rep st (plug ctx t) →
  get_parent (addr t) st = Ok (caddr ctx, st) →
  DI t n → ctx_rb black (S n) ctx → root_black ctx →
  (augmented = true → all_ok (plug ctx t)) →
  (length ctx + 2 ≤ fuel)%nat →
  ∃ (st' : Tree) T',
    deleteFixup augmented key1 fuel (addr t) st = Ok (tt, st')
    ∧ rep st' T' ∧ frame_eq st st'
    ∧ inorder T' = inorder (plug ctx t)
    ∧ (∃ n', is_rb T' n')
    ∧ tcolor T' = black
    ∧ (augmented = true → all_ok T').
Proof.
  intros Hrep Hpar HDI Hctx Hroot Hall Hfuel.
  destruct (deleteFixup_loop_spec fuel st ctx t n)
    as (st1 & ctx1 & t1 & Hrun1 & Hrep1 & Hf1 & Hin1 & Hrb1 & Hc1 & Hok1); [done..|].
  destruct (set_color_addr_black st1 ctx1 t1 Hrep1) as (st2 & Hrun2 & Hrep2 & Hf2).
  exists st2, (plug ctx1 (blacken t1)). unfold deleteFixup, bind. rewrite Hrun1, Hrun2.
  split_and!; [done|done|solve_frame| |done|done|].
  - rewrite <- Hin1, !inorder_plug. by rewrite inorder_blacken.
  - intros Haug. by apply all_ok_blacken_plug, Hok1.
Qed.

End DeleteFixup.
End RBFacts5.

(** * [delete], [get] and [has] *)
Module RBFacts6.
Import RB RBFacts RBFacts2 RBFacts3 RBFacts4 RBFacts5.
Open Scope rb_scope.

Section Splice.
Context {K V : Type}.
Abbreviation Tree := (RB.Tree K V).
Abbreviation Node := (Node.t K V).
Abbreviation tree := (@tree K V).
Abbreviation frame := (@frame K V).

(** ** Unlinking a node *)

(** Replacing the subtree in the hole by a part of it. *)
Lemma rep_shrink (st st' : Tree) C (t t' : tree) :
  rep st (plug C t) →
  NoDup (addrs t') → addrs t' ⊆ addrs t →
  repr (heap st') (caddr C) t' → repr_ctx (heap st') (addr t') C →
  _root st' = addr (plug C t') →
  sentinel_ok (heap st') →
  next st' = next st →
  rep st' (plug C t').
Proof.
  intros H Hnd Hsub Hrepr Hctx Hroot Hs Hnext.
  destruct (rep_nodup_plug _ _ _ H) as [Hnd0 Hnz].
  destruct H as [_ _ _ _ _ Hf].
  split.
  - apply repr_plug. by split.
  - done.
  - rewrite addrs_plug. apply NoDup_app in Hnd0 as (_ & Hd & ?).
    apply NoDup_app. split_and!; [done| |done]. intros a Ha. apply Hd. by apply Hsub.
  - rewrite addrs_plug. rewrite not_elem_of_app in Hnz |- *. split; [|tauto].
    intros H0. destruct Hnz as [Hnz _]. apply Hnz. by apply Hsub.
  - done.
  - rewrite Hnext. rewrite Forall_cons in Hf |- *. destruct Hf as [? Hf]. split; [done|].
    rewrite addrs_plug in Hf |- *. rewrite Forall_app in Hf |- *. destruct Hf. split; [|done].
    rewrite Forall_forall in *. intros a Ha. auto.
Qed.

(** What the unlinking of [y] establishes: [x] is in the place of [y], its
    parent pointer is that of [y], also when [x] is the sentinel, and the
    record of [y] is as it was. *)
Definition splice_post (st st' : Tree) (C : list frame) (y : loc) (x : tree) : Prop :=
  rep st' (plug C x)
  ∧ get_parent (addr x) st' = Ok (caddr C, st')
  ∧ heap st' !! y = heap st !! y
  ∧ _size st' = _size st ∧ next st' = next st.

Ltac solve_splice H Hroot :=
  unfold splice_post; split_and!;
  [ eapply rep_shrink;
    [ exact H
    | eassumption
    | cbn [addrs]; set_solver
    | cbn [caddr faddr addr]; solve_repr
    | cbn [caddr faddr addr repr_ctx]; solve_repr
    | msimpl; first [reflexivity | rewrite Hroot; apply addr_plug_cons]
    | eexists; solve_lookup
    | reflexivity ]
  | rrun; reflexivity
  | msimpl; rewrite ?lookup_insert_ne by done; reflexivity
  | reflexivity
  | reflexivity ].

Lemma splice_left (st : Tree) C p c k v m r y cy yl ky vy my yr (x : tree) :
  rep st (plug (FL p c k v m r :: C) (T y cy yl ky vy my yr)) → x = yl ∨ x = yr →
  ∃ st1 st2 : Tree,
    set_parent (addr x) (Some p) st = Ok (tt, st1)
    ∧ get_parent (Some y) st1 = Ok (Some p, st1)
    ∧ get_left (Some p) st1 = Ok (Some y, st1)
    ∧ set_left (Some p) (addr x) st1 = Ok (tt, st2)
    ∧ get_parent (Some y) st2 = Ok (Some p, st2)
    ∧ splice_post st st2 (FL p c k v m r :: C) y x.
Proof.
  intros H Hx.
  pose proof (rep_focus _ _ _ _ _ _ _ _ _ H) as Hy.
  pose proof H as H'. cbn [plug fill] in H'.
  pose proof (rep_focus _ _ _ _ _ _ _ _ _ H') as Hp.
  destruct (sentinel_lookup _ _ H) as [npar H0].
  destruct (rep_view _ _ _ H') as [(_ & (_ & Hyl & Hyr) & Hr) Hctx].
  cbn [addr] in Hctx.
  pose proof (rep_root _ _ H) as Hroot.
  destruct (rep_nodup_plug _ _ _ H) as [Hnd _]. apply NoDup_app in Hnd as [Hnd _].
  simpl in Hnd. apply NoDup_cons in Hnd as [_ Hnd]. apply NoDup_app in Hnd as (Hndl & _ & Hndr).
  destruct Hx as [-> | ->].
  - destruct yl as [|xa xc xl xk xv xm xr];
      [|pose proof (rep_focus st (FL y cy ky vy my yr :: FL p c k v m r :: C) _ _ _ _ _ _ _ H)
          as Hxa; destruct Hyl as (_ & Hxl & Hxr)].
    all: addr_facts H.
    all: eexists _, _; split_and!; [rrun; reflexivity..|].
    all: solve_splice H Hroot.
  - destruct yr as [|xa xc xl xk xv xm xr];
      [|pose proof (rep_focus st (FR y cy yl ky vy my :: FL p c k v m r :: C) _ _ _ _ _ _ _ H)
          as Hxa; destruct Hyr as (_ & Hxl & Hxr)].
    all: addr_facts H.
    all: eexists _, _; split_and!; [rrun; reflexivity..|].
    all: solve_splice H Hroot.
Qed.

Lemma splice_right (st : Tree) C p c l k v m y cy yl ky vy my yr (x : tree) :
  rep st (plug (FR p c l k v m :: C) (T y cy yl ky vy my yr)) → x = yl ∨ x = yr →
  ∃ st1 st2 : Tree,
    set_parent (addr x) (Some p) st = Ok (tt, st1)
    ∧ get_parent (Some y) st1 = Ok (Some p, st1)
    ∧ get_left (Some p) st1 = Ok (addr l, st1)
    ∧ Some y ≠ addr l
    ∧ set_right (Some p) (addr x) st1 = Ok (tt, st2)
    ∧ get_parent (Some y) st2 = Ok (Some p, st2)
    ∧ splice_post st st2 (FR p c l k v m :: C) y x.
Proof.
  intros H Hx.
  pose proof (rep_focus _ _ _ _ _ _ _ _ _ H) as Hy.
  pose proof H as H'. cbn [plug fill] in H'.
  pose proof (rep_focus _ _ _ _ _ _ _ _ _ H') as Hp.
  destruct (sentinel_lookup _ _ H) as [npar H0].
  destruct (rep_view _ _ _ H') as [(_ & Hl & (_ & Hyl & Hyr)) Hctx].
  cbn [addr] in Hctx.
  pose proof (rep_root _ _ H) as Hroot.
  destruct (rep_nodup_plug _ _ _ H) as [Hnd _]. apply NoDup_app in Hnd as [Hnd _].
  simpl in Hnd. apply NoDup_cons in Hnd as [_ Hnd]. apply NoDup_app in Hnd as (Hndl & _ & Hndr).
  destruct Hx as [-> | ->].
  - destruct yl as [|xa xc xl xk xv xm xr];
      [|pose proof (rep_focus st (FL y cy ky vy my yr :: FR p c l k v m :: C) _ _ _ _ _ _ _ H)
          as Hxa; destruct Hyl as (_ & Hxl & Hxr)].
    all: addr_facts H.
    all: eexists _, _; split_and!; [rrun; reflexivity|rrun; reflexivity|rrun; reflexivity
                                    |solve_ne|rrun; reflexivity|rrun; reflexivity|].
    all: solve_splice H Hroot.
  - destruct yr as [|xa xc xl xk xv xm xr];
      [|pose proof (rep_focus st (FR y cy yl ky vy my :: FR p c l k v m :: C) _ _ _ _ _ _ _ H)
          as Hxa; destruct Hyr as (_ & Hxl & Hxr)].
    all: addr_facts H.
    all: eexists _, _; split_and!; [rrun; reflexivity|rrun; reflexivity|rrun; reflexivity
                                    |solve_ne|rrun; reflexivity|rrun; reflexivity|].
    all: solve_splice H Hroot.
Qed.

Lemma splice_root (st : Tree) y cy yl ky vy my yr (x : tree) :
  rep st (plug [] (T y cy yl ky vy my yr)) → x = yl ∨ x = yr →
  ∃ st1 st2 : Tree,
    set_parent (addr x) None st = Ok (tt, st1)
    ∧ get_parent (Some y) st1 = Ok (None, st1)
    ∧ set_root (addr x) st1 = Ok (tt, st2)
    ∧ get_parent (Some y) st2 = Ok (None, st2)
    ∧ splice_post st st2 [] y x.
Proof.
  intros H Hx.
  pose proof (rep_focus _ _ _ _ _ _ _ _ _ H) as Hy.
  destruct (sentinel_lookup _ _ H) as [npar H0].
  destruct (rep_view _ _ _ H) as [(_ & Hyl & Hyr) Hctx].
  pose proof (rep_root _ _ H) as Hroot.
  destruct (rep_nodup_plug _ _ _ H) as [Hnd _]. apply NoDup_app in Hnd as [Hnd _].
  simpl in Hnd. apply NoDup_cons in Hnd as [_ Hnd]. apply NoDup_app in Hnd as (Hndl & _ & Hndr).
  destruct Hx as [-> | ->].
  - destruct yl as [|xa xc xl xk xv xm xr];
      [|pose proof (rep_focus st [FL y cy ky vy my yr] _ _ _ _ _ _ _ H)
          as Hxa; destruct Hyl as (_ & Hxl & Hxr)].
    all: addr_facts H.
    all: eexists _, _; split_and!; [rrun; reflexivity..|].
    all: solve_splice H Hroot.
  - destruct yr as [|xa xc xl xk xv xm xr];
      [|pose proof (rep_focus st [FR y cy yl ky vy my] _ _ _ _ _ _ _ H)
          as Hxa; destruct Hyr as (_ & Hxl & Hxr)].
    all: addr_facts H.
    all: eexists _, _; split_and!; [rrun; reflexivity..|].
    all: solve_splice H Hroot.
Qed.

End Splice.
Section Contexts.
Context {K V : Type} (augmented : bool) (key1 : K → Z).
Abbreviation tree := (@tree K V).
Abbreviation frame := (@frame K V).
Abbreviation all_ok := (all_ok key1).
Abbreviation fix_ctx := (fix_ctx key1).
Abbreviation fix_frame := (fix_frame key1).

Lemma cbefore_app (A B : list frame) : cbefore (A ++ B) = cbefore B ++ cbefore A.
Proof. induction A as [|f A IH]; simpl; [by rewrite app_nil_r|]. by rewrite IH, app_assoc. Qed.

Lemma cafter_app (A B : list frame) : cafter (A ++ B) = cafter A ++ cafter B.
Proof. induction A as [|f A IH]; simpl; [done|]. by rewrite IH, app_assoc. Qed.

(** The shape of a frame: all but its key, value and [max]. *)
Definition fshape (f : frame) : bool * loc * Color * tree :=
  match f with
  | FL p c _ _ _ r => (true, p, c, r)
  | FR p c l _ _ _ => (false, p, c, l)
  end.

(** A frame without its [max]. *)
Definition fnom (f : frame) : frame :=
  match f with
  | FL p c k v _ r => FL p c k v 0 r
  | FR p c l k v _ => FR p c l k v 0
  end.

Lemma fshape_fnom (C C' : list frame) : fnom <$> C = fnom <$> C' → fshape <$> C = fshape <$> C'.
Proof.
  revert C'. induction C as [|f C IH]; intros [|f' C'] H; simplify_eq/=; [done|].
  f_equal; [|by apply IH]. destruct f, f'; by simplify_eq/=.
Qed.

Lemma fshape_fcolor (f g : frame) : fshape f = fshape g → fcolor f = fcolor g.
Proof. destruct f, g; simpl; congruence. Qed.

Lemma fshape_fsib (f g : frame) : fshape f = fshape g → fsib f = fsib g.
Proof. destruct f, g; simpl; congruence. Qed.

Lemma fshape_faddr (f g : frame) : fshape f = fshape g → faddr f = faddr g.
Proof. destruct f, g; simpl; congruence. Qed.

Lemma ctx_rb_shape (C C' : list frame) hc n :
  fshape <$> C = fshape <$> C' → ctx_rb hc n C → ctx_rb hc n C'.
Proof.
  revert C' hc n. induction C as [|f C IH]; intros [|f' C'] hc n H; simplify_eq/=; [done|].
  rewrite (fshape_fcolor f f'), (fshape_fsib f f') by done.
  intros (? & ? & ?). split_and!; [done..|]. by eapply IH.
Qed.

Lemma root_black_shape (C C' : list frame) :
  fshape <$> C = fshape <$> C' → root_black C → root_black C'.
Proof.
  intros H Hr f' Hl.
  assert (fshape <$> last C = fshape <$> last C') as Hlast by (by rewrite <- !fmap_last, H).
  rewrite Hl in Hlast. destruct (last C) as [f|] eqn:E; simplify_eq/=.
  rewrite <- (fshape_fcolor f f') by done. by apply Hr.
Qed.

Lemma sibs_ok_shape (C C' : list frame) :
  fshape <$> C = fshape <$> C' →
  Forall (λ f, all_ok (fsib f)) C → Forall (λ f, all_ok (fsib f)) C'.
Proof.
  revert C'. induction C as [|f C IH]; intros [|f' C'] H; simplify_eq/=; [done|].
  rewrite !Forall_cons. rewrite (fshape_fsib f f') by done. intros [? ?]. split; [done|].
  by apply IH.
Qed.

Lemma caddr_shape (C C' : list frame) : fshape <$> C = fshape <$> C' → caddr C = caddr C'.
Proof. destruct C, C'; intros; simplify_eq/=; [done|]. f_equal. by apply fshape_faddr. Qed.

Lemma faddrs_shape (C C' : list frame) :
  fshape <$> C = fshape <$> C' → faddr <$> C = faddr <$> C'.
Proof.
  revert C'. induction C as [|f C IH]; intros [|f' C'] H; simplify_eq/=; [done|].
  f_equal; [by apply fshape_faddr|by apply IH].
Qed.

Lemma fnom_fix_frame (f : frame) (t : tree) : fnom (fix_frame f t) = fnom f.
Proof. by destruct f. Qed.

Lemma fnom_fix_ctx (C : list frame) (t : tree) : fnom <$> fix_ctx C t = fnom <$> C.
Proof.
  revert t. induction C as [|f C IH]; intros t; simpl; [done|].
  by rewrite fnom_fix_frame, IH.
Qed.

Lemma fix_frame_fnom (f g : frame) (t t' : tree) :
  fnom f = fnom g → msig t = msig t' → fix_frame f t = fix_frame g t'.
Proof.
  destruct f, g; simpl; intros; simplify_eq; f_equal; by apply nmax_msig.
Qed.

Lemma fix_ctx_fnom (C C' : list frame) (t : tree) :
  fnom <$> C = fnom <$> C' → fix_ctx C t = fix_ctx C' t.
Proof.
  revert C' t. induction C as [|f C IH]; intros [|f' C'] t H; simplify_eq/=; [done|].
  rewrite (fix_frame_fnom f f' t t) by done. f_equal. by apply IH.
Qed.

Lemma fix_ctx_app (A B : list frame) (t : tree) :
  fix_ctx (A ++ B) t = fix_ctx A t ++ fix_ctx B (plug (fix_ctx A t) t).
Proof. revert t. induction A as [|f A IH]; intros t; simpl; [done|]. by rewrite IH. Qed.

(** The context after the [max] fields have been recomputed, where the
    class maintains them. *)
Definition afix (C : list frame) (t : tree) : list frame :=
  if augmented then fix_ctx C t else C.

Lemma fnom_afix (C : list frame) (t : tree) : fnom <$> afix C t = fnom <$> C.
Proof. unfold afix. destruct augmented; [apply fnom_fix_ctx|done]. Qed.

Lemma fshape_afix (C : list frame) (t : tree) : fshape <$> afix C t = fshape <$> C.
Proof. apply fshape_fnom, fnom_afix. Qed.

Lemma afix_app (A B : list frame) (t : tree) :
  afix (A ++ B) t = afix A t ++ afix B (plug (afix A t) t).
Proof. unfold afix. destruct augmented; [apply fix_ctx_app|done]. Qed.

Lemma caddr_afix (C : list frame) (t : tree) : caddr (afix C t) = caddr C.
Proof. apply caddr_shape, fshape_afix. Qed.

Lemma length_afix (C : list frame) (t : tree) : length (afix C t) = length C.
Proof. unfold afix. destruct augmented; [apply length_fix_ctx|done]. Qed.

Lemma cbefore_fnom (C C' : list frame) : fnom <$> C = fnom <$> C' → cbefore C = cbefore C'.
Proof.
  revert C'. induction C as [|f C IH]; intros [|f' C'] H; simplify_eq/=; [done|].
  rewrite (IH C') by done. f_equal. destruct f, f'; by simplify_eq/=.
Qed.

Lemma cafter_fnom (C C' : list frame) : fnom <$> C = fnom <$> C' → cafter C = cafter C'.
Proof.
  revert C'. induction C as [|f C IH]; intros [|f' C'] H; simplify_eq/=; [done|].
  rewrite (IH C') by done. f_equal. destruct f, f'; by simplify_eq/=.
Qed.

Lemma inorder_afix (C : list frame) (t : tree) :
  inorder (plug (afix C t) t) = inorder (plug C t).
Proof.
  rewrite !inorder_plug.
  by rewrite (cbefore_fnom _ _ (fnom_afix C t)), (cafter_fnom _ _ (fnom_afix C t)).
Qed.

Lemma afix_cons_FR z c (l : tree) k v m (B : list frame) (t : tree) :
  afix (FR z c l k v m :: B) t
  = FR z c l k v (amax augmented key1 k m l t)
      :: afix B (T z c l k v (amax augmented key1 k m l t) t).
Proof. unfold afix, amax. by destruct augmented. Qed.

Lemma all_ok_afix (C : list frame) (t : tree) :
  augmented = true → all_ok t → Forall (λ f, all_ok (fsib f)) C → all_ok (plug (afix C t) t).
Proof. unfold afix. intros ->. apply all_ok_fix_ctx. Qed.

End Contexts.

Section Delete.
Context {K V : Type}.
Context (augmented : bool) (compareFn : K → K → Ordering) (key1 : K → Z).
Context (laws : cmp_laws compareFn).
Abbreviation Tree := (RB.Tree K V).
Abbreviation M := (RB.M K V).
Abbreviation tree := (@tree K V).
Abbreviation frame := (@frame K V).
Abbreviation all_ok := (all_ok key1).
Abbreviation afix := (afix augmented key1).
Abbreviation sorted := (@sorted K V compareFn).
Abbreviation gap := (@gap K V compareFn).
Abbreviation wf := (@wf K V augmented key1).
Abbreviation Inv := (@Inv K V augmented compareFn key1).

Lemma faddrs_caddrs (C : list frame) y : y ∉ caddrs C → y ∉ faddr <$> C.
Proof.
  intros Hy Hin. apply Hy. apply list_elem_of_fmap in Hin as (f & -> & Hf).
  unfold caddrs. apply list_elem_of_bind. exists f. split; [left|done].
Qed.

(** The [max] fields after a node has been unlinked: [updateNodeMax] of the
    parent, then [updateParentsMax]. *)
Lemma maxfix_spec fuel (st2 : Tree) C (x : tree) y :
  rep st2 (plug C x) →
  get_parent (addr x) st2 = Ok (caddr C, st2) →
  get_parent (Some y) st2 = Ok (caddr C, st2) →
  y ∉ faddr <$> C → (length C < fuel)%nat →
  ∃ st3 st' : Tree,
    match caddr C with
    | Some _ => when augmented (yp ← get_parent (Some y); updateNodeMax key1 yp) st2 = Ok (tt, st3)
    | None => st3 = st2
    end
    ∧ when augmented (updateParentsMax key1 fuel (addr x)) st3 = Ok (tt, st')
    ∧ rep st' (plug (afix C x) x) ∧ frame_eq st2 st' ∧ heap st' !! y = heap st2 !! y.
Proof.
  intros Hrep Hpar Hypar Hy Hfuel. unfold RBFacts6.afix.
  destruct augmented; cbn [when]; last first.
  { exists st2, st2. split_and!; try done. by destruct (caddr C). }
  destruct C as [|f C].
  - destruct (updateParentsMax_spec key1 fuel st2 [] x Hrep Hpar Hfuel)
      as (st' & Hrun & Hrep' & Hf' & Hk').
    exists st2, st'. split_and!; try done. by apply Hk'.
  - assert (∃ p c l k v m r, fill f x = T p c l k v m r ∧ faddr f = p) as
      (p & c & l & k & v & m & r & Hfill & Hp) by (destruct f; simpl; eauto 10).
    pose proof Hrep as Hrep0. simpl in Hrep0. rewrite Hfill in Hrep0.
    destruct (updateNodeMax_keeps key1 st2 C p c l k v m r Hrep0)
      as (st3 & Hrun3 & Hrep3 & Hf3 & Hk3).
    assert (T p c l k v (nmax key1 k l r) r = fill (fix_frame key1 f x) x) as Heq
      by (destruct f; simpl in *; by simplify_eq).
    rewrite Heq in Hrep3.
    change (rep st3 (plug (fix_frame key1 f x :: C) x)) in Hrep3.
    assert (Hpar3 : get_parent (addr x) st3 = Ok (caddr (fix_frame key1 f x :: C), st3)).
    { eapply get_parent_addr; [exact Hrep3|exact Hf3|]. simpl in *. by destruct f. }
    destruct (updateParentsMax_spec key1 fuel st3 _ x Hrep3 Hpar3)
      as (st' & Hrun & Hrep' & Hf' & Hk'); [simpl in *; lia|].
    exists st3, st'. simpl. rewrite fmap_cons, not_elem_of_cons in Hy. destruct Hy as [Hy1 Hy2].
    split_and!.
    + unfold bind. rewrite Hypar. simpl. by rewrite Hp, Hrun3.
    + done.
    + simpl in Hrep'.
      rewrite (fix_frame_fnom key1 (fix_frame key1 f x) f x x) in Hrep' by (by destruct f).
      done.
    + by eapply frame_eq_trans.
    + rewrite Hk'; [apply Hk3; congruence|].
      rewrite fmap_cons, not_elem_of_cons. split; [by destruct f; simpl in *; congruence|done].
Qed.

(** Unlinking [y], whose place its child [x] takes, and repairing the
    [max] fields above, as [deleteNode] does. *)
Lemma unlink_spec fuel (st : Tree) C y cy yl ky vy my yr (x : tree) :
  rep st (plug C (T y cy yl ky vy my yr)) → x = yl ∨ x = yr → (length C < fuel)%nat →
  ∃ st' : Tree,
    rep st' (plug (afix C x) x)
    ∧ get_parent (addr x) st' = Ok (caddr C, st')
    ∧ heap st' !! y = heap st !! y
    ∧ _size st' = _size st
    ∧ ∀ A (REST : M A),
        (yp ← get_parent (Some y);
         _ ← set_parent (addr x) yp;
         yp ← get_parent (Some y);
         _ ← match yp with
             | Some _ =>
                 ypl ← get_left yp;
                 _ ← (if decide (Some y = ypl) then set_left yp (addr x)
                      else set_right yp (addr x));
                 when augmented (yp ← get_parent (Some y); updateNodeMax key1 yp)
             | None => set_root (addr x)
             end;
         _ ← when augmented (updateParentsMax key1 fuel (addr x));
         REST) st = REST st'.
Proof.
  intros H Hx Hfuel.
  pose proof (get_parent_focus _ _ _ _ _ _ _ _ _ H) as E0.
  destruct (rep_nodup_plug _ _ _ H) as [Hnd _]. apply NoDup_app in Hnd as (_ & Hnd & _).
  assert (y ∉ faddr <$> C) as Hyc by (apply faddrs_caddrs, Hnd; simpl; left).
  assert (Hparf : ∀ C0 (s2 s' : Tree),
            rep s' (plug (afix C0 x) x) → frame_eq s2 s' →
            get_parent (addr x) s2 = Ok (caddr C0, s2) →
            get_parent (addr x) s' = Ok (caddr C0, s')).
  { intros C0 s2 s' Hr Hf Hp. rewrite <- (caddr_afix augmented key1 C0 x) in Hp |- *.
    by eapply get_parent_addr. }
  destruct C as [|[p c k v m r|p c l k v m] C].
  - destruct (splice_root st y cy yl ky vy my yr x H Hx)
      as (st1 & st2 & E1 & E2 & E3 & E4 & Hrep2 & Hpar2 & Hy2 & Hsz2 & Hnx2).
    destruct (maxfix_spec fuel st2 [] x y Hrep2 Hpar2 E4 Hyc Hfuel)
      as (st3 & st' & -> & E5 & Hrep' & Hf' & Hy').
    exists st'. split_and!; [done| |congruence|destruct Hf' as (_ & -> & _); done|].
    + by eapply Hparf.
    + intros A REST. unfold bind. rewrite E0. msimpl. rewrite E1, E2. msimpl.
      by rewrite E3, E5.
  - destruct (splice_left st C p c k v m r y cy yl ky vy my yr x H Hx)
      as (st1 & st2 & E1 & E2 & E3 & E4 & E4' & Hrep2 & Hpar2 & Hy2 & Hsz2 & Hnx2).
    destruct (maxfix_spec fuel st2 (FL p c k v m r :: C) x y Hrep2 Hpar2 E4' Hyc Hfuel)
      as (st3 & st' & E6 & E5 & Hrep' & Hf' & Hy').
    exists st'. split_and!; [done| |congruence|destruct Hf' as (_ & -> & _); done|].
    + by eapply Hparf.
    + intros A REST. unfold bind. rewrite E0. msimpl. rewrite E1, E2. msimpl.
      rewrite E3. rewrite decide_True by done. rewrite E4.
      simpl in E6. unfold bind in E6. rewrite E6. by rewrite E5.
  - destruct (splice_right st C p c l k v m y cy yl ky vy my yr x H Hx)
      as (st1 & st2 & E1 & E2 & E3 & Hne & E4 & E4' & Hrep2 & Hpar2 & Hy2 & Hsz2 & Hnx2).
    destruct (maxfix_spec fuel st2 (FR p c l k v m :: C) x y Hrep2 Hpar2 E4' Hyc Hfuel)
      as (st3 & st' & E6 & E5 & Hrep' & Hf' & Hy').
    exists st'. split_and!; [done| |congruence|destruct Hf' as (_ & -> & _); done|].
    + by eapply Hparf.
    + intros A REST. unfold bind. rewrite E0. msimpl. rewrite E1, E2. msimpl.
      rewrite E3. rewrite decide_False by done. rewrite E4.
      simpl in E6. unfold bind in E6. rewrite E6. by rewrite E5.
Qed.

(** Moving the key and the value of the unlinked node [y] into [z]. *)
Lemma swap_spec fuel (st1 : Tree) B z cz zl kz vz mz (tA : tree) y (ny : Node.t K V) ky vy :
  rep st1 (plug B (T z cz zl kz vz mz tA)) →
  heap st1 !! y = Some ny → Node.key ny = Some ky → Node.value ny = Some vy →
  y ≠ z → y ∉ faddr <$> B → (length B < fuel)%nat →
  ∃ st' : Tree,
    (yk ← deref (Some y); _ ← set_key (Some z) (Node.key yk);
     yv ← get_value (Some y); _ ← set_value (Some z) yv;
     _ ← when augmented (updateNodeMax key1 (Some z));
     when augmented (updateParentsMax key1 fuel (Some z))) st1 = Ok (tt, st')
    ∧ rep st' (plug (afix B (T z cz zl ky vy (amax augmented key1 ky mz zl tA) tA))
                 (T z cz zl ky vy (amax augmented key1 ky mz zl tA) tA))
    ∧ frame_eq st1 st' ∧ heap st' !! y = heap st1 !! y.
Proof.
  intros H Hy Hk Hv Hyz HyB Hfuel.
  pose proof (rep_put_data _ _ _ _ _ _ _ _ _ cz ky vz mz H) as H2.
  pose proof (frame_eq_put _ _ _ _ _ _ _ _ _ (node_of (caddr B) z cz zl ky vz mz tA) H) as Hf2.
  set (st2 := put z (node_of (caddr B) z cz zl ky vz mz tA) st1) in *.
  pose proof (rep_put_data _ _ _ _ _ _ _ _ _ cz ky vy mz H2) as H3.
  pose proof (frame_eq_put _ _ _ _ _ _ _ _ _ (node_of (caddr B) z cz zl ky vy mz tA) H2) as Hf3.
  set (st3 := put z (node_of (caddr B) z cz zl ky vy mz tA) st2) in *.
  assert (E1 : set_key (Some z) (Some ky) st1 = Ok (tt, st2)).
  { unfold set_key. by rewrite (update_Some _ _ _ _ (rep_focus _ _ _ _ _ _ _ _ _ H)). }
  assert (E2 : set_value (Some z) (Some vy) st2 = Ok (tt, st3)).
  { unfold set_value. by rewrite (update_Some _ _ _ _ (rep_focus _ _ _ _ _ _ _ _ _ H2)). }
  assert (Hy2 : heap st2 !! y = Some ny) by (subst st2; simpl; by rewrite lookup_insert_ne).
  assert (Hy3 : heap st3 !! y = Some ny) by (subst st3; simpl; by rewrite lookup_insert_ne).
  assert (∃ st' : Tree,
            when augmented (updateNodeMax key1 (Some z)) st3 = Ok (tt, st')
            ∧ rep st' (plug B (T z cz zl ky vy (amax augmented key1 ky mz zl tA) tA))
            ∧ frame_eq st3 st' ∧ heap st' !! y = Some ny) as (st4 & E3 & H4 & Hf4 & Hy4).
  { unfold amax. destruct augmented; [|by exists st3].
    destruct (updateNodeMax_keeps key1 _ _ _ _ _ _ _ _ _ H3) as (st4 & ? & ? & ? & Hk4).
    exists st4. split_and!; try done. by rewrite Hk4. }
  assert (∃ st' : Tree,
            when augmented (updateParentsMax key1 fuel (Some z)) st4 = Ok (tt, st')
            ∧ rep st' (plug (afix B (T z cz zl ky vy (amax augmented key1 ky mz zl tA) tA))
                         (T z cz zl ky vy (amax augmented key1 ky mz zl tA) tA))
            ∧ frame_eq st4 st' ∧ heap st' !! y = Some ny) as (st5 & E4 & H5 & Hf5 & Hy5).
  { unfold RBFacts6.afix. destruct augmented; [|by exists st4].
    destruct (updateParentsMax_spec key1 fuel st4 B _ H4) as (st5 & ? & ? & ? & Hk5);
      [exact (get_parent_focus _ _ _ _ _ _ _ _ _ H4)|done|].
    exists st5. split_and!; try done. by rewrite Hk5. }
  exists st5. split_and!; [|done|solve_frame|congruence].
  unfold bind, deref. rewrite Hy, Hk, E1.
  unfold get_value, bind, deref. rewrite Hy2. msimpl. rewrite Hv, E2, E3. done.
Qed.

(** [leftmost]: the node without a left child at the end of the left
    spine. *)
Lemma leftmost_spec fuel : ∀ (st : Tree) C p c l k v m r,
  rep st (plug C (T p c l k v m r)) →
  (length (inorder (T p c l k v m r)) < fuel)%nat →
  ∃ A y cy ky vy my yr,
    T p c l k v m r = plug A (T y cy Leaf ky vy my yr)
    ∧ cbefore A = []
    ∧ leftmost fuel (Some p) st = Ok (Some y, st).
Proof.
  induction fuel as [|fuel IH]; intros st C p c l k v m r Hrep Hfuel; [lia|].
  cbn [leftmost]. unfold bind at 1. rewrite (get_left_focus _ _ _ _ _ _ _ _ _ Hrep).
  unfold bind at 1.
  rewrite (get_nil_addr st (FL p c k v m r :: C) l Hrep).
  destruct l as [|lp lc ll lk lv lm lr]; simpl.
  - by exists [], p, c, k, v, m, r.
  - unfold bind. rewrite (get_left_focus _ _ _ _ _ _ _ _ _ Hrep). simpl.
    destruct (IH st (FL p c k v m r :: C) lp lc ll lk lv lm lr Hrep)
      as (A & y & cy & ky & vy & my & yr & Heq & Hb & Hrun).
    { simpl in *. rewrite !length_app in *. simpl in *. lia. }
    exists (A ++ [FL p c k v m r]), y, cy, ky, vy, my, yr.
    rewrite plug_app, <- Heq, cbefore_app, Hb. done.
Qed.

(** [_find]: the node that holds [key], or none. *)
Lemma find_spec key fuel : ∀ (st : Tree) C t,
  rep st (plug C t) → sorted (inorder (plug C t)) → gap key C →
  (length (inorder t) < fuel)%nat →
  ∃ res C',
    _find compareFn fuel key (addr t) st = Ok (res, st)
    ∧ gap key C'
    ∧ ((∃ z cz zl vz mz zr, res = Some z ∧ plug C t = plug C' (T z cz zl key vz mz zr))
       ∨ (res = None ∧ plug C t = plug C' Leaf)).
Proof.
  induction fuel as [|fuel IH]; intros st C t Hrep Hs Hgap Hfuel; [lia|].
  cbn [_find].
  assert (∃ a, addr t = Some a) as [a Ha] by (destruct t; simpl; eauto).
  rewrite Ha. rewrite <- Ha. unfold bind at 1. rewrite (get_nil_addr _ _ _ Hrep).
  destruct t as [|x c l k v m r]; simpl.
  { exists None, C. split_and!; [done..|]. by right. }
  unfold bind at 1. rewrite (get_key_focus _ _ _ _ _ _ _ _ _ Hrep).
  pose proof Hs as Hs'. rewrite inorder_plug in Hs'. simpl in Hs'.
  apply sorted_app in Hs' as (_ & _ & Hs'). rewrite <- app_assoc in Hs'. simpl in Hs'.
  apply sorted_split in Hs' as [Hbl Har]. apply Forall_app in Har as [Har _].
  destruct Hgap as [Hgb Hga].
  destruct (compareFn key k) eqn:Hcmp.
  - unfold bind at 1. rewrite (get_left_focus _ _ _ _ _ _ _ _ _ Hrep).
    apply (IH st (FL x c k v m r :: C) l);
      [done|done| |simpl in Hfuel; rewrite length_app in Hfuel; simpl in Hfuel; lia].
    split; simpl; [by rewrite app_nil_r|]. unfold above. rewrite Forall_cons, Forall_app.
    split_and!; [done| |done].
    eapply above_trans; [done|exact Har|done].
  - unfold bind at 1. rewrite (get_right_focus _ _ _ _ _ _ _ _ _ Hrep).
    apply (IH st (FR x c l k v m :: C) r);
      [done|done| |simpl in Hfuel; rewrite length_app in Hfuel; simpl in Hfuel; lia].
    apply (cmp_gt _ laws) in Hcmp.
    split; simpl; [|done]. unfold below. rewrite !Forall_app, Forall_singleton.
    split_and!; [done| |done].
    eapply below_trans; [done|exact Hbl|done].
  - apply (cmp_eq _ laws) in Hcmp. subst k.
    exists (Some x), C. split_and!; [done|done|]. left. by exists x, c, l, v, m, r.
Qed.

Lemma is_rb_DI (x : tree) n : is_rb x n → DI x n.
Proof.
  intros H. destruct (tcolor x) eqn:Hc; [right|left; done].
  split; [done|]. inversion H; subst; simpl in *; try done. by apply is_rb_black.
Qed.

Lemma is_rb_black_leaf (x : tree) : is_rb x 0 → tcolor x = black → x = Leaf.
Proof. intros H Hc. inversion H; subst; simpl in *; done. Qed.

(** The end of [deleteNode]: [deleteFixup] when the unlinked node was
    black. *)
Lemma delete_finish fuel (st' : Tree) Cf C0 (x : tree) y (ny : Node.t K V) cy yl ky vy my yr n0 :
  rep st' (plug Cf x) →
  get_parent (addr x) st' = Ok (caddr Cf, st') →
  heap st' !! y = Some ny → Node.color ny = cy →
  is_rb (plug C0 (T y cy yl ky vy my yr)) n0 →
  tcolor (plug C0 (T y cy yl ky vy my yr)) = black →
  fshape <$> Cf = fshape <$> C0 →
  (yl = Leaf ∧ x = yr) ∨ (yr = Leaf ∧ x = yl) →
  (augmented = true → all_ok (plug Cf x)) →
  (length Cf + 2 ≤ fuel)%nat →
  ∃ (st'' : Tree) T',
    (yc ← get_color (Some y);
     when (bool_decide (yc = black)) (deleteFixup augmented key1 fuel (addr x))) st'
    = Ok (tt, st'')
    ∧ rep st'' T' ∧ wf T' ∧ inorder T' = inorder (plug Cf x) ∧ _size st'' = _size st'.
Proof.
  intros Hrep Hpar Hy Hcy Hrb Hblack Hshape Hx Hok Hfuel.
  apply unplug_rb in Hrb as (n & Hrby & Hctx). simpl in Hctx.
  apply (ctx_rb_shape C0 Cf) in Hctx; [|done].
  assert (root_black Cf) as Hroot.
  { apply (root_black_shape C0 Cf); [done|].
    destruct C0 as [|f C0]; [by intros ? ?|]. by eapply root_black_plug. }
  unfold bind, get_color, bind, deref. rewrite Hy. msimpl. rewrite Hcy.
  destruct cy.
  - rewrite bool_decide_eq_false_2 by done. simpl.
    inversion Hrby as [|? ? ? ? ? ? ? Hl Hr Hcl Hcr|]; subst.
    assert (n = 0%nat ∧ x = Leaf) as [-> ->].
    { destruct Hx as [[-> ->]|[-> ->]]; inversion Hl; inversion Hr; subst; simpl in *;
        try done; split; try done; congruence. }
    exists st', (plug Cf Leaf). split_and!; [done|done| |done|done].
    split_and!; [|by apply tcolor_plug_root|done].
    apply (plug_rb Cf Leaf 0%nat); [constructor|]. by eapply ctx_rb_weaken.
  - rewrite bool_decide_eq_true_2 by done. cbn [when].
    inversion Hrby as [| |? ? ? ? ? ? n1 Hl Hr]; subst.
    assert (n1 = 0%nat ∧ is_rb x 0) as [-> Hrx].
    { destruct Hx as [[-> ->]|[-> ->]]; [inversion Hl|inversion Hr]; subst; done. }
    destruct (deleteFixup_spec augmented key1 fuel st' Cf x 0%nat)
      as (st'' & T' & Hrun & Hrep' & Hf & Hin & Hrb' & Hc' & Hok'); [done|done| |done..|].
    { by apply is_rb_DI. }
    exists st'', T'. split_and!; [done|done|done|done|by destruct Hf as (_ & -> & _)].
Qed.

Ltac rsimpl :=
  cbn beta iota zeta delta [ret negb andb orb is_leaf addr fst snd caddr faddr].

(** [deleteNode(z)] when [z] has at most one child. *)
Lemma deleteNode_one fuel (st : Tree) Cz z cz zl kz vz mz zr (x : tree) n0 :
  rep st (plug Cz (T z cz zl kz vz mz zr)) →
  (zl = Leaf ∧ x = zr) ∨ (zr = Leaf ∧ x = zl) →
  is_rb (plug Cz (T z cz zl kz vz mz zr)) n0 →
  tcolor (plug Cz (T z cz zl kz vz mz zr)) = black →
  (augmented = true → all_ok (plug Cz (T z cz zl kz vz mz zr))) →
  (length (inorder (plug Cz (T z cz zl kz vz mz zr))) + 1 ≤ fuel)%nat →
  ∃ (st' : Tree) T',
    deleteNode augmented key1 fuel (Some z) st = Ok (tt, st')
    ∧ rep st' T' ∧ wf T' ∧ inorder T' = inorder (plug Cz x) ∧ _size st' = _size st.
Proof.
  intros Hrep Hx Hrb Hblack Hok Hfuel.
  pose proof (length_ctx_le Cz (T z cz zl kz vz mz zr)) as Hlen. simpl in Hlen.
  rewrite length_app in Hlen. simpl in Hlen.
  destruct (unlink_spec fuel st Cz z cz zl kz vz mz zr x Hrep)
    as (st1 & Hrep1 & Hpar1 & Hy1 & Hsz1 & Hrun1); [tauto|lia|].
  rewrite (rep_focus _ _ _ _ _ _ _ _ _ Hrep) in Hy1.
  destruct (delete_finish fuel st1 (afix Cz x) Cz x z (node_of (caddr Cz) z cz zl kz vz mz zr)
              cz zl kz vz mz zr n0 Hrep1)
    as (st2 & T2 & Hrun2 & Hrep2 & Hwf2 & Hin2 & Hsz2).
  { by rewrite caddr_afix. }
  { done. }
  { done. }
  { done. }
  { done. }
  { apply fshape_afix. }
  { done. }
  { intros Haug. specialize (Hok Haug). apply all_ok_plug in Hok as [Hz Hs].
    apply all_ok_afix; [done| |done].
    simpl in Hz. destruct Hx as [[_ ->]|[_ ->]]; tauto. }
  { rewrite length_afix. lia. }
  exists st2, T2. split_and!; [|done|done|by rewrite Hin2, inorder_afix|congruence].
  unfold deleteNode.
  unfold bind at 1. rewrite (get_nil_focus _ _ _ _ _ _ _ _ _ Hrep). rsimpl.
  unfold bind at 1. rewrite (get_left_focus _ _ _ _ _ _ _ _ _ Hrep).
  unfold bind at 1. rewrite (get_nil_addr st (FL z cz kz vz mz zr :: Cz) zl Hrep).
  assert (Hone : (if is_leaf zl then ret true
                  else bind (get_right (Some z)) (λ zr : ref, get_nil zr)) st = Ok (true, st)).
  { destruct Hx as [[-> _]|[-> _]]; [done|]. destruct zl; [done|]. simpl.
    unfold bind. rewrite (get_right_focus _ _ _ _ _ _ _ _ _ Hrep).
    by rewrite (get_nil_addr st (FR z cz _ kz vz mz :: Cz) Leaf Hrep). }
  unfold bind at 1. rewrite Hone. rsimpl.
  unfold bind at 1. rsimpl.
  unfold bind at 1. rewrite (get_left_focus _ _ _ _ _ _ _ _ _ Hrep).
  unfold bind at 1. rewrite (get_nil_addr st (FL z cz kz vz mz zr :: Cz) zl Hrep).
  assert (Hxr : (if negb (is_leaf zl) then get_left (Some z) else get_right (Some z)) st
                = Ok (addr x, st)).
  { destruct Hx as [[-> ->]|[-> ->]]; simpl.
    - by rewrite (get_right_focus _ _ _ _ _ _ _ _ _ Hrep).
    - destruct zl; simpl.
      + by rewrite (get_right_focus _ _ _ _ _ _ _ _ _ Hrep).
      + by rewrite (get_left_focus _ _ _ _ _ _ _ _ _ Hrep). }
  unfold bind at 1. rewrite Hxr.
  rewrite Hrun1.
  rewrite bool_decide_eq_false_2 by (intros ?; done). cbn [when]. unfold bind at 1. rsimpl.
  exact Hrun2.
Qed.

(** [deleteNode(z)] when [z] has two children: its successor [y] is
    unlinked and its key and value go to [z]. *)
Lemma deleteNode_two fuel (st : Tree) Cz z cz zl kz vz mz (zr : tree) n0 :
  rep st (plug Cz (T z cz zl kz vz mz zr)) →
  zl ≠ Leaf → zr ≠ Leaf →
  is_rb (plug Cz (T z cz zl kz vz mz zr)) n0 →
  tcolor (plug Cz (T z cz zl kz vz mz zr)) = black →
  (augmented = true → all_ok (plug Cz (T z cz zl kz vz mz zr))) →
  (length (inorder (plug Cz (T z cz zl kz vz mz zr))) + 1 ≤ fuel)%nat →
  ∃ (st' : Tree) T',
    deleteNode augmented key1 fuel (Some z) st = Ok (tt, st')
    ∧ rep st' T' ∧ wf T'
    ∧ inorder T' = cbefore Cz ++ inorder zl ++ inorder zr ++ cafter Cz
    ∧ _size st' = _size st.
Proof.
  intros Hrep Hzl Hzr Hrb Hblack Hok Hfuel.
  pose proof (length_ctx_le Cz (T z cz zl kz vz mz zr)) as Hlen. simpl in Hlen.
  rewrite length_app in Hlen. simpl in Hlen.
  assert (∃ r cr rl kr vr mr rr, zr = T r cr rl kr vr mr rr)
    as (r & cr & rl & kr & vr & mr & rr & Ezr) by (destruct zr; [done|eauto 10]).
  pose proof Hrep as Hrep'. rewrite Ezr in Hrep'.
  destruct (leftmost_spec fuel st (FR z cz zl kz vz mz :: Cz) r cr rl kr vr mr rr Hrep')
    as (A & y & cy & ky & vy & my & yr & Heq & Hb & Hlm); [rewrite <- Ezr; lia|].
  rewrite <- Ezr in Heq.
  set (C0 := A ++ FR z cz zl kz vz mz :: Cz).
  assert (Hplug : plug Cz (T z cz zl kz vz mz zr) = plug C0 (T y cy Leaf ky vy my yr)).
  { unfold C0. rewrite plug_app. simpl. by rewrite <- Heq. }
  rewrite Hplug in Hrep, Hrb, Hblack, Hok.
  pose proof (length_ctx_le C0 (T y cy Leaf ky vy my yr)) as Hlen0. simpl in Hlen0.
  rewrite <- Hplug in Hlen0.
  destruct (rep_nodup_plug _ _ _ Hrep) as [Hnd _]. apply NoDup_app in Hnd as (_ & Hnd & _).
  assert (y ∉ caddrs C0) as Hyc by (apply Hnd; simpl; left).
  assert (y ≠ z) as Hyz.
  { intros ->. apply Hyc. unfold C0, caddrs. rewrite bind_app, bind_cons. simpl. set_solver. }
  destruct (unlink_spec fuel st C0 y cy Leaf ky vy my yr yr Hrep)
    as (st1 & Hrep1 & Hpar1 & Hy1 & Hsz1 & Hrun1); [tauto|lia|].
  rewrite (rep_focus _ _ _ _ _ _ _ _ _ Hrep) in Hy1.
  set (tA := plug (afix A yr) yr).
  set (mz1 := amax augmented key1 kz mz zl tA).
  set (B1 := afix Cz (T z cz zl kz vz mz1 tA)).
  assert (Hafix : afix C0 yr = afix A yr ++ FR z cz zl kz vz mz1 :: B1).
  { unfold C0. by rewrite afix_app, afix_cons_FR. }
  assert (Hrep1' : rep st1 (plug B1 (T z cz zl kz vz mz1 tA))).
  { rewrite Hafix, plug_app in Hrep1. done. }
  assert (Hshape1 : fshape <$> B1 = fshape <$> Cz) by apply fshape_afix.
  destruct (swap_spec fuel st1 B1 z cz zl kz vz mz1 tA y
              (node_of (caddr C0) y cy Leaf ky vy my yr) ky vy Hrep1' Hy1)
    as (st2 & Hrun2 & Hrep2 & Hf2 & Hy2); [done|done|done| | |].
  { rewrite (faddrs_shape _ _ Hshape1). apply faddrs_caddrs. intros Hin. apply Hyc.
    unfold C0, caddrs. rewrite bind_app, bind_cons. set_solver. }
  { unfold B1. rewrite length_afix. unfold C0 in Hlen0. rewrite length_app in Hlen0.
    simpl in Hlen0. lia. }
  set (mz2 := amax augmented key1 ky mz1 zl tA) in *.
  set (B2 := afix B1 (T z cz zl ky vy mz2 tA)) in *.
  set (Cf := afix A yr ++ FR z cz zl ky vy mz2 :: B2).
  assert (Hrepf : rep st2 (plug Cf yr)).
  { unfold Cf. rewrite plug_app. done. }
  assert (Hnomf : fnom <$> Cf = fnom <$> (A ++ FR z cz zl ky vy mz :: Cz)).
  { unfold Cf, B2, B1. rewrite !fmap_app, !fmap_cons, !fnom_afix. done. }
  assert (Hshapef : fshape <$> Cf = fshape <$> C0).
  { unfold Cf, C0, B2. rewrite !fmap_app, !fmap_cons, !fshape_afix, Hshape1. done. }
  rewrite Hy1 in Hy2.
  destruct (delete_finish fuel st2 Cf C0 yr y (node_of (caddr C0) y cy Leaf ky vy my yr)
              cy Leaf ky vy my yr n0 Hrepf)
    as (st3 & T3 & Hrun3 & Hrep3 & Hwf3 & Hin3 & Hsz3).
  { eapply get_parent_addr; [exact Hrepf|exact Hf2|].
    by rewrite (caddr_shape _ _ Hshapef). }
  { exact Hy2. }
  { done. }
  { done. }
  { done. }
  { done. }
  { by left. }
  { intros Haug. specialize (Hok Haug). apply all_ok_plug in Hok as [Hty Hs].
    unfold C0 in Hs. apply Forall_app in Hs as [HsA Hs]. apply Forall_cons in Hs as [Hszl HsC].
    simpl in Hszl, Hty.
    assert (all_ok tA) as HtA by (unfold tA; apply all_ok_afix; tauto).
    unfold Cf. rewrite plug_app.
    change (all_ok (plug B2 (T z cz zl ky vy mz2 tA))).
    unfold B2. apply all_ok_afix; [done| |].
    - simpl. split_and!; [|done|done]. unfold mz2, amax. by rewrite Haug.
    - eapply sibs_ok_shape; [|exact HsC]. by rewrite Hshape1. }
  { assert (length Cf = length C0) as ->.
    { by rewrite <- (length_fmap fshape Cf), Hshapef, length_fmap. }
    lia. }
  exists st3, T3. split_and!; [|done|done| |destruct Hf2 as (_ & Hs2 & _); congruence].
  - unfold deleteNode.
    unfold bind at 1. rewrite (get_nil_focus _ _ _ _ _ _ _ _ _ Hrep'). rsimpl.
    unfold bind at 1. rewrite (get_left_focus _ _ _ _ _ _ _ _ _ Hrep').
    unfold bind at 1. rewrite (get_nil_addr st (FL z cz kz vz mz _ :: Cz) zl Hrep').
    destruct zl as [|lp lc ll lk lv lm lr]; [done|]. rsimpl.
    unfold bind at 1. unfold bind at 1. rewrite (get_right_focus _ _ _ _ _ _ _ _ _ Hrep').
    rewrite (get_nil_addr st (FR z cz _ kz vz mz :: Cz) (T r cr rl kr vr mr rr) Hrep'). rsimpl.
    unfold bind at 1. unfold bind at 1. rewrite (get_right_focus _ _ _ _ _ _ _ _ _ Hrep').
    rsimpl. rewrite Hlm.
    unfold bind at 1. rewrite (get_left_focus _ _ _ _ _ _ _ _ _ Hrep).
    unfold bind at 1. rewrite (get_nil_addr st (FL y cy ky vy my yr :: C0) Leaf Hrep). rsimpl.
    unfold bind at 1. rewrite (get_right_focus _ _ _ _ _ _ _ _ _ Hrep).
    rewrite Hrun1.
    rewrite bool_decide_eq_true_2 by congruence. cbn [when]. unfold bind at 1.
    rewrite Hrun2. exact Hrun3.
  - rewrite Hin3, inorder_plug.
    rewrite (cbefore_fnom _ _ Hnomf), (cafter_fnom _ _ Hnomf).
    rewrite cbefore_app, cafter_app, Hb. simpl.
    rewrite Heq, inorder_plug, Hb. simpl. by simplify_list_eq.
Qed.

(** [deleteNode(z)] for a node of the tree. *)
Lemma deleteNode_spec fuel (st : Tree) Cz z cz zl kz vz mz zr :
  rep st (plug Cz (T z cz zl kz vz mz zr)) →
  wf (plug Cz (T z cz zl kz vz mz zr)) →
  (length (inorder (plug Cz (T z cz zl kz vz mz zr))) + 1 ≤ fuel)%nat →
  ∃ (st' : Tree) T',
    deleteNode augmented key1 fuel (Some z) st = Ok (tt, st')
    ∧ rep st' T' ∧ wf T'
    ∧ inorder T' = cbefore Cz ++ inorder zl ++ inorder zr ++ cafter Cz
    ∧ _size st' = _size st.
Proof.
  intros Hrep ([n0 Hrb] & Hblack & Hok) Hfuel.
  assert (Hdec : ∀ u : tree, u = Leaf ∨ u ≠ Leaf) by (intros []; [by left|by right]).
  destruct (Hdec zl) as [Hzl|Hzl]; [|destruct (Hdec zr) as [Hzr|Hzr]].
  - destruct (deleteNode_one fuel st Cz z cz zl kz vz mz zr zr n0)
      as (st' & T' & ? & ? & ? & Hin & ?); [done|by left|done..|].
    exists st', T'. split_and!; [done..| |done]. rewrite Hin, inorder_plug. by subst zl.
  - destruct (deleteNode_one fuel st Cz z cz zl kz vz mz zr zl n0)
      as (st' & T' & ? & ? & ? & Hin & ?); [done|by right|done..|].
    exists st', T'. split_and!; [done..| |done]. rewrite Hin, inorder_plug. by subst zr.
  - by eapply deleteNode_two.
Qed.

(** [delete(key)] on a state that satisfies the invariant. *)
Lemma delete_spec key fuel (st : Tree) l :
  Inv st l → (length l + 2 ≤ fuel)%nat →
  ∃ st' : Tree,
    delete augmented compareFn key1 fuel key st
    = Ok (bool_decide (is_Some (find_key compareFn key l)), st')
    ∧ Inv st' (del compareFn key l)
    ∧ (find_key compareFn key l = None → st' = st).
Proof.
  intros (t & Hrep & <- & Hwf & Hs & Hsize) Hfuel.
  destruct (find_spec key fuel st [] t) as (res & C' & Hrun & [Hgb Hga] & Hcase);
    [done|done|split; by apply Forall_nil|lia|].
  unfold delete, find. unfold bind at 1. unfold bind at 1. rewrite (root_rep _ _ Hrep).
  simpl in Hrun. rewrite Hrun.
  destruct Hcase as [(z & cz & zl & vz & mz & zr & -> & Hplug)|(-> & Hplug)]; simpl in Hplug;
    subst t.
  - pose proof Hs as Hs'. rewrite inorder_plug in Hs'. simpl in Hs'.
    rewrite <- app_assoc in Hs'. simpl in Hs'. rewrite app_assoc in Hs'.
    assert (Hbelow : below compareFn key (cbefore C' ++ inorder zl)).
    { by apply sorted_split in Hs' as [? _]. }
    assert (Hl : inorder (plug C' (T z cz zl key vz mz zr))
                 = (cbefore C' ++ inorder zl) ++ (key, vz) :: inorder zr ++ cafter C').
    { rewrite inorder_plug. simpl. by rewrite <- !app_assoc. }
    rewrite Hl in *.
    destruct (deleteNode_spec fuel st C' z cz zl key vz mz zr Hrep Hwf)
      as (st1 & T1 & Hrun1 & Hrep1 & Hwf1 & Hin1 & Hsz1); [rewrite Hl; lia|].
    rewrite (find_key_found compareFn laws key vz) by done.
    rewrite (del_found compareFn laws key vz) by done.
    rewrite bool_decide_eq_true_2 by eauto.
    unfold bind. rewrite Hrun1. simpl.
    eexists. split_and!; [reflexivity| |intros ?; discriminate].
    exists T1.
    split_and!; [by destruct Hrep1|by rewrite Hin1, <- app_assoc|done|by eapply sorted_remove|].
    simpl. rewrite Hsz1, Hsize, !length_app. simpl. rewrite !length_app. lia.
  - assert (Hl : inorder (plug C' Leaf) = cbefore C' ++ cafter C').
    { by rewrite inorder_plug. }
    rewrite Hl in *.
    rewrite (find_key_gap compareFn laws key) by done.
    rewrite (del_gap compareFn laws key) by done.
    rewrite bool_decide_eq_false_2 by (by intros [? ?]).
    exists st. split_and!; [done| |done].
    exists (plug C' Leaf). by rewrite Hl.
Qed.

(** [get(key)] and [has(key)]. *)
Lemma get_spec key fuel (st : Tree) l :
  Inv st l → (length l + 1 ≤ fuel)%nat →
  get compareFn fuel key st = Ok (find_key compareFn key l, st).
Proof.
  intros (t & Hrep & <- & Hwf & Hs & Hsize) Hfuel.
  destruct (find_spec key fuel st [] t) as (res & C' & Hrun & [Hgb Hga] & Hcase);
    [done|done|split; by apply Forall_nil|lia|].
  unfold get, find. unfold bind at 1. unfold bind at 1. rewrite (root_rep _ _ Hrep).
  simpl in Hrun. rewrite Hrun.
  destruct Hcase as [(z & cz & zl & vz & mz & zr & -> & Hplug)|(-> & Hplug)]; simpl in Hplug;
    subst t.
  - pose proof Hs as Hs'. rewrite inorder_plug in Hs'. simpl in Hs'.
    rewrite <- app_assoc in Hs'. simpl in Hs'. rewrite app_assoc in Hs'.
    assert (Hbelow : below compareFn key (cbefore C' ++ inorder zl)).
    { by apply sorted_split in Hs' as [? _]. }
    rewrite (get_value_focus _ _ _ _ _ _ _ _ _ Hrep).
    rewrite inorder_plug. simpl. rewrite <- !app_assoc. simpl. rewrite app_assoc.
    by rewrite (find_key_found compareFn laws key vz).
  - rewrite inorder_plug. simpl. by rewrite (find_key_gap compareFn laws key).
Qed.

Lemma has_spec (undef : V → bool) key fuel (st : Tree) l :
  Inv st l → (length l + 1 ≤ fuel)%nat →
  has compareFn undef fuel key st
  = Ok (match find_key compareFn key l with Some v => negb (undef v) | None => false end, st).
Proof.
  intros HI Hfuel. unfold has, bind. by rewrite (get_spec key fuel st l HI Hfuel).
Qed.

End Delete.
End RBFacts6.

(** * The traversals: [entries], the checks and [search] *)
Module RBFacts7.
Import RB RBFacts RBFacts2 RBFacts3 RBFacts4 RBFacts5 RBFacts6.
Open Scope rb_scope.

Section Readers.
Context {K V : Type}.
Context (compareFn : K → K → Ordering) (truthy : K → bool).
Context (laws : cmp_laws compareFn).
Abbreviation Tree := (RB.Tree K V).
Abbreviation tree := (@tree K V).
Abbreviation frame := (@frame K V).
Abbreviation sorted := (@sorted K V compareFn).

(** ** Traversals *)

(** [t] is a subtree of the tree of [st]. *)
Definition sub (st : Tree) (t : tree) : Prop := ∃ C, rep st (plug C t).

Lemma sub_left (st : Tree) p c l k v m r : sub st (T p c l k v m r) → sub st l.
Proof. intros [C H]. by exists (FL p c k v m r :: C). Qed.

Lemma sub_right (st : Tree) p c l k v m r : sub st (T p c l k v m r) → sub st r.
Proof. intros [C H]. by exists (FR p c l k v m :: C). Qed.

Lemma sub_root (st : Tree) t : rep st t → sub st t.
Proof. intros H. by exists []. Qed.

(** *** [entries] *)

Definition item_out (t : tree) : list (K * V) :=
  match t with
  | Leaf => []
  | T _ _ _ k v _ r => (k, v) :: inorder r
  end.

Definition flat (items : list tree) : list (K * V) := items ≫= item_out.

Fixpoint spine (t : tree) (acc : list tree) : list tree :=
  match t with
  | Leaf => acc
  | T _ _ l _ _ _ _ => spine l (t :: acc)
  end.

Definition good (st : Tree) (t : tree) : Prop := sub st t ∧ t ≠ Leaf.

Definition out (l : list (K * V)) : list (K * option V) := (λ kv, (kv.1, Some kv.2)) <$> l.

Lemma flat_spine (t : tree) acc : flat (spine t acc) = inorder t ++ flat acc.
Proof.
  revert acc. induction t as [|p c l IHl k v m r IHr]; intros acc; simpl; [done|].
  rewrite IHl. unfold flat. rewrite bind_cons. simpl. by rewrite <- app_assoc.
Qed.

Lemma good_spine (st : Tree) (t : tree) acc :
  sub st t → Forall (good st) acc → Forall (good st) (spine t acc).
Proof.
  revert acc. induction t as [|p c l IHl k v m r IHr]; intros acc Ht Hacc; simpl; [done|].
  apply IHl; [by eapply sub_left|]. apply Forall_cons. by split.
Qed.

Lemma spine_nil (t : tree) acc : spine t acc = [] → t = Leaf ∧ acc = [].
Proof.
  revert acc. induction t as [|p c l IHl k v m r IHr]; intros acc; simpl; [done|].
  intros H. by apply IHl in H as [_ ?].
Qed.

Lemma push_left_spec (st : Tree) fuel : ∀ (t : tree) acc,
  sub st t → (length (inorder t) < fuel)%nat →
  push_left fuel (addr <$> acc) (addr t) st = Ok ((addr <$> spine t acc, sentinel), st).
Proof.
  induction fuel as [|fuel IH]; intros t acc [C Hrep] Hfuel; [lia|].
  cbn [push_left]. unfold bind at 1. rewrite (get_nil_addr _ _ _ Hrep).
  destruct t as [|p c l k v m r]; simpl; [done|].
  unfold bind. rewrite (get_left_focus _ _ _ _ _ _ _ _ _ Hrep).
  apply (IH l (T p c l k v m r :: acc)).
  - by exists (FL p c k v m r :: C).
  - simpl in Hfuel. rewrite length_app in Hfuel. simpl in Hfuel. lia.
Qed.

Lemma entries_loop_spec (st : Tree) fuel : ∀ items (t : tree),
  sub st t → Forall (good st) items →
  (length (inorder t ++ flat items) < fuel)%nat →
  entries_loop fuel (addr <$> items) (addr t) st = Ok (out (inorder t ++ flat items), st).
Proof.
  induction fuel as [|fuel IH]; intros items t Ht Hitems Hfuel; [lia|].
  cbn [entries_loop]. destruct Ht as [C Hrep].
  unfold bind at 1. rewrite (get_nil_addr _ _ _ Hrep).
  destruct (spine t items) as [|top rest] eqn:E.
  { apply spine_nil in E as [-> ->]. simpl. done. }
  assert (negb (is_leaf t) || bool_decide (addr <$> items ≠ []) = true) as ->.
  { destruct t; simpl; [|done]. simpl in E. subst items. by rewrite bool_decide_eq_true_2. }
  unfold bind at 1.
  rewrite (push_left_spec st (S fuel) t items) by
    (by (exists C) || (rewrite length_app in Hfuel; lia)).
  rewrite E.
  pose proof (good_spine st t items (ex_intro _ C Hrep) Hitems) as Hgood.
  rewrite E in Hgood. apply Forall_cons in Hgood as [[[C' Htop] Hne] Hrest].
  destruct top as [|p c l k v m r]; [done|]. rewrite fmap_cons. cbn beta iota delta [addr].
  pose proof (flat_spine t items) as Hflat. rewrite E in Hflat.
  unfold flat at 1 in Hflat. rewrite bind_cons in Hflat. simpl in Hflat.
  fold (flat rest) in Hflat.
  unfold bind at 1. rewrite (get_key_focus _ _ _ _ _ _ _ _ _ Htop).
  unfold bind at 1. rewrite (get_value_focus _ _ _ _ _ _ _ _ _ Htop).
  unfold bind at 1. rewrite (get_right_focus _ _ _ _ _ _ _ _ _ Htop).
  unfold bind at 1. rewrite (IH rest r).
  - simpl. by rewrite <- Hflat.
  - by exists (FR p c l k v m :: C').
  - done.
  - rewrite <- Hflat in Hfuel. simpl in Hfuel. lia.
Qed.

Lemma entries_spec (st : Tree) fuel (t : tree) :
  rep st t → (length (inorder t) < fuel)%nat →
  entries fuel st = Ok (out (inorder t), st).
Proof.
  intros Hrep Hfuel. unfold entries.
  unfold bind at 1. rewrite (root_rep _ _ Hrep).
  unfold bind at 1. rewrite (get_nil_addr st [] t Hrep).
  destruct t as [|p c l k v m r]; [done|]. simpl.
  unfold bind. rewrite (root_rep _ _ Hrep).
  pose proof (entries_loop_spec st fuel [] (T p c l k v m r)) as Hloop.
  simpl in Hloop. rewrite app_nil_r in Hloop. apply Hloop; [by apply sub_root|done|done].
Qed.

(** *** [checkBalanceInvariant] *)

(** The longest and the shortest path to a leaf. *)
Fixpoint longest (t : tree) : nat :=
  match t with
  | Leaf => 0
  | T _ _ l _ _ _ r => S (Nat.max (longest l) (longest r))
  end.

Fixpoint shortest (t : tree) : nat :=
  match t with
  | Leaf => 0
  | T _ _ l _ _ _ r => S (Nat.min (shortest l) (shortest r))
  end.

Lemma balance_traverse_spec (st : Tree) fuel : ∀ t : tree,
  sub st t → (length (inorder t) < fuel)%nat →
  balance_traverse fuel (addr t) st
  = Ok ((Z.of_nat (longest t), Z.of_nat (shortest t)), st).
Proof.
  induction fuel as [|fuel IH]; intros t [C Hrep] Hfuel; [lia|].
  cbn [balance_traverse].
  assert (∃ a, addr t = Some a) as [a Ha] by (destruct t; simpl; eauto).
  rewrite Ha. rewrite <- Ha. unfold bind at 1. rewrite (get_nil_addr _ _ _ Hrep).
  destruct t as [|p c l k v m r]; [done|]. cbn [is_leaf addr].
  simpl in Hfuel. rewrite length_app in Hfuel. simpl in Hfuel.
  unfold bind at 1. rewrite (get_left_focus _ _ _ _ _ _ _ _ _ Hrep).
  unfold bind at 1. rewrite (IH l) by ((by exists (FL p c k v m r :: C)) || lia).
  unfold bind at 1. rewrite (get_right_focus _ _ _ _ _ _ _ _ _ Hrep).
  unfold bind at 1. rewrite (IH r) by ((by exists (FR p c l k v m :: C)) || lia).
  unfold ret. do 2 f_equal. simpl longest. simpl shortest. f_equal; lia.
Qed.

Lemma is_rb_paths (t : tree) n :
  is_rb t n →
  (n + (if tcolor t is red then 1 else 0) ≤ shortest t
   ∧ longest t ≤ 2 * n + (if tcolor t is red then 1 else 0))%nat.
Proof.
  induction 1 as [|p l k v m r n Hl [IHl1 IHl2] Hr [IHr1 IHr2] Hcl Hcr
                  |p l k v m r n Hl [IHl1 IHl2] Hr [IHr1 IHr2]]; simpl.
  - lia.
  - rewrite Hcl in *. rewrite Hcr in *. lia.
  - destruct (tcolor l), (tcolor r); lia.
Qed.

Lemma checkBalanceInvariant_spec (st : Tree) fuel (t : tree) n :
  rep st t → is_rb t n → (length (inorder t) < fuel)%nat →
  checkBalanceInvariant fuel st = Ok (true, st).
Proof.
  intros Hrep Hrb Hfuel. unfold checkBalanceInvariant.
  unfold bind at 1. rewrite (root_rep _ _ Hrep).
  unfold bind. rewrite (balance_traverse_spec st fuel t) by (by apply sub_root || done).
  unfold ret. do 2 f_equal. apply bool_decide_eq_true_2.
  apply is_rb_paths in Hrb. destruct (tcolor t); lia.
Qed.

(** *** [checkOrderInvariant] *)

Lemma order_traverse_spec (st : Tree) fuel : ∀ (t : tree) min max,
  sub st t → sorted (inorder t) →
  (∀ a, min = Some a → above compareFn a (inorder t)) →
  (∀ b, max = Some b → below compareFn b (inorder t)) →
  (length (inorder t) < fuel)%nat →
  order_traverse compareFn truthy fuel (addr t) min max st = Ok (true, st).
Proof.
  induction fuel as [|fuel IH]; intros t min max [C Hrep] Hs Hmin Hmax Hfuel; [lia|].
  cbn [order_traverse]. unfold bind at 1. rewrite (get_nil_addr _ _ _ Hrep).
  destruct t as [|p c l k v m r]; [done|]. cbn [is_leaf addr].
  simpl in Hfuel. rewrite length_app in Hfuel. simpl in Hfuel.
  simpl in Hs. pose proof Hs as Hs0.
  apply sorted_split in Hs0 as [Hbl Har].
  apply sorted_app in Hs as (_ & Hsl & Hsr). apply sorted_cons in Hsr as [_ Hsr].
  assert (Hminl : ∀ a, min = Some a → above compareFn a (inorder l)).
  { intros a Ha. specialize (Hmin a Ha). simpl in Hmin. by apply Forall_app in Hmin as [? _]. }
  assert (Hmink : ∀ a, min = Some a → compareFn a k = LT).
  { intros a Ha. specialize (Hmin a Ha). simpl in Hmin. apply Forall_app in Hmin as [_ Hmin].
    by apply Forall_cons in Hmin as [? _]. }
  assert (Hminr : ∀ a, min = Some a → above compareFn a (inorder r)).
  { intros a Ha. specialize (Hmin a Ha). simpl in Hmin. apply Forall_app in Hmin as [_ Hmin].
    by apply Forall_cons in Hmin as [_ ?]. }
  assert (Hmaxl : ∀ b, max = Some b → below compareFn b (inorder l)).
  { intros b Hb. specialize (Hmax b Hb). simpl in Hmax. by apply Forall_app in Hmax as [? _]. }
  assert (Hmaxk : ∀ b, max = Some b → compareFn k b = LT).
  { intros b Hb. specialize (Hmax b Hb). simpl in Hmax. apply Forall_app in Hmax as [_ Hmax].
    by apply Forall_cons in Hmax as [? _]. }
  assert (Hmaxr : ∀ b, max = Some b → below compareFn b (inorder r)).
  { intros b Hb. specialize (Hmax b Hb). simpl in Hmax. apply Forall_app in Hmax as [_ Hmax].
    by apply Forall_cons in Hmax as [_ ?]. }
  assert (Hc1 : (if not_ truthy min then ret true
                 else bind (get_key (Some p))
                        (λ rk, ret (bool_decide (compareFn rk (default rk min) = GT)))) st
                = Ok (true, st)).
  { destruct (not_ truthy min) eqn:En; [done|].
    unfold bind. rewrite (get_key_focus _ _ _ _ _ _ _ _ _ Hrep). unfold ret. do 2 f_equal.
    apply bool_decide_eq_true_2. destruct min as [a|]; [|done]. simpl.
    apply (cmp_gt _ laws). by apply Hmink. }
  assert (Hc2 : (if not_ truthy max then ret true
                 else bind (get_key (Some p))
                        (λ rk, ret (bool_decide (compareFn rk (default rk max) = LT)))) st
                = Ok (true, st)).
  { destruct (not_ truthy max) eqn:En; [done|].
    unfold bind. rewrite (get_key_focus _ _ _ _ _ _ _ _ _ Hrep). unfold ret. do 2 f_equal.
    apply bool_decide_eq_true_2. destruct max as [b|]; [|done]. simpl. by apply Hmaxk. }
  unfold bind at 1. rewrite Hc1. cbn [negb].
  unfold bind at 1. rewrite Hc2. cbn [negb].
  unfold bind at 1. rewrite (get_left_focus _ _ _ _ _ _ _ _ _ Hrep).
  unfold bind at 1. rewrite (get_nil_addr st (FL p c k v m r :: C) l Hrep).
  assert (Hc3 : (if is_leaf l then ret true
                 else bind (get_left (Some p)) (λ l0, bind (get_key (Some p))
                        (λ rk, order_traverse compareFn truthy fuel l0 min (Some rk)))) st
                = Ok (true, st)).
  { destruct (is_leaf l); [done|].
    unfold bind. rewrite (get_left_focus _ _ _ _ _ _ _ _ _ Hrep).
    rewrite (get_key_focus _ _ _ _ _ _ _ _ _ Hrep).
    apply IH; [by exists (FL p c k v m r :: C)|done|done| |lia].
    by intros b [= <-]. }
  unfold bind at 1. rewrite Hc3. cbn [negb].
  unfold bind at 1. rewrite (get_right_focus _ _ _ _ _ _ _ _ _ Hrep).
  unfold bind at 1. rewrite (get_nil_addr st (FR p c l k v m :: C) r Hrep).
  destruct (is_leaf r); [done|].
  unfold bind. rewrite (get_right_focus _ _ _ _ _ _ _ _ _ Hrep).
  rewrite (get_key_focus _ _ _ _ _ _ _ _ _ Hrep).
  apply IH; [by exists (FR p c l k v m :: C)|done| |done|lia].
  by intros a [= <-].
Qed.

Lemma checkOrderInvariant_spec (st : Tree) fuel (t : tree) :
  rep st t → sorted (inorder t) → (length (inorder t) < fuel)%nat →
  checkOrderInvariant compareFn truthy fuel st = Ok (true, st).
Proof.
  intros Hrep Hs Hfuel. unfold checkOrderInvariant, bind. rewrite (root_rep _ _ Hrep).
  apply order_traverse_spec; [by apply sub_root|done|done|done|done].
Qed.

End Readers.

Section SearchFacts.
Context {V : Type}.
Abbreviation ITree := (RB.Tree Interval V).
Abbreviation itree := (@RBFacts.tree Interval V).
Abbreviation isorted := (@RBFacts3.sorted Interval V interval_compareFn).
Abbreviation iall_ok := (@all_ok Interval V snd).

(** *** [search] *)

(** The values of the intervals of [l] that intersect [q]. *)
Definition hits (q : Interval) (l : list (Interval * V)) : list (option V) :=
  l ≫= λ kv, if intervalsIntersect kv.1 q then [Some kv.2] else [].

Lemma hits_app q l1 l2 : hits q (l1 ++ l2) = hits q l1 ++ hits q l2.
Proof. apply bind_app. Qed.

Lemma hits_none q l :
  Forall (λ kv : Interval * V, intervalsIntersect kv.1 q = false) l → hits q l = [].
Proof.
  induction 1 as [|kv l Hkv _ IH]; [done|]. unfold hits in *. rewrite bind_cons, Hkv, IH. done.
Qed.

(** [max] bounds the high endpoints of the subtree. *)
Lemma all_ok_max (t : itree) :
  iall_ok t → ∀ m, msig t = Some m → Forall (λ kv : Interval * V, (kv.1.2 ≤ m)%Z) (inorder t).
Proof.
  induction t as [|p c l IHl k v m r IHr]; [done|].
  intros (Hm & Hl & Hr) m' [= <-]. simpl.
  specialize (IHl Hl). specialize (IHr Hr).
  rewrite Forall_app, Forall_cons. unfold nmax in Hm.
  destruct l as [|lp lc ll lk lv lm lr], r as [|rp rc rl rk rv rm rr];
    rewrite ?max3_Zmax, ?max_Zmax in Hm; simpl.
  - split_and!; [done|simpl; lia|done].
  - specialize (IHr rm eq_refl). split_and!; [done|simpl; lia|].
    eapply Forall_impl; [exact IHr|]. simpl. intros; lia.
  - specialize (IHl lm eq_refl). split_and!; [|simpl; lia|done].
    eapply Forall_impl; [exact IHl|]. simpl. intros; lia.
  - specialize (IHl lm eq_refl). specialize (IHr rm eq_refl). split_and!; [|simpl; lia|].
    + eapply Forall_impl; [exact IHl|]. simpl. intros; lia.
    + eapply Forall_impl; [exact IHr|]. simpl. intros; lia.
Qed.

Lemma prune_left q (l : itree) m :
  iall_ok l → msig l = Some m → ¬ (m >= q.1)%Z → hits q (inorder l) = [].
Proof.
  intros Hok Hm Hlt. apply hits_none. eapply Forall_impl; [by apply all_ok_max|].
  simpl. intros [[lo hi] v] Hle. unfold intervalsIntersect. simpl in *.
  apply andb_false_iff. right. apply bool_decide_eq_false_2. lia.
Qed.

Lemma prune_right q (k : Interval) (r : list (Interval * V)) :
  above interval_compareFn k r → ¬ (k.1 ≤ q.2)%Z → hits q r = [].
Proof.
  intros Hab Hlt. apply hits_none. eapply Forall_impl; [exact Hab|].
  simpl. intros [[lo hi] v] Hc. unfold intervalsIntersect. simpl in *.
  apply andb_false_iff. left. apply bool_decide_eq_false_2.
  unfold interval_compareFn in Hc. simpl in Hc. repeat case_decide; try done; lia.
Qed.

Definition searchable (st : ITree) (t : itree) : Prop :=
  sub st t ∧ t ≠ Leaf ∧ iall_ok t ∧ isorted (inorder t).

Definition nodes (items : list itree) : nat := length (items ≫= inorder).

Lemma search_loop_spec (st : ITree) q fuel : ∀ items : list itree,
  Forall (searchable st) items → (nodes items < fuel)%nat →
  ∃ res, search_loop fuel q (addr <$> items) st = Ok (res, st)
         ∧ res ≡ₚ hits q (items ≫= inorder).
Proof.
  induction fuel as [|fuel IH]; intros items Hitems Hfuel; [lia|].
  cbn [search_loop].
  destruct items as [|top rest]; [by exists []|].
  apply Forall_cons in Hitems as [([C Hrep] & Hne & Hok & Hs) Hrest].
  destruct top as [|p c l k v m r]; [done|]. rewrite fmap_cons. cbn beta iota delta [addr].
  unfold nodes in Hfuel. rewrite bind_cons, length_app in Hfuel. cbn [inorder] in Hfuel.
  rewrite length_app in Hfuel. cbn [length] in Hfuel.
  destruct Hok as (Hm & Hokl & Hokr).
  simpl in Hs. pose proof Hs as Hs0. apply sorted_split in Hs0 as [Hbl Har].
  apply sorted_app in Hs as (_ & Hsl & Hsr). apply sorted_cons in Hsr as [_ Hsr].
  unfold bind at 1. rewrite (get_left_focus _ _ _ _ _ _ _ _ _ Hrep).
  unfold bind at 1. rewrite (get_nil_addr st (FL p c k v m r :: C) l Hrep).
  set (go_left := negb (is_leaf l) && bool_decide (default 0 (msig l) >= q.1)%Z).
  assert (Hgl : (if negb (is_leaf l)
                 then bind (get_left (Some p)) (λ tl, bind (get_max tl)
                        (λ m0, ret (bool_decide (m0 >= q.1)%Z)))
                 else ret false) st = Ok (go_left, st)).
  { unfold go_left. destruct l as [|lp lc ll lk lv lm lr]; [done|]. simpl.
    unfold bind. rewrite (get_left_focus _ _ _ _ _ _ _ _ _ Hrep). simpl.
    by rewrite (get_max_focus st (FL p c k v m r :: C) _ _ _ _ _ _ _ Hrep). }
  unfold bind at 1. rewrite Hgl.
  unfold bind at 1. rewrite (get_key_focus _ _ _ _ _ _ _ _ _ Hrep).
  assert (Hhere : (if intervalsIntersect k q
                   then bind (get_value (Some p)) (λ v0, ret [v0]) else ret []) st
                  = Ok (if intervalsIntersect k q then [Some v] else [], st)).
  { destruct (intervalsIntersect k q); [|done].
    unfold bind. by rewrite (get_value_focus _ _ _ _ _ _ _ _ _ Hrep). }
  unfold bind at 1. rewrite Hhere.
  unfold bind at 1. rewrite (get_right_focus _ _ _ _ _ _ _ _ _ Hrep).
  unfold bind at 1. rewrite (get_nil_addr st (FR p c l k v m :: C) r Hrep).
  set (go_right := negb (is_leaf r) && bool_decide (k.1 ≤ q.2)%Z).
  assert (Hgr : (if negb (is_leaf r)
                 then bind (get_key (Some p)) (λ tk, ret (bool_decide (tk.1 ≤ q.2)%Z))
                 else ret false) st = Ok (go_right, st)).
  { unfold go_right. destruct (is_leaf r); [done|]. simpl.
    unfold bind. by rewrite (get_key_focus _ _ _ _ _ _ _ _ _ Hrep). }
  unfold bind at 1. rewrite Hgr.
  set (items' := (if go_right then [r] else []) ++ (if go_left then [l] else []) ++ rest).
  assert (Hstack : (if go_right then addr r :: (if go_left then addr l :: (addr <$> rest)
                                                 else addr <$> rest)
                    else (if go_left then addr l :: (addr <$> rest) else addr <$> rest))
                   = addr <$> items').
  { unfold items'. by destruct go_right, go_left. }
  rewrite Hstack.
  destruct (IH items') as (res & Hrun & Hperm).
  { unfold items'. rewrite !Forall_app. split_and!; [| |done].
    - unfold go_right. destruct r as [|rp rc rl rk rv rm rr]; simpl; [by constructor|].
      destruct (bool_decide (k.1 ≤ q.2)%Z); [|by constructor]. apply Forall_singleton.
      split_and!; [by exists (FR p c l k v m :: C)|done|done|done].
    - unfold go_left. destruct l as [|lp lc ll lk lv lm lr]; simpl; [by constructor|].
      destruct (bool_decide (lm >= q.1)%Z); [|by constructor]. apply Forall_singleton.
      split_and!; [by exists (FL p c k v m r :: C)|done|done|done]. }
  { unfold items', nodes. rewrite !bind_app, !length_app.
    assert (length ((if go_right then [r] else []) ≫= inorder) ≤ length (inorder r))%nat.
    { destruct go_right; simpl; [rewrite app_nil_r|]; lia. }
    assert (length ((if go_left then [l] else []) ≫= inorder) ≤ length (inorder l))%nat.
    { destruct go_left; simpl; [rewrite app_nil_r|]; lia. }
    lia. }
  unfold bind. rewrite Hrun. eexists. split; [reflexivity|].
  rewrite Hperm. unfold items'. rewrite bind_cons, !bind_app, !hits_app. simpl inorder.
  rewrite hits_app.
  assert (Hl : hits q ((if go_left then [l] else []) ≫= inorder) = hits q (inorder l)).
  { unfold go_left. destruct l as [|lp lc ll lk lv lm lr]; [done|]. simpl negb. simpl andb.
    simpl default. destruct (bool_decide (lm >= q.1)%Z) eqn:Eb.
    - simpl. by rewrite app_nil_r.
    - apply bool_decide_eq_false_1 in Eb. simpl in Eb. simpl mbind.
      symmetry. by eapply (prune_left q (T lp lc ll lk lv lm lr) lm). }
  assert (Hr : hits q ((if go_right then [r] else []) ≫= inorder) = hits q (inorder r)).
  { unfold go_right. destruct r as [|rp rc rl rk rv rm rr]; [done|]. simpl negb. simpl andb.
    destruct (bool_decide (k.1 ≤ q.2)%Z) eqn:Eb.
    - simpl. by rewrite app_nil_r.
    - apply bool_decide_eq_false_1 in Eb. simpl mbind.
      symmetry. by eapply (prune_right q k). }
  rewrite Hl, Hr.
  change (hits q ((k, v) :: inorder r))
    with ((if intervalsIntersect k q then [Some v] else []) ++ hits q (inorder r)).
  solve_Permutation.
Qed.

Lemma search_spec (st : ITree) q fuel (t : itree) :
  rep st t → iall_ok t → isorted (inorder t) → (length (inorder t) < fuel)%nat →
  ∃ res, search fuel q st = Ok (res, st) ∧ res ≡ₚ hits q (inorder t).
Proof.
  intros Hrep Hok Hs Hfuel. unfold search.
  unfold bind at 1. rewrite (root_rep _ _ Hrep).
  unfold bind at 1. rewrite (get_nil_addr st [] t Hrep).
  destruct t as [|p c l k v m r]; [by exists []|]. cbn [is_leaf].
  unfold bind. rewrite (root_rep _ _ Hrep).
  destruct (search_loop_spec st q fuel [T p c l k v m r]) as (res & Hrun & Hperm).
  { apply Forall_singleton. split_and!; [by apply sub_root|done|done|done]. }
  { unfold nodes. simpl mbind. by rewrite app_nil_r. }
  exists res. split; [exact Hrun|]. rewrite Hperm. simpl mbind. by rewrite app_nil_r.
Qed.

End SearchFacts.
End RBFacts7.

(** * Trees built by [set] and [delete] *)
Module RBClaims.
Import RB RBFacts RBFacts2 RBFacts3 RBFacts4 RBFacts5 RBFacts6 RBFacts7.
Open Scope rb_scope.

(** ** Sequences of [set] and [delete] *)

(** A call of [set(k, v)] or of [delete(k)]. *)
Inductive op (K V : Type) : Type :=
| OpSet (k : K) (v : V)
| OpDelete (k : K).
Arguments OpSet {K V} k v.
Arguments OpDelete {K V} k.

Section Ops.
Context {K V : Type}.
Context (augmented : bool) (compareFn : K → K → Ordering) (key1 : K → Z).

Definition run_op (fuel : nat) (o : op K V) : M K V unit :=
  match o with
  | OpSet k v => set augmented compareFn key1 fuel k v
  | OpDelete k => _ ← delete augmented compareFn key1 fuel k; ret tt
  end.

(** The calls of [ops] one after the other, on the same tree object. *)
Fixpoint run_ops (fuel : nat) (ops : list (op K V)) : M K V unit :=
  match ops with
  | [] => ret tt
  | o :: ops => _ ← run_op fuel o; run_ops fuel ops
  end.

(** The map that the calls describe: [set(k, v)] binds every key that compares
    [EQ] with [k] to [v], [delete(k)] unbinds it. *)
Definition apply_op (f : K → option V) (o : op K V) : K → option V :=
  λ k', match o with
        | OpSet k v => match compareFn k' k with EQ => Some v | _ => f k' end
        | OpDelete k => match compareFn k' k with EQ => None | _ => f k' end
        end.

Definition stored (ops : list (op K V)) : K → option V :=
  fold_left apply_op ops (λ _, None).

End Ops.

Section SortedFacts.
Context {K V : Type} (compareFn : K → K → Ordering).
Context (laws : cmp_laws compareFn).
Abbreviation sorted := (@sorted K V compareFn).
Abbreviation find_key := (@find_key K V compareFn).
Abbreviation ins := (@ins K V compareFn).
Abbreviation del := (@del K V compareFn).

Lemma cmp_LT_ne a b : compareFn a b = LT → compareFn b a ≠ EQ.
Proof using laws.
  intros H1 H2. apply (cmp_eq _ laws) in H2 as ->. rewrite (cmp_refl _ laws) in H1. done.
Qed.

Lemma find_key_above key (l : list (K * V)) : above compareFn key l → find_key key l = None.
Proof. intros [|[k v] l' Hk _]; simpl; [done|]. simpl in Hk. by rewrite Hk. Qed.

Lemma find_key_ins k' key value (l : list (K * V)) :
  find_key k' (ins key value l)
  = match compareFn k' key with EQ => Some value | _ => find_key k' l end.
Proof using laws.
  induction l as [|[k0 v0] l IH]; simpl.
  - by destruct (compareFn k' key).
  - destruct (compareFn key k0) eqn:E0; simpl.
    + destruct (compareFn k' key) eqn:E1; [|done..].
      by rewrite (cmp_trans _ laws _ _ _ E1 E0).
    + rewrite IH. destruct (compareFn k' k0) eqn:E1; [| |].
      * destruct (compareFn k' key) eqn:E2; [done|done|].
        apply (cmp_eq _ laws) in E2 as ->. congruence.
      * done.
      * apply (cmp_eq _ laws) in E1 as ->.
        destruct (compareFn k0 key) eqn:E2; [done|done|].
        apply (cmp_eq _ laws) in E2 as ->. rewrite (cmp_refl _ laws) in E0. done.
    + apply (cmp_eq _ laws) in E0 as ->. by destruct (compareFn k' k0).
Qed.

Lemma find_key_del k' key (l : list (K * V)) :
  sorted l →
  find_key k' (del key l)
  = match compareFn k' key with EQ => None | _ => find_key k' l end.
Proof using laws.
  induction l as [|[k0 v0] l IH]; intros Hs; simpl.
  - by destruct (compareFn k' key).
  - apply sorted_cons in Hs as [Hab Hs]. specialize (IH Hs).
    destruct (compareFn key k0) eqn:E0; simpl.
    + destruct (compareFn k' key) eqn:E1; [done|done|].
      apply (cmp_eq _ laws) in E1 as ->. by rewrite E0.
    + rewrite IH. destruct (compareFn k' k0) eqn:E1; [| |].
      * destruct (compareFn k' key) eqn:E2; [done|done|].
        apply (cmp_eq _ laws) in E2 as ->. congruence.
      * done.
      * apply (cmp_eq _ laws) in E1 as ->.
        destruct (compareFn k0 key) eqn:E2; [done|done|].
        apply (cmp_eq _ laws) in E2 as ->. rewrite (cmp_refl _ laws) in E0. done.
    + apply (cmp_eq _ laws) in E0 as ->.
      destruct (compareFn k' k0) eqn:E1.
      * apply find_key_above. eapply above_trans; [done|exact Hab|done].
      * done.
      * apply (cmp_eq _ laws) in E1 as ->. by apply find_key_above.
Qed.

(** In a sorted list [find_key] finds what is there. *)
Lemma elem_of_find_key k v (l : list (K * V)) :
  sorted l → (k, v) ∈ l ↔ find_key k l = Some v.
Proof using laws.
  induction l as [|[k0 v0] l IH]; intros Hs; simpl.
  - split; [by intros ?%elem_of_nil|done].
  - apply sorted_cons in Hs as [Hab Hs]. specialize (IH Hs).
    rewrite elem_of_cons.
    assert (Hlt : (k, v) ∈ l → compareFn k0 k = LT).
    { intros Hin. unfold klt in Hab. rewrite Forall_forall in Hab. by apply (Hab _ Hin). }
    destruct (compareFn k k0) eqn:E.
    + split; [|done]. intros [[= -> ->]|Hin%Hlt].
      * by rewrite (cmp_refl _ laws) in E.
      * pose proof (cmp_trans _ laws _ _ _ E Hin) as E'.
        by rewrite (cmp_refl _ laws) in E'.
    + rewrite <- IH. split; [|by right]. intros [[= -> ->]|Hin']; [|done].
      by rewrite (cmp_refl _ laws) in E.
    + apply (cmp_eq _ laws) in E as ->. split.
      * intros [[= ->]|Hin%Hlt]; [done|]. by rewrite (cmp_refl _ laws) in Hin.
      * intros [= ->]. by left.
Qed.

Lemma length_ins key value (l : list (K * V)) : (length (ins key value l) ≤ S (length l))%nat.
Proof.
  induction l as [|[k0 v0] l IH]; simpl; [lia|].
  destruct (compareFn key k0); simpl; lia.
Qed.

Lemma length_del key (l : list (K * V)) : (length (del key l) ≤ length l)%nat.
Proof.
  induction l as [|[k0 v0] l IH]; simpl; [lia|].
  destruct (compareFn key k0); simpl; lia.
Qed.

End SortedFacts.

Section Reachable.
Context {K V : Type}.
Context (augmented : bool) (compareFn : K → K → Ordering) (key1 : K → Z).
Context (laws : cmp_laws compareFn).
Abbreviation Inv := (@Inv K V augmented compareFn key1).

(** The new tree is empty. *)
Lemma Inv_new : Inv new_tree [].
Proof.
  exists Leaf. split_and!.
  - split; simpl; [done|done|constructor|by intros ?%elem_of_nil| |].
    + exists None. done.
    + repeat constructor.
  - done.
  - split_and!; [exists 0%nat; constructor|done|done].
  - constructor.
  - done.
Qed.

(** The state after [ops] holds the map that [ops] describe. *)
Lemma run_ops_spec fuel : ∀ (ops : list (op K V)) (st : Tree K V) l f,
  Inv st l → (∀ k, find_key compareFn k l = f k) →
  (length l + length ops + 2 ≤ fuel)%nat →
  ∃ st' l', run_ops augmented compareFn key1 fuel ops st = Ok (tt, st')
            ∧ Inv st' l'
            ∧ (∀ k, find_key compareFn k l' = fold_left (apply_op compareFn) ops f k)
            ∧ (length l' ≤ length l + length ops)%nat.
Proof using laws.
  induction ops as [|o ops IH]; intros st l f HI Hf Hfuel.
  - exists st, l. split_and!; [done|done|done|simpl; lia].
  - simpl in Hfuel. cbn [run_ops fold_left]. destruct o as [k v|k].
    + destruct (set_spec augmented compareFn key1 laws k v fuel st l HI) as (st1 & Hrun & HI1);
        [lia|].
      pose proof (length_ins compareFn k v l) as Hlen.
      destruct (IH st1 (RBFacts3.ins compareFn k v l) (apply_op compareFn f (OpSet k v)) HI1)
        as (st' & l' & Hrun' & HI' & Hf' & Hlen').
      { intros k'. rewrite (find_key_ins compareFn laws). simpl. by rewrite Hf. }
      { lia. }
      exists st', l'. split_and!; [|done|done|simpl; lia].
      unfold bind, run_op. by rewrite Hrun.
    + destruct (delete_spec augmented compareFn key1 laws k fuel st l HI)
        as (st1 & Hrun & HI1 & _); [lia|].
      pose proof (length_del compareFn k l) as Hlen.
      assert (Hs : sorted compareFn l) by (by destruct HI as (? & ? & ? & ? & ? & ?)).
      destruct (IH st1 (RBFacts3.del compareFn k l) (apply_op compareFn f (OpDelete k)) HI1)
        as (st' & l' & Hrun' & HI' & Hf' & Hlen').
      { intros k'. rewrite (find_key_del compareFn laws) by done. simpl. by rewrite Hf. }
      { lia. }
      exists st', l'. split_and!; [|done|done|simpl; lia].
      unfold bind, run_op. unfold bind. rewrite Hrun. exact Hrun'.
Qed.

(** Every tree built from a new one satisfies the invariant, with the
    entries that the calls describe. *)
Lemma reachable_Inv fuel (ops : list (op K V)) :
  (length ops + 2 ≤ fuel)%nat →
  ∃ st l, run_ops augmented compareFn key1 fuel ops new_tree = Ok (tt, st)
          ∧ Inv st l
          ∧ (∀ k v, (k, v) ∈ l ↔ stored compareFn ops k = Some v)
          ∧ (∀ k, find_key compareFn k l = stored compareFn ops k)
          ∧ (length l ≤ length ops)%nat.
Proof using laws.
  intros Hfuel.
  destruct (run_ops_spec fuel ops new_tree [] (λ _, None) Inv_new) as (st & l & Hrun & HI & Hf & Hlen);
    [done|simpl; lia|].
  exists st, l. split_and!; [done|done| |done|simpl in Hlen; lia].
  intros k v. unfold stored. rewrite <- Hf. apply (elem_of_find_key compareFn laws).
  by destruct HI as (? & ? & ? & ? & ? & ?).
Qed.

(** What every tree built from a new one answers. *)
Lemma reachable_facts (truthy : K → bool) fuel (ops : list (op K V)) :
  (length ops + 2 ≤ fuel)%nat →
  ∃ st l, run_ops augmented compareFn key1 fuel ops new_tree = Ok (tt, st)
          ∧ sorted compareFn l
          ∧ (∀ k v, (k, v) ∈ l ↔ stored compareFn ops k = Some v)
          ∧ entries fuel st = Ok ((λ kv, (kv.1, Some kv.2)) <$> l, st)
          ∧ size st = Ok (Z.of_nat (length l), st)
          ∧ checkBalanceInvariant fuel st = Ok (true, st)
          ∧ checkOrderInvariant compareFn truthy fuel st = Ok (true, st)
          ∧ (∀ k, get compareFn fuel k st = Ok (stored compareFn ops k, st))
          ∧ (∀ k, stored compareFn ops k = None →
                  delete augmented compareFn key1 fuel k st = Ok (false, st)).
Proof using laws.
  intros Hfuel.
  destruct (reachable_Inv fuel ops Hfuel) as (st & l & Hrun & HI & Hin & Hf & Hlen).
  exists st, l. pose proof HI as (t & Hrep & <- & ((n & Hrb) & Hblack & Hok) & Hs & Hsize).
  split_and!; [done|done|done| | | | | |].
  - apply entries_spec; [done|lia].
  - unfold size. by rewrite Hsize.
  - eapply checkBalanceInvariant_spec; [done|done|lia].
  - eapply checkOrderInvariant_spec; [done|done|done|lia].
  - intros k. rewrite <- Hf. apply (get_spec augmented compareFn key1 laws); [done|lia].
  - intros k Hk. rewrite <- Hf in Hk.
    destruct (delete_spec augmented compareFn key1 laws k fuel st _ HI) as (st' & Hdel & _ & Hsame);
      [lia|].
    rewrite Hdel, (Hsame Hk), Hk. done.
Qed.

End Reachable.

(** ** The two classes *)

Section Classes.
Context {K V : Type}.

(** [RBTree] keeps no [max] and never reads [key[1]]. *)
Definition RBTree_run (compareFn : K → K → Ordering) (fuel : nat) (ops : list (op K V))
    : M K V unit :=
  run_ops false compareFn (λ _, 0) fuel ops.

Definition RBTree_delete (compareFn : K → K → Ordering) (fuel : nat) (key : K) : M K V bool :=
  delete false compareFn (λ _, 0) fuel key.

(** [IntervalTree] compares with [compareFn] of interval-tree.ts and keeps
    [max]; [key[1]] is the second component. *)
Definition IntervalTree_run (fuel : nat) (ops : list (op Interval V)) : M Interval V unit :=
  run_ops true interval_compareFn snd fuel ops.

Definition IntervalTree_delete (fuel : nat) (key : Interval) : M Interval V bool :=
  delete true interval_compareFn snd fuel key.

(** The values of the entries of [l] whose interval [lo, hi] has
    [lo <= q.hi] and [hi >= q.lo], in the words of the specification. *)
Definition overlapping (q : Interval) (l : list (Interval * V)) : list (option V) :=
  (λ kv, Some kv.2) <$> filter (λ kv : Interval * V, (kv.1.1 ≤ q.2)%Z ∧ (kv.1.2 >= q.1)%Z) l.

Lemma hits_overlapping q (l : list (Interval * V)) : hits q l = overlapping q l.
Proof.
  unfold hits, overlapping. induction l as [|[[lo hi] v] l IH]; [done|].
  rewrite bind_cons, filter_cons, IH. unfold intervalsIntersect. simpl.
  destruct (decide (lo ≤ q.2 ∧ hi >= q.1)) as [[H1 H2]|Hn].
  - rewrite !bool_decide_eq_true_2 by done. done.
  - destruct (decide (lo ≤ q.2)) as [H1|H1].
    + rewrite (bool_decide_eq_true_2 _ H1). rewrite bool_decide_eq_false_2; [done|].
      intros ?. by apply Hn.
    + by rewrite (bool_decide_eq_false_2 _ H1).
Qed.

Lemma search_reachable fuel (ops : list (op Interval V)) (q : Interval) :
  (length ops + 2 ≤ fuel)%nat →
  ∃ st l res, IntervalTree_run fuel ops new_tree = Ok (tt, st)
              ∧ RBFacts3.sorted interval_compareFn l
              ∧ (∀ k v, (k, v) ∈ l ↔ stored interval_compareFn ops k = Some v)
              ∧ entries fuel st = Ok ((λ kv, (kv.1, Some kv.2)) <$> l, st)
              ∧ search fuel q st = Ok (res, st)
              ∧ res ≡ₚ overlapping q l.
Proof.
  intros Hfuel.
  destruct (reachable_Inv true interval_compareFn snd interval_cmp_laws fuel ops Hfuel)
    as (st & l & Hrun & HI & Hin & Hf & Hlen).
  pose proof HI as (t & Hrep & <- & ((n & Hrb) & Hblack & Hok) & Hs & Hsize).
  destruct (search_spec st q fuel t Hrep (Hok eq_refl) Hs) as (res & Hsearch & Hperm); [lia|].
  exists st, (inorder t), res. split_and!; [done|done|done| |done|].
  - apply entries_spec; [done|lia].
  - by rewrite <- hits_overlapping.
Qed.

End Classes.

(** Calls used to instantiate the theorems below. *)
Definition example_ops : list (op Z Z) :=
  [OpSet 2 20; OpSet 1 10; OpSet 3 30; OpDelete 2].

Definition example_interval_ops : list (op Interval Z) :=
  [OpSet (1, 5) 10; OpSet (7, 9) 20; OpSet (4, 8) 30; OpDelete (7, 9)].

(** ** The claims on the red-black tree and the interval tree *)

(** C1: for every [IntervalTree] built from a new instance by a finite
    sequence of [set] and [delete], and every query [q], [search(q)] returns,
    and what it yields is, up to the order, the values of the stored intervals
    [lo, hi] with [lo <= q.hi] and [hi >= q.lo].  The stored entries [l] are
    those that the calls describe, each interval once, and they are what
    [entries()] yields. *)
Theorem search_yields_overlapping_values {V : Type} (ops : list (op Interval V))
    (q : Interval) (fuel : nat) :
  (length ops + 2 ≤ fuel)%nat →
  ∃ st l res,
    IntervalTree_run fuel ops new_tree = Ok (tt, st)
    ∧ RBFacts3.sorted interval_compareFn l
    ∧ (∀ k v, (k, v) ∈ l ↔ stored interval_compareFn ops k = Some v)
    ∧ entries fuel st = Ok ((λ kv, (kv.1, Some kv.2)) <$> l, st)
    ∧ search fuel q st = Ok (res, st)
    ∧ res ≡ₚ overlapping q l.
Proof. apply search_reachable. Qed.

Lemma search_yields_overlapping_values_witness :
  (length example_interval_ops + 2 ≤ 6)%nat
  ∧ ∃ st l res,
      IntervalTree_run 6 example_interval_ops new_tree = Ok (tt, st)
      ∧ RBFacts3.sorted interval_compareFn l
      ∧ (∀ k v, (k, v) ∈ l ↔ stored interval_compareFn example_interval_ops k = Some v)
      ∧ entries 6 st = Ok ((λ kv, (kv.1, Some kv.2)) <$> l, st)
      ∧ search 6 (5, 6) st = Ok (res, st)
      ∧ res ≡ₚ overlapping (5, 6) l.
Proof.
  split; [simpl; lia|].
  apply (search_yields_overlapping_values example_interval_ops (5, 6) 6). simpl; lia.
Defined.

(** C3: for every [RBTree] (over a comparison that is a total order) and
    every [IntervalTree] built from a new instance by a finite sequence of
    [set] and [delete], [checkBalanceInvariant()] and [checkOrderInvariant()]
    return [true]. *)
Theorem checks_hold_after_set_delete {K V : Type} (compareFn : K → K → Ordering)
    (truthy : K → bool) (ops : list (op K V)) (iops : list (op Interval V)) (fuel : nat) :
  cmp_laws compareFn →
  (length ops + 2 ≤ fuel)%nat → (length iops + 2 ≤ fuel)%nat →
  (∃ st, RBTree_run compareFn fuel ops new_tree = Ok (tt, st)
         ∧ checkBalanceInvariant fuel st = Ok (true, st)
         ∧ checkOrderInvariant compareFn truthy fuel st = Ok (true, st))
  ∧ (∃ st, IntervalTree_run fuel iops new_tree = Ok (tt, st)
           ∧ checkBalanceInvariant fuel st = Ok (true, st)
           ∧ checkOrderInvariant interval_compareFn (λ _, true) fuel st = Ok (true, st)).
Proof.
  intros laws Hfuel Hifuel. split.
  - destruct (reachable_facts false compareFn (λ _, 0) laws truthy fuel ops Hfuel)
      as (st & l & Hrun & _ & _ & _ & _ & Hb & Ho & _).
    by exists st.
  - destruct (reachable_facts true interval_compareFn snd interval_cmp_laws (λ _, true)
                fuel iops Hifuel) as (st & l & Hrun & _ & _ & _ & _ & Hb & Ho & _).
    by exists st.
Qed.

Lemma checks_hold_after_set_delete_witness :
  cmp_laws defaultCompareFunction
  ∧ (length example_ops + 2 ≤ 6)%nat ∧ (length example_interval_ops + 2 ≤ 6)%nat
  ∧ (∃ st, RBTree_run defaultCompareFunction 6 example_ops new_tree = Ok (tt, st)
           ∧ checkBalanceInvariant 6 st = Ok (true, st)
           ∧ checkOrderInvariant defaultCompareFunction (λ k, negb (bool_decide (k = 0))) 6 st
             = Ok (true, st))
  ∧ (∃ st, IntervalTree_run 6 example_interval_ops new_tree = Ok (tt, st)
           ∧ checkBalanceInvariant 6 st = Ok (true, st)
           ∧ checkOrderInvariant interval_compareFn (λ _, true) 6 st = Ok (true, st)).
Proof.
  split; [exact default_cmp_laws|]. split; [simpl; lia|]. split; [simpl; lia|].
  apply (checks_hold_after_set_delete defaultCompareFunction (λ k, negb (bool_decide (k = 0)))
           example_ops example_interval_ops 6);
    [exact default_cmp_laws|simpl; lia|simpl; lia].
Defined.

(** C4: for every [RBTree] (over a comparison that is a total order, the
    default one or one of the caller) and every [IntervalTree] built by a
    finite sequence of [set] and [delete], [entries()] ends, and yields exactly
    the stored pairs, each key once, in strictly increasing order of the keys
    for the comparison of the tree. *)
Theorem entries_sorted_and_exact {K V : Type} (compareFn : K → K → Ordering)
    (ops : list (op K V)) (iops : list (op Interval V)) (fuel : nat) :
  cmp_laws compareFn →
  (length ops + 2 ≤ fuel)%nat → (length iops + 2 ≤ fuel)%nat →
  (∃ st l, RBTree_run compareFn fuel ops new_tree = Ok (tt, st)
           ∧ entries fuel st = Ok ((λ kv, (kv.1, Some kv.2)) <$> l, st)
           ∧ StronglySorted (λ a b, compareFn a.1 b.1 = LT) l
           ∧ (∀ k v, (k, v) ∈ l ↔ stored compareFn ops k = Some v))
  ∧ (∃ st l, IntervalTree_run fuel iops new_tree = Ok (tt, st)
             ∧ entries fuel st = Ok ((λ kv, (kv.1, Some kv.2)) <$> l, st)
             ∧ StronglySorted (λ a b, interval_compareFn a.1 b.1 = LT) l
             ∧ (∀ k v, (k, v) ∈ l ↔ stored interval_compareFn iops k = Some v)).
Proof.
  intros laws Hfuel Hifuel. split.
  - destruct (reachable_facts false compareFn (λ _, 0) laws (λ _, true) fuel ops Hfuel)
      as (st & l & Hrun & Hs & Hin & He & _).
    by exists st, l.
  - destruct (reachable_facts true interval_compareFn snd interval_cmp_laws (λ _, true)
                fuel iops Hifuel) as (st & l & Hrun & Hs & Hin & He & _).
    by exists st, l.
Qed.

Lemma entries_sorted_and_exact_witness :
  cmp_laws defaultCompareFunction
  ∧ (length example_ops + 2 ≤ 6)%nat ∧ (length example_interval_ops + 2 ≤ 6)%nat
  ∧ (∃ st l, RBTree_run defaultCompareFunction 6 example_ops new_tree = Ok (tt, st)
             ∧ entries 6 st = Ok ((λ kv, (kv.1, Some kv.2)) <$> l, st)
             ∧ StronglySorted (λ a b, defaultCompareFunction a.1 b.1 = LT) l
             ∧ (∀ k v, (k, v) ∈ l ↔ stored defaultCompareFunction example_ops k = Some v))
  ∧ (∃ st l, IntervalTree_run 6 example_interval_ops new_tree = Ok (tt, st)
             ∧ entries 6 st = Ok ((λ kv, (kv.1, Some kv.2)) <$> l, st)
             ∧ StronglySorted (λ a b, interval_compareFn a.1 b.1 = LT) l
             ∧ (∀ k v, (k, v) ∈ l
                       ↔ stored interval_compareFn example_interval_ops k = Some v)).
Proof.
  split; [exact default_cmp_laws|]. split; [simpl; lia|]. split; [simpl; lia|].
  apply (entries_sorted_and_exact defaultCompareFunction example_ops example_interval_ops 6);
    [exact default_cmp_laws|simpl; lia|simpl; lia].
Defined.

(** C9: in every [RBTree] and [IntervalTree] built by a finite sequence of
    [set] and [delete], for a key [k] that is not in the map, [get(k)] returns
    [undefined] and does not throw, and [delete(k)] returns [false] and leaves
    the tree object and its nodes as they were: the state after the call is
    the state before it, so [size], [entries()] and every [get] answer as
    before. *)
Theorem absent_key_get_delete {K V : Type} (compareFn : K → K → Ordering)
    (ops : list (op K V)) (k : K) (iops : list (op Interval V)) (i : Interval) (fuel : nat) :
  cmp_laws compareFn →
  (length ops + 2 ≤ fuel)%nat → (length iops + 2 ≤ fuel)%nat →
  (stored compareFn ops k = None →
   ∃ st, RBTree_run compareFn fuel ops new_tree = Ok (tt, st)
         ∧ get compareFn fuel k st = Ok (None, st)
         ∧ RBTree_delete compareFn fuel k st = Ok (false, st))
  ∧ (stored interval_compareFn iops i = None →
     ∃ st, IntervalTree_run fuel iops new_tree = Ok (tt, st)
           ∧ get interval_compareFn fuel i st = Ok (None, st)
           ∧ IntervalTree_delete fuel i st = Ok (false, st)).
Proof.
  intros laws Hfuel Hifuel. split; intros Hk.
  - destruct (reachable_facts false compareFn (λ _, 0) laws (λ _, true) fuel ops Hfuel)
      as (st & l & Hrun & _ & _ & _ & _ & _ & _ & Hget & Hdel).
    exists st. split_and!; [done| |by apply Hdel]. by rewrite Hget, Hk.
  - destruct (reachable_facts true interval_compareFn snd interval_cmp_laws (λ _, true)
                fuel iops Hifuel) as (st & l & Hrun & _ & _ & _ & _ & _ & _ & Hget & Hdel).
    exists st. split_and!; [done| |by apply Hdel]. by rewrite Hget, Hk.
Qed.

Lemma absent_key_get_delete_witness :
  cmp_laws defaultCompareFunction
  ∧ (length example_ops + 2 ≤ 6)%nat ∧ (length example_interval_ops + 2 ≤ 6)%nat
  ∧ stored defaultCompareFunction example_ops 2 = None
  ∧ stored interval_compareFn example_interval_ops (7, 9) = None
  ∧ (∃ st, RBTree_run defaultCompareFunction 6 example_ops new_tree = Ok (tt, st)
           ∧ get defaultCompareFunction 6 2 st = Ok (None, st)
           ∧ RBTree_delete defaultCompareFunction 6 2 st = Ok (false, st))
  ∧ (∃ st, IntervalTree_run 6 example_interval_ops new_tree = Ok (tt, st)
           ∧ get interval_compareFn 6 (7, 9) st = Ok (None, st)
           ∧ IntervalTree_delete 6 (7, 9) st = Ok (false, st)).
Proof.
  split; [exact default_cmp_laws|]. split; [simpl; lia|]. split; [simpl; lia|].
  split; [reflexivity|]. split; [reflexivity|].
  destruct (absent_key_get_delete defaultCompareFunction example_ops 2
              example_interval_ops (7, 9) 6 default_cmp_laws) as [Hrb Hit];
    [simpl; lia|simpl; lia|].
  split; [apply Hrb; reflexivity|apply Hit; reflexivity].
Defined.

(** C10: for every [RBTree] and every [IntervalTree] built from a new
    instance by a finite sequence of [set] and [delete], [size] is the number
    of pairs that [entries()] yields. *)
Theorem size_counts_entries {K V : Type} (compareFn : K → K → Ordering)
    (ops : list (op K V)) (iops : list (op Interval V)) (fuel : nat) :
  cmp_laws compareFn →
  (length ops + 2 ≤ fuel)%nat → (length iops + 2 ≤ fuel)%nat →
  (∃ st es, RBTree_run compareFn fuel ops new_tree = Ok (tt, st)
            ∧ entries fuel st = Ok (es, st)
            ∧ size st = Ok (Z.of_nat (length es), st))
  ∧ (∃ st es, IntervalTree_run fuel iops new_tree = Ok (tt, st)
              ∧ entries fuel st = Ok (es, st)
              ∧ size st = Ok (Z.of_nat (length es), st)).
Proof.
  intros laws Hfuel Hifuel. split.
  - destruct (reachable_facts false compareFn (λ _, 0) laws (λ _, true) fuel ops Hfuel)
      as (st & l & Hrun & _ & _ & He & Hsz & _).
    eexists st, _. split_and!; [done|exact He|]. by rewrite length_fmap.
  - destruct (reachable_facts true interval_compareFn snd interval_cmp_laws (λ _, true)
                fuel iops Hifuel) as (st & l & Hrun & _ & _ & He & Hsz & _).
    eexists st, _. split_and!; [done|exact He|]. by rewrite length_fmap.
Qed.

Lemma size_counts_entries_witness :
  cmp_laws defaultCompareFunction
  ∧ (length example_ops + 2 ≤ 6)%nat ∧ (length example_interval_ops + 2 ≤ 6)%nat
  ∧ (∃ st es, RBTree_run defaultCompareFunction 6 example_ops new_tree = Ok (tt, st)
              ∧ entries 6 st = Ok (es, st)
              ∧ size st = Ok (Z.of_nat (length es), st))
  ∧ (∃ st es, IntervalTree_run 6 example_interval_ops new_tree = Ok (tt, st)
              ∧ entries 6 st = Ok (es, st)
              ∧ size st = Ok (Z.of_nat (length es), st)).
Proof.
  split; [exact default_cmp_laws|]. split; [simpl; lia|]. split; [simpl; lia|].
  apply (size_counts_entries defaultCompareFunction example_ops example_interval_ops 6);
    [exact default_cmp_laws|simpl; lia|simpl; lia].
Defined.

End RBClaims.

(** * The checks on arbitrary trees *)
Module RBChecks.
Import RB RBFacts RBFacts2 RBFacts3 RBFacts4 RBFacts5 RBFacts6 RBFacts7 RBClaims.
Open Scope rb_scope.

(** ** What [checkOrderInvariant] computes *)

Section OrderCheck.
Context {K V : Type}.
Context (compareFn : K → K → Ordering) (truthy : K → bool).
Abbreviation Tree := (RB.Tree K V).
Abbreviation tree := (@RBFacts.tree K V).

(** The traversal of [checkOrderInvariant] on the tree that the heap holds. *)
Fixpoint order_ok (t : tree) (min max : option K) : bool :=
  match t with
  | Leaf => true
  | T _ _ l k _ _ r =>
      (not_ truthy min || bool_decide (compareFn k (default k min) = GT))
      && (not_ truthy max || bool_decide (compareFn k (default k max) = LT))
      && order_ok l min (Some k)
      && order_ok r (Some k) max
  end.

(** In the words of the specification: every key is strictly greater than
    the lower bound and strictly less than the upper bound that it inherits
    from its ancestors, whenever there is such a bound. *)
Fixpoint spec_ordered (t : tree) (min max : option K) : bool :=
  match t with
  | Leaf => true
  | T _ _ l k _ _ r =>
      match min with None => true | Some a => bool_decide (compareFn k a = GT) end
      && match max with None => true | Some b => bool_decide (compareFn k b = LT) end
      && spec_ordered l min (Some k)
      && spec_ordered r (Some k) max
  end.

Fixpoint keys_of (t : tree) : list K :=
  match t with
  | Leaf => []
  | T _ _ l k _ _ r => keys_of l ++ k :: keys_of r
  end.

End OrderCheck.

(** A tree state of two nodes: the root with the key [k1] and its left child
    with the key [k2]. *)
Definition two_nodes (k1 k2 : Z) : RB.Tree Z Z :=
  mkTree
    (<[2%nat := Node.mk (Some 1%nat) (Some 0%nat) (Some 0%nat) red (Some 50) (Some k2) false 0]>
     (<[1%nat := Node.mk None (Some 2%nat) (Some 0%nat) black (Some 0) (Some k1) false 0]>
      {[ 0%nat := sentinel_node ]}))
    3%nat (Some 1%nat) 2.

Definition two_nodes_tree (k1 k2 : Z) : @RBFacts.tree Z Z :=
  T 1%nat black (T 2%nat red Leaf k2 50 0 Leaf) k1 0 0 Leaf.

(** A state that is out of order: [5] is in the left subtree of [0]. *)
Definition order_bug_state : RB.Tree Z Z := two_nodes 0 5.

(** [ToBoolean] on a number. *)
Definition number_truthy (k : Z) : bool := negb (bool_decide (k = 0)).

Lemma two_nodes_rep k1 k2 : rep (two_nodes k1 k2) (two_nodes_tree k1 k2).
Proof.
  split.
  - simpl. split_and!; done.
  - done.
  - simpl. repeat constructor; set_solver.
  - simpl. set_solver.
  - exists None. done.
  - simpl. repeat constructor.
Qed.

Section OrderFacts.
Context {K V : Type}.
Context (compareFn : K → K → Ordering) (truthy : K → bool).
Abbreviation Tree := (RB.Tree K V).
Abbreviation tree := (@RBFacts.tree K V).
Abbreviation sorted := (@RBFacts3.sorted K V compareFn).

Lemma order_traverse_exact (st : Tree) fuel : ∀ (t : tree) min max,
  sub st t → (length (inorder t) < fuel)%nat →
  order_traverse compareFn truthy fuel (addr t) min max st
  = Ok (order_ok compareFn truthy t min max, st).
Proof.
  induction fuel as [|fuel IH]; intros t min max [C Hrep] Hfuel; [lia|].
  cbn [order_traverse]. unfold bind at 1. rewrite (get_nil_addr _ _ _ Hrep).
  destruct t as [|p c l k v m r]; [done|]. cbn [is_leaf addr order_ok].
  simpl in Hfuel. rewrite length_app in Hfuel. simpl in Hfuel.
  assert (Hc1 : (if not_ truthy min then ret true
                 else bind (get_key (Some p))
                        (λ rk, ret (bool_decide (compareFn rk (default rk min) = GT)))) st
                = Ok (not_ truthy min || bool_decide (compareFn k (default k min) = GT), st)).
  { destruct (not_ truthy min) eqn:En; [done|].
    unfold bind. by rewrite (get_key_focus _ _ _ _ _ _ _ _ _ Hrep). }
  assert (Hc2 : (if not_ truthy max then ret true
                 else bind (get_key (Some p))
                        (λ rk, ret (bool_decide (compareFn rk (default rk max) = LT)))) st
                = Ok (not_ truthy max || bool_decide (compareFn k (default k max) = LT), st)).
  { destruct (not_ truthy max) eqn:En; [done|].
    unfold bind. by rewrite (get_key_focus _ _ _ _ _ _ _ _ _ Hrep). }
  unfold bind at 1. rewrite Hc1.
  destruct (not_ truthy min || bool_decide (compareFn k (default k min) = GT)); [|done].
  cbn [negb andb].
  unfold bind at 1. rewrite Hc2.
  destruct (not_ truthy max || bool_decide (compareFn k (default k max) = LT)); [|done].
  cbn [negb andb].
  unfold bind at 1. rewrite (get_left_focus _ _ _ _ _ _ _ _ _ Hrep).
  unfold bind at 1. rewrite (get_nil_addr st (FL p c k v m r :: C) l Hrep).
  assert (Hc3 : (if is_leaf l then ret true
                 else bind (get_left (Some p)) (λ l0, bind (get_key (Some p))
                        (λ rk, order_traverse compareFn truthy fuel l0 min (Some rk)))) st
                = Ok (order_ok compareFn truthy l min (Some k), st)).
  { destruct l as [|lp lc ll lk lv lm lr]; [done|]. cbn [is_leaf].
    unfold bind. rewrite (get_left_focus _ _ _ _ _ _ _ _ _ Hrep).
    rewrite (get_key_focus _ _ _ _ _ _ _ _ _ Hrep).
    apply IH; [by exists (FL p c k v m r :: C)|lia]. }
  unfold bind at 1. rewrite Hc3.
  destruct (order_ok compareFn truthy l min (Some k)); [|done]. cbn [negb andb].
  unfold bind at 1. rewrite (get_right_focus _ _ _ _ _ _ _ _ _ Hrep).
  unfold bind at 1. rewrite (get_nil_addr st (FR p c l k v m :: C) r Hrep).
  destruct r as [|rp rc rl rk rv rm rr]; [done|]. cbn [is_leaf].
  unfold bind. rewrite (get_right_focus _ _ _ _ _ _ _ _ _ Hrep).
  rewrite (get_key_focus _ _ _ _ _ _ _ _ _ Hrep).
  apply IH; [by exists (FR p c l k v m :: C)|lia].
Qed.

Lemma checkOrderInvariant_exact (st : Tree) fuel (t : tree) :
  rep st t → (length (inorder t) < fuel)%nat →
  checkOrderInvariant compareFn truthy fuel st
  = Ok (order_ok compareFn truthy t None None, st).
Proof.
  intros Hrep Hfuel. unfold checkOrderInvariant, bind. rewrite (root_rep _ _ Hrep).
  apply order_traverse_exact; [by apply sub_root|done].
Qed.

Definition truthy_bound (b : option K) : Prop := ∀ a, b = Some a → truthy a = true.

(** With truthy keys the check is the one of the specification. *)
Lemma order_ok_truthy (t : tree) : ∀ min max,
  Forall (λ kv : K * V, truthy kv.1 = true) (inorder t) →
  truthy_bound min → truthy_bound max →
  order_ok compareFn truthy t min max = spec_ordered compareFn t min max.
Proof.
  induction t as [|p c l IHl k v m r IHr]; intros min max Hk Hmin Hmax; [done|].
  simpl in Hk. apply Forall_app in Hk as [Hl Hk]. apply Forall_cons in Hk as [Hk Hr].
  simpl in Hk. cbn [order_ok spec_ordered].
  rewrite IHl, IHr; [|done|by intros a [= <-]|done|done|done|by intros a [= <-]].
  do 3 f_equal.
  - destruct min as [a|]; [|done]. simpl. by rewrite (Hmin a eq_refl).
  - destruct max as [b|]; [|done]. simpl. by rewrite (Hmax b eq_refl).
Qed.

Context (laws : cmp_laws compareFn).

Lemma spec_ordered_sorted (t : tree) : ∀ min max,
  spec_ordered compareFn t min max = true
  ↔ sorted (inorder t)
    ∧ (∀ a, min = Some a → above compareFn a (inorder t))
    ∧ (∀ b, max = Some b → below compareFn b (inorder t)).
Proof using laws.
  induction t as [|p c l IHl k v m r IHr]; intros min max.
  { simpl. split; [|done]. intros _. split_and!; [constructor|intros; constructor..]. }
  cbn [spec_ordered inorder]. rewrite !andb_true_iff, IHl, IHr. split.
  - intros (((Hmin & Hmax) & Hsl & Hminl & Hmaxl) & Hsr & Hminr & Hmaxr).
    specialize (Hmaxl k eq_refl). specialize (Hminr k eq_refl).
    split_and!.
    + apply sorted_app. split_and!; [|done|by apply sorted_cons].
      intros a b Ha Hb. unfold klt. unfold below in Hmaxl. rewrite Forall_forall in Hmaxl.
      apply elem_of_cons in Hb as [->|Hb]; [by apply Hmaxl|].
      unfold above in Hminr. rewrite Forall_forall in Hminr.
      eapply (cmp_trans _ laws); [by apply Hmaxl|by apply Hminr].
    + intros a ->. apply bool_decide_eq_true_1 in Hmin. apply (cmp_gt _ laws) in Hmin.
      apply Forall_app. split; [by apply Hminl|]. apply Forall_cons. split; [done|].
      eapply above_trans; [done|exact Hminr|done].
    + intros b ->. apply bool_decide_eq_true_1 in Hmax.
      apply Forall_app. split; [|apply Forall_cons; split; [done|by apply Hmaxr]].
      eapply below_trans; [done|exact Hmaxl|done].
  - intros (Hs & Hmin & Hmax). pose proof Hs as Hs0.
    apply sorted_split in Hs0 as [Hbl Har].
    apply sorted_app in Hs as (_ & Hsl & Hsr). apply sorted_cons in Hsr as [_ Hsr].
    split_and!.
    + destruct min as [a|]; [|done]. apply bool_decide_eq_true_2. apply (cmp_gt _ laws).
      specialize (Hmin a eq_refl). apply Forall_app in Hmin as [_ Hmin].
      by apply Forall_cons in Hmin as [? _].
    + destruct max as [b|]; [|done]. apply bool_decide_eq_true_2.
      specialize (Hmax b eq_refl). apply Forall_app in Hmax as [_ Hmax].
      by apply Forall_cons in Hmax as [? _].
    + done.
    + intros a Ha. specialize (Hmin a Ha). by apply Forall_app in Hmin as [? _].
    + by intros b [= <-].
    + done.
    + by intros a [= <-].
    + intros b Hb. specialize (Hmax b Hb). apply Forall_app in Hmax as [_ Hmax].
      by apply Forall_cons in Hmax as [_ ?].
Qed.

End OrderFacts.

(** ** The checks on arbitrary trees *)

(** C8: [checkOrderInvariant()] does not decide whether every key lies
    strictly between the bounds that it inherits.  In the state
    [order_bug_state] the key [5] is in the left subtree of the root, whose
    key is [0]: it is not below its upper bound, but [!max] holds for the
    bound [0], the comparison is skipped and the call returns [true]. *)
Theorem checkOrderInvariant_skips_falsy_bound :
  rep order_bug_state (two_nodes_tree 0 5)
  ∧ spec_ordered defaultCompareFunction (two_nodes_tree 0 5) None None = false
  ∧ checkOrderInvariant defaultCompareFunction number_truthy 3 order_bug_state
    = Ok (true, order_bug_state).
Proof.
  split; [apply two_nodes_rep|]. split; [done|].
  rewrite (checkOrderInvariant_exact defaultCompareFunction number_truthy _ 3
             (two_nodes_tree 0 5)); [done|apply two_nodes_rep|simpl; lia].
Qed.

End RBChecks.

(** * Further properties of the trees *)
Module RBExtras.
Import RB RBFacts RBFacts2 RBFacts3 RBFacts4 RBFacts5 RBFacts6 RBFacts7 RBClaims RBChecks.
Open Scope rb_scope.

(** ** One more call on a tree built by [set] and [delete] *)

Section Step.
Context {K V : Type}.
Context (augmented : bool) (compareFn : K → K → Ordering) (key1 : K → Z).
Context (laws : cmp_laws compareFn).
Abbreviation Inv := (@RBFacts3.Inv K V augmented compareFn key1).
Abbreviation find_key := (@RBFacts3.find_key K V compareFn).

Lemma length_ins_exact key value (l : list (K * V)) :
  length (ins compareFn key value l)
  = (length l + if find_key key l is Some _ then 0 else 1)%nat.
Proof.
  induction l as [|[k0 v0] l IH]; simpl; [done|].
  destruct (compareFn key k0); simpl; [lia| |lia]. rewrite IH. lia.
Qed.

Lemma length_del_exact key (l : list (K * V)) :
  length (del compareFn key l)
  = (length l - if find_key key l is Some _ then 1 else 0)%nat.
Proof.
  induction l as [|[k0 v0] l IH]; simpl; [done|].
  destruct (compareFn key k0); simpl; [lia| |lia]. rewrite IH.
  destruct (find_key key l) eqn:E; [|lia].
  destruct l as [|[k1 v1] l]; [done|]. simpl. lia.
Qed.

Lemma stored_snoc (ops : list (op K V)) o k :
  stored compareFn (ops ++ [o]) k = apply_op compareFn (stored compareFn ops) o k.
Proof. unfold stored. by rewrite fold_left_app. Qed.

(** The calls [ops], then [set(k, v)]. *)
Lemma set_after fuel (ops : list (op K V)) k v :
  (length ops + 3 ≤ fuel)%nat →
  ∃ st st' n,
    run_ops augmented compareFn key1 fuel ops new_tree = Ok (tt, st)
    ∧ size st = Ok (n, st)
    ∧ set augmented compareFn key1 fuel k v st = Ok (tt, st')
    ∧ get compareFn fuel k st' = Ok (Some v, st')
    ∧ (∀ k', compareFn k' k ≠ EQ →
             get compareFn fuel k' st' = Ok (stored compareFn ops k', st'))
    ∧ size st' = Ok (if stored compareFn ops k is Some _ then n else n + 1, st').
Proof using laws.
  intros Hfuel.
  destruct (reachable_Inv augmented compareFn key1 laws fuel ops ltac:(lia))
    as (st & l & Hrun & HI & Hin & Hf & Hlen).
  destruct (set_spec augmented compareFn key1 laws k v fuel st l HI ltac:(lia))
    as (st' & Hset & HI').
  pose proof (length_ins compareFn k v l) as Hl.
  exists st, st', (Z.of_nat (length l)). split_and!; [done| |done| | |].
  - unfold size. by destruct HI as (? & ? & ? & ? & ? & ->).
  - rewrite (get_spec augmented compareFn key1 laws k fuel st' _ HI') by lia.
    by rewrite (find_key_ins compareFn laws), (cmp_refl _ laws).
  - intros k' Hk'. rewrite (get_spec augmented compareFn key1 laws k' fuel st' _ HI') by lia.
    rewrite (find_key_ins compareFn laws), <- Hf. by destruct (compareFn k' k).
  - unfold size. destruct HI' as (? & ? & ? & ? & ? & ->).
    rewrite length_ins_exact, <- Hf. do 2 f_equal.
    destruct (RBFacts3.find_key compareFn k l); lia.
Qed.

(** The calls [ops], then [delete(k)]. *)
Lemma delete_after fuel (ops : list (op K V)) k :
  (length ops + 2 ≤ fuel)%nat →
  ∃ st st' n,
    run_ops augmented compareFn key1 fuel ops new_tree = Ok (tt, st)
    ∧ size st = Ok (n, st)
    ∧ delete augmented compareFn key1 fuel k st
      = Ok (bool_decide (is_Some (stored compareFn ops k)), st')
    ∧ get compareFn fuel k st' = Ok (None, st')
    ∧ (∀ k', compareFn k' k ≠ EQ →
             get compareFn fuel k' st' = Ok (stored compareFn ops k', st'))
    ∧ size st' = Ok (if stored compareFn ops k is Some _ then n - 1 else n, st').
Proof using laws.
  intros Hfuel.
  destruct (reachable_Inv augmented compareFn key1 laws fuel ops ltac:(lia))
    as (st & l & Hrun & HI & Hin & Hf & Hlen).
  destruct (delete_spec augmented compareFn key1 laws k fuel st l HI ltac:(lia))
    as (st' & Hdel & HI' & _).
  pose proof (length_del compareFn k l) as Hl.
  assert (Hs : sorted compareFn l) by (by destruct HI as (? & ? & ? & ? & ? & ?)).
  exists st, st', (Z.of_nat (length l)). split_and!.
  - done.
  - unfold size. by destruct HI as (? & ? & ? & ? & ? & ->).
  - by rewrite Hdel, Hf.
  - rewrite (get_spec augmented compareFn key1 laws k fuel st' _ HI') by lia.
    by rewrite (find_key_del compareFn laws), (cmp_refl _ laws).
  - intros k' Hk'. rewrite (get_spec augmented compareFn key1 laws k' fuel st' _ HI') by lia.
    rewrite (find_key_del compareFn laws), <- Hf by done. by destruct (compareFn k' k).
  - unfold size. destruct HI' as (? & ? & ? & ? & ? & ->).
    rewrite length_del_exact, <- Hf. do 2 f_equal.
    destruct (RBFacts3.find_key compareFn k l) eqn:E; [|lia].
    destruct l as [|[k1 v1] l]; [done|]. simpl length. lia.
Qed.

(** The calls [ops], then [get(k)] and [has(k)]. *)
Lemma get_has_after (undef : V → bool) fuel (ops : list (op K V)) k :
  (length ops + 2 ≤ fuel)%nat →
  ∃ st,
    run_ops augmented compareFn key1 fuel ops new_tree = Ok (tt, st)
    ∧ get compareFn fuel k st = Ok (stored compareFn ops k, st)
    ∧ has compareFn undef fuel k st
      = Ok (match stored compareFn ops k with Some v => negb (undef v) | None => false end, st).
Proof using laws.
  intros Hfuel.
  destruct (reachable_Inv augmented compareFn key1 laws fuel ops ltac:(lia))
    as (st & l & Hrun & HI & Hin & Hf & Hlen).
  exists st. split_and!; [done| |].
  - by rewrite (get_spec augmented compareFn key1 laws k fuel st l HI), Hf by lia.
  - by rewrite (has_spec augmented compareFn key1 laws undef k fuel st l HI), Hf by lia.
Qed.

(** The tree after the calls [ops] is a red-black tree with a black root. *)
Lemma shape_after fuel (ops : list (op K V)) :
  (length ops + 2 ≤ fuel)%nat →
  ∃ st t n,
    run_ops augmented compareFn key1 fuel ops new_tree = Ok (tt, st)
    ∧ rep st t ∧ is_rb t n ∧ tcolor t = black
    ∧ (augmented = true → all_ok key1 t)
    ∧ sorted compareFn (inorder t)
    ∧ (length (inorder t) ≤ length ops)%nat.
Proof using laws.
  intros Hfuel.
  destruct (reachable_Inv augmented compareFn key1 laws fuel ops ltac:(lia))
    as (st & l & Hrun & HI & Hin & Hf & Hlen).
  destruct HI as (t & Hrep & <- & ((n & Hrb) & Hblack & Hok) & Hs & Hsize).
  by exists st, t, n.
Qed.

End Step.

Section Max.
Context {V : Type}.
Abbreviation itree := (@RBFacts.tree Interval V).

(** [m] is the greatest high endpoint of the intervals of [l]. *)
Definition greatest_high (m : Z) (l : list (Interval * V)) : Prop :=
  Forall (λ kv : Interval * V, kv.1.2 ≤ m) l ∧ ∃ kv, kv ∈ l ∧ kv.1.2 = m.

Lemma all_ok_attained (t : itree) :
  all_ok snd t → ∀ m, msig t = Some m → ∃ kv, kv ∈ inorder t ∧ kv.1.2 = m.
Proof.
  induction t as [|p c l IHl k v m r IHr]; [done|].
  intros (Hm & Hl & Hr) m' [= <-]. simpl.
  specialize (IHl Hl). specialize (IHr Hr). unfold nmax in Hm.
  assert (Hk : (k, v) ∈ inorder l ++ (k, v) :: inorder r) by set_solver.
  destruct l as [|lp lc ll lk lv lm lr], r as [|rp rc rl rk rv rm rr];
    rewrite ?max3_Zmax, ?max_Zmax in Hm.
  - by exists (k, v).
  - destruct (IHr rm eq_refl) as (kv & Hin & Hkv).
    destruct (decide (k.2 ≤ rm)).
    + exists kv. split; [set_solver|]. simpl in *. lia.
    + exists (k, v). split; [done|]. simpl in *. lia.
  - destruct (IHl lm eq_refl) as (kv & Hin & Hkv).
    destruct (decide (k.2 ≤ lm)).
    + exists kv. split; [set_solver|]. simpl in *. lia.
    + exists (k, v). split; [done|]. simpl in *. lia.
  - destruct (IHl lm eq_refl) as (kvl & Hinl & Hkvl).
    destruct (IHr rm eq_refl) as (kvr & Hinr & Hkvr).
    destruct (decide (lm ≤ k.2 ∧ rm ≤ k.2)) as [[? ?]|Hn].
    + exists (k, v). split; [done|]. simpl in *. lia.
    + destruct (decide (rm ≤ lm)).
      * exists kvl. split; [set_solver|]. simpl in *. lia.
      * exists kvr. split; [set_solver|]. simpl in *. lia.
Qed.

Lemma all_ok_greatest (t : itree) m :
  all_ok snd t → msig t = Some m → greatest_high m (inorder t).
Proof. intros Hok Hm. split; [by apply all_ok_max|by apply all_ok_attained]. Qed.

End Max.

(** ** Further properties of the red-black tree and the interval tree *)

(** Calls that store the value [undefined]: values are [option Z], and
    [None] is [undefined]. *)
Definition is_undefined (v : option Z) : bool := bool_decide (v = None).

Definition undefined_ops : list (op Z (option Z)) :=
  [OpSet 2 (Some 20); OpSet 1 None; OpSet 3 (Some 30); OpDelete 2].

Definition undefined_interval_ops : list (op Interval (option Z)) :=
  [OpSet (1, 5) (Some 10); OpSet (7, 9) (Some 20); OpSet (4, 8) None; OpDelete (7, 9)].

(** X1: in every [RBTree] (over a comparison that is a total order) and
    every [IntervalTree] built from a new instance by [set] and [delete],
    [get(k)] returns the value of the last [set(k, v)] that no [delete(k)]
    followed, and [undefined] if there is none; [has(k)] is [true] exactly
    when there is one and its value is not [undefined] ([undef v] tells
    whether the value [v] is [undefined]): a key that was set to [undefined]
    is in the tree, and [has] returns [false] for it.  Neither call changes
    the tree. *)
Theorem get_has_after_set_delete {K V : Type} (compareFn : K → K → Ordering)
    (undef : V → bool)
    (ops : list (op K V)) (k : K) (iops : list (op Interval V)) (i : Interval) (fuel : nat) :
  cmp_laws compareFn →
  (length ops + 2 ≤ fuel)%nat → (length iops + 2 ≤ fuel)%nat →
  (∃ st, RBTree_run compareFn fuel ops new_tree = Ok (tt, st)
         ∧ get compareFn fuel k st = Ok (stored compareFn ops k, st)
         ∧ has compareFn undef fuel k st
           = Ok (match stored compareFn ops k with
                 | Some v => negb (undef v)
                 | None => false
                 end, st))
  ∧ (∃ st, IntervalTree_run fuel iops new_tree = Ok (tt, st)
           ∧ get interval_compareFn fuel i st = Ok (stored interval_compareFn iops i, st)
           ∧ has interval_compareFn undef fuel i st
             = Ok (match stored interval_compareFn iops i with
                   | Some v => negb (undef v)
                   | None => false
                   end, st)).
Proof.
  intros laws Hfuel Hifuel. split.
  - apply (get_has_after false compareFn (λ _, 0) laws undef fuel ops k Hfuel).
  - apply (get_has_after true interval_compareFn snd interval_cmp_laws undef fuel iops i Hifuel).
Qed.

Lemma get_has_after_set_delete_witness :
  cmp_laws defaultCompareFunction
  ∧ (length undefined_ops + 2 ≤ 6)%nat ∧ (length undefined_interval_ops + 2 ≤ 6)%nat
  ∧ (∃ st, RBTree_run defaultCompareFunction 6 undefined_ops new_tree = Ok (tt, st)
           ∧ get defaultCompareFunction 6 1 st
             = Ok (stored defaultCompareFunction undefined_ops 1, st)
           ∧ has defaultCompareFunction is_undefined 6 1 st
             = Ok (match stored defaultCompareFunction undefined_ops 1 with
                   | Some v => negb (is_undefined v)
                   | None => false
                   end, st))
  ∧ (∃ st, IntervalTree_run 6 undefined_interval_ops new_tree = Ok (tt, st)
           ∧ get interval_compareFn 6 (1, 5) st
             = Ok (stored interval_compareFn undefined_interval_ops (1, 5), st)
           ∧ has interval_compareFn is_undefined 6 (1, 5) st
             = Ok (match stored interval_compareFn undefined_interval_ops (1, 5) with
                   | Some v => negb (is_undefined v)
                   | None => false
                   end, st)).
Proof.
  split; [exact default_cmp_laws|]. split; [simpl; lia|]. split; [simpl; lia|].
  apply (get_has_after_set_delete defaultCompareFunction is_undefined undefined_ops 1
           undefined_interval_ops (1, 5) 6);
    [exact default_cmp_laws|simpl; lia|simpl; lia].
Defined.

(** After [set(1, undefined)] the key 1 is in the tree, [get(1)] is
    [undefined] and [has(1)] is [false]. *)
Lemma has_is_false_on_undefined :
  ∃ st, RBTree_run defaultCompareFunction 6 undefined_ops new_tree = Ok (tt, st)
        ∧ get defaultCompareFunction 6 1 st = Ok (Some None, st)
        ∧ has defaultCompareFunction is_undefined 6 1 st = Ok (false, st).
Proof.
  destruct (get_has_after false defaultCompareFunction (λ _, 0) default_cmp_laws
              is_undefined 6 undefined_ops 1) as (st & Hrun & Hget & Hhas); [simpl; lia|].
  exists st. split; [exact Hrun|]. split; [exact Hget|exact Hhas].
Qed.

(** X2: on such a tree [set(k, v)] returns; afterwards [get(k)] is [v], [get]
    of every other key is as before, and [size] has grown by one if [k] was
    absent and is unchanged if [k] was present. *)
Theorem set_then_get_and_size {K V : Type} (compareFn : K → K → Ordering)
    (ops : list (op K V)) (k : K) (v : V)
    (iops : list (op Interval V)) (i : Interval) (w : V) (fuel : nat) :
  cmp_laws compareFn →
  (length ops + 3 ≤ fuel)%nat → (length iops + 3 ≤ fuel)%nat →
  (∃ st st' n,
     RBTree_run compareFn fuel ops new_tree = Ok (tt, st)
     ∧ size st = Ok (n, st)
     ∧ set false compareFn (λ _, 0) fuel k v st = Ok (tt, st')
     ∧ get compareFn fuel k st' = Ok (Some v, st')
     ∧ (∀ k', compareFn k' k ≠ EQ →
              get compareFn fuel k' st' = Ok (stored compareFn ops k', st'))
     ∧ size st' = Ok (if stored compareFn ops k is Some _ then n else n + 1, st'))
  ∧ (∃ st st' n,
       IntervalTree_run fuel iops new_tree = Ok (tt, st)
       ∧ size st = Ok (n, st)
       ∧ set true interval_compareFn snd fuel i w st = Ok (tt, st')
       ∧ get interval_compareFn fuel i st' = Ok (Some w, st')
       ∧ (∀ i', interval_compareFn i' i ≠ EQ →
                get interval_compareFn fuel i' st' = Ok (stored interval_compareFn iops i', st'))
       ∧ size st' = Ok (if stored interval_compareFn iops i is Some _ then n else n + 1, st')).
Proof.
  intros laws Hfuel Hifuel. split.
  - apply (set_after false compareFn (λ _, 0) laws fuel ops k v Hfuel).
  - apply (set_after true interval_compareFn snd interval_cmp_laws fuel iops i w Hifuel).
Qed.

Lemma set_then_get_and_size_witness :
  cmp_laws defaultCompareFunction
  ∧ (length example_ops + 3 ≤ 7)%nat ∧ (length example_interval_ops + 3 ≤ 7)%nat
  ∧ (∃ st st' n,
       RBTree_run defaultCompareFunction 7 example_ops new_tree = Ok (tt, st)
       ∧ size st = Ok (n, st)
       ∧ set false defaultCompareFunction (λ _, 0) 7 2 22 st = Ok (tt, st')
       ∧ get defaultCompareFunction 7 2 st' = Ok (Some 22, st')
       ∧ (∀ k', defaultCompareFunction k' 2 ≠ EQ →
                get defaultCompareFunction 7 k' st'
                = Ok (stored defaultCompareFunction example_ops k', st'))
       ∧ size st'
         = Ok (if stored defaultCompareFunction example_ops 2 is Some _ then n else n + 1, st'))
  ∧ (∃ st st' n,
       IntervalTree_run 7 example_interval_ops new_tree = Ok (tt, st)
       ∧ size st = Ok (n, st)
       ∧ set true interval_compareFn snd 7 (1, 5) 11 st = Ok (tt, st')
       ∧ get interval_compareFn 7 (1, 5) st' = Ok (Some 11, st')
       ∧ (∀ i', interval_compareFn i' (1, 5) ≠ EQ →
                get interval_compareFn 7 i' st'
                = Ok (stored interval_compareFn example_interval_ops i', st'))
       ∧ size st'
         = Ok (if stored interval_compareFn example_interval_ops (1, 5) is Some _
               then n else n + 1, st')).
Proof.
  split; [exact default_cmp_laws|]. split; [simpl; lia|]. split; [simpl; lia|].
  apply (set_then_get_and_size defaultCompareFunction example_ops 2 22
           example_interval_ops (1, 5) 11 7);
    [exact default_cmp_laws|simpl; lia|simpl; lia].
Defined.

(** X3: on such a tree [delete(k)] returns [true] exactly when [k] is
    present; afterwards [get(k)] is [undefined], [get] of every other key is
    as before, and [size] is one less if [k] was present and unchanged if
    not. *)
Theorem delete_then_get_and_size {K V : Type} (compareFn : K → K → Ordering)
    (ops : list (op K V)) (k : K) (iops : list (op Interval V)) (i : Interval) (fuel : nat) :
  cmp_laws compareFn →
  (length ops + 2 ≤ fuel)%nat → (length iops + 2 ≤ fuel)%nat →
  (∃ st st' n,
     RBTree_run compareFn fuel ops new_tree = Ok (tt, st)
     ∧ size st = Ok (n, st)
     ∧ RBTree_delete compareFn fuel k st
       = Ok (bool_decide (is_Some (stored compareFn ops k)), st')
     ∧ get compareFn fuel k st' = Ok (None, st')
     ∧ (∀ k', compareFn k' k ≠ EQ →
              get compareFn fuel k' st' = Ok (stored compareFn ops k', st'))
     ∧ size st' = Ok (if stored compareFn ops k is Some _ then n - 1 else n, st'))
  ∧ (∃ st st' n,
       IntervalTree_run fuel iops new_tree = Ok (tt, st)
       ∧ size st = Ok (n, st)
       ∧ IntervalTree_delete fuel i st
         = Ok (bool_decide (is_Some (stored interval_compareFn iops i)), st')
       ∧ get interval_compareFn fuel i st' = Ok (None, st')
       ∧ (∀ i', interval_compareFn i' i ≠ EQ →
                get interval_compareFn fuel i' st' = Ok (stored interval_compareFn iops i', st'))
       ∧ size st' = Ok (if stored interval_compareFn iops i is Some _ then n - 1 else n, st')).
Proof.
  intros laws Hfuel Hifuel. split.
  - apply (delete_after false compareFn (λ _, 0) laws fuel ops k Hfuel).
  - apply (delete_after true interval_compareFn snd interval_cmp_laws fuel iops i Hifuel).
Qed.

Lemma delete_then_get_and_size_witness :
  cmp_laws defaultCompareFunction
  ∧ (length example_ops + 2 ≤ 6)%nat ∧ (length example_interval_ops + 2 ≤ 6)%nat
  ∧ (∃ st st' n,
       RBTree_run defaultCompareFunction 6 example_ops new_tree = Ok (tt, st)
       ∧ size st = Ok (n, st)
       ∧ RBTree_delete defaultCompareFunction 6 1 st
         = Ok (bool_decide (is_Some (stored defaultCompareFunction example_ops 1)), st')
       ∧ get defaultCompareFunction 6 1 st' = Ok (None, st')
       ∧ (∀ k', defaultCompareFunction k' 1 ≠ EQ →
                get defaultCompareFunction 6 k' st'
                = Ok (stored defaultCompareFunction example_ops k', st'))
       ∧ size st'
         = Ok (if stored defaultCompareFunction example_ops 1 is Some _ then n - 1 else n, st'))
  ∧ (∃ st st' n,
       IntervalTree_run 6 example_interval_ops new_tree = Ok (tt, st)
       ∧ size st = Ok (n, st)
       ∧ IntervalTree_delete 6 (1, 5) st
         = Ok (bool_decide (is_Some (stored interval_compareFn example_interval_ops (1, 5))), st')
       ∧ get interval_compareFn 6 (1, 5) st' = Ok (None, st')
       ∧ (∀ i', interval_compareFn i' (1, 5) ≠ EQ →
                get interval_compareFn 6 i' st'
                = Ok (stored interval_compareFn example_interval_ops i', st'))
       ∧ size st'
         = Ok (if stored interval_compareFn example_interval_ops (1, 5) is Some _
               then n - 1 else n, st')).
Proof.
  split; [exact default_cmp_laws|]. split; [simpl; lia|]. split; [simpl; lia|].
  apply (delete_then_get_and_size defaultCompareFunction example_ops 1
           example_interval_ops (1, 5) 6);
    [exact default_cmp_laws|simpl; lia|simpl; lia].
Defined.

(** X4: the nodes of such a tree form a red-black tree: the root is black,
    the children of a red node are black, and every path from the root to a
    leaf has the same number of black nodes ([is_rb t n]); its keys are in
    strictly increasing order from left to right. *)
Theorem trees_are_red_black {K V : Type} (compareFn : K → K → Ordering)
    (ops : list (op K V)) (iops : list (op Interval V)) (fuel : nat) :
  cmp_laws compareFn →
  (length ops + 2 ≤ fuel)%nat → (length iops + 2 ≤ fuel)%nat →
  (∃ st t n, RBTree_run compareFn fuel ops new_tree = Ok (tt, st)
             ∧ rep st t ∧ is_rb t n ∧ tcolor t = black
             ∧ StronglySorted (λ a b, compareFn a.1 b.1 = LT) (inorder t))
  ∧ (∃ st t n, IntervalTree_run fuel iops new_tree = Ok (tt, st)
               ∧ rep st t ∧ is_rb t n ∧ tcolor t = black
               ∧ StronglySorted (λ a b, interval_compareFn a.1 b.1 = LT) (inorder t)).
Proof.
  intros laws Hfuel Hifuel. split.
  - destruct (shape_after false compareFn (λ _, 0) laws fuel ops Hfuel)
      as (st & t & n & Hrun & Hrep & Hrb & Hb & _ & Hs & _).
    by exists st, t, n.
  - destruct (shape_after true interval_compareFn snd interval_cmp_laws fuel iops Hifuel)
      as (st & t & n & Hrun & Hrep & Hrb & Hb & _ & Hs & _).
    by exists st, t, n.
Qed.

Lemma trees_are_red_black_witness :
  cmp_laws defaultCompareFunction
  ∧ (length example_ops + 2 ≤ 6)%nat ∧ (length example_interval_ops + 2 ≤ 6)%nat
  ∧ (∃ st t n, RBTree_run defaultCompareFunction 6 example_ops new_tree = Ok (tt, st)
               ∧ rep st t ∧ is_rb t n ∧ tcolor t = black
               ∧ StronglySorted (λ a b, defaultCompareFunction a.1 b.1 = LT) (inorder t))
  ∧ (∃ st t n, IntervalTree_run 6 example_interval_ops new_tree = Ok (tt, st)
               ∧ rep st t ∧ is_rb t n ∧ tcolor t = black
               ∧ StronglySorted (λ a b, interval_compareFn a.1 b.1 = LT) (inorder t)).
Proof.
  split; [exact default_cmp_laws|]. split; [simpl; lia|]. split; [simpl; lia|].
  apply (trees_are_red_black defaultCompareFunction example_ops example_interval_ops 6);
    [exact default_cmp_laws|simpl; lia|simpl; lia].
Defined.

(** X5: in every [IntervalTree] built from a new instance by [set] and
    [delete], the field [max] of every node is the greatest high endpoint of
    the intervals in the subtree of that node ([plug C u] is the tree with the
    subtree [u] at the place that the context [C] describes). *)
Theorem max_is_greatest_high_endpoint {V : Type} (iops : list (op Interval V)) (fuel : nat) :
  (length iops + 2 ≤ fuel)%nat →
  ∃ st t, IntervalTree_run fuel iops new_tree = Ok (tt, st)
          ∧ rep st t
          ∧ ∀ C p c l k v m r, t = plug C (T p c l k v m r) →
                               greatest_high m (inorder (T p c l k v m r)).
Proof.
  intros Hfuel.
  destruct (shape_after true interval_compareFn snd interval_cmp_laws fuel iops Hfuel)
    as (st & t & n & Hrun & Hrep & Hrb & Hb & Hok & Hs & _).
  exists st, t. split_and!; [done|done|].
  intros C p c l k v m r ->.
  specialize (Hok eq_refl). apply all_ok_plug in Hok as [Hok _].
  by apply all_ok_greatest.
Qed.

Lemma max_is_greatest_high_endpoint_witness :
  (length example_interval_ops + 2 ≤ 6)%nat
  ∧ ∃ st t, IntervalTree_run 6 example_interval_ops new_tree = Ok (tt, st)
            ∧ rep st t
            ∧ ∀ C p c l k v m r, t = plug C (T p c l k v m r) →
                                 greatest_high m (inorder (T p c l k v m r)).
Proof.
  split; [simpl; lia|].
  apply (max_is_greatest_high_endpoint example_interval_ops 6). simpl; lia.
Defined.

(** X6: [rotateRight(y)] on a node whose left child [x] is not the sentinel
    makes [x] the root of the subtree, with [y] as its right child and the
    former right subtree of [x] as the left subtree of [y]; [rotateLeft(x)]
    then restores the former shape.  Both keep the entries in order; in an
    [RBTree] the second gives back the very tree, in an [IntervalTree] each
    sets the [max] of the two nodes from their children. *)
Theorem rotateRight_then_rotateLeft {K V : Type} (augmented : bool) (key1 : K → Z)
    (st : Tree K V) ctx y cy x cx a kx vx mx b ky vy my c :
  rep st (plug ctx (T y cy (T x cx a kx vx mx b) ky vy my c)) →
  ∃ st1 st2 m1 m1' m2 m2',
    rotateRight augmented key1 (Some y) st = Ok (tt, st1)
    ∧ rep st1 (plug ctx (T x cx a kx vx m1 (T y cy b ky vy m1' c)))
    ∧ rotateLeft augmented key1 (Some x) st1 = Ok (tt, st2)
    ∧ rep st2 (plug ctx (T y cy (T x cx a kx vx m2 b) ky vy m2' c))
    ∧ inorder (plug ctx (T x cx a kx vx m1 (T y cy b ky vy m1' c)))
      = inorder (plug ctx (T y cy (T x cx a kx vx mx b) ky vy my c))
    ∧ _size st2 = _size st
    ∧ (augmented = false → m1 = mx ∧ m1' = my ∧ m2 = mx ∧ m2' = my)
    ∧ (augmented = true →
       m1' = nmax key1 ky b c ∧ m1 = nmax key1 kx a (T y cy b ky vy m1' c)
       ∧ m2 = nmax key1 kx a b ∧ m2' = nmax key1 ky (T x cx a kx vx m2 b) c).
Proof.
  intros Hrep.
  destruct (rotateRight_focus augmented key1 st ctx y cy a ky vy my x cx b kx vx mx c Hrep)
    as (st1 & Hrun1 & Hrep1 & Hf1).
  unfold N in Hrep1.
  destruct (rotateLeft_focus augmented key1 st1 ctx x cx a kx vx _ y cy b ky vy _ c Hrep1)
    as (st2 & Hrun2 & Hrep2 & Hf2).
  unfold N in Hrep2.
  eexists st1, st2, _, _, _, _. split_and!; [exact Hrun1|exact Hrep1|exact Hrun2|exact Hrep2| | | |].
  - rewrite !inorder_plug. simpl. do 2 f_equal. by rewrite <- app_assoc.
  - destruct Hf1 as (_ & H1 & _), Hf2 as (_ & H2 & _). congruence.
  - intros ->. done.
  - intros ->. done.
Qed.

Lemma rotateRight_then_rotateLeft_witness :
  rep (two_nodes 5 3) (plug [] (T 1%nat black (T 2%nat red Leaf 3 50 0 Leaf) 5 0 0 Leaf))
  ∧ ∃ st1 st2 m1 m1' m2 m2',
      rotateRight false (λ _, 0) (Some 1%nat) (two_nodes 5 3) = Ok (tt, st1)
      ∧ rep st1 (plug [] (T 2%nat red Leaf 3 50 m1 (T 1%nat black Leaf 5 0 m1' Leaf)))
      ∧ rotateLeft false (λ _, 0) (Some 2%nat) st1 = Ok (tt, st2)
      ∧ rep st2 (plug [] (T 1%nat black (T 2%nat red Leaf 3 50 m2 Leaf) 5 0 m2' Leaf))
      ∧ inorder (plug [] (T 2%nat red Leaf 3 50 m1 (T 1%nat black Leaf 5 0 m1' Leaf)))
        = inorder (plug [] (T 1%nat black (T 2%nat red Leaf 3 50 0 Leaf) 5 0 0 Leaf))
      ∧ _size st2 = _size (two_nodes 5 3)
      ∧ (false = false → m1 = 0 ∧ m1' = 0 ∧ m2 = 0 ∧ m2' = 0)
      ∧ (false = true →
         m1' = nmax (λ _, 0) 5 (@Leaf Z Z) Leaf
         ∧ m1 = nmax (λ _, 0) 3 Leaf (T 1%nat black Leaf 5 0 m1' Leaf)
         ∧ m2 = nmax (λ _, 0) 3 (@Leaf Z Z) Leaf
         ∧ m2' = nmax (λ _, 0) 5 (T 2%nat red Leaf 3 50 m2 Leaf) Leaf).
Proof.
  split; [apply (two_nodes_rep 5 3)|].
  apply (rotateRight_then_rotateLeft false (λ _, 0) (two_nodes 5 3) []
           1%nat black 2%nat red Leaf 3 50 0 Leaf 5 0 0 Leaf).
  apply (two_nodes_rep 5 3).
Defined.

(** X7: on every tree state, balanced or not, [entries()] ends and yields
    the pairs of the nodes in the order of the in-order traversal of the
    tree, and leaves the state as it is. *)
Theorem entries_is_inorder {K V : Type} (st : Tree K V) (t : RBFacts.tree) (fuel : nat) :
  rep st t → (length (inorder t) < fuel)%nat →
  entries fuel st = Ok ((λ kv, (kv.1, Some kv.2)) <$> inorder t, st).
Proof. apply entries_spec. Qed.

Lemma entries_is_inorder_witness :
  rep (two_nodes 5 3) (two_nodes_tree 5 3)
  ∧ (length (inorder (two_nodes_tree 5 3)) < 3)%nat
  ∧ entries 3 (two_nodes 5 3)
    = Ok ((λ kv, (kv.1, Some kv.2)) <$> inorder (two_nodes_tree 5 3), two_nodes 5 3).
Proof.
  split; [apply two_nodes_rep|]. split; [simpl; lia|].
  apply (entries_is_inorder (two_nodes 5 3) (two_nodes_tree 5 3) 3);
    [apply two_nodes_rep|simpl; lia].
Defined.

(** X8: on every tree state [checkBalanceInvariant()] returns [true] exactly
    when the longest path from the root to a leaf has at most twice the
    number of nodes of the shortest one. *)
Theorem checkBalanceInvariant_compares_paths {K V : Type} (st : Tree K V) (t : RBFacts.tree)
    (fuel : nat) :
  rep st t → (length (inorder t) < fuel)%nat →
  checkBalanceInvariant fuel st = Ok (bool_decide (longest t ≤ 2 * shortest t)%nat, st).
Proof.
  intros Hrep Hfuel. unfold checkBalanceInvariant.
  unfold bind at 1. rewrite (root_rep _ _ Hrep).
  unfold bind. rewrite (balance_traverse_spec st fuel t) by (by apply sub_root || done).
  unfold ret. do 2 f_equal. apply bool_decide_ext. lia.
Qed.

Lemma checkBalanceInvariant_compares_paths_witness :
  rep (two_nodes 5 3) (two_nodes_tree 5 3)
  ∧ (length (inorder (two_nodes_tree 5 3)) < 3)%nat
  ∧ checkBalanceInvariant 3 (two_nodes 5 3)
    = Ok (bool_decide (longest (two_nodes_tree 5 3) ≤ 2 * shortest (two_nodes_tree 5 3))%nat,
          two_nodes 5 3).
Proof.
  split; [apply two_nodes_rep|]. split; [simpl; lia|].
  apply (checkBalanceInvariant_compares_paths (two_nodes 5 3) (two_nodes_tree 5 3) 3);
    [apply two_nodes_rep|simpl; lia].
Defined.

(** X9: on every tree state whose keys are all truthy (as the intervals of
    an [IntervalTree] are), and for a comparison that is a total order,
    [checkOrderInvariant()] returns [true] exactly when the keys are in
    strictly increasing order in the in-order traversal. *)
Theorem checkOrderInvariant_decides_order {K V : Type} (compareFn : K → K → Ordering)
    (truthy : K → bool) (st : Tree K V) (t : RBFacts.tree) (fuel : nat) :
  cmp_laws compareFn →
  rep st t →
  Forall (λ kv : K * V, truthy kv.1 = true) (inorder t) →
  (length (inorder t) < fuel)%nat →
  ∃ b, checkOrderInvariant compareFn truthy fuel st = Ok (b, st)
       ∧ (b = true ↔ StronglySorted (λ a b, compareFn a.1 b.1 = LT) (inorder t)).
Proof.
  intros laws Hrep Hk Hfuel. eexists. split; [by apply checkOrderInvariant_exact|].
  rewrite order_ok_truthy by done.
  rewrite (spec_ordered_sorted compareFn laws). split; [by intros (? & _)|].
  intros Hs. by split_and!.
Qed.

Lemma checkOrderInvariant_decides_order_witness :
  cmp_laws defaultCompareFunction
  ∧ rep (two_nodes 5 3) (two_nodes_tree 5 3)
  ∧ Forall (λ kv : Z * Z, number_truthy kv.1 = true) (inorder (two_nodes_tree 5 3))
  ∧ (length (inorder (two_nodes_tree 5 3)) < 3)%nat
  ∧ ∃ b, checkOrderInvariant defaultCompareFunction number_truthy 3 (two_nodes 5 3)
         = Ok (b, two_nodes 5 3)
         ∧ (b = true ↔ StronglySorted (λ a b, defaultCompareFunction a.1 b.1 = LT)
                         (inorder (two_nodes_tree 5 3))).
Proof.
  split; [exact default_cmp_laws|]. split; [apply two_nodes_rep|].
  split; [repeat constructor|]. split; [simpl; lia|].
  apply (checkOrderInvariant_decides_order defaultCompareFunction number_truthy
           (two_nodes 5 3) (two_nodes_tree 5 3) 3);
    [exact default_cmp_laws|apply two_nodes_rep|repeat constructor|simpl; lia].
Defined.

(** X10: [compareFn] of interval-tree.ts orders the intervals
    lexicographically, by the low and then by the high endpoint, and it is a
    total order: [EQ] only on equal intervals, [GT] exactly when the swapped
    arguments give [LT], and [LT] is transitive.  The default comparison of
    [RBTree] is a total order on integers as well. *)
Theorem comparisons_are_total_orders :
  (∀ a b : Interval,
     interval_compareFn a b = LT ↔ a.1 < b.1 ∨ (a.1 = b.1 ∧ a.2 < b.2))
  ∧ cmp_laws interval_compareFn
  ∧ (∀ a b : Z, defaultCompareFunction a b = LT ↔ a < b)
  ∧ cmp_laws defaultCompareFunction.
Proof.
  split_and!; [|exact interval_cmp_laws| |exact default_cmp_laws].
  - intros [a1 a2] [b1 b2]. unfold interval_compareFn. simpl.
    repeat case_decide; split; try done; try lia; intros; lia.
  - intros a b. unfold defaultCompareFunction. repeat case_decide; split; try done; lia.
Qed.

(** X11: [intervalsIntersect] is symmetric, for all intervals; and on two
    intervals whose low endpoint is not above the high one it holds exactly
    when the intervals have a point in common. *)
Theorem intervalsIntersect_common_point (a b : Interval) :
  intervalsIntersect a b = intervalsIntersect b a
  ∧ (a.1 ≤ a.2 → b.1 ≤ b.2 →
     (intervalsIntersect a b = true ↔ ∃ x, a.1 ≤ x ≤ a.2 ∧ b.1 ≤ x ≤ b.2)).
Proof.
  unfold intervalsIntersect. split.
  - repeat case_bool_decide; simpl; try done; lia.
  - intros Ha Hb. rewrite andb_true_iff, !bool_decide_eq_true. split.
    + intros [H1 H2]. exists (Z.max a.1 b.1). lia.
    + intros (x & ? & ?). lia.
Qed.

Lemma intervalsIntersect_common_point_witness :
  intervalsIntersect (1, 5) (5, 6) = intervalsIntersect (5, 6) (1, 5)
  ∧ (1, 5).1 ≤ (1, 5).2 ∧ (5, 6).1 ≤ (5, 6).2
  ∧ (intervalsIntersect (1, 5) (5, 6) = true
     ↔ ∃ x, (1, 5).1 ≤ x ≤ (1, 5).2 ∧ (5, 6).1 ≤ x ≤ (5, 6).2).
Proof.
  destruct (intervalsIntersect_common_point (1, 5) (5, 6)) as [Hsym Hpoint].
  split; [exact Hsym|].
  assert (H1 : (1, 5).1 ≤ (1, 5).2) by (simpl; lia).
  assert (H2 : (5, 6).1 ≤ (5, 6).2) by (simpl; lia).
  split; [exact H1|]. split; [exact H2|]. exact (Hpoint H1 H2).
Defined.

End RBExtras.

(** * The bit utilities of the HAMT *)
Module HAMTBits.
Import HAMT.

(** ** Counting bits *)

(** The number of set bits among the low [k] bits of [n]. *)
Fixpoint count_bits (k : nat) (n : Z) : Z :=
  match k with
  | O => 0
  | S k => Z.b2z (Z.odd n) + count_bits k (Z.div2 n)
  end.

(** Four bytes, the low one first. *)
Definition N4 (x0 x1 x2 x3 : Z) : Z := x0 + 2 ^ 8 * (x1 + 2 ^ 8 * (x2 + 2 ^ 8 * x3)).

Definition byte (b : Z) : Prop := 0 ≤ b < 256.

(** The three steps of [popCount] on one byte. *)
Definition fA (b : Z) : Z := b - Z.land (b / 2) 0x55.
Definition fB (a : Z) : Z := Z.land a 0x33 + Z.land (a / 4) 0x33.

Definition table1 (b r : Z) : bool :=
  bool_decide (Z.land (b / 2 + 128 * r) 0x55 = Z.land (b / 2) 0x55)
  && bool_decide (0 ≤ fA b < 256).

Definition table2 (b r : Z) : bool :=
  bool_decide (Z.land (fA b / 4 + 64 * r) 0x33 = Z.land (fA b / 4) 0x33)
  && bool_decide (0 ≤ fB (fA b) ≤ 68)
  && bool_decide (fB (fA b) mod 16 ≤ 4).

Definition table3 (b r : Z) : bool :=
  let c := fB (fA b) in
  bool_decide (c + c / 16 + 16 * r < 256)
  && bool_decide (Z.land (c + c / 16 + 16 * r) 0x0F = count_bits 8 b).

Definition all_below (n m : nat) (p : Z → Z → bool) : bool :=
  forallb (λ i, forallb (λ j, p (Z.of_nat i) (Z.of_nat j)) (seq 0 m)) (seq 0 n).

Lemma all_below_spec n m p b r :
  all_below n m p = true → 0 ≤ b < Z.of_nat n → 0 ≤ r < Z.of_nat m → p b r = true.
Proof.
  unfold all_below. rewrite forallb_forall. intros H Hb Hr.
  specialize (H (Z.to_nat b)). rewrite forallb_forall in H.
  specialize (H ltac:(apply in_seq; lia) (Z.to_nat r) ltac:(apply in_seq; lia)).
  by rewrite !Z2Nat.id in H by lia.
Qed.

Lemma table1_ok : all_below 256 2 table1 = true.
Proof. vm_compute. reflexivity. Qed.
Lemma table2_ok : all_below 256 4 table2 = true.
Proof. vm_compute. reflexivity. Qed.
Lemma table3_ok : all_below 256 5 table3 = true.
Proof. vm_compute. reflexivity. Qed.

(** *** Numbers as blocks of bits *)

Lemma testbit_split k x y n :
  0 ≤ k → 0 ≤ x < 2 ^ k → 0 ≤ n →
  Z.testbit (x + 2 ^ k * y) n = if decide (n < k) then Z.testbit x n else Z.testbit y (n - k).
Proof.
  intros Hk Hx Hn. case_decide.
  - rewrite <- (Z.mod_pow2_bits_low (x + 2 ^ k * y) k n) by lia.
    f_equal. symmetry. apply Z.mod_unique_pos with y; lia.
  - replace n with ((n - k) + k) at 1 by lia.
    rewrite <- Z.div_pow2_bits by lia.
    f_equal. symmetry. apply Z.div_unique_pos with x; lia.
Qed.

Lemma land_bound k a c : 0 ≤ k → 0 ≤ a < 2 ^ k → 0 ≤ Z.land a c < 2 ^ k.
Proof.
  intros Hk Ha.
  assert (Z.land a c = Z.land a c mod 2 ^ k) as ->.
  { rewrite <- Z.land_ones by done. rewrite (Z.land_comm a c), <- Z.land_assoc.
    rewrite Z.land_ones by done. by rewrite (Z.mod_small a) by lia. }
  apply Z.mod_pos_bound. lia.
Qed.

Lemma land_split k a b c d :
  0 ≤ k → 0 ≤ a < 2 ^ k → 0 ≤ c < 2 ^ k →
  Z.land (a + 2 ^ k * b) (c + 2 ^ k * d) = Z.land a c + 2 ^ k * Z.land b d.
Proof.
  intros Hk Ha Hc. apply Z.bits_inj'. intros n Hn.
  rewrite Z.land_spec, !testbit_split by (done || by apply land_bound).
  case_decide; by rewrite Z.land_spec.
Qed.

Lemma land_N4 x0 x1 x2 x3 y0 y1 y2 y3 :
  byte x0 → byte x1 → byte x2 → byte y0 → byte y1 → byte y2 →
  Z.land (N4 x0 x1 x2 x3) (N4 y0 y1 y2 y3)
  = N4 (Z.land x0 y0) (Z.land x1 y1) (Z.land x2 y2) (Z.land x3 y3).
Proof.
  unfold byte, N4. intros. by rewrite !land_split by lia.
Qed.

(** *** The 32-bit operators *)

Lemma to_int32_mod x : JS.to_int32 x mod 2 ^ 32 = x mod 2 ^ 32.
Proof.
  unfold JS.to_int32.
  rewrite <- Zminus_mod_idemp_l, Z.mod_mod by lia.
  rewrite Zminus_mod_idemp_l. f_equal. lia.
Qed.

Lemma to_int32_small x : - 2 ^ 31 ≤ x < 2 ^ 31 → JS.to_int32 x = x.
Proof. intros H. unfold JS.to_int32. rewrite Z.mod_small; lia. Qed.

Lemma to_int32_range x : - 2 ^ 31 ≤ JS.to_int32 x < 2 ^ 31.
Proof.
  unfold JS.to_int32. pose proof (Z.mod_pos_bound (x + 2 ^ 31) (2 ^ 32) ltac:(lia)). lia.
Qed.

Lemma testbit_small m k n : 0 ≤ m < 2 ^ k → k ≤ n → Z.testbit m n = false.
Proof.
  intros Hm Hn. destruct (decide (0 ≤ k)) as [Hk|Hk].
  - rewrite <- (Z.mod_small m (2 ^ k)) by lia. apply Z.mod_pow2_bits_high. lia.
  - rewrite Z.pow_neg_r in Hm by lia. lia.
Qed.

(** [(x >> s) & m] reads the bits of [x mod 2^32] when [m] fits below the
    bits that the shift fills with the sign. *)
Lemma shr_land x s m :
  0 ≤ s < 32 → 0 ≤ m < 2 ^ (32 - s) →
  Z.land (Z.shiftr (JS.to_int32 x) s) m = Z.land (Z.shiftr (x mod 2 ^ 32) s) m.
Proof.
  intros Hs Hm. apply Z.bits_inj'. intros n Hn.
  rewrite !Z.land_spec, !Z.shiftr_spec by lia.
  destruct (decide (n + s < 32)).
  - f_equal. rewrite <- to_int32_mod. by rewrite Z.mod_pow2_bits_low by lia.
  - rewrite (testbit_small m (32 - s) n) by lia. by rewrite !andb_false_r.
Qed.

Lemma and_wrap x m : 0 ≤ m < 2 ^ 31 → JS.and x m = Z.land (x mod 2 ^ 32) m.
Proof.
  intros Hm. unfold JS.and. rewrite (to_int32_small m) by lia.
  pose proof (shr_land x 0 m ltac:(lia) ltac:(simpl; lia)) as H.
  by rewrite !Z.shiftr_0_r in H.
Qed.

Lemma and_shr_wrap x s m :
  0 < s < 32 → 0 ≤ m < 2 ^ (32 - s) →
  JS.and (JS.shr x (Some s)) m = Z.land ((x mod 2 ^ 32) / 2 ^ s) m.
Proof.
  intros Hs Hm. unfold JS.and, JS.shr, JS.shift_count. rewrite (Z.mod_small s) by lia.
  assert (2 ^ (32 - s) ≤ 2 ^ 31) by (apply Z.pow_le_mono_r; lia).
  rewrite (to_int32_small m) by lia.
  pose proof (to_int32_range x) as Hr.
  rewrite (to_int32_small (Z.shiftr _ _)).
  - rewrite shr_land by lia. by rewrite Z.shiftr_div_pow2 by lia.
  - rewrite Z.shiftr_div_pow2 by lia.
    assert (0 < 2 ^ s) by (apply Z.pow_pos_nonneg; lia).
    split.
    + apply Z.div_le_lower_bound; [done|]. nia.
    + apply Z.div_lt_upper_bound; [done|]. nia.
Qed.

(** *** [popCount] *)

Lemma div_N4 s x0 x1 x2 x3 :
  0 < s ≤ 8 → byte x0 → byte x1 → byte x2 → byte x3 →
  N4 x0 x1 x2 x3 / 2 ^ s
  = N4 (x0 / 2 ^ s + 2 ^ (8 - s) * (x1 mod 2 ^ s)) (x1 / 2 ^ s + 2 ^ (8 - s) * (x2 mod 2 ^ s))
       (x2 / 2 ^ s + 2 ^ (8 - s) * (x3 mod 2 ^ s)) (x3 / 2 ^ s).
Proof.
  intros Hs H0 H1 H2 H3. unfold N4, byte in *.
  assert (Hp : 2 ^ 8 = 2 ^ s * 2 ^ (8 - s)) by (rewrite <- Z.pow_add_r by lia; f_equal; lia).
  assert (0 < 2 ^ s) by (apply Z.pow_pos_nonneg; lia).
  assert (0 < 2 ^ (8 - s)) by (apply Z.pow_pos_nonneg; lia).
  pose proof (Z.div_mod x0 (2 ^ s) ltac:(lia)). pose proof (Z.mod_pos_bound x0 (2 ^ s) ltac:(lia)).
  pose proof (Z.div_mod x1 (2 ^ s) ltac:(lia)). pose proof (Z.mod_pos_bound x1 (2 ^ s) ltac:(lia)).
  pose proof (Z.div_mod x2 (2 ^ s) ltac:(lia)). pose proof (Z.mod_pos_bound x2 (2 ^ s) ltac:(lia)).
  pose proof (Z.div_mod x3 (2 ^ s) ltac:(lia)). pose proof (Z.mod_pos_bound x3 (2 ^ s) ltac:(lia)).
  symmetry. apply Z.div_unique_pos with (x0 mod 2 ^ s); [lia|].
  rewrite Hp. set (P := 2 ^ s) in *. set (Q := 2 ^ (8 - s)) in *.
  set (q0 := x0 / P) in *. set (q1 := x1 / P) in *. set (q2 := x2 / P) in *.
  set (q3 := x3 / P) in *. set (r0 := x0 mod P) in *. set (r1 := x1 mod P) in *.
  set (r2 := x2 mod P) in *. set (r3 := x3 mod P) in *.
  rewrite H5 at 1. rewrite H7 at 1. rewrite H9 at 1. rewrite H11 at 1. ring.
Qed.

Lemma table1_at b r : byte b → 0 ≤ r < 2 →
  Z.land (b / 2 + 128 * r) 0x55 = Z.land (b / 2) 0x55 ∧ byte (fA b).
Proof.
  intros Hb Hr. pose proof (all_below_spec _ _ _ b r table1_ok Hb Hr) as H.
  unfold table1 in H. apply andb_true_iff in H as [H1 H2].
  split; [by apply bool_decide_eq_true_1 in H1|by apply bool_decide_eq_true_1 in H2].
Qed.

Lemma table2_at b r : byte b → 0 ≤ r < 4 →
  Z.land (fA b / 4 + 64 * r) 0x33 = Z.land (fA b / 4) 0x33
  ∧ 0 ≤ fB (fA b) ≤ 68 ∧ fB (fA b) mod 16 ≤ 4.
Proof.
  intros Hb Hr. pose proof (all_below_spec _ _ _ b r table2_ok Hb Hr) as H.
  unfold table2 in H. apply andb_true_iff in H as [H H3]. apply andb_true_iff in H as [H1 H2].
  apply bool_decide_eq_true_1 in H1, H2, H3. done.
Qed.

Lemma table3_at b r : byte b → 0 ≤ r < 5 →
  fB (fA b) + fB (fA b) / 16 + 16 * r < 256
  ∧ Z.land (fB (fA b) + fB (fA b) / 16 + 16 * r) 0x0F = count_bits 8 b.
Proof.
  intros Hb Hr. pose proof (all_below_spec _ _ _ b r table3_ok Hb Hr) as H.
  unfold table3 in H. apply andb_true_iff in H as [H1 H2].
  split; by eapply bool_decide_eq_true_1.
Qed.

Lemma count_bits_bound k b : 0 ≤ count_bits k b ≤ Z.of_nat k.
Proof.
  revert b. induction k as [|k IH]; intros b; [simpl; lia|]. cbn [count_bits].
  specialize (IH (Z.div2 b)). destruct (Z.odd b); simpl Z.b2z; lia.
Qed.

Lemma count_bits_byte b : byte b → 0 ≤ count_bits 8 b ≤ 8.
Proof. intros _. apply (count_bits_bound 8). Qed.

Lemma N4_range x0 x1 x2 x3 :
  byte x0 → byte x1 → byte x2 → byte x3 → 0 ≤ N4 x0 x1 x2 x3 < 2 ^ 32.
Proof. unfold byte, N4. lia. Qed.

(** [popCount] adds the counts of the four bytes. *)
Lemma popCount_bytes n b0 b1 b2 b3 :
  byte b0 → byte b1 → byte b2 → byte b3 →
  n mod 2 ^ 32 = N4 b0 b1 b2 b3 →
  popCount n = count_bits 8 b0 + count_bits 8 b1 + count_bits 8 b2 + count_bits 8 b3.
Proof.
  intros B0 B1 B2 B3 Hn.
  assert (M55 : 0x55555555 = N4 0x55 0x55 0x55 0x55) by done.
  assert (M33 : 0x33333333 = N4 0x33 0x33 0x33 0x33) by done.
  assert (M0F : 0xF0F0F0F = N4 0x0F 0x0F 0x0F 0x0F) by done.
  assert (Hmod2 : ∀ x, 0 ≤ x mod 2 < 2) by (intros; apply Z.mod_pos_bound; lia).
  assert (Hmod4 : ∀ x, 0 ≤ x mod 4 < 4) by (intros; apply Z.mod_pos_bound; lia).
  assert (Hdiv : ∀ x k q, 0 < k → 0 ≤ x < k * q → 0 ≤ x / k < q).
  { intros x k q Hk Hx. split; [apply Z.div_pos; lia|].
    apply Z.div_lt_upper_bound; lia. }
  unfold popCount.
  (* the first line *)
  set (e1 := JS.and (JS.shr n (Some 1)) 0x55555555).
  assert (He1 : e1 = N4 (Z.land (b0 / 2) 0x55) (Z.land (b1 / 2) 0x55)
                        (Z.land (b2 / 2) 0x55) (Z.land (b3 / 2) 0x55)).
  { unfold e1. rewrite and_shr_wrap by (simpl; lia). rewrite Hn.
    rewrite (div_N4 1) by (done || lia). rewrite M55.
    change (2 ^ 1) with 2. change (2 ^ (8 - 1)) with 128.
    destruct (table1_at b0 (b1 mod 2) B0 (Hmod2 _)) as [T0 A0].
    destruct (table1_at b1 (b2 mod 2) B1 (Hmod2 _)) as [T1 A1].
    destruct (table1_at b2 (b3 mod 2) B2 (Hmod2 _)) as [T2 A2].
    pose proof (Hdiv b0 2 128 ltac:(lia) B0). pose proof (Hdiv b1 2 128 ltac:(lia) B1).
    pose proof (Hdiv b2 2 128 ltac:(lia) B2).
    pose proof (Hmod2 b1). pose proof (Hmod2 b2). pose proof (Hmod2 b3).
    rewrite land_N4 by (unfold byte in *; lia). by rewrite T0, T1, T2. }
  destruct (table1_at b0 0 B0 ltac:(lia)) as [_ A0].
  destruct (table1_at b1 0 B1 ltac:(lia)) as [_ A1].
  destruct (table1_at b2 0 B2 ltac:(lia)) as [_ A2].
  destruct (table1_at b3 0 B3 ltac:(lia)) as [_ A3].
  set (n1 := n - e1).
  assert (Hn1 : n1 mod 2 ^ 32 = N4 (fA b0) (fA b1) (fA b2) (fA b3)).
  { unfold n1. symmetry. apply Z.mod_unique_pos with (n / 2 ^ 32); [by apply N4_range|].
    pose proof (Z.div_mod n (2 ^ 32) ltac:(lia)) as Hdm. rewrite Hn in Hdm.
    rewrite He1. unfold fA, N4 in *. lia. }
  (* the second line *)
  set (n2 := JS.and n1 0x33333333 + JS.and (JS.shr n1 (Some 2)) 0x33333333).
  assert (Hn2 : n2 = N4 (fB (fA b0)) (fB (fA b1)) (fB (fA b2)) (fB (fA b3))).
  { unfold n2. rewrite and_wrap by lia. rewrite and_shr_wrap by (simpl; lia). rewrite Hn1.
    rewrite (div_N4 2) by (done || lia). rewrite M33.
    change (2 ^ 2) with 4. change (2 ^ (8 - 2)) with 64.
    destruct (table2_at b0 (fA b1 mod 4) B0 (Hmod4 _)) as [T0 _].
    destruct (table2_at b1 (fA b2 mod 4) B1 (Hmod4 _)) as [T1 _].
    destruct (table2_at b2 (fA b3 mod 4) B2 (Hmod4 _)) as [T2 _].
    pose proof (Hdiv _ 4 64 ltac:(lia) A0). pose proof (Hdiv _ 4 64 ltac:(lia) A1).
    pose proof (Hdiv _ 4 64 ltac:(lia) A2).
    pose proof (Hmod4 (fA b1)). pose proof (Hmod4 (fA b2)). pose proof (Hmod4 (fA b3)).
    rewrite !land_N4 by (unfold byte in *; lia). rewrite T0, T1, T2.
    unfold fB, N4. lia. }
  destruct (table2_at b0 0 B0 ltac:(lia)) as (_ & C0 & R0).
  destruct (table2_at b1 0 B1 ltac:(lia)) as (_ & C1 & R1).
  destruct (table2_at b2 0 B2 ltac:(lia)) as (_ & C2 & R2).
  destruct (table2_at b3 0 B3 ltac:(lia)) as (_ & C3 & R3).
  assert (Hmod16 : ∀ x, 0 ≤ x mod 16 < 16) by (intros; apply Z.mod_pos_bound; lia).
  pose proof (Hmod16 (fB (fA b1))). pose proof (Hmod16 (fB (fA b2))).
  pose proof (Hmod16 (fB (fA b3))).
  (* the third line *)
  set (n3 := JS.and (n2 + JS.shr n2 (Some 4)) 0xF0F0F0F).
  assert (Hn3 : n3 = N4 (count_bits 8 b0) (count_bits 8 b1) (count_bits 8 b2) (count_bits 8 b3)).
  { unfold n3.
    assert (Hsmall : 0 ≤ n2 < 2 ^ 31) by (rewrite Hn2; unfold N4; lia).
    assert (Hshr : JS.shr n2 (Some 4) = n2 / 2 ^ 4).
    { unfold JS.shr, JS.shift_count. rewrite to_int32_small by lia.
      by rewrite Z.shiftr_div_pow2 by done. }
    rewrite Hshr, and_wrap by lia.
    destruct (table3_at b0 (fB (fA b1) mod 16) B0 ltac:(lia)) as [L0 T0].
    destruct (table3_at b1 (fB (fA b2) mod 16) B1 ltac:(lia)) as [L1 T1].
    destruct (table3_at b2 (fB (fA b3) mod 16) B2 ltac:(lia)) as [L2 T2].
    destruct (table3_at b3 0 B3 ltac:(lia)) as [L3 T3].
    assert (Hsum : n2 + n2 / 2 ^ 4
                   = N4 (fB (fA b0) + fB (fA b0) / 16 + 16 * (fB (fA b1) mod 16))
                        (fB (fA b1) + fB (fA b1) / 16 + 16 * (fB (fA b2) mod 16))
                        (fB (fA b2) + fB (fA b2) / 16 + 16 * (fB (fA b3) mod 16))
                        (fB (fA b3) + fB (fA b3) / 16 + 16 * 0)).
    { rewrite Hn2 at 2. rewrite (div_N4 4) by (unfold byte; lia). rewrite Hn2.
      change (2 ^ 4) with 16. change (2 ^ (8 - 4)) with 16. unfold N4. lia. }
    assert (D0 : 0 ≤ fB (fA b0) / 16) by (apply Z.div_pos; lia).
    assert (D1 : 0 ≤ fB (fA b1) / 16) by (apply Z.div_pos; lia).
    assert (D2 : 0 ≤ fB (fA b2) / 16) by (apply Z.div_pos; lia).
    assert (D3 : 0 ≤ fB (fA b3) / 16) by (apply Z.div_pos; lia).
    rewrite Hsum, Z.mod_small by (unfold N4; lia).
    rewrite M0F, land_N4 by (unfold byte; lia). by rewrite T0, T1, T2, T3. }
  (* the multiplication adds the bytes into the high one *)
  pose proof (count_bits_byte b0 B0). pose proof (count_bits_byte b1 B1).
  pose proof (count_bits_byte b2 B2). pose proof (count_bits_byte b3 B3).
  rewrite Hn3. set (k0 := count_bits 8 b0) in *. set (k1 := count_bits 8 b1) in *.
  set (k2 := count_bits 8 b2) in *. set (k3 := count_bits 8 b3) in *.
  unfold JS.shr, JS.shift_count. change (24 mod 32) with 24.
  assert (Hv : JS.to_int32 (N4 k0 k1 k2 k3 * 0x1010101)
               = N4 k0 (k0 + k1) (k0 + k1 + k2) (k0 + k1 + k2 + k3)).
  { unfold JS.to_int32.
    assert (Hm : (N4 k0 k1 k2 k3 * 0x1010101 + 2 ^ 31) mod 2 ^ 32
                 = N4 k0 (k0 + k1) (k0 + k1 + k2) (k0 + k1 + k2 + k3) + 2 ^ 31).
    { symmetry.
      apply Z.mod_unique_pos with (k1 + k2 * 257 + k3 * 65793); unfold N4; lia. }
    rewrite Hm. lia. }
  rewrite Hv, Z.shiftr_div_pow2 by lia.
  symmetry. apply Z.div_unique_pos with (N4 k0 (k0 + k1) (k0 + k1 + k2) 0); unfold N4; lia.
Qed.

(** The positions of the set bits of [n] among [from, from + len). *)
Definition set_bits (n : Z) (from len : nat) : list nat :=
  filter (λ i, Z.testbit n (Z.of_nat i) = true) (seq from len).

Lemma count_bits_app j : ∀ k x R,
  0 ≤ x < 2 ^ Z.of_nat j →
  count_bits (j + k) (x + 2 ^ Z.of_nat j * R) = count_bits j x + count_bits k R.
Proof.
  induction j as [|j IH]; intros k x R Hx.
  - change (Z.of_nat 0) with 0 in *. rewrite Z.pow_0_r in *.
    assert (x = 0) as -> by lia. by rewrite Z.add_0_l, Z.mul_1_l.
  - cbn [Nat.add count_bits].
    assert (Hp : 2 ^ Z.of_nat (S j) = 2 * 2 ^ Z.of_nat j).
    { rewrite Nat2Z.inj_succ, Z.pow_succ_r by lia. done. }
    rewrite Hp in *.
    replace (x + 2 * 2 ^ Z.of_nat j * R) with (x + 2 * (2 ^ Z.of_nat j * R)) by lia.
    rewrite Z.odd_add_mul_2.
    assert (Hd : Z.div2 (x + 2 * (2 ^ Z.of_nat j * R)) = Z.div2 x + 2 ^ Z.of_nat j * R).
    { rewrite !Z.div2_div. rewrite (Z.mul_comm 2), Z.div_add by lia. done. }
    rewrite Hd, IH; [lia|]. rewrite Z.div2_div.
    split; [apply Z.div_pos; lia|apply Z.div_lt_upper_bound; lia].
Qed.

Lemma count_bits_N4 b0 b1 b2 b3 :
  byte b0 → byte b1 → byte b2 → byte b3 →
  count_bits 32 (N4 b0 b1 b2 b3)
  = count_bits 8 b0 + count_bits 8 b1 + count_bits 8 b2 + count_bits 8 b3.
Proof.
  intros B0 B1 B2 B3. unfold N4.
  rewrite (count_bits_app 8 24) by done.
  rewrite (count_bits_app 8 16) by done.
  rewrite (count_bits_app 8 8) by done. lia.
Qed.

Lemma bytes_of u : 0 ≤ u < 2 ^ 32 →
  ∃ b0 b1 b2 b3, byte b0 ∧ byte b1 ∧ byte b2 ∧ byte b3 ∧ u = N4 b0 b1 b2 b3.
Proof.
  intros Hu.
  exists (u mod 256), (u / 256 mod 256), (u / 65536 mod 256), (u / 16777216).
  unfold byte, N4. repeat split; try (apply Z.mod_pos_bound; lia).
  - apply Z.div_pos; lia.
  - apply Z.div_lt_upper_bound; lia.
  - pose proof (Z.div_mod u 256 ltac:(lia)).
    pose proof (Z.div_mod (u / 256) 256 ltac:(lia)).
    pose proof (Z.div_mod (u / 65536) 256 ltac:(lia)).
    assert (u / 65536 = u / 256 / 256) by (rewrite Z.div_div by lia; done).
    assert (u / 16777216 = u / 65536 / 256) by (rewrite Z.div_div by lia; done).
    lia.
Qed.

Lemma popCount_count n : popCount n = count_bits 32 (n mod 2 ^ 32).
Proof.
  destruct (bytes_of (n mod 2 ^ 32)) as (b0 & b1 & b2 & b3 & B0 & B1 & B2 & B3 & Hn).
  { apply Z.mod_pos_bound. lia. }
  rewrite (popCount_bytes n b0 b1 b2 b3) by done.
  by rewrite Hn, count_bits_N4.
Qed.

Lemma count_bits_shiftr k : ∀ j n,
  count_bits k (Z.shiftr n (Z.of_nat j)) = Z.of_nat (length (set_bits n j k)).
Proof.
  induction k as [|k IH]; intros j n; [done|].
  cbn [count_bits]. unfold set_bits. cbn [seq]. rewrite filter_cons.
  rewrite <- Z.bit0_odd, Z.shiftr_spec, Z.add_0_l by lia.
  rewrite Z.div2_spec, Z.shiftr_shiftr by lia.
  replace (Z.of_nat j + 1) with (Z.of_nat (S j)) by lia. rewrite IH. unfold set_bits.
  destruct (Z.testbit n (Z.of_nat j)); case_decide; try done; simpl; lia.
Qed.

Lemma set_bits_ext n m from len :
  (∀ i, (from ≤ i < from + len)%nat → Z.testbit n (Z.of_nat i) = Z.testbit m (Z.of_nat i)) →
  set_bits n from len = set_bits m from len.
Proof.
  revert from. induction len as [|len IH]; intros from H; [done|].
  unfold set_bits in *. cbn [seq]. rewrite !filter_cons.
  rewrite (IH (S from)) by (intros; apply H; lia). rewrite (H from) by lia.
  repeat case_decide; done.
Qed.

Lemma set_bits_none n from len :
  (∀ i, (from ≤ i < from + len)%nat → Z.testbit n (Z.of_nat i) = false) →
  set_bits n from len = [].
Proof.
  revert from. induction len as [|len IH]; intros from H; [done|].
  unfold set_bits in *. cbn [seq]. rewrite filter_cons.
  rewrite (IH (S from)) by (intros; apply H; lia). rewrite (H from) by lia.
  by case_decide.
Qed.

Lemma testbit_mod32 n i : 0 ≤ i < 32 → Z.testbit (n mod 2 ^ 32) i = Z.testbit n i.
Proof. intros. by rewrite Z.mod_pow2_bits_low by lia. Qed.

Lemma testbit_to_int32 n i : 0 ≤ i < 32 → Z.testbit (JS.to_int32 n) i = Z.testbit n i.
Proof. intros. by rewrite <- (testbit_mod32 (JS.to_int32 n)), to_int32_mod, testbit_mod32. Qed.

(** [popCount(n)] is the number of set bits among the 32 low bits. *)
Lemma popCount_set_bits n : popCount n = Z.of_nat (length (set_bits n 0 32)).
Proof.
  rewrite popCount_count. rewrite <- (Z.shiftr_0_r (n mod 2 ^ 32)).
  rewrite (count_bits_shiftr 32 0). do 2 f_equal. apply set_bits_ext.
  intros i Hi. apply testbit_mod32. lia.
Qed.

(** The number of set bits of [mask] above the bit [i], and below it. *)
Definition count_above (mask : Z) (i : Z) : Z :=
  Z.of_nat (length (set_bits mask (S (Z.to_nat i)) (31 - Z.to_nat i))).

Definition count_below (mask : Z) (i : Z) : Z :=
  Z.of_nat (length (set_bits mask 0 (Z.to_nat i))).

Lemma set_bits_app n from len1 len2 :
  set_bits n from (len1 + len2) = set_bits n from len1 ++ set_bits n (from + len1) len2.
Proof. unfold set_bits. by rewrite seq_app, filter_app. Qed.

Lemma childIndex_count_above mask i :
  0 ≤ i ≤ 31 → childIndex mask (Some i) = count_above mask i.
Proof.
  intros Hi. unfold childIndex, count_above. case_decide as E.
  - injection E as ->. change (Z.to_nat 31) with 31%nat. by rewrite Nat.sub_diag.
  - assert (i ≠ 31) by congruence.
    rewrite popCount_count. unfold JS.ushr, JS.add1, JS.to_uint32, JS.shift_count.
    cbn [fmap option_fmap option_map].
    rewrite (Z.mod_small (i + 1)) by lia.
    assert (Hr : 0 ≤ Z.shiftr (mask mod 2 ^ 32) (i + 1) < 2 ^ 32).
    { rewrite Z.shiftr_div_pow2 by lia.
      pose proof (Z.mod_pos_bound mask (2 ^ 32) ltac:(lia)).
      assert (0 < 2 ^ (i + 1)) by (apply Z.pow_pos_nonneg; lia).
      split; [apply Z.div_pos; lia|]. apply Z.div_lt_upper_bound; nia. }
    rewrite Z.mod_small by done.
    replace (i + 1) with (Z.of_nat (S (Z.to_nat i))) by lia.
    rewrite count_bits_shiftr. do 2 f_equal.
    replace 32%nat with ((31 - Z.to_nat i) + S (Z.to_nat i))%nat by lia.
    rewrite set_bits_app.
    rewrite (set_bits_none (mask mod 2 ^ 32) (S (Z.to_nat i) + (31 - Z.to_nat i))
               (S (Z.to_nat i))).
    + rewrite app_nil_r. apply set_bits_ext. intros j Hj. apply testbit_mod32. lia.
    + intros j Hj. apply (testbit_small _ 32); [|lia]. apply Z.mod_pos_bound. lia.
Qed.

(** *** [checkBit], [setBit] and [getNthPrefix] *)

Lemma checkBit_testbit n i : 0 ≤ i ≤ 31 → checkBit n (Some i) = Z.testbit n i.
Proof.
  intros Hi. unfold checkBit, JS.and, JS.shr, JS.shift_count.
  rewrite (Z.mod_small i) by lia. rewrite (to_int32_small 1) by lia.
  assert (Hl : ∀ y, Z.land y 1 = y mod 2) by (intros; apply (Z.land_ones y 1); lia).
  rewrite Hl.
  set (X := JS.to_int32 (Z.shiftr (JS.to_int32 n) i)).
  assert (Hb : X mod 2 = Z.b2z (Z.testbit n i)).
  { rewrite <- Z.bit0_mod. f_equal. unfold X. rewrite testbit_to_int32 by lia.
    rewrite Z.shiftr_spec by lia. rewrite Z.add_0_l. apply testbit_to_int32. lia. }
  rewrite Hb. by destruct (Z.testbit n i).
Qed.

Lemma shl_1 i : 0 ≤ i ≤ 31 → ∀ j, 0 ≤ j < 32 →
  Z.testbit (JS.shl 1 (Some i)) j = bool_decide (j = i).
Proof.
  intros Hi j Hj. unfold JS.shl, JS.shift_count. rewrite (Z.mod_small i) by lia.
  rewrite (to_int32_small 1) by lia. rewrite testbit_to_int32 by lia.
  rewrite Z.shiftl_spec by lia. case_bool_decide as E.
  - subst. by rewrite Z.sub_diag.
  - destruct (decide (j < i)); [by rewrite Z.testbit_neg_r by lia|].
    apply (testbit_small 1 1); lia.
Qed.

Lemma setBit_testbit n i j :
  0 ≤ i ≤ 31 → 0 ≤ j < 32 →
  Z.testbit (setBit n (Some i)) j = bool_decide (j = i) || Z.testbit n j.
Proof.
  intros Hi Hj. unfold setBit, JS.or. rewrite Z.lor_spec, !testbit_to_int32 by lia.
  rewrite shl_1 by lia. apply orb_comm.
Qed.

Lemma getNthPrefix_range h stage :
  0 ≤ stage ≤ 5 → ∃ i, getNthPrefix h stage = Some i ∧ 0 ≤ i ≤ 31.
Proof.
  intros Hs. unfold getNthPrefix. rewrite decide_False by lia. eexists. split; [done|].
  unfold JS.and. rewrite (to_int32_small 31) by lia.
  rewrite (Z.land_ones _ 5) by lia.
  pose proof (Z.mod_pos_bound (JS.to_int32 (JS.shr h (Some (5 * stage)))) (2 ^ 5) ltac:(lia)).
  lia.
Qed.

Lemma getNthPrefix_None h stage : 5 < stage → getNthPrefix h stage = None.
Proof. intros Hs. unfold getNthPrefix. by rewrite decide_True by lia. Qed.


(** *** [copyInsert] *)

Lemma copyInsert_loop_spec {T} (elem : T) (index : Z) : ∀ (arr : list T) (i : Z),
  copyInsert_loop elem index i arr
  = if decide (i ≤ index ≤ i + Z.of_nat (length arr))
    then take (Z.to_nat (index - i)) arr ++ elem :: drop (Z.to_nat (index - i)) arr
    else arr.
Proof.
  induction arr as [|a arr IH]; intros i; cbn [copyInsert_loop length].
  - repeat case_decide; try lia; try done.
    by replace (index - i) with 0 by lia.
  - rewrite IH. repeat case_decide; try lia; subst.
    + by rewrite Z.sub_diag.
    + replace (Z.to_nat (index - i)) with (S (Z.to_nat (index - (i + 1)))) by lia. done.
    + done.
Qed.

(** In range [copyInsert] inserts the element at the index; out of range it
    returns a copy of the array without the element. *)
Lemma copyInsert_spec {T} (elem : T) (index : Z) (arr : list T) :
  copyInsert elem index arr
  = if decide (0 ≤ index ≤ Z.of_nat (length arr))
    then take (Z.to_nat index) arr ++ elem :: drop (Z.to_nat index) arr
    else arr.
Proof.
  unfold copyInsert. rewrite copyInsert_loop_spec. rewrite Z.sub_0_r, Z.add_0_l. done.
Qed.

End HAMTBits.

(** * The store of the HAMT *)
Module HAMTStore.
Import HAMT HAMTBits.
Open Scope hamt_scope.

(** ** Running the monad *)

Section Run.
Context {V : Type}.
Abbreviation store := (HAMT.store V).
Abbreviation cell := (HAMT.cell V).
Abbreviation M := (HAMT.M V).

Lemma bind_Ok {A B} (m : M A) (k : A → M B) (s s' : store) b :
  bind m k s = Ok (b, s') → ∃ a s1, m s = Ok (a, s1) ∧ k a s1 = Ok (b, s').
Proof. unfold bind. destruct (m s) as [[a s1]| |]; [eauto|done|done]. Qed.

Lemma read_Ok l (s s1 : store) c : read l s = Ok (c, s1) → s1 = s ∧ s !! l = Some c.
Proof. unfold read. destruct (s !! l); [|done]. by intros [= -> ->]. Qed.

Lemma read_node_Ok l (s s1 : store) r :
  read_node l s = Ok (r, s1) → s1 = s ∧ s !! l = Some (CNode r.1.1.1 r.1.1.2 r.1.2 r.2).
Proof.
  unfold read_node. intros (c & s0 & [-> Hc]%read_Ok & H)%bind_Ok.
  destruct c; try done. by injection H as <- <-.
Qed.

Lemma read_keys_Ok l (s s1 : store) a : read_keys l s = Ok (a, s1) → s1 = s ∧ s !! l = Some (CKeys a).
Proof.
  unfold read_keys. intros (c & s0 & [-> Hc]%read_Ok & H)%bind_Ok.
  destruct c; try done. by injection H as <- <-.
Qed.

Lemma read_values_Ok l (s s1 : store) a :
  read_values l s = Ok (a, s1) → s1 = s ∧ s !! l = Some (CValues a).
Proof.
  unfold read_values. intros (c & s0 & [-> Hc]%read_Ok & H)%bind_Ok.
  destruct c; try done. by injection H as <- <-.
Qed.

Lemma read_nexts_Ok l (s s1 : store) a :
  read_nexts l s = Ok (a, s1) → s1 = s ∧ s !! l = Some (CNexts a).
Proof.
  unfold read_nexts. intros (c & s0 & [-> Hc]%read_Ok & H)%bind_Ok.
  destruct c; try done. by injection H as <- <-.
Qed.

Lemma new_Ok c (s s1 : store) l : new c s = Ok (l, s1) → l = length s ∧ s1 = s ++ [c].
Proof. unfold new, alloc. by intros [= <- <-]. Qed.

Lemma write_Ok l c (s s1 : store) u : write l c s = Ok (u, s1) → s1 = <[l := c]> s.
Proof. unfold write. by intros [= <-]. Qed.

Lemma ret_Ok {A} (a b : A) (s s1 : store) : ret a s = Ok (b, s1) → b = a ∧ s1 = s.
Proof. unfold ret. by intros [= <- <-]. Qed.

(** Forward rules. *)
Lemma read_node_run l (s : store) m k v n :
  s !! l = Some (CNode m k v n) → read_node l s = Ok ((m, k, v, n), s).
Proof. intros H. unfold read_node, bind, read. by rewrite H. Qed.

Lemma read_keys_run l (s : store) a : s !! l = Some (CKeys a) → read_keys l s = Ok (a, s).
Proof. intros H. unfold read_keys, bind, read. by rewrite H. Qed.

Lemma read_values_run l (s : store) a : s !! l = Some (CValues a) → read_values l s = Ok (a, s).
Proof. intros H. unfold read_values, bind, read. by rewrite H. Qed.

Lemma read_nexts_run l (s : store) a : s !! l = Some (CNexts a) → read_nexts l s = Ok (a, s).
Proof. intros H. unfold read_nexts, bind, read. by rewrite H. Qed.

(** List lemmas at the type of stores. *)
Lemma st_length_insert (s : store) l c : length (<[l := c]> s) = length s.
Proof. apply length_insert. Qed.

Lemma st_lookup_insert_ne (s : store) l l' c : l ≠ l' → <[l := c]> s !! l' = s !! l'.
Proof. apply list_lookup_insert_ne. Qed.

Lemma st_lookup_insert (s : store) l c : (l < length s)%nat → <[l := c]> s !! l = Some c.
Proof. apply list_lookup_insert_eq. Qed.

Lemma st_insert_ge (s : store) l c : (length s ≤ l)%nat → <[l := c]> s = s.
Proof. apply list_insert_ge. Qed.

(** [s'] keeps the cells of [s]. *)
Definition extends (s s' : store) : Prop :=
  (length s ≤ length s')%nat ∧ ∀ l, (l < length s)%nat → s' !! l = s !! l.

Lemma extends_refl s : extends s s.
Proof. done. Qed.

Lemma extends_trans s1 s2 s3 : extends s1 s2 → extends s2 s3 → extends s1 s3.
Proof.
  intros [H1 H1'] [H2 H2']. split; [lia|]. intros l Hl. rewrite H2' by lia. by apply H1'.
Qed.

Lemma extends_app s ext : extends s (s ++ ext).
Proof. split; [rewrite length_app; lia|]. intros l Hl. by apply lookup_app_l. Qed.

Lemma extends_insert s l c : (length s ≤ l)%nat → extends s (<[l := c]> s).
Proof. intros Hl. by rewrite st_insert_ge. Qed.

Lemma extends_insert_above s0 s l c :
  extends s0 s → (length s0 ≤ l)%nat → extends s0 (<[l := c]> s).
Proof.
  intros [H1 H2] Hl. split; [by rewrite st_length_insert|].
  intros l' Hl'. rewrite st_lookup_insert_ne by lia. by apply H2.
Qed.

Lemma extends_lookup s s' l c : extends s s' → s !! l = Some c → s' !! l = Some c.
Proof. intros [_ H] Hl. rewrite H; [done|]. by eapply lookup_lt_Some. Qed.

(** [s'] keeps the cells of [s] below [lo]. *)
Definition keeps (lo : nat) (s s' : store) : Prop :=
  (length s ≤ length s')%nat ∧ ∀ l, (l < lo)%nat → s' !! l = s !! l.

Lemma keeps_refl lo s : keeps lo s s.
Proof. done. Qed.

Lemma keeps_trans lo s1 s2 s3 : keeps lo s1 s2 → keeps lo s2 s3 → keeps lo s1 s3.
Proof. intros [H1 H1'] [H2 H2']. split; [lia|]. intros l Hl. rewrite H2' by lia. by apply H1'. Qed.

Lemma keeps_new lo (s : store) c : (lo ≤ length s)%nat → keeps lo s (s ++ [c]).
Proof.
  intros Hlo. split; [rewrite length_app; lia|]. intros l Hl. apply lookup_app_l. lia.
Qed.

Lemma keeps_write lo (s : store) l c : (lo ≤ l)%nat → keeps lo s (<[l := c]> s).
Proof.
  intros Hlo. split; [by rewrite st_length_insert|]. intros l' Hl'.
  apply st_lookup_insert_ne. lia.
Qed.

Lemma keeps_extends lo s s' : (lo ≤ length s)%nat → extends s s' → keeps lo s s'.
Proof. intros Hlo [H1 H2]. split; [done|]. intros l Hl. apply H2. lia. Qed.

Lemma keeps_length lo s s' : keeps lo s s' → (length s ≤ length s')%nat.
Proof. by intros [? _]. Qed.

Lemma empty_node_Ok (s s' : store) e :
  empty_node s = Ok (e, s') →
  e = (length s + 3)%nat
  ∧ s' = s ++ [CKeys []; CValues []; CNexts [];
               CNode 0 (length s) (length s + 1)%nat (length s + 2)%nat].
Proof.
  unfold empty_node, bind, new, alloc. rewrite !length_app. simpl.
  intros [= <- <-]. split; [lia|]. rewrite <- !app_assoc. simpl.
  replace (length s + 1 + 1)%nat with (length s + 2)%nat by lia. done.
Qed.

Ltac minv H :=
  repeat first
    [ apply bind_Ok in H as (? & ? & ? & H)
    | apply ret_Ok in H as [? ?] ];
  repeat match goal with
  | H' : read_node _ _ = Ok _ |- _ => apply read_node_Ok in H' as [? ?]
  | H' : read_keys _ _ = Ok _ |- _ => apply read_keys_Ok in H' as [? ?]
  | H' : read_values _ _ = Ok _ |- _ => apply read_values_Ok in H' as [? ?]
  | H' : read_nexts _ _ = Ok _ |- _ => apply read_nexts_Ok in H' as [? ?]
  | H' : new _ _ = Ok _ |- _ => apply new_Ok in H' as [? ?]
  | H' : write _ _ _ = Ok _ |- _ => apply write_Ok in H'
  | H' : empty_node _ = Ok _ |- _ => apply empty_node_Ok in H' as [? ?]
  | H' : ret _ _ = Ok _ |- _ => apply ret_Ok in H' as [? ?]
  end.

Ltac len_tac :=
  repeat first [rewrite st_length_insert | rewrite length_app]; simpl; lia.

Ltac keeps_tac :=
  repeat first
    [ apply keeps_refl
    | eapply keeps_trans; [|apply keeps_write; len_tac]
    | eapply keeps_trans; [|apply keeps_new; len_tac] ].

(** [set] writes to the objects that it has allocated, and to no other. *)
Lemma f_keeps fuel : ∀ hash key (value : V) isNew stage current (s s' : store) r,
  f fuel hash key value isNew stage current s = Ok (r, s') → extends s s'.
Proof.
  induction fuel as [|fuel IH]; intros hash key value isNew stage current s s' r H; [done|].
  cbn [f] in H.
  apply bind_Ok in H as ([[[mask keys] values] nexts] & s1 & [-> Hcur]%read_node_Ok & H).
  apply bind_Ok in H as (cur & s1 & [-> ->]%new_Ok & H).
  cut (keeps (length s) s s'); [intros [? ?]; by split|].
  destruct (checkBit mask (getNthPrefix hash stage)).
  - apply bind_Ok in H as (ks & s1 & [-> Hks]%read_keys_Ok & H).
    destruct (bool_decide _).
    + minv H. subst. keeps_tac.
    + apply bind_Ok in H as (ns & s1 & [-> Hns]%read_nexts_Ok & H).
      destruct (nexts_index ns _) as [l| |] eqn:Hidx; [| |done].
      * apply bind_Ok in H as (nx & s2 & [-> ->]%new_Ok & H).
        apply bind_Ok in H as ([] & s2 & ->%write_Ok & H).
        apply bind_Ok in H as (child & s2 & [-> ->]%ret_Ok & H).
        apply bind_Ok in H as ([child' isNew'] & s3 & Hf%IH & H).
        apply bind_Ok in H as (ns' & s4 & [-> Hns']%read_nexts_Ok & H).
        apply bind_Ok in H as ([] & s4 & ->%write_Ok & H).
        apply ret_Ok in H as [-> ->].
        eapply keeps_trans; [|apply keeps_write; len_tac].
        eapply keeps_trans; [|apply keeps_extends; [|exact Hf]].
        { keeps_tac. }
        len_tac.
      * apply bind_Ok in H as (nx & s2 & [-> ->]%new_Ok & H).
        apply bind_Ok in H as ([] & s2 & ->%write_Ok & H).
        apply bind_Ok in H as (child & s2 & Hchild & H).
        apply bind_Ok in Hchild as (e & s3 & [-> ->]%empty_node_Ok & Hchild).
        apply bind_Ok in Hchild as (ns1 & s3 & [-> Hns1]%read_nexts_Ok & Hchild).
        apply bind_Ok in Hchild as ([] & s3 & ->%write_Ok & Hchild).
        apply ret_Ok in Hchild as [-> ->].
        apply bind_Ok in H as ([child' isNew'] & s3 & Hf%IH & H).
        apply bind_Ok in H as (ns' & s4 & [-> Hns']%read_nexts_Ok & H).
        apply bind_Ok in H as ([] & s4 & ->%write_Ok & H).
        apply ret_Ok in H as [-> ->].
        eapply keeps_trans; [|apply keeps_write; len_tac].
        eapply keeps_trans; [|apply keeps_extends; [|exact Hf]].
        { eapply keeps_trans;
            [|apply keeps_write; len_tac].
          eapply keeps_trans; [|apply keeps_extends; [|apply extends_app]].
          - keeps_tac.
          - len_tac. }
        len_tac.
  - minv H. subst. keeps_tac.
Qed.

Lemma HAMT_new_Ok (s s' : store) h :
  HAMT_new s = Ok (h, s') →
  h = {| root := (length s + 3)%nat; _size := 0 |}
  ∧ s' = s ++ [CKeys []; CValues []; CNexts [];
               CNode 0 (length s) (length s + 1)%nat (length s + 2)%nat].
Proof.
  unfold HAMT_new. intros (e & s1 & [-> ->]%empty_node_Ok & [-> ->]%ret_Ok)%bind_Ok. done.
Qed.

Lemma set_Ok fuel (h : hamt) key (value : V) (s s' : store) h' :
  set fuel h key value s = Ok (h', s') →
  ∃ s0 r isNew,
    HAMT_new s = Ok ({| root := (length s + 3)%nat; _size := 0 |}, s0)
    ∧ f fuel (hashString key) key value true 0 (root h) s0 = Ok ((r, isNew), s')
    ∧ h' = {| root := r; _size := if isNew then 1 + _size h else _size h |}.
Proof.
  unfold set. intros (h0 & s0 & Hnew & H)%bind_Ok.
  apply bind_Ok in H as ([r isNew] & s1 & Hf & [-> ->]%ret_Ok).
  pose proof Hnew as [-> _]%HAMT_new_Ok. exists s0, r, isNew. done.
Qed.

(** [set] leaves every object that existed before the call as it was. *)
Lemma set_keeps fuel (h : hamt) key (value : V) (s s' : store) h' :
  set fuel h key value s = Ok (h', s') → extends s s'.
Proof.
  intros (s0 & r & isNew & [_ ->]%HAMT_new_Ok & Hf%f_keeps & _)%set_Ok.
  eapply extends_trans; [apply extends_app|done].
Qed.

Lemma get_loop_store fuel : ∀ hash key stage current (s s1 : store) (r : option V),
  get_loop fuel hash key stage current s = Ok (r, s1) → s1 = s.
Proof.
  induction fuel as [|fuel IH]; intros hash key stage current s s1 r H.
  - destruct current; simpl in H; [done|by apply ret_Ok in H as [_ ->]|done].
  - destruct current as [cur| |]; cbn [get_loop] in H;
      [|by apply ret_Ok in H as [_ ->]|done].
    apply bind_Ok in H as ([[[mask keys] values] nexts] & s2 & [-> Hcur]%read_node_Ok & H).
    destruct (checkBit _ _); [|by apply ret_Ok in H as [_ ->]].
    apply bind_Ok in H as (ks & s2 & [-> Hks]%read_keys_Ok & H).
    destruct (bool_decide _).
    + apply bind_Ok in H as (vs & s2 & [-> Hvs]%read_values_Ok & H).
      by apply ret_Ok in H as [_ ->].
    + apply bind_Ok in H as (ns & s2 & [-> Hns]%read_nexts_Ok & H). by eapply IH.
Qed.

(** A lookup that returns in [s] returns the same in a store that keeps the
    cells of [s]. *)
Lemma get_loop_extends fuel : ∀ hash key stage current (s s' : store) (r : option V),
  extends s s' →
  get_loop fuel hash key stage current s = Ok (r, s) →
  get_loop fuel hash key stage current s' = Ok (r, s').
Proof.
  induction fuel as [|fuel IH]; intros hash key stage current s s' r Hext H.
  - destruct current; simpl in *; [done|by apply ret_Ok in H as [-> _]|done].
  - destruct current as [cur| |]; cbn [get_loop] in *;
      [|by apply ret_Ok in H as [-> _]|done].
    apply bind_Ok in H as ([[[mask keys] values] nexts] & s2 & [-> Hcur]%read_node_Ok & H).
    simpl in Hcur. unfold bind at 1.
    rewrite (read_node_run cur s' mask keys values nexts) by (by eapply extends_lookup).
    destruct (checkBit _ _); [|by apply ret_Ok in H as [-> _]].
    apply bind_Ok in H as (ks & s2 & [-> Hks]%read_keys_Ok & H).
    unfold bind at 1. rewrite (read_keys_run keys s' ks) by (by eapply extends_lookup).
    destruct (bool_decide _).
    + apply bind_Ok in H as (vs & s2 & [-> Hvs]%read_values_Ok & H).
      unfold bind at 1. rewrite (read_values_run values s' vs) by (by eapply extends_lookup).
      by apply ret_Ok in H as [-> _].
    + apply bind_Ok in H as (ns & s2 & [-> Hns]%read_nexts_Ok & H).
      unfold bind at 1. rewrite (read_nexts_run nexts s' ns) by (by eapply extends_lookup).
      by eapply IH.
Qed.

End Run.
End HAMTStore.

(** * The layout of the nodes of the HAMT *)
Module HAMTClaims.
Import HAMT HAMTBits HAMTStore.
Open Scope hamt_scope.

(** ** Running [set] on a store and the objects allocated since *)

Section Forward.
Context {V : Type}.
Abbreviation store := (HAMT.store V).
Abbreviation cell := (HAMT.cell V).

Lemma lookup_old (s e : store) l c : s !! l = Some c → (s ++ e) !! l = Some c.
Proof. intros H. rewrite lookup_app_l; [done|]. by eapply lookup_lt_Some. Qed.

Lemma lookup_ext (s e : store) j : (s ++ e) !! (length s + j)%nat = e !! j.
Proof. rewrite lookup_app_r by lia. f_equal. lia. Qed.

Lemma lookup_ext0 (s e : store) : (s ++ e) !! length s = e !! 0%nat.
Proof. rewrite <- (lookup_ext s e 0). f_equal. lia. Qed.

Lemma new_ext (s e : store) c :
  new c (s ++ e) = Ok ((length s + length e)%nat, s ++ (e ++ [c])).
Proof. unfold new, alloc. by rewrite length_app, app_assoc. Qed.

Lemma write_ext (s e : store) j c :
  write (length s + j)%nat c (s ++ e) = Ok (tt, s ++ <[j := c]> e).
Proof.
  unfold write. do 2 f_equal.
  change (<[(length s + j)%nat := c]> (s ++ e) = s ++ <[j := c]> e).
  by rewrite insert_app_r.
Qed.

Lemma checkBit_0 b : checkBit 0 b = false.
Proof.
  unfold checkBit, JS.and, JS.shr. rewrite (HAMTBits.to_int32_small 0) by lia.
  rewrite Z.shiftr_0_l. by rewrite (HAMTBits.to_int32_small 0) by lia.
Qed.

Lemma childIndex_0 b : childIndex 0 b = 0.
Proof.
  unfold childIndex. case_decide; [done|]. unfold JS.ushr, JS.to_uint32.
  rewrite Z.mod_0_l by lia. by rewrite Z.shiftr_0_l.
Qed.

Lemma new_run (s : store) c : new c s = Ok ((length s + 0)%nat, s ++ [c]).
Proof. unfold new, alloc. by rewrite Nat.add_0_r. Qed.

Lemma nexts_index_Null (ns : list (option loc)) i :
  nexts_index ns i = Null → 0 ≤ i ∧ (Z.to_nat i < length ns)%nat ∧ ns !! Z.to_nat i = Some None.
Proof.
  unfold nexts_index, JS.index. case_decide; [|done].
  destruct (ns !! Z.to_nat i) as [[?|]|] eqn:E; try done.
  intros _. split_and!; [done| |done]. by eapply lookup_lt_Some.
Qed.

Ltac frun :=
  unfold bind at 1;
  first
    [ rewrite new_ext; cbn [length app Nat.add]
    | rewrite write_ext; cbn [insert list_insert]
    | erewrite read_node_run by (first [by apply lookup_old | by rewrite lookup_ext]); cbv beta iota
    | erewrite read_keys_run by (first [by apply lookup_old | by rewrite lookup_ext])
    | erewrite read_values_run by (first [by apply lookup_old | by rewrite lookup_ext])
    | erewrite read_nexts_run by (first [by apply lookup_old | by rewrite lookup_ext]) ].

(** [set] on an empty node stores the key in the slot of its stage. *)
Lemma f_empty fuel (s : store) cur kl vl nl hash key (value : V) isNew stage :
  s !! cur = Some (CNode 0 kl vl nl) →
  s !! kl = Some (CKeys []) → s !! vl = Some (CValues []) → s !! nl = Some (CNexts []) →
  f (S fuel) hash key value isNew stage cur s
  = Ok ((length s, isNew),
        s ++ [CNode (setBit 0 (getNthPrefix hash stage))
                    (length s + 1)%nat (length s + 2)%nat (length s + 3)%nat;
              CKeys [key]; CValues [Some value]; CNexts [None]]).
Proof.
  intros Hcur Hks Hvs Hns. cbn [f]. cbv zeta.
  unfold bind at 1. rewrite (read_node_run cur s 0 kl vl nl Hcur). cbv beta iota.
  unfold bind at 1. rewrite new_run.
  rewrite checkBit_0, childIndex_0.
  frun. frun. frun. frun. frun. frun. frun. frun. frun. frun.
  unfold ret. by rewrite Nat.add_0_r.
Qed.

(** When [set] meets a slot that holds another key and no child, it puts an
    empty node there and descends into it with the key that is being set:
    the child that results holds that key alone, in the slot of its next
    stage. *)
Lemma f_new_child fuel (s : store) cur mask kl vl nl ks ns key (value : V) isNew stage :
  s !! cur = Some (CNode mask kl vl nl) →
  s !! kl = Some (CKeys ks) →
  s !! nl = Some (CNexts ns) →
  checkBit mask (getNthPrefix (hashString key) stage) = true →
  JS.index ks (childIndex mask (getNthPrefix (hashString key) stage)) ≠ Some key →
  nexts_index ns (childIndex mask (getNthPrefix (hashString key) stage)) = Null →
  f (S (S fuel)) (hashString key) key value isNew stage cur s
  = Ok ((length s, isNew),
        s ++ [CNode mask kl vl (length s + 1)%nat;
              CNexts (<[Z.to_nat (childIndex mask (getNthPrefix (hashString key) stage))
                        := Some (length s + 6)%nat]> ns);
              CKeys []; CValues []; CNexts [];
              CNode 0 (length s + 2)%nat (length s + 3)%nat (length s + 4)%nat;
              CNode (setBit 0 (getNthPrefix (hashString key) (stage + 1)))
                    (length s + 7)%nat (length s + 8)%nat (length s + 9)%nat;
              CKeys [key]; CValues [Some value]; CNexts [None]]).
Proof.
  intros Hcur Hks Hns Hbit Hkey Hnull.
  set (hash := hashString key) in *. set (b := getNthPrefix hash stage) in *.
  apply nexts_index_Null in Hnull as Hidx. destruct Hidx as (Hidx0 & Hidx1 & Hidx2).
  remember (S fuel) as fuel1 eqn:Hfuel1.
  cbn [f]. cbv zeta. fold b.
  unfold bind at 1. rewrite (read_node_run cur s mask kl vl nl Hcur). cbv beta iota.
  unfold bind at 1. rewrite new_run.
  rewrite Hbit.
  frun. rewrite bool_decide_eq_false_2 by done.
  frun. rewrite Hnull.
  frun. frun.
  unfold bind at 1. unfold bind at 1. unfold empty_node.
  frun. frun. frun. frun. frun. frun.
  unfold ret at 1.
  subst fuel1.
  rewrite (f_empty fuel _ _ (length s + 2)%nat (length s + 3)%nat (length s + 4)%nat)
    by (rewrite (lookup_ext s _ 5) || rewrite (lookup_ext s _ 2)
        || rewrite (lookup_ext s _ 3) || rewrite (lookup_ext s _ 4); done).
  rewrite length_app. cbn [length]. rewrite <- app_assoc. cbn [app].
  replace (length s + 6 + 1)%nat with (length s + 7)%nat by lia.
  replace (length s + 6 + 2)%nat with (length s + 8)%nat by lia.
  replace (length s + 6 + 3)%nat with (length s + 9)%nat by lia.
  cbv beta iota.
  frun. frun. unfold ret. rewrite Nat.add_0_r. do 4 f_equal.
  assert (Ha : ∀ x (l : list (option loc)), length l = length ns →
            JS.array_set None (childIndex mask b) x l = <[Z.to_nat (childIndex mask b) := x]> l).
  { intros x l Hl. unfold JS.array_set. rewrite decide_True by done.
    by rewrite decide_True by lia. }
  rewrite (Ha _ ns) by done. rewrite Ha by (by rewrite length_insert).
  by rewrite list_insert_insert_eq.
Qed.


End Forward.

(** ** The claims on the layout of the nodes *)

(** The store and the map after [set("a", 1)] on a new map. *)
Definition store_a : HAMT.store Z :=
  [CKeys []; CValues []; CNexts []; CNode 0 0 1 2;
   CKeys []; CValues []; CNexts []; CNode 0 4 5 6;
   CNode 2 9 10 11; CKeys ["a"%string]; CValues [Some 1]; CNexts [None]].

Definition hamt_a : hamt := {| root := 8; _size := 1 |}.

Lemma store_a_built : HAMTFacts.set_all 1 [("a"%string, 1)] [] = Ok (hamt_a, store_a).
Proof. vm_compute. reflexivity. Qed.

(** C5, as stated, fails: after [set("a", 1)] and [set("b", 2)] the root has
    the mask [0b110]; the bit of ["a"] is bit 1, no set bit is below it, and
    ["a"] is at index 1 of [keys], which is also the index that [get] and
    [set] compute for bit 1. *)
Lemma slot_position_is_not_below_count :
  ∃ h s kl vl nl,
    HAMTFacts.set_all 1 [("a"%string, 1); ("b"%string, 2)] [] = Ok (h, s)
    ∧ s !! root h = Some (CNode 6 kl vl nl)
    ∧ s !! kl = Some (CKeys ["b"%string; "a"%string])
    ∧ getNthPrefix (hashString "a") 0 = Some 1
    ∧ Z.testbit 6 1 = true
    ∧ count_below 6 1 = 0
    ∧ childIndex 6 (Some 1) = 1.
Proof. eexists _, _, _, _, _. vm_compute. repeat split; reflexivity. Qed.

(** C7, as stated, fails: ["a"] and ["A"] share the slot 1 of the root.
    After [set("a", 1)] and [set("A", 2)] the child of that slot has the mask
    [0b100], the bit of the next stage of ["A"], the key that is set; the bit
    of the next stage of ["a"], the key that was stored, is bit 3. *)
Lemma child_mask_is_not_from_stored_key :
  ∃ h s,
    set 2 hamt_a "A" 2 store_a = Ok (h, s)
    ∧ s !! root h = Some (CNode 2 9 10 17)%nat
    ∧ s !! 9%nat = Some (CKeys ["a"%string])
    ∧ s !! 17%nat = Some (CNexts [Some 22%nat])
    ∧ s !! 22%nat = Some (CNode 4 23 24 25)%nat
    ∧ s !! 23%nat = Some (CKeys ["A"%string])
    ∧ getNthPrefix (hashString "A") 1 = Some 2
    ∧ getNthPrefix (hashString "a") 1 = Some 3
    ∧ setBit 0 (Some 3) = 8.
Proof. eexists _, _. vm_compute. repeat split; reflexivity. Qed.

(** C7, amended: when the descent of [set] at a stage from 0 to 4 reaches a
    slot whose mask bit is set, whose key is not the key that is set and whose
    child is [null], the slot gets a new child that holds the key that is
    set, alone: the mask of the child has one bit, the prefix [p] of the next
    stage of the hash of that key, not of the key that the slot holds, which
    stays in the parent. *)
Theorem new_child_holds_inserted_key {V : Type} fuel (s : HAMT.store V) cur mask kl vl nl ks ns
    key (value : V) isNew stage :
  0 ≤ stage ≤ 4 →
  s !! cur = Some (CNode mask kl vl nl) →
  s !! kl = Some (CKeys ks) →
  s !! nl = Some (CNexts ns) →
  checkBit mask (getNthPrefix (hashString key) stage) = true →
  JS.index ks (childIndex mask (getNthPrefix (hashString key) stage)) ≠ Some key →
  nexts_index ns (childIndex mask (getNthPrefix (hashString key) stage)) = Null →
  ∃ s' nl' ns' child kc vc nc p,
    f (S (S fuel)) (hashString key) key value isNew stage cur s = Ok ((length s, isNew), s')
    ∧ s' !! length s = Some (CNode mask kl vl nl')
    ∧ s' !! kl = Some (CKeys ks)
    ∧ s' !! nl' = Some (CNexts ns')
    ∧ JS.index ns' (childIndex mask (getNthPrefix (hashString key) stage)) = Some (Some child)
    ∧ getNthPrefix (hashString key) (stage + 1) = Some p
    ∧ 0 ≤ p ≤ 31
    ∧ s' !! child = Some (CNode (setBit 0 (Some p)) kc vc nc)
    ∧ (∀ j, 0 ≤ j ≤ 31 → checkBit (setBit 0 (Some p)) (Some j) = bool_decide (j = p))
    ∧ s' !! kc = Some (CKeys [key])
    ∧ s' !! vc = Some (CValues [Some value])
    ∧ s' !! nc = Some (CNexts [None]).
Proof.
  intros Hstage Hcur Hks Hns Hbit Hkey Hnull.
  pose proof (f_new_child fuel s cur mask kl vl nl ks ns key value isNew stage
                Hcur Hks Hns Hbit Hkey Hnull) as Hrun.
  apply nexts_index_Null in Hnull as (Hidx0 & Hidx1 & Hidx2).
  destruct (getNthPrefix_range (hashString key) (stage + 1)) as (p & Hp & Hpr); [lia|].
  rewrite Hp in Hrun.
  eexists _, (length s + 1)%nat, _, (length s + 6)%nat,
    (length s + 7)%nat, (length s + 8)%nat, (length s + 9)%nat, p.
  split; [exact Hrun|]. unfold HAMT.store.
  split_and!.
  - by rewrite lookup_ext0.
  - by apply lookup_old.
  - by rewrite lookup_ext.
  - unfold JS.index. rewrite decide_True by done. by apply list_lookup_insert_eq.
  - done.
  - lia.
  - lia.
  - by rewrite lookup_ext.
  - intros j Hj. rewrite checkBit_testbit, setBit_testbit by lia.
    by rewrite Z.bits_0, orb_false_r.
  - by rewrite lookup_ext.
  - by rewrite lookup_ext.
  - by rewrite lookup_ext.
Qed.

Lemma new_child_holds_inserted_key_witness :
  0 ≤ 0 ≤ 4
  ∧ store_a !! 8%nat = Some (CNode 2 9 10 11)%nat
  ∧ store_a !! 9%nat = Some (CKeys ["a"%string])
  ∧ store_a !! 11%nat = Some (CNexts [None])
  ∧ checkBit 2 (getNthPrefix (hashString "A") 0) = true
  ∧ JS.index ["a"%string] (childIndex 2 (getNthPrefix (hashString "A") 0)) ≠ Some "A"%string
  ∧ nexts_index [None] (childIndex 2 (getNthPrefix (hashString "A") 0)) = Null
  ∧ ∃ s' nl' ns' child kc vc nc p,
      f 2 (hashString "A") "A" 2 true 0 8%nat store_a = Ok ((length store_a, true), s')
      ∧ s' !! length store_a = Some (CNode 2 9%nat 10%nat nl')
      ∧ s' !! 9%nat = Some (CKeys ["a"%string])
      ∧ s' !! nl' = Some (CNexts ns')
      ∧ JS.index ns' (childIndex 2 (getNthPrefix (hashString "A") 0)) = Some (Some child)
      ∧ getNthPrefix (hashString "A") (0 + 1) = Some p
      ∧ 0 ≤ p ≤ 31
      ∧ s' !! child = Some (CNode (setBit 0 (Some p)) kc vc nc)
      ∧ (∀ j, 0 ≤ j ≤ 31 → checkBit (setBit 0 (Some p)) (Some j) = bool_decide (j = p))
      ∧ s' !! kc = Some (CKeys ["A"%string])
      ∧ s' !! vc = Some (CValues [Some 2])
      ∧ s' !! nc = Some (CNexts [None]).
Proof.
  split; [lia|].
  split; [reflexivity|]. split; [reflexivity|]. split; [reflexivity|].
  split; [vm_compute; reflexivity|]. split; [vm_compute; congruence|].
  split; [vm_compute; reflexivity|].
  apply (new_child_holds_inserted_key 0 store_a 8%nat 2 9%nat 10%nat 11%nat
           ["a"%string] [None] "A"%string 2 true 0);
    [lia|reflexivity|reflexivity|reflexivity|vm_compute; reflexivity|vm_compute; congruence
    |vm_compute; reflexivity].
Defined.

End HAMTClaims.

(** * The invariant of the nodes of the HAMT *)
Module HAMTInv.
Import HAMT HAMTBits HAMTStore HAMTClaims.
Open Scope hamt_scope.

(** ** Positions of the slots *)

(** The number of set bits of [mask] among the bits [a, a + len). *)
Definition cnt (mask : Z) (a len : nat) : nat := length (set_bits mask a len).

(** The number of set bits among the 32 bits, and above the bit [i]. *)
Definition count_all (mask : Z) : nat := cnt mask 0 32.
Definition pos (mask : Z) (i : nat) : nat := cnt mask (S i) (31 - i).

Lemma count_above_pos mask i : count_above mask i = Z.of_nat (pos mask (Z.to_nat i)).
Proof. done. Qed.

Lemma cnt_app mask a l1 l2 : cnt mask a (l1 + l2) = (cnt mask a l1 + cnt mask (a + l1) l2)%nat.
Proof. unfold cnt. by rewrite set_bits_app, length_app. Qed.

Lemma cnt_one mask a : cnt mask a 1 = if Z.testbit mask (Z.of_nat a) then 1%nat else 0%nat.
Proof.
  unfold cnt, set_bits. cbn [seq]. rewrite filter_cons, filter_nil.
  destruct (Z.testbit mask (Z.of_nat a)); by case_decide.
Qed.

Lemma cnt_ext m m' a len :
  (∀ j, (a ≤ j < a + len)%nat → Z.testbit m (Z.of_nat j) = Z.testbit m' (Z.of_nat j)) →
  cnt m a len = cnt m' a len.
Proof. intros H. unfold cnt. by rewrite (set_bits_ext m m'). Qed.

Lemma cnt_le mask a len : (cnt mask a len ≤ len)%nat.
Proof.
  unfold cnt, set_bits. etrans; [apply length_filter|]. by rewrite length_seq.
Qed.

Lemma count_all_split m i :
  (i < 32)%nat →
  count_all m = (cnt m 0 i + (if Z.testbit m (Z.of_nat i) then 1 else 0) + pos m i)%nat.
Proof.
  intros Hi. unfold count_all, pos.
  replace 32%nat with (i + (1 + (31 - i)))%nat at 1 by lia.
  rewrite !cnt_app, cnt_one. simpl. replace (i + 1)%nat with (S i) by lia. lia.
Qed.

Lemma pos_split m j i :
  (j < i < 32)%nat →
  pos m j = (cnt m (S j) (i - S j) + (if Z.testbit m (Z.of_nat i) then 1 else 0) + pos m i)%nat.
Proof.
  intros Hi. unfold pos.
  replace (31 - j)%nat with ((i - S j) + (1 + (31 - i)))%nat at 1 by lia.
  rewrite !cnt_app, cnt_one.
  replace (S j + (i - S j))%nat with i by lia. replace (i + 1)%nat with (S i) by lia. lia.
Qed.

Section SetBit.
Context (m : Z) (i : nat).
Context (Hi : (i < 32)%nat).
Context (Hunset : Z.testbit m (Z.of_nat i) = false).

Let m' := setBit m (Some (Z.of_nat i)).

Lemma setBit_other j : (j < 32)%nat → j ≠ i → Z.testbit m' (Z.of_nat j) = Z.testbit m (Z.of_nat j).
Proof using Hi.
  intros Hj Hne. unfold m'. rewrite setBit_testbit by lia.
  rewrite bool_decide_eq_false_2 by lia. done.
Qed.

Lemma setBit_same : Z.testbit m' (Z.of_nat i) = true.
Proof using Hi.
  unfold m'. rewrite setBit_testbit by lia. by rewrite bool_decide_eq_true_2.
Qed.

Lemma cnt_setBit a len :
  (a + len ≤ 32)%nat → (i < a ∨ a + len ≤ i)%nat → cnt m' a len = cnt m a len.
Proof using Hi. intros Hr Hout. apply cnt_ext. intros j Hj. apply setBit_other; lia. Qed.

Lemma count_all_setBit : count_all m' = S (count_all m).
Proof using Hi Hunset.
  rewrite (count_all_split m' i), (count_all_split m i) by done.
  rewrite setBit_same, Hunset. unfold pos. rewrite !cnt_setBit by lia. lia.
Qed.

Lemma pos_setBit_same : pos m' i = pos m i.
Proof using Hi. unfold pos. apply cnt_setBit; lia. Qed.

Lemma pos_setBit_above j : (i < j < 32)%nat → pos m' j = pos m j.
Proof using Hi. intros Hj. unfold pos. apply cnt_setBit; lia. Qed.

Lemma pos_setBit_below j : (j < i)%nat → pos m' j = S (pos m j).
Proof using Hi Hunset.
  intros Hj. rewrite (pos_split m' j i), (pos_split m j i) by lia.
  rewrite setBit_same, Hunset, pos_setBit_same. rewrite cnt_setBit by lia. lia.
Qed.

Lemma pos_below_ge j : (j < i)%nat → (pos m i ≤ pos m j)%nat.
Proof using Hi. intros Hj. rewrite (pos_split m j i) by lia. lia. Qed.

Lemma pos_above_lt j :
  (i < j < 32)%nat → Z.testbit m (Z.of_nat j) = true → (pos m j < pos m i)%nat.
Proof using Hi. intros Hj Hset. rewrite (pos_split m i j) by lia. rewrite Hset. lia. Qed.

End SetBit.

Lemma pos_le_count_all m i : (i < 32)%nat → (pos m i ≤ count_all m)%nat.
Proof. intros Hi. rewrite (count_all_split m i) by done. lia. Qed.

Lemma pos_lt_count_all m i :
  (i < 32)%nat → Z.testbit m (Z.of_nat i) = true → (pos m i < count_all m)%nat.
Proof. intros Hi Hset. rewrite (count_all_split m i) by done. rewrite Hset. lia. Qed.

(** Two set bits have different positions. *)
Lemma pos_inj m i j :
  (i < 32)%nat → (j < 32)%nat →
  Z.testbit m (Z.of_nat i) = true → Z.testbit m (Z.of_nat j) = true →
  pos m i = pos m j → i = j.
Proof.
  intros Hi Hj Hseti Hsetj Hp.
  destruct (decide (i = j)) as [|Hne]; [done|].
  destruct (decide (i < j)%nat).
  - rewrite (pos_split m i j) in Hp by lia. rewrite Hsetj in Hp. lia.
  - rewrite (pos_split m j i) in Hp by lia. rewrite Hseti in Hp. lia.
Qed.

Lemma count_all_0 : count_all 0 = 0%nat.
Proof. done. Qed.

(** *** Insertion into the arrays *)

Lemma lookup_insert_at {A} (l : list A) (x : A) p q :
  (p ≤ length l)%nat →
  (take p l ++ x :: drop p l) !! (if decide (p ≤ q)%nat then S q else q) = l !! q.
Proof.
  intros Hp. case_decide.
  - rewrite lookup_app_r by (rewrite length_take; lia).
    rewrite length_take, Nat.min_l by lia.
    replace (S q - p)%nat with (S (q - p)) by lia. simpl.
    rewrite lookup_drop. f_equal. lia.
  - rewrite lookup_app_l by (rewrite length_take; lia). apply lookup_take_lt. lia.
Qed.

Lemma lookup_insert_here {A} (l : list A) (x : A) p :
  (p ≤ length l)%nat → (take p l ++ x :: drop p l) !! p = Some x.
Proof.
  intros Hp. rewrite lookup_app_r by (rewrite length_take; lia).
  rewrite length_take, Nat.min_l by lia. by rewrite Nat.sub_diag.
Qed.

Lemma length_insert_at {A} (l : list A) (x : A) p :
  length (take p l ++ x :: drop p l) = S (length l).
Proof. rewrite length_app. simpl. rewrite length_take, length_drop. lia. Qed.

(** ** One call of the closure of [set], one iteration of [get] *)

Lemma lookup_ext_Some {V} (s e : HAMT.store V) j c :
  e !! j = Some c → (s ++ e) !! (length s + j)%nat = Some c.
Proof. intros H. by rewrite lookup_ext. Qed.

Lemma lookup_ext0_Some {V} (s e : HAMT.store V) c :
  e !! 0%nat = Some c → (s ++ e) !! length s = Some c.
Proof. intros H. by rewrite lookup_ext0. Qed.

Ltac wf_split := split; [|split; [|split; [|split; [|split]]]].

Ltac frun_side := first [by apply lookup_old | by apply lookup_ext_Some].

Ltac frun :=
  unfold bind at 1;
  first
    [ rewrite new_ext; cbn [length app Nat.add]
    | rewrite write_ext; cbn [insert list_insert]
    | erewrite read_node_run by frun_side; cbv beta iota
    | erewrite read_keys_run by frun_side
    | erewrite read_values_run by frun_side
    | erewrite read_nexts_run by frun_side ].

Section Steps.
Context {V : Type}.
Abbreviation store := (HAMT.store V).

(** The node at [l] and its three arrays. *)
Definition node (s : store) (l : loc) (mask : Z) (kl vl nl : loc)
    (ks : list string) (vs : list (option V)) (ns : list (option loc)) : Prop :=
  s !! l = Some (CNode mask kl vl nl) ∧ s !! kl = Some (CKeys ks)
  ∧ s !! vl = Some (CValues vs) ∧ s !! nl = Some (CNexts ns).

Lemma node_extends s s' l mask kl vl nl ks vs ns :
  extends s s' → node s l mask kl vl nl ks vs ns → node s' l mask kl vl nl ks vs ns.
Proof. intros He (H1 & H2 & H3 & H4). split_and!; by eapply extends_lookup. Qed.

Lemma get_step fu hash key stage (s : store) l mask kl vl nl ks vs ns :
  node s l mask kl vl nl ks vs ns →
  get_loop (S fu) hash key stage (Ref l) s
  = if checkBit mask (getNthPrefix hash stage) then
      if bool_decide (JS.index ks (childIndex mask (getNthPrefix hash stage)) = Some key)
      then Ok (mjoin (JS.index vs (childIndex mask (getNthPrefix hash stage))), s)
      else get_loop fu hash key (stage + 1)
             (nexts_index ns (childIndex mask (getNthPrefix hash stage))) s
    else Ok (None, s).
Proof.
  intros (H1 & H2 & H3 & H4). cbn [get_loop]. cbv zeta.
  unfold bind at 1. rewrite (read_node_run l s mask kl vl nl H1). cbv beta iota.
  destruct (checkBit _ _); [|done].
  unfold bind at 1. rewrite (read_keys_run kl s ks H2).
  destruct (bool_decide _).
  - unfold bind at 1. by rewrite (read_values_run vl s vs H3).
  - unfold bind at 1. by rewrite (read_nexts_run nl s ns H4).
Qed.

Lemma f_replace_run fuel hash key (value : V) isNew stage (s : store) l mask kl vl nl ks vs ns :
  node s l mask kl vl nl ks vs ns →
  checkBit mask (getNthPrefix hash stage) = true →
  JS.index ks (childIndex mask (getNthPrefix hash stage)) = Some key →
  f (S fuel) hash key value isNew stage l s
  = Ok ((length s, false),
        s ++ [CNode mask kl (length s + 1)%nat nl;
              CValues (JS.array_set None (childIndex mask (getNthPrefix hash stage))
                         (Some value) vs)]).
Proof.
  intros (H1 & H2 & H3 & H4) Hbit Hkey. cbn [f]. cbv zeta.
  unfold bind at 1. rewrite (read_node_run l s mask kl vl nl H1). cbv beta iota.
  unfold bind at 1. rewrite new_run. rewrite Hbit.
  frun. rewrite bool_decide_eq_true_2 by done.
  frun. frun. frun. 
  frun. frun.
  unfold ret. by rewrite Nat.add_0_r.
Qed.

Lemma f_descend_run fuel hash key (value : V) isNew stage (s : store) l mask kl vl nl ks vs ns c :
  node s l mask kl vl nl ks vs ns →
  checkBit mask (getNthPrefix hash stage) = true →
  JS.index ks (childIndex mask (getNthPrefix hash stage)) ≠ Some key →
  nexts_index ns (childIndex mask (getNthPrefix hash stage)) = Ref c →
  f (S fuel) hash key value isNew stage l s
  = bind (f fuel hash key value isNew (stage + 1) c)
      (λ '(child, isNewKey),
         bind (read_nexts (length s + 1)%nat)
           (λ ns', bind (write (length s + 1)%nat
                           (CNexts (JS.array_set None (childIndex mask (getNthPrefix hash stage))
                                      (Some child) ns')))
                     (λ _, ret (length s, isNewKey))))
      (s ++ [CNode mask kl vl (length s + 1)%nat; CNexts ns]).
Proof.
  intros (H1 & H2 & H3 & H4) Hbit Hkey Href. cbn [f]. cbv zeta.
  unfold bind at 1. rewrite (read_node_run l s mask kl vl nl H1). cbv beta iota.
  unfold bind at 1. rewrite new_run. rewrite Hbit.
  frun. rewrite bool_decide_eq_false_2 by done.
  frun. rewrite Href.
  frun. frun. unfold bind at 1. unfold ret at 1.
  by rewrite Nat.add_0_r.
Qed.

Lemma f_null_run fuel hash key (value : V) isNew stage (s : store) l mask kl vl nl ks vs ns :
  node s l mask kl vl nl ks vs ns →
  checkBit mask (getNthPrefix hash stage) = true →
  JS.index ks (childIndex mask (getNthPrefix hash stage)) ≠ Some key →
  nexts_index ns (childIndex mask (getNthPrefix hash stage)) = Null →
  f (S fuel) hash key value isNew stage l s
  = bind (f fuel hash key value isNew (stage + 1) (length s + 5)%nat)
      (λ '(child, isNewKey),
         bind (read_nexts (length s + 1)%nat)
           (λ ns', bind (write (length s + 1)%nat
                           (CNexts (JS.array_set None (childIndex mask (getNthPrefix hash stage))
                                      (Some child) ns')))
                     (λ _, ret (length s, isNewKey))))
      (s ++ [CNode mask kl vl (length s + 1)%nat;
             CNexts (JS.array_set None (childIndex mask (getNthPrefix hash stage))
                       (Some (length s + 5)%nat) ns);
             CKeys []; CValues []; CNexts [];
             CNode 0 (length s + 2)%nat (length s + 3)%nat (length s + 4)%nat]).
Proof.
  intros (H1 & H2 & H3 & H4) Hbit Hkey Href. cbn [f]. cbv zeta.
  unfold bind at 1. rewrite (read_node_run l s mask kl vl nl H1). cbv beta iota.
  unfold bind at 1. rewrite new_run. rewrite Hbit.
  frun. rewrite bool_decide_eq_false_2 by done.
  frun. rewrite Href.
  frun. frun.
  unfold bind at 1. unfold bind at 1. unfold empty_node.
  frun. frun. frun. frun. frun. frun.
  unfold ret at 1. by rewrite Nat.add_0_r.
Qed.

Lemma f_insert_run fuel hash key (value : V) isNew stage (s : store) l mask kl vl nl ks vs ns :
  node s l mask kl vl nl ks vs ns →
  checkBit mask (getNthPrefix hash stage) = false →
  f (S fuel) hash key value isNew stage l s
  = Ok ((length s, isNew),
        s ++ [CNode (setBit mask (getNthPrefix hash stage))
                    (length s + 1)%nat (length s + 2)%nat (length s + 3)%nat;
              CKeys (copyInsert key (childIndex mask (getNthPrefix hash stage)) ks);
              CValues (copyInsert (Some value) (childIndex mask (getNthPrefix hash stage)) vs);
              CNexts (copyInsert None (childIndex mask (getNthPrefix hash stage)) ns)]).
Proof.
  intros (H1 & H2 & H3 & H4) Hbit. cbn [f]. cbv zeta.
  unfold bind at 1. rewrite (read_node_run l s mask kl vl nl H1). cbv beta iota.
  unfold bind at 1. rewrite new_run. rewrite Hbit.
  frun. frun. frun. frun. frun. frun. frun. frun. frun. frun.
  unfold ret. by rewrite Nat.add_0_r.
Qed.

End Steps.

(** ** The invariant of the nodes *)

Section WF.
Context {V : Type}.
Abbreviation store := (HAMT.store V).

(** A node of a stage from 0 to 5: the arrays have one element for each set
    bit of the mask, and the slot of the set bit [i] is at the position
    [pos mask i], the number of set bits above [i]; its key has [i] as the
    five bits of its hash at the stage of the node. *)
Definition slots_ok (stage : Z) (mask : Z) (ks : list string) (vs : list (option V))
    (ns : list (option loc)) : Prop :=
  length ks = count_all mask ∧ length vs = length ks ∧ length ns = length ks
  ∧ Forall is_Some vs
  ∧ ∀ i, (i < 32)%nat → Z.testbit mask (Z.of_nat i) = true →
         ∃ key, ks !! pos mask i = Some key
                ∧ getNthPrefix (hashString key) stage = Some (Z.of_nat i).

(** A node of stage 6, where [getNthPrefix] is [undefined]: it is empty or
    holds one key under the bit 0. *)
Definition last_ok (mask : Z) (ks : list string) (vs : list (option V))
    (ns : list (option loc)) : Prop :=
  (mask = 0 ∧ ks = [] ∧ vs = [] ∧ ns = [])
  ∨ (mask = 1 ∧ ∃ k v, ks = [k] ∧ vs = [Some v] ∧ ns = [None]).

(** [wf P n s l]: [l] is the root of a trie of [n + 1] stages, the last of
    which is stage 6; its objects are at addresses in [P]. *)
Fixpoint wf (P : loc → Prop) (n : nat) (s : store) (l : loc) : Prop :=
  ∃ mask kl vl nl ks vs ns,
    node s l mask kl vl nl ks vs ns ∧ P l ∧ P kl ∧ P vl ∧ P nl
    ∧ match n with
      | O => last_ok mask ks vs ns
      | S n => slots_ok (5 - Z.of_nat n) mask ks vs ns
               ∧ ∀ j c, ns !! j = Some (Some c) → wf P n s c
      end.

Lemma wf_mono (P Q : loc → Prop) n (s : store) l :
  (∀ a, P a → Q a) → wf P n s l → wf Q n s l.
Proof.
  intros HPQ. revert l. induction n as [|n IH]; intros l;
    intros (mask & kl & vl & nl & ks & vs & ns & Hnode & Pl & Pk & Pv & Pn & H);
    exists mask, kl, vl, nl, ks, vs, ns; (wf_split; [done|by apply HPQ..|]); [done|].
  destruct H as [Hs Hc]. split; [done|]. intros j c Hj. by apply IH, (Hc j).
Qed.

Lemma wf_agree (P : loc → Prop) n (s s' : store) l :
  (∀ a, P a → s' !! a = s !! a) → wf P n s l → wf P n s' l.
Proof.
  intros Hag. revert l. induction n as [|n IH]; intros l;
    intros (mask & kl & vl & nl & ks & vs & ns & (H1 & H2 & H3 & H4) & Pl & Pk & Pv & Pn & H);
    exists mask, kl, vl, nl, ks, vs, ns;
    (wf_split; [by split_and!; rewrite Hag|done..|]); [done|].
  destruct H as [Hs Hc]. split; [done|]. intros j c Hj. by apply IH, (Hc j).
Qed.

Lemma wf_bound (P : loc → Prop) n (s : store) l :
  wf P n s l → wf (λ a, P a ∧ (a < length s)%nat) n s l.
Proof.
  revert l. induction n as [|n IH]; intros l;
    intros (mask & kl & vl & nl & ks & vs & ns & (H1 & H2 & H3 & H4) & Pl & Pk & Pv & Pn & H);
    exists mask, kl, vl, nl, ks, vs, ns;
    (wf_split; [done|split; [done|by eapply lookup_lt_Some]..|]); [done|].
  destruct H as [Hs Hc]. split; [done|]. intros j c Hj. by apply IH, (Hc j).
Qed.

Lemma wf_extends (P : loc → Prop) n (s s' : store) l :
  extends s s' → wf P n s l → wf P n s' l.
Proof.
  intros [_ He] H. apply wf_bound in H.
  eapply wf_mono; [|eapply wf_agree; [|exact H]].
  - by intros a [? _].
  - intros a [_ Ha]. by apply He.
Qed.

Lemma wf_write (P : loc → Prop) n (s : store) l a0 x :
  ¬ P a0 → wf P n s l → wf P n (<[a0 := x]> s) l.
Proof.
  intros Hn. apply wf_agree. intros a Ha. apply st_lookup_insert_ne. by intros ->.
Qed.

Lemma wf_empty (P : loc → Prop) n (s : store) l kl vl nl :
  node s l 0 kl vl nl [] [] [] → P l → P kl → P vl → P nl → wf P n s l.
Proof.
  intros Hnode Pl Pk Pv Pn. destruct n as [|n]; exists 0, kl, vl, nl, [], [], [];
    (wf_split; [done..|]).
  - by left.
  - split; [|by intros j c ?]. split_and!; [done|done|done|by constructor|].
    intros i Hi Hbit. by rewrite Z.bits_0 in Hbit.
Qed.

(** *** Lookups *)

(** The result of [get] without the store. *)
Definition get_val (fu : nat) (hash : Z) (key : string) (stage : Z) (cur : ref) (s : store)
    : result (option V) :=
  match get_loop fu hash key stage cur s with
  | Ok (r, _) => Ok r
  | Throw => Throw
  | OutOfFuel => OutOfFuel
  end.

Lemma get_val_Ok fu hash key stage cur (s : store) r :
  get_val fu hash key stage cur s = Ok r ↔ get_loop fu hash key stage cur s = Ok (r, s).
Proof.
  unfold get_val. destruct (get_loop fu hash key stage cur s) as [[r' s']| |] eqn:E.
  - apply get_loop_store in E as Hs. subst s'. split; congruence.
  - split; congruence.
  - split; congruence.
Qed.

Lemma get_val_step fu hash key stage (s : store) l mask kl vl nl ks vs ns :
  node s l mask kl vl nl ks vs ns →
  get_val (S fu) hash key stage (Ref l) s
  = if checkBit mask (getNthPrefix hash stage) then
      if bool_decide (JS.index ks (childIndex mask (getNthPrefix hash stage)) = Some key)
      then Ok (mjoin (JS.index vs (childIndex mask (getNthPrefix hash stage))))
      else get_val fu hash key (stage + 1)
             (nexts_index ns (childIndex mask (getNthPrefix hash stage))) s
    else Ok None.
Proof.
  intros Hnode. unfold get_val at 1. rewrite (get_step _ _ _ _ _ _ _ _ _ _ _ _ _ Hnode).
  destruct (checkBit _ _); [|done]. by destruct (bool_decide _).
Qed.

Lemma get_val_Null fu hash key stage (s : store) : get_val fu hash key stage Null s = Ok None.
Proof. by destruct fu. Qed.

Lemma get_val_Undefined fu hash key stage (s : store) r :
  get_val fu hash key stage Undefined s ≠ Ok r.
Proof. by destruct fu. Qed.

Lemma get_val_0 hash key stage l (s : store) r : get_val 0 hash key stage (Ref l) s ≠ Ok r.
Proof. done. Qed.

Lemma nexts_index_Ref (ns : list (option loc)) i c :
  nexts_index ns i = Ref c → 0 ≤ i ∧ ns !! Z.to_nat i = Some (Some c).
Proof.
  unfold nexts_index, JS.index. case_decide; [|done].
  destruct (ns !! Z.to_nat i) as [[?|]|] eqn:E; try done. by intros [= ->].
Qed.

Lemma checkBit_1_None : checkBit 1 None = true.
Proof. done. Qed.

Lemma childIndex_1_None : childIndex 1 None = 1.
Proof. vm_compute. reflexivity. Qed.

Lemma getNthPrefix_6 hash : getNthPrefix hash 6 = None.
Proof. done. Qed.

(** A lookup in a node of stage 6 that holds a key never returns. *)
Lemma get_val_last fu hash key (s : store) l kl vl nl k0 v0 r :
  node s l 1 kl vl nl [k0] [Some v0] [None] →
  get_val fu hash key 6 (Ref l) s ≠ Ok r.
Proof.
  intros Hnode. destruct fu as [|fu]; [done|].
  rewrite (get_val_step _ _ _ _ _ _ _ _ _ _ _ _ _ Hnode).
  rewrite getNthPrefix_6, checkBit_1_None, childIndex_1_None.
  rewrite bool_decide_eq_false_2 by done.
  apply get_val_Undefined.
Qed.

(** A lookup reads the objects of the trie and no other. *)
Lemma get_agree (P : loc → Prop) n : ∀ fu hash key (s s' : store) l,
  (∀ a, P a → s' !! a = s !! a) → wf P n s l →
  get_val fu hash key (6 - Z.of_nat n) (Ref l) s' = get_val fu hash key (6 - Z.of_nat n) (Ref l) s.
Proof.
  induction n as [|n IH]; intros fu hash key s s' l Hag Hwf.
  - destruct Hwf as (mask & kl & vl & nl & ks & vs & ns & Hnode & Pl & Pk & Pv & Pn & H).
    assert (Hnode' : node s' l mask kl vl nl ks vs ns).
    { destruct Hnode as (H1 & H2 & H3 & H4). by split_and!; rewrite Hag. }
    destruct fu as [|fu]; [done|].
    rewrite (get_val_step _ _ _ _ _ _ _ _ _ _ _ _ _ Hnode).
    rewrite (get_val_step _ _ _ _ _ _ _ _ _ _ _ _ _ Hnode').
    destruct (checkBit _ _); [|done]. destruct (bool_decide _); [done|].
    destruct H as [(-> & -> & -> & ->)|(-> & k0 & v0 & -> & -> & ->)].
    + unfold nexts_index, JS.index. case_decide; [|by destruct fu]. by destruct fu.
    + change (6 - Z.of_nat 0) with 6. rewrite getNthPrefix_6, childIndex_1_None.
      by destruct fu.
  - destruct Hwf as (mask & kl & vl & nl & ks & vs & ns & Hnode & Pl & Pk & Pv & Pn & Hs & Hc).
    assert (Hnode' : node s' l mask kl vl nl ks vs ns).
    { destruct Hnode as (H1 & H2 & H3 & H4). by split_and!; rewrite Hag. }
    destruct fu as [|fu]; [done|].
    rewrite (get_val_step _ _ _ _ _ _ _ _ _ _ _ _ _ Hnode).
    rewrite (get_val_step _ _ _ _ _ _ _ _ _ _ _ _ _ Hnode').
    destruct (checkBit _ _); [|done]. destruct (bool_decide _); [done|].
    destruct (nexts_index ns _) as [c| |] eqn:E.
    + apply nexts_index_Ref in E as [_ E].
      replace (6 - Z.of_nat (S n) + 1) with (6 - Z.of_nat n) by lia.
      apply IH; [done|]. by apply (Hc _ _ E).
    + by rewrite !get_val_Null.
    + by destruct fu.
Qed.

End WF.
End HAMTInv.

(** * [set] on a well-formed node *)
Module HAMTSet.
Import HAMT HAMTBits HAMTStore HAMTClaims HAMTInv.
Open Scope hamt_scope.

Section SetSpec.
Context {V : Type}.
Abbreviation store := (HAMT.store V).

Lemma index_nat {A} (l : list A) (p : nat) : JS.index l (Z.of_nat p) = l !! p.
Proof. unfold JS.index. rewrite decide_True by lia. by rewrite Nat2Z.id. Qed.

Lemma nexts_index_nat (ns : list (option loc)) (p : nat) :
  nexts_index ns (Z.of_nat p)
  = match ns !! p with Some (Some l) => Ref l | Some None => Null | None => Undefined end.
Proof. unfold nexts_index. by rewrite index_nat. Qed.

Lemma array_set_nat {A} (hole x : A) (l : list A) (p : nat) :
  (p < length l)%nat → JS.array_set hole (Z.of_nat p) x l = <[p := x]> l.
Proof.
  intros Hp. unfold JS.array_set. rewrite decide_True by lia.
  rewrite Nat2Z.id. by rewrite decide_True by lia.
Qed.

Lemma copyInsert_nat {A} (x : A) (l : list A) (p : nat) :
  (p ≤ length l)%nat → copyInsert x (Z.of_nat p) l = take p l ++ x :: drop p l.
Proof.
  intros Hp. rewrite copyInsert_spec. rewrite decide_True by lia. by rewrite Nat2Z.id.
Qed.

(** What the stage gives for a hash. *)
Lemma prefix_stage n hash :
  (n < 6)%nat →
  ∃ i, (i < 32)%nat ∧ getNthPrefix hash (5 - Z.of_nat n) = Some (Z.of_nat i).
Proof.
  intros Hn. destruct (getNthPrefix_range hash (5 - Z.of_nat n)) as (i & Hi & Hr); [lia|].
  exists (Z.to_nat i). split; [lia|]. rewrite Hi. f_equal. lia.
Qed.

Lemma checkBit_nat mask i : (i < 32)%nat → checkBit mask (Some (Z.of_nat i)) = Z.testbit mask (Z.of_nat i).
Proof. intros Hi. apply checkBit_testbit. lia. Qed.

Lemma childIndex_nat mask i : (i < 32)%nat → childIndex mask (Some (Z.of_nat i)) = Z.of_nat (pos mask i).
Proof.
  intros Hi. rewrite childIndex_count_above by lia. rewrite count_above_pos.
  by rewrite Nat2Z.id.
Qed.

(** The slot of a set bit. *)
Lemma slot_set stage mask ks (vs : list (option V)) ns i :
  slots_ok stage mask ks vs ns → (i < 32)%nat → Z.testbit mask (Z.of_nat i) = true →
  (pos mask i < length ks)%nat
  ∧ ∃ k0 v0 c0, ks !! pos mask i = Some k0 ∧ vs !! pos mask i = Some (Some v0)
                ∧ ns !! pos mask i = Some c0.
Proof.
  intros (Hlk & Hlv & Hln & Hvs & Hbits) Hi Hset.
  pose proof (pos_lt_count_all mask i Hi Hset) as Hp. rewrite <- Hlk in Hp.
  split; [done|].
  destruct (lookup_lt_is_Some_2 ks (pos mask i) Hp) as [k0 Hk0].
  destruct (lookup_lt_is_Some_2 vs (pos mask i) ltac:(lia)) as [ov Hv0].
  destruct (lookup_lt_is_Some_2 ns (pos mask i) ltac:(lia)) as [c0 Hc0].
  destruct (Forall_lookup_1 _ _ _ _ Hvs Hv0) as [v0 ->].
  by exists k0, v0, c0.
Qed.

(** The conclusion on one call of the closure of [set(key, value)] at the
    node [current], which returned the node [cur'] and the flag [isNew']. *)
Definition f_post (P : loc → Prop) (n : nat) (key : string) (value : V) (isNew : bool)
    (current : loc) (s : store) (cur' : loc) (isNew' : bool) (s' : store) : Prop :=
  wf (λ a, P a ∨ (length s ≤ a)%nat) n s' cur'
  ∧ (∀ fu r, get_val fu (hashString key) key (6 - Z.of_nat n) (Ref cur') s' = Ok r →
             r = Some value)
  ∧ (∀ fu hk k' r, k' ≠ key →
       get_val fu hk k' (6 - Z.of_nat n) (Ref cur') s' = Ok r →
       get_val fu hk k' (6 - Z.of_nat n) (Ref current) s = Ok r)
  ∧ ((isNew' = false
      ∧ ∃ v0, ∀ fu, (n < fu)%nat →
                    get_val fu (hashString key) key (6 - Z.of_nat n) (Ref current) s
                    = Ok (Some v0))
     ∨ (isNew' = isNew
        ∧ ∀ fu, (n < fu)%nat →
                get_val fu (hashString key) key (6 - Z.of_nat n) (Ref current) s = Ok None)).

Lemma f_undefined_run fuel hash key (value : V) isNew stage (s : store) l mask kl vl nl ks vs ns :
  node s l mask kl vl nl ks vs ns →
  checkBit mask (getNthPrefix hash stage) = true →
  JS.index ks (childIndex mask (getNthPrefix hash stage)) ≠ Some key →
  nexts_index ns (childIndex mask (getNthPrefix hash stage)) = Undefined →
  f (S fuel) hash key value isNew stage l s = Throw.
Proof.
  intros (H1 & H2 & H3 & H4) Hbit Hkey Href. cbn [f]. cbv zeta.
  unfold bind at 1. rewrite (read_node_run l s mask kl vl nl H1). cbv beta iota.
  unfold bind at 1. rewrite new_run. rewrite Hbit.
  frun. rewrite bool_decide_eq_false_2 by done.
  frun. by rewrite Href.
Qed.

(** Stage 6. *)
Lemma f_wf_last (P : loc → Prop) fuel key (value : V) isNew current (s : store) cur' isNew' s' :
  wf P 0 s current →
  f fuel (hashString key) key value isNew 6 current s = Ok ((cur', isNew'), s') →
  f_post P 0 key value isNew current s cur' isNew' s'.
Proof.
  intros (mask & kl & vl & nl & ks & vs & ns & Hnode & Pl & Pk & Pv & Pn & H) Hf.
  destruct fuel as [|fuel]; [done|].
  destruct H as [(-> & -> & -> & ->)|(-> & k0 & v0 & -> & -> & ->)].
  - rewrite (f_insert_run _ _ _ _ _ _ _ _ _ _ _ _ _ _ _ Hnode) in Hf by apply checkBit_0.
    rewrite childIndex_0 in Hf. injection Hf as <- <- <-.
    change (copyInsert key 0 []) with [key]. change (copyInsert (Some value) 0 []) with [Some value].
    change (copyInsert (@None loc) 0 []) with [@None loc].
    change (setBit 0 (getNthPrefix (hashString key) 6)) with 1.
    assert (Hnew : node (s ++ [CNode 1 (length s + 1)%nat (length s + 2)%nat (length s + 3)%nat;
                               CKeys [key]; CValues [Some value]; CNexts [None]])
                     (length s) 1 (length s + 1)%nat (length s + 2)%nat (length s + 3)%nat
                     [key] [Some value] [None]).
    { split_and!; [by apply lookup_ext0_Some|by apply lookup_ext_Some..]. }
    split_and!.
    + exists 1, (length s + 1)%nat, (length s + 2)%nat, (length s + 3)%nat,
        [key], [Some value], [None].
      wf_split; [done|right; lia..|]. right. split; [done|]. by exists key, value.
    + intros fu r Hr. exfalso. by eapply (get_val_last _ _ _ _ _ _ _ _ _ _ _ Hnew).
    + intros fu hk k' r _ Hr. exfalso. by eapply (get_val_last _ _ _ _ _ _ _ _ _ _ _ Hnew).
    + right. split; [done|]. intros fu Hfu. destruct fu as [|fu]; [lia|].
      rewrite (get_val_step _ _ _ _ _ _ _ _ _ _ _ _ _ Hnode). by rewrite checkBit_0.
  - rewrite (f_undefined_run _ _ _ _ _ _ _ _ _ _ _ _ _ _ _ Hnode) in Hf; [done|done| |].
    + by rewrite getNthPrefix_6, childIndex_1_None.
    + by rewrite getNthPrefix_6, childIndex_1_None.
Qed.

Lemma stage_S n : 6 - Z.of_nat (S n) = 5 - Z.of_nat n.
Proof. lia. Qed.

Lemma stage_next n : 5 - Z.of_nat n + 1 = 6 - Z.of_nat n.
Proof. lia. Qed.

Lemma pos_setBit_shift m i j :
  (i < 32)%nat → (j < 32)%nat → j ≠ i →
  Z.testbit m (Z.of_nat i) = false → Z.testbit m (Z.of_nat j) = true →
  pos (setBit m (Some (Z.of_nat i))) j
  = if decide (pos m i ≤ pos m j)%nat then S (pos m j) else pos m j.
Proof.
  intros Hi Hj Hne Hunset Hset. destruct (decide (j < i)%nat).
  - rewrite pos_setBit_below by done.
    pose proof (pos_below_ge m i Hi j ltac:(lia)). by rewrite decide_True.
  - rewrite pos_setBit_above by (done || lia).
    pose proof (pos_above_lt m i Hi j ltac:(lia) Hset). by rewrite decide_False by lia.
Qed.

Lemma lookup_insert_at_inv {A} (l : list A) (x y : A) p j :
  (take p l ++ x :: drop p l) !! j = Some y → y = x ∨ ∃ j', l !! j' = Some y.
Proof.
  intros H. apply list_elem_of_lookup_2 in H.
  apply elem_of_app in H as [H|H].
  - right. apply elem_of_take in H as (i & Hi & _). by exists i.
  - apply elem_of_cons in H as [->|H]; [by left|].
    right. apply list_elem_of_lookup_1 in H as [i Hi]. rewrite lookup_drop in Hi. by eexists.
Qed.

(** A lookup in a child that the call has not touched. *)
Lemma old_child_agree (P : loc → Prop) n (s s' : store) c fu hk k :
  wf P n s c → extends s s' →
  get_val fu hk k (6 - Z.of_nat n) (Ref c) s' = get_val fu hk k (6 - Z.of_nat n) (Ref c) s.
Proof.
  intros Hwf [_ He]. apply wf_bound in Hwf.
  eapply get_agree; [|exact Hwf]. intros a [_ Ha]. by apply He.
Qed.

Lemma old_ref_agree (P : loc → Prop) n (s s' : store) (ns : list (option loc)) q fu hk k :
  (∀ j c, ns !! j = Some (Some c) → wf P n s c) → extends s s' →
  get_val fu hk k (6 - Z.of_nat n) (nexts_index ns (Z.of_nat q)) s'
  = get_val fu hk k (6 - Z.of_nat n) (nexts_index ns (Z.of_nat q)) s.
Proof.
  intros Hc He. rewrite nexts_index_nat. destruct (ns !! q) as [[c|]|] eqn:E.
  - eapply old_child_agree; [|done]. by eapply Hc.
  - by rewrite !get_val_Null.
  - by destruct fu.
Qed.

(** The key is put in a free slot. *)
Lemma f_wf_insert (P : loc → Prop) n key (value : V) isNew current (s : store)
    mask kl vl nl ks vs ns i :
  node s current mask kl vl nl ks vs ns →
  slots_ok (5 - Z.of_nat n) mask ks vs ns →
  (∀ j c, ns !! j = Some (Some c) → wf P n s c) →
  (i < 32)%nat →
  getNthPrefix (hashString key) (5 - Z.of_nat n) = Some (Z.of_nat i) →
  Z.testbit mask (Z.of_nat i) = false →
  (n < 6)%nat →
  f_post P (S n) key value isNew current s (length s) isNew
    (s ++ [CNode (setBit mask (Some (Z.of_nat i)))
                 (length s + 1)%nat (length s + 2)%nat (length s + 3)%nat;
           CKeys (take (pos mask i) ks ++ key :: drop (pos mask i) ks);
           CValues (take (pos mask i) vs ++ Some value :: drop (pos mask i) vs);
           CNexts (take (pos mask i) ns ++ None :: drop (pos mask i) ns)]).
Proof.
  intros Hnode Hslots Hchildren Hi Hpre Hunset Hn.
  pose proof Hslots as (Hlk & Hlv & Hln & Hvs & Hbits).
  set (p := pos mask i) in *. set (mask' := setBit mask (Some (Z.of_nat i))).
  assert (Hp : (p ≤ length ks)%nat) by (rewrite Hlk; by apply pos_le_count_all).
  set (s' := s ++ _).
  assert (Hext : extends s s') by apply extends_app.
  assert (Hnew : node s' (length s) mask' (length s + 1)%nat (length s + 2)%nat
                   (length s + 3)%nat
                   (take p ks ++ key :: drop p ks)
                   (take p vs ++ Some value :: drop p vs)
                   (take p ns ++ None :: drop p ns)).
  { split_and!; [by apply lookup_ext0_Some|by apply lookup_ext_Some..]. }
  assert (Hset' : Z.testbit mask' (Z.of_nat i) = true) by (by apply setBit_same).
  assert (Hpos' : pos mask' i = p) by (by apply pos_setBit_same).
  unfold f_post. rewrite stage_S. split_and!.
  - exists mask', (length s + 1)%nat, (length s + 2)%nat, (length s + 3)%nat,
      (take p ks ++ key :: drop p ks), (take p vs ++ Some value :: drop p vs),
      (take p ns ++ None :: drop p ns).
    wf_split; [done|right; lia..|]. split.
    + split_and!.
      * rewrite length_insert_at, Hlk. symmetry. by apply count_all_setBit.
      * rewrite !length_insert_at. lia.
      * rewrite !length_insert_at. lia.
      * apply Forall_app. split; [by apply Forall_take|].
        apply Forall_cons. split; [done|by apply Forall_drop].
      * intros j Hj Hsetj. destruct (decide (j = i)) as [->|Hne].
        -- exists key. rewrite Hpos'. split; [by apply lookup_insert_here|done].
        -- unfold mask' in Hsetj. rewrite setBit_other in Hsetj by done.
           destruct (Hbits j Hj Hsetj) as (kj & Hkj & Hprej). exists kj. split; [|done].
           unfold mask'. rewrite pos_setBit_shift by done. fold p.
           by rewrite lookup_insert_at.
    + intros j c Hj. apply lookup_insert_at_inv in Hj as [?|[j' Hj']]; [done|].
      eapply wf_mono; [|eapply wf_extends; [exact Hext|by eapply Hchildren]]. by left.
  - intros fu r Hr. destruct fu as [|fu]; [done|].
    rewrite (get_val_step _ _ _ _ _ _ _ _ _ _ _ _ _ Hnew) in Hr.
    rewrite Hpre, checkBit_nat, Hset', childIndex_nat, Hpos', !index_nat in Hr by done.
    rewrite lookup_insert_here in Hr by done.
    rewrite bool_decide_eq_true_2 in Hr by done.
    rewrite lookup_insert_here in Hr by lia. simpl in Hr. congruence.
  - intros fu hk k' r Hk' Hr. destruct fu as [|fu]; [done|].
    destruct (prefix_stage n hk Hn) as (i' & Hi' & Hpre').
    rewrite (get_val_step _ _ _ _ _ _ _ _ _ _ _ _ _ Hnew) in Hr.
    rewrite (get_val_step _ _ _ _ _ _ _ _ _ _ _ _ _ Hnode).
    rewrite Hpre' in Hr |- *. rewrite checkBit_nat, childIndex_nat in Hr by done.
    rewrite checkBit_nat, childIndex_nat by done.
    destruct (decide (i' = i)) as [->|Hne].
    + rewrite Hunset. rewrite Hset', Hpos', index_nat, lookup_insert_here in Hr by done.
      rewrite bool_decide_eq_false_2 in Hr by congruence.
      rewrite nexts_index_nat, lookup_insert_here in Hr by lia.
      by rewrite get_val_Null in Hr.
    + unfold mask' in Hr. rewrite setBit_other in Hr by done.
      destruct (Z.testbit mask (Z.of_nat i')) eqn:Hset''; [|done].
      rewrite pos_setBit_shift in Hr by done. fold p in Hr.
      rewrite !index_nat, nexts_index_nat in Hr. rewrite !lookup_insert_at in Hr by lia.
      rewrite !index_nat. rewrite <- nexts_index_nat in Hr.
      destruct (bool_decide _); [done|].
      rewrite stage_next in *. by rewrite (old_ref_agree P n s s') in Hr.
  - right. split; [done|]. intros fu Hfu. destruct fu as [|fu]; [lia|].
    rewrite (get_val_step _ _ _ _ _ _ _ _ _ _ _ _ _ Hnode).
    by rewrite Hpre, checkBit_nat, Hunset.
Qed.

(** The key is there: its value is replaced. *)
Lemma f_wf_replace (P : loc → Prop) n key (value : V) isNew current (s : store)
    mask kl vl nl ks vs ns i :
  node s current mask kl vl nl ks vs ns →
  slots_ok (5 - Z.of_nat n) mask ks vs ns →
  P kl → P nl →
  (∀ j c, ns !! j = Some (Some c) → wf P n s c) →
  (i < 32)%nat →
  getNthPrefix (hashString key) (5 - Z.of_nat n) = Some (Z.of_nat i) →
  Z.testbit mask (Z.of_nat i) = true →
  ks !! pos mask i = Some key →
  (n < 6)%nat →
  f_post P (S n) key value isNew current s (length s) false
    (s ++ [CNode mask kl (length s + 1)%nat nl;
           CValues (<[pos mask i := Some value]> vs)]).
Proof.
  intros Hnode Hslots Pk Pn Hchildren Hi Hpre Hset Hkey Hn.
  pose proof Hslots as (Hlk & Hlv & Hln & Hvs & Hbits).
  destruct (slot_set _ _ _ _ _ _ Hslots Hi Hset) as (Hp & k0 & v0 & c0 & Hk0 & Hv0 & Hc0).
  set (p := pos mask i) in *.
  set (s' := s ++ _).
  assert (Hext : extends s s') by apply extends_app.
  destruct Hnode as (H1 & H2 & H3 & H4).
  assert (Hnode : node s current mask kl vl nl ks vs ns) by done.
  assert (Hnew : node s' (length s) mask kl (length s + 1)%nat nl ks
                   (<[p := Some value]> vs) ns).
  { split_and!; [by apply lookup_ext0_Some|by apply lookup_old|by apply lookup_ext_Some
                |by apply lookup_old]. }
  unfold f_post. rewrite stage_S. split_and!.
  - exists mask, kl, (length s + 1)%nat, nl, ks, (<[p := Some value]> vs), ns.
    wf_split; [done|right; lia|by left|right; lia|by left|]. split.
    + split_and!; [done|by rewrite length_insert|done| |done].
      apply Forall_insert; [done|by eexists].
    + intros j c Hj.
      eapply wf_mono; [|eapply wf_extends; [exact Hext|by eapply Hchildren]]. by left.
  - intros fu r Hr. destruct fu as [|fu]; [done|].
    rewrite (get_val_step _ _ _ _ _ _ _ _ _ _ _ _ _ Hnew) in Hr.
    rewrite Hpre, checkBit_nat, Hset, childIndex_nat, !index_nat in Hr by done.
    fold p in Hr. rewrite Hkey in Hr. rewrite bool_decide_eq_true_2 in Hr by done.
    rewrite list_lookup_insert_eq in Hr by lia. simpl in Hr. congruence.
  - intros fu hk k' r Hk' Hr. destruct fu as [|fu]; [done|].
    destruct (prefix_stage n hk Hn) as (i' & Hi' & Hpre').
    rewrite (get_val_step _ _ _ _ _ _ _ _ _ _ _ _ _ Hnew) in Hr.
    rewrite (get_val_step _ _ _ _ _ _ _ _ _ _ _ _ _ Hnode).
    rewrite Hpre' in Hr |- *. rewrite checkBit_nat, childIndex_nat in Hr by done.
    rewrite checkBit_nat, childIndex_nat by done.
    destruct (Z.testbit mask (Z.of_nat i')); [|done].
    rewrite !index_nat in Hr |- *.
    case_bool_decide as Hq.
    + rewrite list_lookup_insert_ne in Hr; [done|]. intros Heq. rewrite <- Heq in Hq.
      rewrite Hkey in Hq. congruence.
    + rewrite stage_next in *. by rewrite (old_ref_agree P n s s') in Hr.
  - left. split; [done|]. exists v0. intros fu Hfu. destruct fu as [|fu]; [lia|].
    rewrite (get_val_step _ _ _ _ _ _ _ _ _ _ _ _ _ Hnode).
    rewrite Hpre, checkBit_nat, Hset, childIndex_nat, !index_nat by done. fold p.
    rewrite Hkey, bool_decide_eq_true_2 by done. by rewrite Hv0.
Qed.

(** The slot holds another key: the call descends into the child
    [child_in], an old one or a new empty one, and links the node [child]
    that the descent returns. *)
Lemma f_wf_descend (P P_in : loc → Prop) n key (value : V) isNew current (s : store)
    mask kl vl nl ks vs ns i child_in (s_in : store) child isNew1 (s1 : store) :
  node s current mask kl vl nl ks vs ns →
  slots_ok (5 - Z.of_nat n) mask ks vs ns →
  P kl → P vl →
  (∀ j c, ns !! j = Some (Some c) → wf P n s c) →
  (i < 32)%nat →
  getNthPrefix (hashString key) (5 - Z.of_nat n) = Some (Z.of_nat i) →
  Z.testbit mask (Z.of_nat i) = true →
  ks !! pos mask i ≠ Some key →
  (n < 6)%nat →
  extends s s_in → extends s_in s1 →
  s_in !! length s = Some (CNode mask kl vl (length s + 1)%nat) →
  (length s + 1 < length s_in)%nat →
  ¬ P_in (length s + 1)%nat →
  (∀ a, P_in a → P a ∨ (length s ≤ a)%nat) →
  (∀ fu hk k r,
     get_val fu hk k (6 - Z.of_nat n) (Ref child_in) s_in = Ok r →
     get_val fu hk k (6 - Z.of_nat n) (nexts_index ns (Z.of_nat (pos mask i))) s = Ok r) →
  f_post P_in n key value isNew child_in s_in child isNew1 s1 →
  f_post P (S n) key value isNew current s (length s) isNew1
    (<[(length s + 1)%nat := CNexts (<[pos mask i := Some child]> ns)]> s1).
Proof.
  intros Hnode Hslots Pk Pv Hchildren Hi Hpre Hset Hkey Hn Hext_in Hext1 Hcell Hlen
    HPin HPin' Hold (Hwf1 & HT2 & HT3 & HT4).
  pose proof Hslots as (Hlk & Hlv & Hln & Hvs & Hbits).
  destruct (slot_set _ _ _ _ _ _ Hslots Hi Hset) as (Hp & k0 & v0 & c0 & Hk0 & Hv0 & Hc0).
  set (p := pos mask i) in *.
  set (s' := <[_ := _]> s1).
  assert (Hlen1 : (length s_in ≤ length s1)%nat) by (by destruct Hext1).
  assert (Hext' : extends s s').
  { apply extends_insert_above; [by eapply extends_trans|lia]. }
  destruct Hnode as (H1 & H2 & H3 & H4).
  assert (Hnode : node s current mask kl vl nl ks vs ns) by done.
  assert (Hnew : node s' (length s) mask kl vl (length s + 1)%nat ks vs
                   (<[p := Some child]> ns)).
  { split_and!.
    - unfold s'. rewrite st_lookup_insert_ne by lia. by eapply extends_lookup.
    - by eapply extends_lookup.
    - by eapply extends_lookup.
    - unfold s'. apply st_lookup_insert. lia. }
  set (Q := λ a, P_in a ∨ (length s_in ≤ a)%nat).
  assert (HQ : ∀ a, Q a → s' !! a = s1 !! a).
  { intros a Ha. unfold s'. apply st_lookup_insert_ne. intros <-.
    destruct Ha as [?|?]; [done|lia]. }
  assert (Hchild : ∀ fu hk k,
            get_val fu hk k (6 - Z.of_nat n) (Ref child) s'
            = get_val fu hk k (6 - Z.of_nat n) (Ref child) s1).
  { intros fu hk k. by eapply get_agree. }
  unfold f_post. rewrite stage_S. split_and!.
  - exists mask, kl, vl, (length s + 1)%nat, ks, vs, (<[p := Some child]> ns).
    wf_split; [done|right; lia|by left|by left|right; lia|]. split.
    + split_and!; [done|done|by rewrite length_insert|done|done].
    + intros j c Hj. destruct (decide (j = p)) as [->|Hne].
      * rewrite list_lookup_insert_eq in Hj by lia. injection Hj as <-.
        eapply wf_mono; [|eapply (wf_agree Q); [exact HQ|exact Hwf1]].
        intros a [Ha|Ha]; [by apply HPin'|]. right. destruct Hext_in. lia.
      * rewrite list_lookup_insert_ne in Hj by done.
        eapply wf_mono; [|eapply wf_extends; [exact Hext'|by eapply Hchildren]]. by left.
  - intros fu r Hr. destruct fu as [|fu]; [done|].
    rewrite (get_val_step _ _ _ _ _ _ _ _ _ _ _ _ _ Hnew) in Hr.
    rewrite Hpre, checkBit_nat, Hset, childIndex_nat, !index_nat in Hr by done.
    fold p in Hr. rewrite bool_decide_eq_false_2 in Hr by done.
    rewrite nexts_index_nat, list_lookup_insert_eq in Hr by lia.
    rewrite stage_next, Hchild in Hr. by eapply HT2.
  - intros fu hk k' r Hk' Hr. destruct fu as [|fu]; [done|].
    destruct (prefix_stage n hk Hn) as (i' & Hi' & Hpre').
    rewrite (get_val_step _ _ _ _ _ _ _ _ _ _ _ _ _ Hnew) in Hr.
    rewrite (get_val_step _ _ _ _ _ _ _ _ _ _ _ _ _ Hnode).
    rewrite Hpre' in Hr |- *. rewrite checkBit_nat, childIndex_nat in Hr by done.
    rewrite checkBit_nat, childIndex_nat by done.
    destruct (Z.testbit mask (Z.of_nat i')); [|done].
    rewrite !index_nat in Hr |- *.
    case_bool_decide as Hq; [done|].
    rewrite stage_next in *.
    destruct (decide (pos mask i' = p)) as [Heq|Hne].
    + rewrite Heq in *. rewrite nexts_index_nat, list_lookup_insert_eq in Hr by lia.
      rewrite Hchild in Hr. apply Hold. by eapply HT3.
    + rewrite nexts_index_nat, list_lookup_insert_ne in Hr by done.
      rewrite <- nexts_index_nat in Hr.
      by rewrite (old_ref_agree P n s s') in Hr.
  - destruct HT4 as [(-> & v1 & Hv1)|(-> & Hnone)]; [left|right]; (split; [done|]).
    + exists v1. intros fu Hfu. destruct fu as [|fu]; [lia|].
      rewrite (get_val_step _ _ _ _ _ _ _ _ _ _ _ _ _ Hnode).
      rewrite Hpre, checkBit_nat, Hset, childIndex_nat, !index_nat by done. fold p.
      rewrite bool_decide_eq_false_2 by done. rewrite stage_next.
      apply Hold, Hv1. lia.
    + intros fu Hfu. destruct fu as [|fu]; [lia|].
      rewrite (get_val_step _ _ _ _ _ _ _ _ _ _ _ _ _ Hnode).
      rewrite Hpre, checkBit_nat, Hset, childIndex_nat, !index_nat by done. fold p.
      rewrite bool_decide_eq_false_2 by done. rewrite stage_next.
      apply Hold, Hnone. lia.
Qed.

(** The closure [f] of [set], from a node with [n] levels left. *)
Lemma f_wf n : (n ≤ 6)%nat →
  ∀ (P : loc → Prop) fuel key (value : V) isNew current (s : store) cur' isNew' s',
  wf P n s current →
  f fuel (hashString key) key value isNew (6 - Z.of_nat n) current s = Ok ((cur', isNew'), s') →
  f_post P n key value isNew current s cur' isNew' s'.
Proof.
  induction n as [|n IH]; intros Hn P fuel key value isNew current s cur' isNew' s' Hwf Hf.
  { change (6 - Z.of_nat 0) with 6 in Hf. by eapply f_wf_last. }
  destruct Hwf as (mask & kl & vl & nl & ks & vs & ns & Hnode & Pl & Pk & Pv & Pn & Hslots & Hch).
  destruct fuel as [|fuel]; [done|].
  rewrite stage_S in Hf.
  destruct (prefix_stage n (hashString key)) as (i & Hi & Hpre); [lia|].
  pose proof Hslots as (Hlk & Hlv & Hln & Hvs & Hbits).
  destruct (Z.testbit mask (Z.of_nat i)) eqn:Hset.
  - destruct (slot_set _ _ _ _ _ _ Hslots Hi Hset) as (Hp & k0 & v0 & c0 & Hk0 & Hv0 & Hc0).
    assert (Hbit : checkBit mask (getNthPrefix (hashString key) (5 - Z.of_nat n)) = true).
    { by rewrite Hpre, checkBit_nat. }
    assert (Hidx : childIndex mask (getNthPrefix (hashString key) (5 - Z.of_nat n))
                   = Z.of_nat (pos mask i)).
    { by rewrite Hpre, childIndex_nat. }
    destruct (decide (k0 = key)) as [->|Hne].
    + rewrite (f_replace_run _ _ _ _ _ _ _ _ _ _ _ _ _ _ _ Hnode Hbit) in Hf
        by (by rewrite Hidx, index_nat).
      injection Hf as <- <- <-. rewrite Hidx, array_set_nat by lia.
      eapply f_wf_replace; eauto; lia.
    + assert (Hkey : ks !! pos mask i ≠ Some key) by (rewrite Hk0; congruence).
      assert (Hkey' : JS.index ks (childIndex mask (getNthPrefix (hashString key) (5 - Z.of_nat n)))
                      ≠ Some key) by (by rewrite Hidx, index_nat).
      destruct c0 as [c|].
      * assert (Href : nexts_index ns (childIndex mask (getNthPrefix (hashString key)
                                                          (5 - Z.of_nat n))) = Ref c).
        { by rewrite Hidx, nexts_index_nat, Hc0. }
        rewrite (f_descend_run _ _ _ _ _ _ _ _ _ _ _ _ _ _ _ _ Hnode Hbit Hkey' Href) in Hf.
        set (s_in := s ++ _) in Hf.
        apply bind_Ok in Hf as ([child isNew1] & s1 & Hrec & Hf).
        pose proof (f_keeps _ _ _ _ _ _ _ _ _ _ Hrec) as Hext1.
        assert (Hext_in : extends s s_in) by apply extends_app.
        assert (Hcell1 : s_in !! (length s + 1)%nat = Some (CNexts ns)).
        { by apply lookup_ext_Some. }
        apply bind_Ok in Hf as (ns1 & s2 & [-> Hns1]%read_nexts_Ok & Hf).
        assert (Hs1 : s1 !! (length s + 1)%nat = s_in !! (length s + 1)%nat).
        { apply (proj2 Hext1). by eapply lookup_lt_Some. }
        pose proof (eq_trans (eq_sym Hns1) (eq_trans Hs1 Hcell1)) as [= ->].
        apply bind_Ok in Hf as (u & s2 & ->%write_Ok & [[= -> ->] ->]%ret_Ok).
        rewrite Hidx, array_set_nat by lia. rewrite stage_next in Hrec.
        eapply (f_wf_descend P (λ a, P a ∧ (a < length s)%nat) n key value isNew current s
                  mask kl vl nl ks vs ns i c s_in child isNew1 s1
                  Hnode Hslots Pk Pv Hch Hi Hpre Hset Hkey); [lia|exact Hext_in|exact Hext1|..].
        -- by apply lookup_ext0_Some.
        -- unfold s_in. rewrite length_app. simpl. lia.
        -- intros [_ ?]. lia.
        -- intros a [? _]. by left.
        -- intros fu hk k r Hr. rewrite nexts_index_nat, Hc0.
           by rewrite (old_child_agree P n s s_in) in Hr by eauto.
        -- eapply IH; [lia| |exact Hrec].
           eapply wf_extends; [exact Hext_in|]. eapply wf_bound. by eapply Hch.
      * assert (Href : nexts_index ns (childIndex mask (getNthPrefix (hashString key)
                                                          (5 - Z.of_nat n))) = Null).
        { by rewrite Hidx, nexts_index_nat, Hc0. }
        rewrite (f_null_run _ _ _ _ _ _ _ _ _ _ _ _ _ _ _ Hnode Hbit Hkey' Href) in Hf.
        rewrite Hidx, array_set_nat in Hf by lia.
        set (s_in := s ++ _) in Hf.
        apply bind_Ok in Hf as ([child isNew1] & s1 & Hrec & Hf).
        pose proof (f_keeps _ _ _ _ _ _ _ _ _ _ Hrec) as Hext1.
        assert (Hext_in : extends s s_in) by apply extends_app.
        assert (Hcell1 : s_in !! (length s + 1)%nat
                         = Some (CNexts (<[pos mask i := Some (length s + 5)%nat]> ns))).
        { by apply lookup_ext_Some. }
        assert (Hempty : node s_in (length s + 5)%nat 0 (length s + 2)%nat (length s + 3)%nat
                           (length s + 4)%nat [] [] []).
        { split_and!; by apply lookup_ext_Some. }
        apply bind_Ok in Hf as (ns1 & s2 & [-> Hns1]%read_nexts_Ok & Hf).
        assert (Hs1 : s1 !! (length s + 1)%nat = s_in !! (length s + 1)%nat).
        { apply (proj2 Hext1). by eapply lookup_lt_Some. }
        pose proof (eq_trans (eq_sym Hns1) (eq_trans Hs1 Hcell1)) as [= ->].
        apply bind_Ok in Hf as (u & s2 & ->%write_Ok & [[= -> ->] ->]%ret_Ok).
        rewrite array_set_nat by (rewrite length_insert; lia).
        rewrite list_insert_insert_eq. rewrite stage_next in Hrec.
        eapply (f_wf_descend P (λ a, (length s + 2 ≤ a ≤ length s + 5)%nat) n key value isNew
                  current s mask kl vl nl ks vs ns i (length s + 5)%nat s_in child isNew1 s1
                  Hnode Hslots Pk Pv Hch Hi Hpre Hset Hkey); [lia|exact Hext_in|exact Hext1|..].
        -- by apply lookup_ext0_Some.
        -- unfold s_in. rewrite length_app. simpl. lia.
        -- lia.
        -- intros a ?. right. lia.
        -- intros fu hk k r Hr. rewrite nexts_index_nat, Hc0, get_val_Null.
           destruct fu as [|fu]; [done|].
           rewrite (get_val_step _ _ _ _ _ _ _ _ _ _ _ _ _ Hempty) in Hr.
           by rewrite checkBit_0 in Hr.
        -- eapply IH; [lia| |exact Hrec]. eapply wf_empty; [exact Hempty|lia..].
  - assert (Hbit : checkBit mask (getNthPrefix (hashString key) (5 - Z.of_nat n)) = false).
    { by rewrite Hpre, checkBit_nat. }
    rewrite (f_insert_run _ _ _ _ _ _ _ _ _ _ _ _ _ _ _ Hnode Hbit) in Hf.
    injection Hf as <- <- <-.
    pose proof (pos_le_count_all mask i) as Hle.
    rewrite Hpre, childIndex_nat, !copyInsert_nat by (done || lia).
    eapply f_wf_insert; eauto; lia.
Qed.

End SetSpec.
End HAMTSet.

(** * The keys of the HAMT, and when [set] and [get] return *)
Module HAMTTotal.
Import HAMT HAMTBits HAMTStore HAMTClaims HAMTInv HAMTSet.
Open Scope hamt_scope.

Section Keyed.
Context {V : Type}.
Abbreviation store := (HAMT.store V).

Lemma node_inj (s : store) l mask kl vl nl ks vs ns mask' kl' vl' nl' ks' vs' ns' :
  node s l mask kl vl nl ks vs ns → node s l mask' kl' vl' nl' ks' vs' ns' →
  mask' = mask ∧ kl' = kl ∧ vl' = vl ∧ nl' = nl ∧ ks' = ks ∧ vs' = vs ∧ ns' = ns.
Proof.
  intros (H1 & H2 & H3 & H4) (H1' & H2' & H3' & H4').
  rewrite H1 in H1'. injection H1' as <- <- <- <-.
  rewrite H2 in H2'. rewrite H3 in H3'. rewrite H4 in H4'.
  injection H2' as <-. injection H3' as <-. injection H4' as <-. done.
Qed.

(** The four cases of a call of [f] above stage 6. *)
Lemma f_cases n fuel key (value : V) isNew current (s : store) mask kl vl nl ks vs ns
    cur' isNew' s' :
  (n < 6)%nat →
  node s current mask kl vl nl ks vs ns →
  slots_ok (5 - Z.of_nat n) mask ks vs ns →
  f (S fuel) (hashString key) key value isNew (5 - Z.of_nat n) current s
  = Ok ((cur', isNew'), s') →
  ∃ i, (i < 32)%nat ∧ getNthPrefix (hashString key) (5 - Z.of_nat n) = Some (Z.of_nat i)
    ∧ cur' = length s
    ∧ ((Z.testbit mask (Z.of_nat i) = false ∧ isNew' = isNew
        ∧ s' = s ++ [CNode (setBit mask (Some (Z.of_nat i)))
                       (length s + 1)%nat (length s + 2)%nat (length s + 3)%nat;
                     CKeys (take (pos mask i) ks ++ key :: drop (pos mask i) ks);
                     CValues (take (pos mask i) vs ++ Some value :: drop (pos mask i) vs);
                     CNexts (take (pos mask i) ns ++ None :: drop (pos mask i) ns)])
       ∨ (Z.testbit mask (Z.of_nat i) = true ∧ ks !! pos mask i = Some key ∧ isNew' = false
          ∧ s' = s ++ [CNode mask kl (length s + 1)%nat nl;
                       CValues (<[pos mask i := Some value]> vs)])
       ∨ (Z.testbit mask (Z.of_nat i) = true ∧ ks !! pos mask i ≠ Some key
          ∧ ∃ child_in s_in child s1,
              ((ns !! pos mask i = Some (Some child_in)
                ∧ s_in = s ++ [CNode mask kl vl (length s + 1)%nat; CNexts ns])
               ∨ (ns !! pos mask i = Some None ∧ child_in = (length s + 5)%nat
                  ∧ s_in = s ++ [CNode mask kl vl (length s + 1)%nat;
                                 CNexts (<[pos mask i := Some (length s + 5)%nat]> ns);
                                 CKeys []; CValues []; CNexts [];
                                 CNode 0 (length s + 2)%nat (length s + 3)%nat
                                   (length s + 4)%nat]))
              ∧ f fuel (hashString key) key value isNew (6 - Z.of_nat n) child_in s_in
                = Ok ((child, isNew'), s1)
              ∧ s' = <[(length s + 1)%nat := CNexts (<[pos mask i := Some child]> ns)]> s1)).
Proof.
  intros Hn Hnode Hslots Hf.
  destruct (prefix_stage n (hashString key)) as (i & Hi & Hpre); [lia|].
  exists i. split; [done|]. split; [done|].
  pose proof Hslots as (Hlk & Hlv & Hln & Hvs & Hbits).
  destruct (Z.testbit mask (Z.of_nat i)) eqn:Hset.
  - destruct (slot_set _ _ _ _ _ _ Hslots Hi Hset) as (Hp & k0 & v0 & c0 & Hk0 & Hv0 & Hc0).
    assert (Hbit : checkBit mask (getNthPrefix (hashString key) (5 - Z.of_nat n)) = true).
    { by rewrite Hpre, checkBit_nat. }
    assert (Hidx : childIndex mask (getNthPrefix (hashString key) (5 - Z.of_nat n))
                   = Z.of_nat (pos mask i)).
    { by rewrite Hpre, childIndex_nat. }
    destruct (decide (k0 = key)) as [->|Hne].
    + rewrite (f_replace_run _ _ _ _ _ _ _ _ _ _ _ _ _ _ _ Hnode Hbit) in Hf
        by (by rewrite Hidx, index_nat).
      injection Hf as <- <- <-. rewrite Hidx, array_set_nat by lia.
      split; [done|]. right. left. done.
    + assert (Hkey : ks !! pos mask i ≠ Some key) by (rewrite Hk0; congruence).
      assert (Hkey' : JS.index ks (childIndex mask (getNthPrefix (hashString key) (5 - Z.of_nat n)))
                      ≠ Some key) by (by rewrite Hidx, index_nat).
      destruct c0 as [c|].
      * assert (Href : nexts_index ns (childIndex mask (getNthPrefix (hashString key)
                                                          (5 - Z.of_nat n))) = Ref c).
        { by rewrite Hidx, nexts_index_nat, Hc0. }
        rewrite (f_descend_run _ _ _ _ _ _ _ _ _ _ _ _ _ _ _ _ Hnode Hbit Hkey' Href) in Hf.
        set (s_in := s ++ _) in Hf.
        apply bind_Ok in Hf as ([child isNew1] & s1 & Hrec & Hf).
        pose proof (f_keeps _ _ _ _ _ _ _ _ _ _ Hrec) as Hext1.
        assert (Hcell1 : s_in !! (length s + 1)%nat = Some (CNexts ns)).
        { by apply lookup_ext_Some. }
        apply bind_Ok in Hf as (ns1 & s2 & [-> Hns1]%read_nexts_Ok & Hf).
        assert (Hs1 : s1 !! (length s + 1)%nat = s_in !! (length s + 1)%nat).
        { apply (proj2 Hext1). by eapply lookup_lt_Some. }
        pose proof (eq_trans (eq_sym Hns1) (eq_trans Hs1 Hcell1)) as [= ->].
        apply bind_Ok in Hf as (u & s2 & ->%write_Ok & [[= -> ->] ->]%ret_Ok).
        rewrite Hidx, array_set_nat by lia. rewrite stage_next in Hrec.
        split; [done|]. right. right. split; [done|]. split; [done|].
        exists c, s_in, child, s1. split; [by left|]. done.
      * assert (Href : nexts_index ns (childIndex mask (getNthPrefix (hashString key)
                                                          (5 - Z.of_nat n))) = Null).
        { by rewrite Hidx, nexts_index_nat, Hc0. }
        rewrite (f_null_run _ _ _ _ _ _ _ _ _ _ _ _ _ _ _ Hnode Hbit Hkey' Href) in Hf.
        rewrite Hidx, array_set_nat in Hf by lia.
        set (s_in := s ++ _) in Hf.
        apply bind_Ok in Hf as ([child isNew1] & s1 & Hrec & Hf).
        pose proof (f_keeps _ _ _ _ _ _ _ _ _ _ Hrec) as Hext1.
        assert (Hcell1 : s_in !! (length s + 1)%nat
                         = Some (CNexts (<[pos mask i := Some (length s + 5)%nat]> ns))).
        { by apply lookup_ext_Some. }
        apply bind_Ok in Hf as (ns1 & s2 & [-> Hns1]%read_nexts_Ok & Hf).
        assert (Hs1 : s1 !! (length s + 1)%nat = s_in !! (length s + 1)%nat).
        { apply (proj2 Hext1). by eapply lookup_lt_Some. }
        pose proof (eq_trans (eq_sym Hns1) (eq_trans Hs1 Hcell1)) as [= ->].
        apply bind_Ok in Hf as (u & s2 & ->%write_Ok & [[= -> ->] ->]%ret_Ok).
        rewrite array_set_nat by (rewrite length_insert; lia).
        rewrite list_insert_insert_eq. rewrite stage_next in Hrec.
        split; [done|]. right. right. split; [done|]. split; [done|].
        exists (length s + 5)%nat, s_in, child, s1. split; [by right|]. done.
  - assert (Hbit : checkBit mask (getNthPrefix (hashString key) (5 - Z.of_nat n)) = false).
    { by rewrite Hpre, checkBit_nat. }
    rewrite (f_insert_run _ _ _ _ _ _ _ _ _ _ _ _ _ _ _ Hnode Hbit) in Hf.
    injection Hf as <- <- <-.
    pose proof (pos_le_count_all mask i) as Hle.
    rewrite Hpre, childIndex_nat, !copyInsert_nat by (done || lia).
    split; [done|]. by left.
Qed.

(** ** The keys of a subtree

    [keyed K n s l]: every key stored under the node [l] satisfies [K], and
    the keys stored under the child of a slot have the prefix of that slot. *)
Fixpoint keyed (K : string → Prop) (n : nat) (s : store) (l : loc) : Prop :=
  ∃ mask kl vl nl ks vs ns,
    node s l mask kl vl nl ks vs ns ∧ Forall K ks
    ∧ match n with
      | O => True
      | S n =>
          ∀ i c, (i < 32)%nat → Z.testbit mask (Z.of_nat i) = true →
                 ns !! pos mask i = Some (Some c) →
                 keyed (λ k, K k ∧ getNthPrefix (hashString k) (5 - Z.of_nat n)
                                   = Some (Z.of_nat i)) n s c
      end.

Lemma keyed_mono n : ∀ (K K' : string → Prop) (s : store) l,
  (∀ k, K k → K' k) → keyed K n s l → keyed K' n s l.
Proof.
  induction n as [|n IH]; intros K K' s l HK
    (mask & kl & vl & nl & ks & vs & ns & Hnode & Hks & H);
    exists mask, kl, vl, nl, ks, vs, ns; (split; [done|]);
    (split; [by eapply Forall_impl|]); [done|].
  intros i c Hi Hset Hc. eapply IH; [|by eapply H]. intros k [? ?]. split; [by apply HK|done].
Qed.

Lemma keyed_agree n : ∀ (P K : _ → Prop) (s s' : store) l,
  (∀ a, P a → s' !! a = s !! a) → wf P n s l → keyed K n s l → keyed K n s' l.
Proof.
  induction n as [|n IH]; intros P K s s' l Hag
    (mask & kl & vl & nl & ks & vs & ns & Hnode & Pl & Pk & Pv & Pn & Hwf)
    (mask' & kl' & vl' & nl' & ks' & vs' & ns' & Hnode' & Hks & H);
    destruct (node_inj _ _ _ _ _ _ _ _ _ _ _ _ _ _ _ _ Hnode Hnode')
      as (-> & -> & -> & -> & -> & -> & ->);
    exists mask, kl, vl, nl, ks, vs, ns;
    (split; [destruct Hnode as (H1 & H2 & H3 & H4); by split_and!; rewrite Hag|]);
    (split; [done|]); [done|].
  destruct Hwf as [_ Hch].
  intros i c Hi Hset Hc. eapply IH; [exact Hag|by eapply Hch|by eapply H].
Qed.

Lemma keyed_extends n (P K : _ → Prop) (s s' : store) l :
  extends s s' → wf P n s l → keyed K n s l → keyed K n s' l.
Proof.
  intros [_ He] Hwf%wf_bound Hk. eapply keyed_agree; [|exact Hwf|exact Hk].
  intros a [_ Ha]. by apply He.
Qed.

Lemma keyed_empty n (K : string → Prop) (s : store) l kl vl nl :
  node s l 0 kl vl nl [] [] [] → keyed K n s l.
Proof.
  intros Hnode. destruct n as [|n]; exists 0, kl, vl, nl, [], [], [];
    (split; [done|]); (split; [by constructor|]); [done|].
  intros i c Hi Hset. by rewrite Z.bits_0 in Hset.
Qed.

(** [f] keeps the keys of the subtree within [K]. *)
Lemma f_keyed n : (n ≤ 6)%nat →
  ∀ (P K : _ → Prop) fuel key (value : V) isNew current (s : store) cur' isNew' s',
  wf P n s current → keyed K n s current → K key →
  f fuel (hashString key) key value isNew (6 - Z.of_nat n) current s = Ok ((cur', isNew'), s') →
  keyed K n s' cur'.
Proof.
  induction n as [|n IH];
    intros Hn P K fuel key value isNew current s cur' isNew' s' Hwf Hkd HK Hf.
  { change (6 - Z.of_nat 0) with 6 in Hf.
    destruct Hwf as (mask0 & kl0 & vl0 & nl0 & ks0 & vs0 & ns0 & Hnode0 & _ & _ & _ & _ & H0).
    destruct fuel as [|fuel]; [done|].
    destruct H0 as [(-> & -> & -> & ->)|(-> & k0 & v0 & -> & -> & ->)].
    - rewrite (f_insert_run _ _ _ _ _ _ _ _ _ _ _ _ _ _ _ Hnode0) in Hf by apply checkBit_0.
      rewrite childIndex_0 in Hf. injection Hf as <- <- <-.
      eexists _, _, _, _, _, _, _. split.
      { split_and!; [by apply lookup_ext0_Some|by apply lookup_ext_Some..]. }
      split; [|done]. by constructor.
    - rewrite (f_undefined_run _ _ _ _ _ _ _ _ _ _ _ _ _ _ _ Hnode0) in Hf; [done|done| |].
      + by rewrite getNthPrefix_6, childIndex_1_None.
      + by rewrite getNthPrefix_6, childIndex_1_None. }
  pose proof (f_wf (S n) Hn P _ _ _ _ _ _ _ _ _ Hwf Hf) as (Hwf' & _).
  destruct Hwf as (mask & kl & vl & nl & ks & vs & ns & Hnode & Pl & Pk & Pv & Pn & Hslots & Hch).
  destruct Hkd as (mask' & kl' & vl' & nl' & ks' & vs' & ns' & Hnode' & Hks & Hkc).
  destruct (node_inj _ _ _ _ _ _ _ _ _ _ _ _ _ _ _ _ Hnode Hnode')
    as (-> & -> & -> & -> & -> & -> & ->). clear Hnode'.
  destruct fuel as [|fuel]; [done|].
  rewrite stage_S in Hf.
  pose proof Hslots as (Hlk & Hlv & Hln & Hvs & Hbits).
  destruct (f_cases n _ _ _ _ _ _ _ _ _ _ _ _ _ _ _ _ ltac:(lia) Hnode Hslots Hf)
    as (i & Hi & Hpre & -> & Hcases).
  destruct Hcases as [(Hset & -> & ->)|[(Hset & Hkey & -> & ->)
    |(Hset & Hkey & child_in & s_in & child & s1 & Hin & Hrec & ->)]].
  - (* a free slot *)
    set (s' := s ++ _) in *.
    assert (Hext : extends s s') by apply extends_app.
    pose proof (pos_le_count_all mask i Hi) as Hle.
    eexists _, _, _, _, _, _, _. split.
    { split_and!; [by apply lookup_ext0_Some|by apply lookup_ext_Some..]. }
    split.
    { apply Forall_app. split; [by apply Forall_take|]. constructor; [done|by apply Forall_drop]. }
    intros j c Hj Hsetj Hc.
    destruct (decide (j = i)) as [->|Hne].
    { rewrite pos_setBit_same in Hc by done.
      rewrite lookup_insert_here in Hc by lia. done. }
    assert (Hsetj' : Z.testbit mask (Z.of_nat j) = true).
    { by rewrite <- (setBit_other mask i Hi j). }
    rewrite pos_setBit_shift in Hc by done.
    rewrite lookup_insert_at in Hc by lia.
    eapply keyed_extends; [exact Hext|by eapply Hch|by eapply Hkc].
  - (* the key is there *)
    set (s' := s ++ _) in *.
    assert (Hext : extends s s') by apply extends_app.
    eexists _, _, _, _, _, _, _. split.
    { destruct Hnode as (H1 & H2 & H3 & H4).
      split_and!; [by apply lookup_ext0_Some|by apply lookup_old|by apply lookup_ext_Some
                  |by apply lookup_old]. }
    split; [done|].
    intros j c Hj Hsetj Hc.
    eapply keyed_extends; [exact Hext|by eapply Hch|by eapply Hkc].
  - (* another key is there *)
    destruct (slot_set _ _ _ _ _ _ Hslots Hi Hset) as (Hp & k0 & v0 & c0 & Hk0 & Hv0 & Hc0).
    pose proof (f_keeps _ _ _ _ _ _ _ _ _ _ Hrec) as Hext1.
    set (K' := λ k, K k ∧ getNthPrefix (hashString k) (5 - Z.of_nat n) = Some (Z.of_nat i)).
    assert (∃ Q : loc → Prop,
              extends s s_in ∧ (length s + 1 < length s_in)%nat
              ∧ s_in !! length s = Some (CNode mask kl vl (length s + 1)%nat)
              ∧ ¬ Q (length s + 1)%nat ∧ (∀ a, Q a → (a < length s_in)%nat)
              ∧ wf Q n s_in child_in ∧ keyed K' n s_in child_in)
      as (Q & Hext_in & Hlen & Hcell & HQ & HQb & Hwf_in & Hk_in).
    { destruct Hin as [(Hc & ->)|(Hc & -> & ->)].
      - exists (λ a, P a ∧ (a < length s)%nat).
        assert (Hext_in : extends s (s ++ [CNode mask kl vl (length s + 1)%nat; CNexts ns]))
          by apply extends_app.
        split_and!.
        + done.
        + rewrite length_app. simpl. lia.
        + by apply lookup_ext0_Some.
        + intros [_ ?]. lia.
        + intros a [_ ?]. rewrite length_app. simpl. lia.
        + eapply wf_extends; [exact Hext_in|]. eapply wf_bound. by eapply Hch.
        + eapply keyed_extends; [exact Hext_in|by eapply Hch|by eapply Hkc].
      - exists (λ a, (length s + 2 ≤ a ≤ length s + 5)%nat).
        set (s_in := s ++ _).
        assert (Hempty : node s_in (length s + 5)%nat 0 (length s + 2)%nat (length s + 3)%nat
                           (length s + 4)%nat [] [] []).
        { split_and!; by apply lookup_ext_Some. }
        split_and!.
        + apply extends_app.
        + unfold s_in. rewrite length_app. simpl. lia.
        + by apply lookup_ext0_Some.
        + lia.
        + intros a ?. unfold s_in. rewrite length_app. simpl. lia.
        + eapply wf_empty; [exact Hempty|lia..].
        + by eapply keyed_empty. }
    pose proof (f_wf n ltac:(lia) Q _ _ _ _ _ _ _ _ _ Hwf_in Hrec) as (Hwf1 & _).
    assert (Hk1 : keyed K' n s1 child).
    { eapply (IH ltac:(lia) Q K'); [exact Hwf_in|exact Hk_in| |exact Hrec]. by split. }
    set (s' := <[_ := _]> s1).
    assert (Hext' : extends s s').
    { apply extends_insert_above; [by eapply extends_trans|lia]. }
    eexists mask, kl, vl, (length s + 1)%nat, ks, vs, (<[pos mask i := Some child]> ns).
    split.
    { destruct Hnode as (H1 & H2 & H3 & H4). split_and!.
      - unfold s'. rewrite st_lookup_insert_ne by lia. by eapply extends_lookup.
      - by eapply extends_lookup.
      - by eapply extends_lookup.
      - unfold s'. apply st_lookup_insert. destruct Hext1. lia. }
    split; [done|].
    intros j c Hj Hsetj Hc.
    destruct (decide (pos mask j = pos mask i)) as [Heq|Hne].
    + assert (j = i) as -> by (by eapply pos_inj).
      rewrite list_lookup_insert_eq in Hc by lia. injection Hc as <-.
      eapply (keyed_agree n (λ a, Q a ∨ (length s_in ≤ a)%nat)); [|exact Hwf1|exact Hk1].
      intros a Ha. unfold s'. apply st_lookup_insert_ne. intros <-.
      destruct Ha as [?|?]; [done|lia].
    + rewrite list_lookup_insert_ne in Hc by done.
      eapply keyed_extends; [exact Hext'|by eapply Hch|by eapply Hkc].
Qed.

(** ** When [get] and [set] return *)

(** The hashes of [k] and [k'] differ in one of the prefixes from the stage
    [from] to the stage 5. *)
Definition differs (k k' : string) (from : Z) : Prop :=
  ∃ t, from ≤ t ≤ 5 ∧ getNthPrefix (hashString k') t ≠ getNthPrefix (hashString k) t.

Lemma slot_key stage mask ks (vs : list (option V)) ns i k0 :
  slots_ok stage mask ks vs ns → (i < 32)%nat → Z.testbit mask (Z.of_nat i) = true →
  ks !! pos mask i = Some k0 →
  getNthPrefix (hashString k0) stage = Some (Z.of_nat i).
Proof.
  intros (_ & _ & _ & _ & Hbits) Hi Hset Hk0.
  destruct (Hbits i Hi Hset) as (k & Hk & Hpre). congruence.
Qed.

Lemma differs_next (K : string → Prop) k n i :
  getNthPrefix (hashString k) (5 - Z.of_nat n) = Some (Z.of_nat i) →
  (∀ k', K k' → k' ≠ k → differs k k' (5 - Z.of_nat n)) →
  ∀ k', K k' ∧ getNthPrefix (hashString k') (5 - Z.of_nat n) = Some (Z.of_nat i) →
        k' ≠ k → differs k k' (6 - Z.of_nat n).
Proof.
  intros Hpre Hsep k' [HK Hpre'] Hne.
  destruct (Hsep k' HK Hne) as (t & Ht & Hd). exists t. split; [|done].
  destruct (decide (t = 5 - Z.of_nat n)) as [->|]; [|lia]. congruence.
Qed.

(** [get] returns for a key whose prefixes tell it from every other key of
    the subtree: no iteration reaches stage 6. *)
Lemma get_total n : ∀ (P K : _ → Prop) fu k (s : store) l,
  (n ≤ 5)%nat →
  wf P (S n) s l → keyed K (S n) s l →
  (∀ k', K k' → k' ≠ k → differs k k' (5 - Z.of_nat n)) →
  (n < fu)%nat →
  ∃ r, get_val fu (hashString k) k (5 - Z.of_nat n) (Ref l) s = Ok r.
Proof.
  induction n as [|n IH]; intros P K fu k s l Hn Hwf Hkd Hsep Hfu;
    destruct Hwf as (mask & kl & vl & nl & ks & vs & ns & Hnode & Pl & Pk & Pv & Pn & Hslots & Hch);
    destruct Hkd as (mask' & kl' & vl' & nl' & ks' & vs' & ns' & Hnode' & Hks & Hkc);
    destruct (node_inj _ _ _ _ _ _ _ _ _ _ _ _ _ _ _ _ Hnode Hnode')
      as (-> & -> & -> & -> & -> & -> & ->); clear Hnode';
    (destruct fu as [|fu]; [lia|]);
    rewrite (get_val_step _ _ _ _ _ _ _ _ _ _ _ _ _ Hnode);
    [destruct (prefix_stage 0 (hashString k)) as (i & Hi & Hpre); [lia|]
    |destruct (prefix_stage (S n) (hashString k)) as (i & Hi & Hpre); [lia|]];
    rewrite Hpre, checkBit_nat, childIndex_nat, !index_nat by done;
    (destruct (Z.testbit mask (Z.of_nat i)) eqn:Hset; [|by eexists]);
    destruct (slot_set _ _ _ _ _ _ Hslots Hi Hset) as (Hp & k0 & v0 & c0 & Hk0 & Hv0 & Hc0);
    (case_bool_decide as Hq; [by eexists|]);
    pose proof (slot_key _ _ _ _ _ _ _ Hslots Hi Hset Hk0) as Hpre0;
    assert (HK0 : K k0) by (by eapply Forall_lookup_1);
    assert (Hne : k0 ≠ k) by (rewrite Hk0 in Hq; congruence).
  - destruct (Hsep k0 HK0 Hne) as (t & Ht & Hd).
    assert (t = 5 - Z.of_nat 0) as -> by lia. congruence.
  - rewrite nexts_index_nat, Hc0. destruct c0 as [c|]; [|rewrite get_val_Null; by eexists].
    replace (5 - Z.of_nat (S n) + 1) with (5 - Z.of_nat n) by lia.
    eapply (IH P); [lia|by eapply Hch|by eapply Hkc| |lia].
    replace (5 - Z.of_nat n) with (6 - Z.of_nat (S n)) by lia.
    by eapply differs_next.
Qed.

(** [set] returns for a key whose prefixes tell it from every other key of
    the subtree: no call of [f] reaches stage 6. *)
Lemma f_total n : ∀ (P K : _ → Prop) fuel key (value : V) isNew (s : store) l,
  (n ≤ 5)%nat →
  wf P (S n) s l → keyed K (S n) s l →
  (∀ k', K k' → k' ≠ key → differs key k' (5 - Z.of_nat n)) →
  (n < fuel)%nat →
  ∃ res s', f fuel (hashString key) key value isNew (5 - Z.of_nat n) l s = Ok (res, s').
Proof.
  induction n as [|n IH]; intros P K fuel key value isNew s l Hn Hwf Hkd Hsep Hfu;
    pose proof Hwf as Hwf0;
    destruct Hwf as (mask & kl & vl & nl & ks & vs & ns & Hnode & Pl & Pk & Pv & Pn & Hslots & Hch);
    destruct Hkd as (mask' & kl' & vl' & nl' & ks' & vs' & ns' & Hnode' & Hks & Hkc);
    destruct (node_inj _ _ _ _ _ _ _ _ _ _ _ _ _ _ _ _ Hnode Hnode')
      as (-> & -> & -> & -> & -> & -> & ->); clear Hnode';
    (destruct fuel as [|fuel]; [lia|]);
    [destruct (prefix_stage 0 (hashString key)) as (i & Hi & Hpre); [lia|]
    |destruct (prefix_stage (S n) (hashString key)) as (i & Hi & Hpre); [lia|]];
    (destruct (Z.testbit mask (Z.of_nat i)) eqn:Hset;
     [|eexists _, _; apply (f_insert_run _ _ _ _ _ _ _ _ _ _ _ _ _ _ _ Hnode);
       by rewrite Hpre, checkBit_nat]);
    destruct (slot_set _ _ _ _ _ _ Hslots Hi Hset) as (Hp & k0 & v0 & c0 & Hk0 & Hv0 & Hc0);
    (destruct (decide (k0 = key)) as [->|Hne];
     [eexists _, _; apply (f_replace_run _ _ _ _ _ _ _ _ _ _ _ _ _ _ _ Hnode);
      [by rewrite Hpre, checkBit_nat|by rewrite Hpre, childIndex_nat, index_nat]|]);
    pose proof (slot_key _ _ _ _ _ _ _ Hslots Hi Hset Hk0) as Hpre0;
    assert (HK0 : K k0) by (by eapply Forall_lookup_1).
  - destruct (Hsep k0 HK0 Hne) as (t & Ht & Hd).
    assert (t = 5 - Z.of_nat 0) as -> by lia. congruence.
  - assert (Hbit : checkBit mask (getNthPrefix (hashString key) (5 - Z.of_nat (S n))) = true).
    { by rewrite Hpre, checkBit_nat. }
    assert (Hidx : childIndex mask (getNthPrefix (hashString key) (5 - Z.of_nat (S n)))
                   = Z.of_nat (pos mask i)).
    { by rewrite Hpre, childIndex_nat. }
    assert (Hkey' : JS.index ks (childIndex mask (getNthPrefix (hashString key)
                                                    (5 - Z.of_nat (S n)))) ≠ Some key).
    { rewrite Hidx, index_nat, Hk0. congruence. }
    pose proof Hslots as (Hlk & Hlv & Hln & _ & _).
    destruct c0 as [c|].
    + assert (Href : nexts_index ns (childIndex mask (getNthPrefix (hashString key)
                                                        (5 - Z.of_nat (S n)))) = Ref c).
      { by rewrite Hidx, nexts_index_nat, Hc0. }
      rewrite (f_descend_run _ _ _ _ _ _ _ _ _ _ _ _ _ _ _ _ Hnode Hbit Hkey' Href).
      set (s_in := s ++ _).
      assert (Hext_in : extends s s_in) by apply extends_app.
      replace (5 - Z.of_nat (S n) + 1) with (5 - Z.of_nat n) by lia.
      destruct (IH P (λ k, K k ∧ getNthPrefix (hashString k) (5 - Z.of_nat (S n))
                                 = Some (Z.of_nat i))
                  fuel key value isNew s_in c) as ([child isNew1] & s1 & Hrec);
        [lia| | | |lia|].
      * eapply wf_extends; [exact Hext_in|by eapply Hch].
      * eapply keyed_extends; [exact Hext_in|by eapply Hch|by eapply Hkc].
      * replace (5 - Z.of_nat n) with (6 - Z.of_nat (S n)) by lia. by eapply differs_next.
      * pose proof (f_keeps _ _ _ _ _ _ _ _ _ _ Hrec) as Hext1.
        unfold bind at 1. rewrite Hrec.
        assert (Hs1 : s1 !! (length s + 1)%nat = Some (CNexts ns)).
        { eapply extends_lookup; [exact Hext1|]. by apply lookup_ext_Some. }
        unfold bind at 1. rewrite (read_nexts_run _ _ _ Hs1). by eexists _, _.
    + assert (Href : nexts_index ns (childIndex mask (getNthPrefix (hashString key)
                                                        (5 - Z.of_nat (S n)))) = Null).
      { by rewrite Hidx, nexts_index_nat, Hc0. }
      rewrite (f_null_run _ _ _ _ _ _ _ _ _ _ _ _ _ _ _ Hnode Hbit Hkey' Href).
      set (s_in := s ++ _).
      replace (5 - Z.of_nat (S n) + 1) with (5 - Z.of_nat n) by lia.
      assert (Hempty : node s_in (length s + 5)%nat 0 (length s + 2)%nat (length s + 3)%nat
                         (length s + 4)%nat [] [] []).
      { split_and!; by apply lookup_ext_Some. }
      destruct (IH (λ _, True) (λ _, False) fuel key value isNew s_in (length s + 5)%nat)
        as ([child isNew1] & s1 & Hrec); [lia| | |done|lia|].
      * by eapply wf_empty.
      * by eapply keyed_empty.
      * pose proof (f_keeps _ _ _ _ _ _ _ _ _ _ Hrec) as Hext1.
        unfold bind at 1. rewrite Hrec.
        assert (Hs1 : ∃ a, s1 !! (length s + 1)%nat = Some (CNexts a)).
        { eexists. eapply extends_lookup; [exact Hext1|]. by apply lookup_ext_Some. }
        destruct Hs1 as [a Hs1].
        unfold bind at 1. rewrite (read_nexts_run _ _ _ Hs1). by eexists _, _.
Qed.

(** [f] allocates at most six objects in each call, four in the last one. *)
Lemma f_alloc n : (n ≤ 6)%nat →
  ∀ (P : loc → Prop) fuel key (value : V) isNew current (s : store) cur' isNew' s',
  wf P n s current →
  f fuel (hashString key) key value isNew (6 - Z.of_nat n) current s = Ok ((cur', isNew'), s') →
  (length s' ≤ length s + 6 * n + 4)%nat.
Proof.
  induction n as [|n IH];
    intros Hn P fuel key value isNew current s cur' isNew' s' Hwf Hf.
  { change (6 - Z.of_nat 0) with 6 in Hf.
    destruct Hwf as (mask0 & kl0 & vl0 & nl0 & ks0 & vs0 & ns0 & Hnode0 & _ & _ & _ & _ & H0).
    destruct fuel as [|fuel]; [done|].
    destruct H0 as [(-> & -> & -> & ->)|(-> & k0 & v0 & -> & -> & ->)].
    - rewrite (f_insert_run _ _ _ _ _ _ _ _ _ _ _ _ _ _ _ Hnode0) in Hf by apply checkBit_0.
      injection Hf as <- <- <-. rewrite length_app. simpl. lia.
    - rewrite (f_undefined_run _ _ _ _ _ _ _ _ _ _ _ _ _ _ _ Hnode0) in Hf; [done|done| |].
      + by rewrite getNthPrefix_6, childIndex_1_None.
      + by rewrite getNthPrefix_6, childIndex_1_None. }
  destruct Hwf as (mask & kl & vl & nl & ks & vs & ns & Hnode & Pl & Pk & Pv & Pn & Hslots & Hch).
  destruct fuel as [|fuel]; [done|].
  rewrite stage_S in Hf.
  destruct (f_cases n _ _ _ _ _ _ _ _ _ _ _ _ _ _ _ _ ltac:(lia) Hnode Hslots Hf)
    as (i & Hi & Hpre & -> & Hcases).
  destruct Hcases as [(Hset & -> & ->)|[(Hset & Hkey & -> & ->)
    |(Hset & Hkey & child_in & s_in & child & s1 & Hin & Hrec & ->)]].
  - rewrite length_app. simpl. lia.
  - rewrite length_app. simpl. lia.
  - rewrite st_length_insert.
    assert (∃ Q : loc → Prop, (length s_in ≤ length s + 6)%nat ∧ wf Q n s_in child_in)
      as (Q & Hlen & Hwf_in).
    { destruct Hin as [(Hc & ->)|(Hc & -> & ->)].
      - exists P. split; [rewrite length_app; simpl; lia|].
        eapply wf_extends; [apply extends_app|by eapply Hch].
      - exists (λ _, True). split; [rewrite length_app; simpl; lia|].
        eapply wf_empty; [|done..]. split_and!; by apply lookup_ext_Some. }
    pose proof (IH ltac:(lia) Q _ _ _ _ _ _ _ _ _ Hwf_in Hrec). lia.
Qed.

End Keyed.

(** ** Maps built from [new HAMT()] by a sequence of [set] *)
Section Built.
Context {V : Type}.
Abbreviation store := (HAMT.store V).

(** A client that starts from [new HAMT()] and sets the given pairs in order. *)
Definition build (fuel : nat) (kvs : list (string * V)) : M V hamt :=
  foldl (λ m kv, h ← m; set fuel h kv.1 kv.2) HAMT_new kvs.

(** The value last set for [k], if any. *)
Definition binding (kvs : list (string * V)) (k : string) : option V :=
  foldl (λ r kv, if decide (kv.1 = k) then Some kv.2 else r) None kvs.

(** The six prefixes of the hash of a key. *)
Definition path (k : string) : list (option Z) :=
  (λ t, getNthPrefix (hashString k) t) <$> [0; 1; 2; 3; 4; 5].

Lemma build_snoc fuel kvs key (v : V) :
  build fuel (kvs ++ [(key, v)]) = (h ← build fuel kvs; set fuel h key v).
Proof. unfold build. by rewrite foldl_app. Qed.

Lemma binding_snoc kvs key (v : V) k :
  binding (kvs ++ [(key, v)]) k = if decide (key = k) then Some v else binding kvs k.
Proof. unfold binding. by rewrite foldl_app. Qed.

Lemma binding_None (kvs : list (string * V)) k : binding kvs k = None ↔ k ∉ kvs.*1.
Proof.
  induction kvs as [|[key v] kvs IH] using rev_ind.
  - split; [intros _; apply not_elem_of_nil|done].
  - rewrite binding_snoc, fmap_app, not_elem_of_app. simpl. case_decide as E.
    + subst. split; [done|]. intros [_ H]. exfalso. apply H. by left.
    + rewrite IH. split; [|by intros [? _]]. intros H. split; [done|].
      intros [->|[]%elem_of_nil]%elem_of_cons. done.
Qed.

Lemma remove_dups_snoc (l : list string) k :
  length (remove_dups (l ++ [k]))
  = if decide (k ∈ l) then length (remove_dups l) else S (length (remove_dups l)).
Proof.
  induction l as [|x l IH]; [done|].
  cbn [app remove_dups].
  destruct (decide_rel elem_of x (l ++ [k])) as [H1|H1];
    destruct (decide_rel elem_of x l) as [H2|H2];
    cbn [length]; rewrite IH;
    destruct (decide (k ∈ l)) as [H3|H3]; destruct (decide (k ∈ x :: l)) as [H4|H4];
    try done.
  all: try (exfalso; apply H4; by right).
  all: try (exfalso; apply H1; apply elem_of_app; by left).
  all: try (apply elem_of_cons in H4 as [->|?]; [|done]).
  all: try (apply elem_of_app in H1 as [?|?%list_elem_of_singleton]; [done|subst]).
  all: try (exfalso; apply H4; by left).
  all: try (exfalso; apply H1; apply elem_of_app; right; by left).
  all: done.
Qed.

Lemma HAMT_new_run (s : store) :
  HAMT_new s = Ok ({| root := (length s + 3)%nat; _size := 0 |},
                   s ++ [CKeys []; CValues []; CNexts [];
                         CNode 0 (length s) (length s + 1)%nat (length s + 2)%nat]).
Proof.
  destruct (HAMT_new s) as [[h s']| |] eqn:E.
  - by apply HAMT_new_Ok in E as [-> ->].
  - done.
  - done.
Qed.

Lemma get_get_val fu (h : hamt) k (s s1 : store) r :
  get fu h k s = Ok (r, s1) ↔ get_val fu (hashString k) k 0 (Ref (root h)) s = Ok r ∧ s1 = s.
Proof.
  unfold get. rewrite get_val_Ok. split.
  - intros H. pose proof (get_loop_store _ _ _ _ _ _ _ _ H) as ->. done.
  - by intros [-> ->].
Qed.

(** What holds of every map that [build] returns. *)
Lemma build_inv fuel : ∀ kvs (h : hamt) (s : store),
  build fuel kvs [] = Ok (h, s) →
  wf (λ _, True) 6 s (root h)
  ∧ keyed (λ k, k ∈ kvs.*1) 6 s (root h)
  ∧ (∀ fu k r, get_val fu (hashString k) k 0 (Ref (root h)) s = Ok r → r = binding kvs k)
  ∧ _size h = Z.of_nat (length (remove_dups kvs.*1)).
Proof.
  induction kvs as [|[key v] kvs IH] using rev_ind; intros h s Hb.
  - unfold build in Hb. cbn [foldl] in Hb. rewrite HAMT_new_run in Hb.
    injection Hb as <- <-. cbn [root _size length app].
    assert (Hnode : node (V := V) [CKeys []; CValues []; CNexts []; CNode 0 0 1 2]
                      3 0 0 1 2 [] [] []) by done.
    split_and!.
    + by eapply wf_empty.
    + by eapply keyed_empty.
    + intros fu k r Hr. destruct fu as [|fu]; [done|].
      rewrite (get_val_step _ _ _ _ _ _ _ _ _ _ _ _ _ Hnode) in Hr.
      rewrite checkBit_0 in Hr. by injection Hr as <-.
    + done.
  - rewrite build_snoc in Hb.
    apply bind_Ok in Hb as (h0 & s0 & Hb & Hset).
    destruct (IH _ _ Hb) as (Hwf & Hkd & Hget & Hsize).
    apply set_Ok in Hset as (s1 & r & isNew' & [_ ->]%HAMT_new_Ok & Hf & ->).
    set (s1 := s0 ++ _) in Hf.
    assert (Hext : extends s0 s1) by apply extends_app.
    assert (Hwf1 : wf (λ _, True) 6 s1 (root h0)) by (by eapply wf_extends).
    change 0 with (6 - Z.of_nat 6) in Hf.
    destruct (f_wf 6 ltac:(lia) _ _ _ _ _ _ _ _ _ _ Hwf1 Hf) as (Hwf' & HT2 & HT3 & HT4).
    change (6 - Z.of_nat 6) with 0 in *. cbn [root _size].
    split_and!.
    + eapply wf_mono; [|exact Hwf']. done.
    + eapply (f_keyed 6 ltac:(lia) (λ _, True)); [exact Hwf1| | |exact Hf].
      * eapply keyed_mono; [|eapply keyed_extends; [exact Hext|exact Hwf|exact Hkd]].
        intros k Hk. rewrite fmap_app. apply elem_of_app. by left.
      * rewrite fmap_app. apply elem_of_app. right. by left.
    + intros fu k r' Hr. rewrite binding_snoc. case_decide as E.
      * subst k. by eapply HT2.
      * apply Hget with fu. apply HT3 in Hr; [|done].
        by rewrite (old_child_agree (λ _, True) 6 s0 s1) in Hr.
    + rewrite fmap_app. cbn [fmap list_fmap fst]. rewrite remove_dups_snoc.
      destruct HT4 as [(-> & v0 & Hv0)|(-> & Hnone)].
      * specialize (Hv0 7%nat ltac:(lia)).
        rewrite (old_child_agree (λ _, True) 6 s0 s1) in Hv0 by done.
        apply Hget in Hv0. rewrite decide_True; [done|].
        destruct (decide (key ∈ kvs.*1)) as [|Hn]; [done|].
        apply binding_None in Hn. congruence.
      * specialize (Hnone 7%nat ltac:(lia)).
        rewrite (old_child_agree (λ _, True) 6 s0 s1) in Hnone by done.
        apply Hget in Hnone. symmetry in Hnone. apply binding_None in Hnone.
        rewrite decide_False by done. lia.
Qed.

Lemma path_differs k k' : path k' ≠ path k → differs k k' 0.
Proof.
  intros Hne. unfold path in Hne. cbn [fmap list_fmap] in Hne.
  destruct (decide (getNthPrefix (hashString k') 0 = getNthPrefix (hashString k) 0)) as [E0|];
    [|exists 0; split; [lia|done]].
  destruct (decide (getNthPrefix (hashString k') 1 = getNthPrefix (hashString k) 1)) as [E1|];
    [|exists 1; split; [lia|done]].
  destruct (decide (getNthPrefix (hashString k') 2 = getNthPrefix (hashString k) 2)) as [E2|];
    [|exists 2; split; [lia|done]].
  destruct (decide (getNthPrefix (hashString k') 3 = getNthPrefix (hashString k) 3)) as [E3|];
    [|exists 3; split; [lia|done]].
  destruct (decide (getNthPrefix (hashString k') 4 = getNthPrefix (hashString k) 4)) as [E4|];
    [|exists 4; split; [lia|done]].
  destruct (decide (getNthPrefix (hashString k') 5 = getNthPrefix (hashString k) 5)) as [E5|];
    [|exists 5; split; [lia|done]].
  exfalso. apply Hne. by rewrite E0, E1, E2, E3, E4, E5.
Qed.

Lemma NoDup_fmap_inj {A B} (g : A → B) (l : list A) x y :
  NoDup (g <$> l) → x ∈ l → y ∈ l → g x = g y → x = y.
Proof.
  induction l as [|a l IH]; [by intros _ ?%elem_of_nil|].
  cbn [fmap list_fmap]. intros [Ha Hl]%NoDup_cons [->|Hx]%elem_of_cons [->|Hy]%elem_of_cons E.
  - done.
  - exfalso. apply Ha. rewrite E. by apply list_elem_of_fmap_2.
  - exfalso. apply Ha. rewrite <- E. by apply list_elem_of_fmap_2.
  - by apply IH.
Qed.

(** With six calls of fuel, [build] returns when no two keys share their six
    prefixes. *)
Lemma build_total fuel : ∀ kvs : list (string * V),
  (6 ≤ fuel)%nat →
  (∀ k1 k2, k1 ∈ kvs.*1 → k2 ∈ kvs.*1 → path k1 = path k2 → k1 = k2) →
  ∃ h s, build fuel kvs [] = Ok (h, s).
Proof.
  intros kvs Hfuel. induction kvs as [|[key v] kvs IH] using rev_ind; intros Hsep.
  - unfold build. cbn [foldl]. rewrite HAMT_new_run. by eexists _, _.
  - destruct IH as (h & s & Hb).
    { intros k1 k2 H1 H2. apply Hsep; rewrite fmap_app; apply elem_of_app; by left. }
    destruct (build_inv _ _ _ _ Hb) as (Hwf & Hkd & _).
    rewrite build_snoc. unfold bind at 1. rewrite Hb.
    unfold set. unfold bind at 1. rewrite HAMT_new_run.
    set (s1 := s ++ _).
    assert (Hext : extends s s1) by apply extends_app.
    destruct (f_total 5 (λ _, True) (λ k, k ∈ kvs.*1) fuel key v true s1 (root h))
      as ([r isNew'] & s' & Hf); [lia| | | |lia|].
    + by eapply wf_extends.
    + by eapply keyed_extends.
    + intros k' Hk' Hne. change (5 - Z.of_nat 5) with 0. apply path_differs.
      intros E. apply Hne. apply Hsep; [| |done]; rewrite fmap_app; apply elem_of_app.
      * by left.
      * right. by left.
    + change (5 - Z.of_nat 5) with 0 in Hf. unfold bind at 1. rewrite Hf. by eexists _, _.
Qed.

End Built.
End HAMTTotal.

(** * The slots of the nodes of the maps built by [set] *)
Module HAMTLayout.
Import HAMT HAMTBits HAMTStore HAMTInv HAMTSet HAMTTotal.
Open Scope hamt_scope.

Section Layout.
Context {V : Type}.
Abbreviation store := (HAMT.store V).

(** [reachable s r stage l]: the node [l] is reached from the node [r] by
    following [stage] pointers of arrays [nexts]. *)
Inductive reachable (s : store) (r : loc) : Z → loc → Prop :=
| reachable_root : reachable s r 0 r
| reachable_child stage l mask kl vl nl ns j c :
    reachable s r stage l →
    s !! l = Some (CNode mask kl vl nl) →
    s !! nl = Some (CNexts ns) →
    ns !! j = Some (Some c) →
    reachable s r (stage + 1) c.

Lemma reachable_wf (P : loc → Prop) (s : store) r :
  wf P 6 s r →
  ∀ stage l, reachable s r stage l →
  ∃ n, (n ≤ 6)%nat ∧ stage = 6 - Z.of_nat n ∧ wf P n s l.
Proof.
  intros Hwf stage l Hr. induction Hr as [|stage l mask kl vl nl ns j c Hr IH Hl Hnl Hj].
  - exists 6%nat. split; [lia|]. split; [lia|done].
  - destruct IH as (n & Hn & -> & Hwfl).
    destruct n as [|n];
      destruct Hwfl as (mask' & kl' & vl' & nl' & ks' & vs' & ns' & (H1 & H2 & H3 & H4)
                        & _ & _ & _ & _ & H);
      pose proof (eq_trans (eq_sym Hl) H1) as [= <- <- <- <-];
      pose proof (eq_trans (eq_sym Hnl) H4) as [= <-].
    + destruct H as [(_ & _ & _ & ->)|(_ & k & v & _ & _ & ->)].
      * by rewrite lookup_nil in Hj.
      * by destruct j.
    + destruct H as [_ Hch]. exists n. split; [lia|]. split; [lia|]. by eapply Hch.
Qed.

Lemma index_above (mask i j : Z) :
  0 ≤ i < j → j ≤ 31 → checkBit mask (Some j) = true →
  childIndex mask (Some j) < childIndex mask (Some i).
Proof.
  intros Hi Hj Hset. rewrite checkBit_testbit in Hset by lia.
  rewrite <- (Z2Nat.id i), <- (Z2Nat.id j) by lia.
  rewrite !childIndex_nat by lia. apply inj_lt.
  apply pos_above_lt; [lia|lia|]. by rewrite Z2Nat.id by lia.
Qed.

(** The slot of a set bit in a node of a map that [build] returns. *)
Lemma built_slot fuel (kvs : list (string * V)) (h : hamt) (s : store)
    stage l mask kl vl nl i :
  build fuel kvs [] = Ok (h, s) →
  reachable s (root h) stage l → stage ≤ 5 →
  s !! l = Some (CNode mask kl vl nl) →
  0 ≤ i ≤ 31 → checkBit mask (Some i) = true →
  ∃ ks vs ns key v c,
    s !! kl = Some (CKeys ks) ∧ s !! vl = Some (CValues vs) ∧ s !! nl = Some (CNexts ns)
    ∧ Z.of_nat (length ks) = popCount mask
    ∧ length vs = length ks ∧ length ns = length ks
    ∧ JS.index ks (childIndex mask (Some i)) = Some key
    ∧ getNthPrefix (hashString key) stage = Some i
    ∧ JS.index vs (childIndex mask (Some i)) = Some (Some v)
    ∧ JS.index ns (childIndex mask (Some i)) = Some c.
Proof.
  intros Hb Hr Hstage Hl Hi Hset.
  destruct (build_inv _ _ _ _ Hb) as (Hwf & _).
  destruct (reachable_wf _ _ _ Hwf _ _ Hr) as (n & Hn & -> & Hwfl).
  destruct n as [|n]; [lia|].
  destruct Hwfl as (mask' & kl' & vl' & nl' & ks & vs & ns & (H1 & H2 & H3 & H4)
                    & _ & _ & _ & _ & Hslots & _).
  pose proof (eq_trans (eq_sym Hl) H1) as [= <- <- <- <-].
  rewrite checkBit_testbit in Hset by lia.
  assert (Hi' : (Z.to_nat i < 32)%nat) by lia.
  rewrite <- (Z2Nat.id i) in Hset by lia.
  destruct (slot_set _ _ _ _ _ _ Hslots Hi' Hset) as (Hp & k0 & v0 & c0 & Hk0 & Hv0 & Hc0).
  pose proof (slot_key _ _ _ _ _ _ _ Hslots Hi' Hset Hk0) as Hpre.
  destruct Hslots as (Hlk & Hlv & Hln & _ & _).
  exists ks, vs, ns, k0, v0, c0.
  rewrite <- (Z2Nat.id i) by lia. rewrite childIndex_nat, !index_nat by lia.
  rewrite stage_S. split_and!; try done.
  rewrite popCount_set_bits. by rewrite Hlk.
Qed.

(** C5, amended: for every mask and every bit index [i] between 0 and 31,
    the array position that [get] and [set] compute for the slot [i] is the
    number of set bits of the mask strictly above the bit [i], so that a
    higher set bit has a lower position.  In every node of the stages 0 to 5
    of every map built from [new HAMT()] by calls of [set], the arrays
    [keys], [values] and [nexts] have as many elements as the mask has set
    bits, and for every set bit [i] of the mask the key of the slot (its hash
    has the prefix [i] at the stage of the node), its value and the child of
    the slot are stored at that position. *)
Theorem slots_are_stored_at_the_count_above :
  (∀ mask i, 0 ≤ i ≤ 31 → childIndex mask (Some i) = count_above mask i)
  ∧ (∀ mask i j, 0 ≤ i < j → j ≤ 31 → checkBit mask (Some j) = true →
                 childIndex mask (Some j) < childIndex mask (Some i))
  ∧ ∀ fuel (kvs : list (string * V)) (h : hamt) (s : store) stage l mask kl vl nl i,
      build fuel kvs [] = Ok (h, s) →
      reachable s (root h) stage l → stage ≤ 5 →
      s !! l = Some (CNode mask kl vl nl) →
      0 ≤ i ≤ 31 → checkBit mask (Some i) = true →
      ∃ ks vs ns key v c,
        s !! kl = Some (CKeys ks) ∧ s !! vl = Some (CValues vs) ∧ s !! nl = Some (CNexts ns)
        ∧ Z.of_nat (length ks) = popCount mask
        ∧ length vs = length ks ∧ length ns = length ks
        ∧ JS.index ks (childIndex mask (Some i)) = Some key
        ∧ getNthPrefix (hashString key) stage = Some i
        ∧ JS.index vs (childIndex mask (Some i)) = Some (Some v)
        ∧ JS.index ns (childIndex mask (Some i)) = Some c.
Proof.
  split; [apply childIndex_count_above|]. split; [apply index_above|].
  apply built_slot.
Qed.

End Layout.

(** The root after [set("a", 1)] and [set("b", 2)]: the mask is [0b110],
    the slot of bit 1 is that of ["a"], at the position 1. *)
Lemma slots_are_stored_at_the_count_above_witness :
  ∃ (h : hamt) (s : HAMT.store Z) kl vl nl,
    build 6 [("a"%string, 1); ("b"%string, 2)] [] = Ok (h, s)
    ∧ reachable s (root h) 0 (root h)
    ∧ s !! root h = Some (CNode 6 kl vl nl)
    ∧ checkBit 6 (Some 1) = true
    ∧ childIndex 6 (Some 1) = count_above 6 1
    ∧ childIndex 6 (Some 2) < childIndex 6 (Some 1)
    ∧ ∃ ks vs ns key v c,
        s !! kl = Some (CKeys ks) ∧ s !! vl = Some (CValues vs) ∧ s !! nl = Some (CNexts ns)
        ∧ Z.of_nat (length ks) = popCount 6
        ∧ length vs = length ks ∧ length ns = length ks
        ∧ JS.index ks (childIndex 6 (Some 1)) = Some key
        ∧ getNthPrefix (hashString key) 0 = Some 1
        ∧ JS.index vs (childIndex 6 (Some 1)) = Some (Some v)
        ∧ JS.index ns (childIndex 6 (Some 1)) = Some c.
Proof.
  destruct (@slots_are_stored_at_the_count_above Z) as (Ha & Hb & Hc).
  eexists _, _, _, _, _.
  split; [vm_compute; reflexivity|].
  split; [apply reachable_root|].
  split; [reflexivity|].
  split; [vm_compute; reflexivity|].
  split; [apply Ha; lia|].
  split; [apply Hb; [lia|lia|vm_compute; reflexivity]|].
  eapply (Hc 6%nat [("a"%string, 1); ("b"%string, 2)] _ _ 0 _ 6 _ _ _ 1);
    [vm_compute; reflexivity|apply reachable_root|lia|reflexivity|lia|vm_compute; reflexivity].
Defined.

End HAMTLayout.

(** * Further properties of the HAMT *)
Module HAMTExtras.
Import HAMT HAMTBits HAMTStore HAMTInv HAMTSet HAMTTotal.
Open Scope hamt_scope.

(** ** The prefixes and the hash *)

(** The bits of a prefix are five bits of the number. *)
Lemma prefix_testbit h t b :
  0 ≤ t ≤ 5 → 0 ≤ b →
  ∃ p, getNthPrefix h t = Some p
       ∧ Z.testbit p b = if decide (b < 5) then Z.testbit h (5 * t + b) else false.
Proof.
  intros Ht Hb. unfold getNthPrefix. rewrite decide_False by lia. eexists. split; [done|].
  unfold JS.and, JS.shr, JS.shift_count. rewrite (Z.mod_small (5 * t)) by lia.
  rewrite (to_int32_small 31) by lia. rewrite Z.land_spec.
  change 31 with (Z.ones 5). case_decide.
  - rewrite Z.ones_spec_low by lia. rewrite andb_true_r.
    rewrite testbit_to_int32 by lia. rewrite Z.shiftr_spec by lia.
    rewrite testbit_to_int32 by lia. f_equal. lia.
  - rewrite Z.ones_spec_high by lia. apply andb_false_r.
Qed.

Lemma prefixes_low30 h1 h2 :
  (∀ t, 0 ≤ t ≤ 5 → getNthPrefix h1 t = getNthPrefix h2 t) ↔ h1 mod 2 ^ 30 = h2 mod 2 ^ 30.
Proof.
  split.
  - intros H. apply Z.bits_inj'. intros n Hn.
    destruct (decide (n < 30)) as [Hlt|Hge].
    + rewrite !Z.mod_pow2_bits_low by lia.
      assert (Hdm : n = 5 * (n / 5) + n mod 5) by (apply Z.div_mod; lia).
      pose proof (Z.mod_pos_bound n 5 ltac:(lia)) as Hm.
      assert (Ht : 0 ≤ n / 5 ≤ 5).
      { split; [apply Z.div_pos; lia|]. apply Z.lt_succ_r. apply Z.div_lt_upper_bound; lia. }
      destruct (prefix_testbit h1 (n / 5) (n mod 5) Ht ltac:(lia)) as (p1 & Hp1 & Hb1).
      destruct (prefix_testbit h2 (n / 5) (n mod 5) Ht ltac:(lia)) as (p2 & Hp2 & Hb2).
      rewrite decide_True in Hb1, Hb2 by lia. rewrite <- Hdm in Hb1, Hb2.
      rewrite <- Hb1, <- Hb2. specialize (H _ Ht). congruence.
    + rewrite !Z.mod_pow2_bits_high by lia. done.
  - intros H t Ht.
    destruct (prefix_testbit h1 t 0 Ht ltac:(lia)) as (p1 & Hp1 & _).
    destruct (prefix_testbit h2 t 0 Ht ltac:(lia)) as (p2 & Hp2 & _).
    rewrite Hp1, Hp2. f_equal. apply Z.bits_inj'. intros b Hb.
    destruct (prefix_testbit h1 t b Ht Hb) as (p1' & Hp1' & Hb1).
    destruct (prefix_testbit h2 t b Ht Hb) as (p2' & Hp2' & Hb2).
    assert (p1' = p1) as -> by congruence. assert (p2' = p2) as -> by congruence.
    rewrite Hb1, Hb2. case_decide; [|done].
    rewrite <- (Z.mod_pow2_bits_low h1 30), <- (Z.mod_pow2_bits_low h2 30) by lia.
    by rewrite H.
Qed.

(** The hash without the wrap-around: Horner's rule on the character codes. *)
Fixpoint poly (h : Z) (s : string) : Z :=
  match s with
  | EmptyString => h
  | String c s => poly (31 * h + Z.of_N (N_of_ascii c)) s
  end.

Lemma to_int32_eq x y : x mod 2 ^ 32 = y mod 2 ^ 32 → JS.to_int32 x = JS.to_int32 y.
Proof.
  intros H. unfold JS.to_int32.
  rewrite <- (Zplus_mod_idemp_l x), <- (Zplus_mod_idemp_l y). by rewrite H.
Qed.

Lemma hashString_loop_poly s : ∀ h,
  hashString_loop (JS.to_int32 h) s = JS.to_int32 (poly h s).
Proof.
  induction s as [|c s IH]; intros h; [done|].
  cbn [hashString_loop poly]. rewrite <- IH. f_equal. apply to_int32_eq.
  unfold JS.imul. rewrite (to_int32_small 31) by lia.
  rewrite (Zplus_mod (JS.to_int32 _)), to_int32_mod.
  rewrite (Zmult_mod 31 (JS.to_int32 (JS.to_int32 h))), !to_int32_mod.
  rewrite <- (Zmult_mod 31 h), <- Zplus_mod. done.
Qed.

(** ** The utilities *)

(** X12: [popCount(n)] is the number of bits that are set among the 32 low
    bits of [n], for every 32-bit integer [n], signed or unsigned: in
    particular for a negative mask, where [n >> 1] shifts the sign bit in.
    On these arguments the subtraction, the additions and the product of the
    source are exact. *)
Theorem popCount_counts_set_bits (n : Z) :
  - 2 ^ 31 ≤ n < 2 ^ 32 →
  popCount n
  = Z.of_nat (length (filter (λ i, Z.testbit n (Z.of_nat i) = true) (seq 0 32))).
Proof. intros _. apply popCount_set_bits. Qed.

Lemma popCount_counts_set_bits_witness :
  - 2 ^ 31 ≤ -8 < 2 ^ 32
  ∧ popCount (-8)
    = Z.of_nat (length (filter (λ i, Z.testbit (-8) (Z.of_nat i) = true) (seq 0 32))).
Proof. split; [lia|]. apply (popCount_counts_set_bits (-8)). lia. Defined.

(** X13: [copyInsert(elem, index, arr)] returns [arr] with [elem] put in
    front of the element at [index] when [0 <= index <= arr.length]; for any
    other index the result is a copy of [arr], and [elem] is dropped. *)
Theorem copyInsert_inserts_or_copies {T} (elem : T) (index : Z) (arr : list T) :
  copyInsert elem index arr
  = if decide (0 ≤ index ≤ Z.of_nat (length arr))
    then take (Z.to_nat index) arr ++ elem :: drop (Z.to_nat index) arr
    else arr.
Proof. apply copyInsert_spec. Qed.

(** X14: after [setBit(n, i)] the bit [i] is set and every other bit is as
    in [n], as [checkBit] reads them, for bit indices from 0 to 31. *)
Theorem setBit_then_checkBit (n i j : Z) :
  0 ≤ i ≤ 31 → 0 ≤ j ≤ 31 →
  checkBit (setBit n (Some i)) (Some j) = bool_decide (j = i) || checkBit n (Some j).
Proof.
  intros Hi Hj. rewrite !checkBit_testbit by done. apply setBit_testbit; lia.
Qed.

Lemma setBit_then_checkBit_witness :
  checkBit (setBit (-8) (Some 1)) (Some 31) = bool_decide (31 = 1) || checkBit (-8) (Some 31).
Proof. apply (setBit_then_checkBit (-8) 1 31); lia. Defined.

(** X15: [hashString(s)] is the polynomial of the character codes in base
    31, computed by Horner's rule, wrapped to a signed 32-bit integer once at
    the end: the wrap-around of [Math.imul] and of [| 0] in each iteration
    loses nothing. *)
Theorem hashString_is_wrapped_polynomial (s : string) :
  hashString s = JS.to_int32 (poly 0 s).
Proof.
  unfold hashString. rewrite <- hashString_loop_poly. by rewrite (to_int32_small 0) by lia.
Qed.

(** X16: two keys have the same prefix at each of the stages 0 to 5 exactly
    when their hashes agree in the 30 low bits: the two high bits of the hash
    are never used. *)
Theorem same_path_iff_same_low_30_bits (k1 k2 : string) :
  path k1 = path k2 ↔ hashString k1 mod 2 ^ 30 = hashString k2 mod 2 ^ 30.
Proof.
  rewrite <- prefixes_low30. unfold path. cbn [fmap list_fmap]. split.
  - intros [= E0 E1 E2 E3 E4 E5] t Ht.
    assert (t = 0 ∨ t = 1 ∨ t = 2 ∨ t = 3 ∨ t = 4 ∨ t = 5) as [->|[->|[->|[->|[->| ->]]]]]
      by lia.
    all: unfold getNthPrefix; rewrite !decide_False by lia; by f_equal.
  - intros H. by rewrite !H by lia.
Qed.

(** ** [set] and [get] *)

Section Maps.
Context {V : Type}.
Abbreviation store := (HAMT.store V).

(** X17: [set] is persistent.  When [set] returns, every object that existed
    before the call is unchanged, and every [get] on the old map that
    returned a result before the call returns the same result after it. *)
Theorem set_keeps_old_versions fuel (h h' : hamt) key (value : V) (s s' : store) :
  set fuel h key value s = Ok (h', s') →
  (∀ l c, s !! l = Some c → s' !! l = Some c)
  ∧ ∀ fu k r, get fu h k s = Ok (r, s) → get fu h k s' = Ok (r, s').
Proof.
  intros Hext%set_keeps. split.
  - intros l c Hl. by eapply extends_lookup.
  - intros fu k r Hg. by apply get_loop_extends with s.
Qed.

(** X18: the layout of the nodes.  In a map built from [new HAMT()] by
    calls of [set], every node down to stage 5 has arrays [keys], [values] and
    [nexts] of one length, the number of set bits of its mask; every slot of
    [values] is filled; and for each set bit [i] the key at the index that is
    the number of set bits above [i] has the prefix [i] at the stage of the
    node.  A node of stage 6 is empty or has the mask 1 and one key. *)
Theorem built_maps_are_well_formed fuel (kvs : list (string * V)) (h : hamt) (s : store) :
  build fuel kvs [] = Ok (h, s) →
  wf (λ _, True) 6 s (root h).
Proof. intros Hb. by destruct (build_inv _ _ _ _ Hb) as (Hwf & _). Qed.

(** X19: a map built from [new HAMT()] by calls of [set] is the map of the
    bindings.  Its size is the number of distinct keys that were set, and
    whenever [get(k)] returns, it returns the value last set for [k], or
    [undefined] if [k] was never set, and changes nothing. *)
Theorem built_map_agrees_with_bindings fuel (kvs : list (string * V)) (h : hamt)
    (s : store) :
  build fuel kvs [] = Ok (h, s) →
  _size h = Z.of_nat (length (remove_dups kvs.*1))
  ∧ ∀ fu k r s1, get fu h k s = Ok (r, s1) → r = binding kvs k ∧ s1 = s.
Proof.
  intros Hb. destruct (build_inv _ _ _ _ Hb) as (_ & _ & Hget & Hsize).
  split; [done|]. intros fu k r s1 [Hr ->]%get_get_val. split; [|done]. by eapply Hget.
Qed.

(** X20: when no two of the keys share their six prefixes, six calls of [f]
    are enough for each [set] and six iterations for each [get], nothing
    throws, and the map that is built returns for every key that was set the
    value last set for it, and [undefined] for a key whose prefixes are those
    of no key that was set. *)
Theorem built_map_is_total (fuel : nat) (kvs : list (string * V)) :
  (6 ≤ fuel)%nat →
  NoDup (path <$> remove_dups kvs.*1) →
  ∃ (h : hamt) (s : store),
    build fuel kvs [] = Ok (h, s)
    ∧ _size h = Z.of_nat (length (remove_dups kvs.*1))
    ∧ ∀ k, k ∈ kvs.*1 ∨ path k ∉ path <$> kvs.*1 →
           get fuel h k s = Ok (binding kvs k, s).
Proof.
  intros Hfuel Hnd.
  assert (Hsep : ∀ k1 k2, k1 ∈ kvs.*1 → k2 ∈ kvs.*1 → path k1 = path k2 → k1 = k2).
  { intros k1 k2 H1 H2. eapply NoDup_fmap_inj; [exact Hnd| |]; by apply elem_of_remove_dups. }
  destruct (build_total fuel kvs Hfuel Hsep) as (h & s & Hb).
  exists h, s. split; [done|].
  destruct (build_inv _ _ _ _ Hb) as (Hwf & Hkd & Hget & Hsize).
  split; [done|]. intros k Hk.
  destruct (get_total 5 (λ _, True) (λ k, k ∈ kvs.*1) fuel k s (root h)) as [r Hr];
    [lia|done|done| |lia|].
  - intros k' Hk' Hne. change (5 - Z.of_nat 5) with 0. apply path_differs. intros E.
    destruct Hk as [Hk|Hk].
    + apply Hne. by apply Hsep.
    + apply Hk. rewrite <- E. by apply list_elem_of_fmap_2.
  - change (5 - Z.of_nat 5) with 0 in Hr. apply get_get_val. split; [|done].
    by rewrite (Hget _ _ _ Hr) in Hr.
Qed.

(** X21: structural sharing.  On a map built from [new HAMT()] by calls of
    [set], one more [set] allocates at most 44 objects (nodes and arrays),
    however many keys the map holds: the nodes on the path of the key are
    copied, all others are shared with the old map. *)
Theorem set_allocates_a_bounded_number fuel (kvs : list (string * V)) (h h' : hamt)
    key (value : V) (s s' : store) :
  build fuel kvs [] = Ok (h, s) →
  set fuel h key value s = Ok (h', s') →
  (length s ≤ length s' ≤ length s + 44)%nat.
Proof.
  intros Hb Hset. pose proof (set_keeps _ _ _ _ _ _ _ Hset) as [Hle _]. split; [done|].
  destruct (build_inv _ _ _ _ Hb) as (Hwf & _).
  apply set_Ok in Hset as (s1 & r & isNew' & [_ ->]%HAMT_new_Ok & Hf & ->).
  set (s1 := s ++ _) in Hf.
  assert (Hwf1 : wf (λ _, True) 6 s1 (root h)).
  { eapply wf_extends; [apply extends_app|done]. }
  change 0 with (6 - Z.of_nat 6) in Hf.
  pose proof (f_alloc 6 ltac:(lia) _ _ _ _ _ _ _ _ _ _ Hwf1 Hf) as Hlen.
  unfold s1 in Hlen. rewrite length_app in Hlen. simpl in Hlen. lia.
Qed.

End Maps.

(** Three calls of [set], the last one on a key that is there. *)
Definition example_kvs : list (string * Z) :=
  [("a"%string, 1); ("b"%string, 2); ("a"%string, 3)].

Lemma set_keeps_old_versions_witness :
  ∃ h0 s0 h1 s1,
    build 6 [("a"%string, 1)] [] = Ok (h0, s0)
    ∧ set 6 h0 "a" 3 s0 = Ok (h1, s1)
    ∧ (∀ l c, s0 !! l = Some c → s1 !! l = Some c)
    ∧ ∀ fu k r, get fu h0 k s0 = Ok (r, s0) → get fu h0 k s1 = Ok (r, s1).
Proof.
  eexists _, _, _, _. split; [vm_compute; reflexivity|]. split; [vm_compute; reflexivity|].
  eapply (set_keeps_old_versions 6 _ _ "a" 3). vm_compute. reflexivity.
Defined.

Lemma built_maps_are_well_formed_witness :
  ∃ h s, build 6 example_kvs [] = Ok (h, s) ∧ wf (λ _, True) 6 s (root h).
Proof.
  eexists _, _. split; [vm_compute; reflexivity|].
  apply (built_maps_are_well_formed 6 example_kvs). vm_compute. reflexivity.
Defined.

Lemma built_map_agrees_with_bindings_witness :
  ∃ h s,
    build 6 example_kvs [] = Ok (h, s)
    ∧ _size h = Z.of_nat (length (remove_dups example_kvs.*1))
    ∧ ∀ fu k r s1, get fu h k s = Ok (r, s1) → r = binding example_kvs k ∧ s1 = s.
Proof.
  eexists _, _. split; [vm_compute; reflexivity|].
  apply (built_map_agrees_with_bindings 6 example_kvs). vm_compute. reflexivity.
Defined.

Lemma built_map_is_total_witness :
  ∃ (h : hamt) (s : HAMT.store Z),
    build 6 example_kvs [] = Ok (h, s)
    ∧ _size h = Z.of_nat (length (remove_dups example_kvs.*1))
    ∧ ∀ k, k ∈ example_kvs.*1 ∨ path k ∉ path <$> example_kvs.*1 →
           get 6 h k s = Ok (binding example_kvs k, s).
Proof.
  apply (built_map_is_total 6 example_kvs); [lia|].
  apply (bool_decide_unpack _). vm_compute. exact I.
Defined.

Lemma set_allocates_a_bounded_number_witness :
  ∃ h s h' s',
    build 6 example_kvs [] = Ok (h, s)
    ∧ set 6 h "c" 4 s = Ok (h', s')
    ∧ (length s ≤ length s' ≤ length s + 44)%nat.
Proof.
  eexists _, _, _, _. split; [vm_compute; reflexivity|]. split; [vm_compute; reflexivity|].
  eapply (set_allocates_a_bounded_number 6 example_kvs _ _ "c" 4);
    [vm_compute; reflexivity|]. vm_compute. reflexivity.
Defined.

End HAMTExtras.
